(** * MoonCell-ModelHub: admission-control simulator

    A shallow embedding of the simulation core under
    [experiments/ab_simulator]: the token-bucket node, the AIMD
    controllers, the adaptive bucket allocator, the full-pipeline policy,
    the pool policies, the workload generator and the tick loops of
    [run_simulation] and of the sweep's [run_sim].

    Conventions.
    - Python [int] is [Z]; list positions and node ids are [nat].
    - Python [float] is modelled by rationals ([Q]).  A float operation
      is the corresponding rational operation, normalised with [Qred] so
      that long runs evaluate.  A few places round as binary64 does
      ([round64]: to nearest, ties to even), because there the rounding
      decides an integer or a comparison: [int(self.cwnd * 0.7)] in
      [AimdController.update], [int(0.7 * old + 0.3 * new)] in both
      [_smooth_boundary], and [sec + random.random()] and
      [ttft_delay + 0.02] in [generate_requests].  Elsewhere rounding
      error is outside the model (the clock of a tick loop, for one, is
      the exact sum of its steps), and so are infinities and NaN.
    - [max(a, b)] and [min(a, b)] keep their first argument unless the
      second one is strictly larger (smaller), as the built-ins do.
    - [int(x)] truncates towards zero; [math.ceil] is [Qceiling].
    - [random.sample] is an oracle: the run takes a function from the
      number of draws made so far to the list of sampled node positions.
      The draws of [generate_requests] and [sample_params] are inputs as
      well.
    - Objects mutated in place are threaded explicitly; a method returns
      the new object next to its result. *)

From Stdlib Require Import ZArith QArith Qround Qpower Lia Lqa Sorted.
From stdpp Require Import base list gmap strings.

Local Open Scope Z_scope.

(** ** Numbers *)

Definition float := Q.
Bind Scope Q_scope with float.

Definition fadd (x y : float) : float := Qred (x + y).
Definition fsub (x y : float) : float := Qred (x - y).
Definition fmul (x y : float) : float := Qred (x * y).
Definition fdiv (x y : float) : float := Qred (x / y).

Definition fle (x y : float) : bool := Qle_bool x y.
Definition flt (x y : float) : bool := negb (Qle_bool y x).

Definition py_max (a b : float) : float := if flt a b then b else a.
Definition py_min (a b : float) : float := if flt b a then b else a.

(** [int(x)]: truncation towards zero. *)
Definition py_int (x : float) : Z := Z.quot (Qnum x) (Zpos (Qden x)).

(** [float(n)] and the implicit int-to-float promotion. *)
Definition of_int (n : Z) : float := inject_Z n.

(** *** Binary64 rounding

    [round64 x] is the binary64 number nearest to [x], ties to even: [x]
    is scaled by a power of two to a significand in [2^52, 2^53), that is
    rounded to an integer and scaled back.  The exponent range is not
    bounded: there is no overflow and no subnormal number. *)
Definition pow2 (e : Z) : Q := Qpower 2 e.

(** The exponent of positive [x]: [2^e <= x < 2^(e+1)]. *)
Definition ilog2 (x : Q) : Z :=
  let e := Z.log2 (Qnum x) - Z.log2 (Zpos (Qden x)) in
  if Qle_bool (pow2 e) x then e else e - 1.

(** Rounding to the nearest integer, a tie to the even one. *)
Definition rne (q : Q) : Z :=
  let f := Qfloor q in
  match Qcompare (q - inject_Z f) (1 # 2) with
  | Lt => f
  | Gt => f + 1
  | Eq => if Z.even f then f else f + 1
  end.

Definition round64_pos (x : Q) : Q :=
  let u := pow2 (ilog2 x - 52) in
  Qred (inject_Z (rne (x / u)) * u).

Definition round64 (x : Q) : float :=
  match Qnum x with
  | Z0 => 0%Q
  | Zpos _ => round64_pos x
  | Zneg _ => Qred (- round64_pos (- x))
  end.

(** [x * y] and [x + y] as binary64 computes them.  An operand that is an
    [int] or a literal is converted to binary64 first; an operand that is
    a binary64 number already is not changed by that ([round64_idem]
    below). *)
Definition mul64 (x y : float) : float := round64 (round64 x * round64 y).
Definition add64 (x y : float) : float := round64 (round64 x + round64 y).

Declare Scope float_scope.
Delimit Scope float_scope with F.
Infix "+." := fadd (at level 50, left associativity) : float_scope.
Infix "-." := fsub (at level 50, left associativity) : float_scope.
Infix "*." := fmul (at level 40, left associativity) : float_scope.
Infix "/." := fdiv (at level 40, left associativity) : float_scope.
Infix "<?." := flt (at level 70, no associativity) : float_scope.
Infix "<=?." := fle (at level 70, no associativity) : float_scope.
Local Open Scope float_scope.

(** ** [ab_test_simulator.py] *)

Module AbTestSimulator.

Module Request.
Record t := {
  req_id : Z;                (* field [id] *)
  arrival_ts : float;
  input_tokens : Z;
  output_tokens : Z;
  stream_chunks : Z;
  ttft_delay_sec : float;
  service_time_sec : float;
}.
Definition total_tokens (r : t) : Z := input_tokens r + output_tokens r.
End Request.

Module Inflight.
Record t := {
  req : Request.t;
  start_ts : float;
  finish_ts : float;
  node_id : nat;
}.
End Inflight.

Module NodeState.

Record t := {
  node_id : nat;
  rpm_limit : Z;
  tpm_limit : Z;
  max_physical_concurrency : Z;
  burst_rps_limit : float;
  inflight : Z;
  rpm_tokens : float;
  tpm_tokens : float;
  last_refill_ts : float;
  starts_window : list float;   (* deque *)
}.

(** The dataclass constructor with the defaulted fields, followed by
    [__post_init__]. *)
Definition init (node_id0 : nat) (rpm tpm max_conc : Z) (burst : float) : t :=
  {| node_id := node_id0; rpm_limit := rpm; tpm_limit := tpm;
     max_physical_concurrency := max_conc; burst_rps_limit := burst;
     inflight := 0; rpm_tokens := of_int rpm; tpm_tokens := of_int tpm;
     last_refill_ts := 0; starts_window := [] |}.

(** [while self.starts_window and self.starts_window[0] < bound: popleft()] *)
Fixpoint evict (bound : float) (w : list float) : list float :=
  match w with
  | x :: rest => if x <?. bound then evict bound rest else w
  | [] => []
  end.

Definition refill (n : t) (now : float) : t :=
  let dt := py_max 0 (now -. last_refill_ts n) in
  if dt <=?. 0 then n
  else
    {| node_id := node_id n; rpm_limit := rpm_limit n; tpm_limit := tpm_limit n;
       max_physical_concurrency := max_physical_concurrency n;
       burst_rps_limit := burst_rps_limit n;
       inflight := inflight n;
       rpm_tokens :=
         py_min (of_int (rpm_limit n))
                (rpm_tokens n +. dt *. (of_int (rpm_limit n) /. 60));
       tpm_tokens :=
         py_min (of_int (tpm_limit n))
                (tpm_tokens n +. dt *. (of_int (tpm_limit n) /. 60));
       last_refill_ts := now;
       starts_window := evict (now -. 1) (starts_window n) |}.

Definition can_start (n : t) (now : float) (token_cost allowed_concurrency : Z)
  : t * (bool * string) :=
  let n := refill n now in
  if Z.min (max_physical_concurrency n) allowed_concurrency <=? inflight n then
    (n, (false, "CONCURRENCY"))
  else if burst_rps_limit n <=?. of_int (Z.of_nat (length (starts_window n))) then
    (n, (false, "BURST"))
  else if rpm_tokens n <?. 1 then
    (n, (false, "RATE_RPM"))
  else if tpm_tokens n <?. of_int token_cost then
    (n, (false, "RATE_TPM"))
  else (n, (true, "")).

Definition start (n : t) (now : float) (token_cost : Z) : t :=
  {| node_id := node_id n; rpm_limit := rpm_limit n; tpm_limit := tpm_limit n;
     max_physical_concurrency := max_physical_concurrency n;
     burst_rps_limit := burst_rps_limit n;
     inflight := inflight n + 1;
     rpm_tokens := rpm_tokens n -. 1;
     tpm_tokens := tpm_tokens n -. of_int token_cost;
     last_refill_ts := last_refill_ts n;
     starts_window := starts_window n ++ [now] |}.

Definition finish (n : t) : t :=
  if 0 <? inflight n then
    {| node_id := node_id n; rpm_limit := rpm_limit n; tpm_limit := tpm_limit n;
       max_physical_concurrency := max_physical_concurrency n;
       burst_rps_limit := burst_rps_limit n;
       inflight := inflight n - 1;
       rpm_tokens := rpm_tokens n; tpm_tokens := tpm_tokens n;
       last_refill_ts := last_refill_ts n;
       starts_window := starts_window n |}
  else n.

End NodeState.

(** The [window_metrics] dictionary handed to a controller. *)
Module WindowMetrics.
Record t := {
  rate_limit : float;
  burst : float;
  p95_latency_ms : float;
  p95_ttft_ms : float;
  gc_freq : float;
}.
End WindowMetrics.

(** What [run_simulation] asks of its [controller] argument. *)
Class Controller (C : Type) := {
  current_limit : C -> Z;
  update : C -> Z -> WindowMetrics.t -> C;
}.

Module FixedController.
Record t := { limit : Z }.
Definition init (fixed_limit : Z) : t := {| limit := fixed_limit |}.
Definition current_limit (c : t) : Z := limit c.
Definition update (c : t) (_second : Z) (_window_metrics : WindowMetrics.t) : t := c.
End FixedController.

Module AimdController.
Import WindowMetrics.

Record t := {
  min_c : Z;
  max_c : Z;
  cwnd : float;      (* an int until the first multiplicative growth *)
  ssthresh : Z;
  cooldown : Z;
}.

Definition init (min_c0 max_c0 init_c : Z) : t :=
  {| min_c := min_c0; max_c := max_c0; cwnd := of_int init_c;
     ssthresh := 32; cooldown := 0 |}.

Definition current_limit (c : t) : Z :=
  Z.max (min_c c) (Z.min (max_c c) (py_int (cwnd c))).

Definition congested (m : WindowMetrics.t) : bool :=
  ((6 # 100) <?. rate_limit m)
  || ((3 # 100) <?. burst m)
  || (2200 <?. p95_latency_ms m)
  || (4 <?. gc_freq m).

Definition update (c : t) (_second : Z) (m : WindowMetrics.t) : t :=
  if 0 <? cooldown c then
    {| min_c := min_c c; max_c := max_c c; cwnd := cwnd c;
       ssthresh := ssthresh c; cooldown := cooldown c - 1 |}
  else if congested m then
    let ssthresh' := Z.max (min_c c) (py_int (mul64 (cwnd c) (7 # 10))) in
    {| min_c := min_c c; max_c := max_c c;
       cwnd := of_int (Z.max (min_c c) ssthresh');
       ssthresh := ssthresh'; cooldown := 2 |}
  else if cwnd c <?. of_int (ssthresh c) then
    {| min_c := min_c c; max_c := max_c c;
       cwnd := py_min (of_int (max_c c)) (cwnd c *. (3 # 2));
       ssthresh := ssthresh c; cooldown := cooldown c |}
  else
    {| min_c := min_c c; max_c := max_c c;
       cwnd := py_min (of_int (max_c c)) (cwnd c +. 1);
       ssthresh := ssthresh c; cooldown := cooldown c |}.

End AimdController.

#[export] Instance FixedController_Controller : Controller FixedController.t :=
  {| current_limit := FixedController.current_limit;
     update := FixedController.update |}.

#[export] Instance AimdController_Controller : Controller AimdController.t :=
  {| current_limit := AimdController.current_limit;
     update := AimdController.update |}.

(** [sorted(values)] on floats. *)
Fixpoint insert_sorted (x : float) (l : list float) : list float :=
  match l with
  | [] => [x]
  | y :: rest => if x <=?. y then x :: l else y :: insert_sorted x rest
  end.

Definition sorted (l : list float) : list float := foldr insert_sorted [] l.

Definition percentile (values : list float) (p : Z) : float :=
  match values with
  | [] => 0
  | _ =>
      let arr := sorted values in
      let len := Z.of_nat (length arr) in
      let k := Z.min (len - 1)
                     (Z.max 0 (Qceiling ((of_int p /. 100) *. of_int len) - 1)) in
      nth (Z.to_nat k) arr 0%Q
  end.

Definition make_node (i : Z) : NodeState.t :=
  let rpm := 1150 + i * 80 in
  let tpm := 520000 + i * 45000 in
  NodeState.init (Z.to_nat i) rpm tpm (14 + i)
    (py_max 6 ((of_int rpm /. 60) *. (8 # 10))).

Definition make_nodes : list NodeState.t := map make_node (seqZ 0 6).

Module PerSec.
Record t := {
  second : Z;
  accepted : Z;
  rejected : Z;
  burst_reject : Z;
  rate_reject : Z;
  p95_latency_ms : float;
  p95_ttft_ms : float;
  controller_limit : Z;
  sim_gc_freq : Z;
}.
End PerSec.

(** ** [run_simulation]

    The local variables of [run_simulation] form the record [Run.state];
    one iteration of [while now <= end_time] is [Run.tick], written as
    the composition of its phases in source order.  The one statement of
    the loop that can raise is [nodes[c.node_id].finish()]: [Run.tick] is
    the iteration that does not raise, [Run.tick_raises] tells whether
    the iteration raises, and [Run.run_loop] asks it before every
    iteration.  [gc.collect] and the interpreter's GC statistics are not
    modelled. *)

Module Run.

Section WithController.
Context {C : Type} `{Controller C}.

Record state := {
  nodes : list NodeState.t;
  queue : list Request.t;          (* deque *)
  inflight : list Inflight.t;
  idx : nat;
  now : float;
  accepted : Z;
  rejected : Z;
  rejected_reason : gmap string Z; (* defaultdict(int) *)
  accepted_tokens : Z;
  latencies_ms : list float;
  ttft_ms : list float;
  queue_wait_ms : list float;
  peak_concurrency : Z;
  allocation_units : Z;
  per_sec : list PerSec.t;
  sec_cursor : Z;
  sec_accepted : Z;
  sec_rejected : Z;
  sec_burst : Z;
  sec_ratelimit : Z;
  sec_lat : list float;
  sec_ttft : list float;
  simulated_gc_counter : Z;
  young_heap : Z;
  controller : C;
  draws : nat;                     (* calls made to [random.sample] *)
}.

Definition dt : float := 1 # 50.

(** [d[k] += 1] on a [defaultdict(int)]. *)
Definition bump (k : string) (d : gmap string Z) : gmap string Z :=
  <[k := default 0 (d !! k) + 1]> d.

Definition get (k : string) (d : gmap string Z) : Z := default 0 (d !! k).

(** [sum(n.inflight for n in nodes)] *)
Definition total_inflight (ns : list NodeState.t) : Z :=
  foldr (fun n acc => NodeState.inflight n + acc) 0 ns.

Variable reqs : list Request.t.
Variable sampler : nat -> list nat.

(** Phase 1: [while idx < len(reqs) and reqs[idx].arrival_ts <= now];
    [pending] is [reqs[idx:]]. *)
Fixpoint arrive_loop (pending : list Request.t) (st : state) : state :=
  match pending with
  | [] => st
  | r :: rest =>
      if Request.arrival_ts r <=?. now st then
        arrive_loop rest
          {| nodes := nodes st; queue := queue st ++ [r];
             inflight := inflight st; idx := S (idx st); now := now st;
             accepted := accepted st; rejected := rejected st;
             rejected_reason := rejected_reason st;
             accepted_tokens := accepted_tokens st;
             latencies_ms := latencies_ms st; ttft_ms := ttft_ms st;
             queue_wait_ms := queue_wait_ms st;
             peak_concurrency := peak_concurrency st;
             allocation_units := allocation_units st; per_sec := per_sec st;
             sec_cursor := sec_cursor st; sec_accepted := sec_accepted st;
             sec_rejected := sec_rejected st; sec_burst := sec_burst st;
             sec_ratelimit := sec_ratelimit st; sec_lat := sec_lat st;
             sec_ttft := sec_ttft st;
             simulated_gc_counter := simulated_gc_counter st;
             young_heap := young_heap st; controller := controller st;
             draws := draws st |}
      else st
  end.

Definition arrive (st : state) : state := arrive_loop (drop (idx st) reqs) st.

(** Phase 2: completions.  [nodes[c.node_id]] raises [IndexError] when
    [c.node_id] is no position of [nodes]; [complete_raises] tells, for
    the state phase 2 starts in, whether that happens for one of the
    completed flights.  [complete_one] is the body of the loop for a
    flight that passes. *)
Definition complete_raises (st : state) : bool :=
  existsb (fun c => negb (Inflight.node_id c <? length (nodes st))%nat)
    (List.filter (fun x => Inflight.finish_ts x <=?. now st) (inflight st)).

Definition complete_one (st : state) (c : Inflight.t) : state :=
  let r := Inflight.req c in
  let lat := (Inflight.finish_ts c -. Request.arrival_ts r) *. 1000 in
  let wait := (Inflight.start_ts c -. Request.arrival_ts r) *. 1000 in
  let ttft := (Inflight.start_ts c -. Request.arrival_ts r
               +. Request.ttft_delay_sec r) *. 1000 in
  {| nodes := alter NodeState.finish (Inflight.node_id c) (nodes st);
     queue := queue st; inflight := inflight st; idx := idx st; now := now st;
     accepted := accepted st; rejected := rejected st;
     rejected_reason := rejected_reason st;
     accepted_tokens := accepted_tokens st;
     latencies_ms := latencies_ms st ++ [lat]; ttft_ms := ttft_ms st ++ [ttft];
     queue_wait_ms := queue_wait_ms st ++ [wait];
     peak_concurrency := peak_concurrency st;
     allocation_units := allocation_units st; per_sec := per_sec st;
     sec_cursor := sec_cursor st; sec_accepted := sec_accepted st;
     sec_rejected := sec_rejected st; sec_burst := sec_burst st;
     sec_ratelimit := sec_ratelimit st; sec_lat := sec_lat st ++ [lat];
     sec_ttft := sec_ttft st ++ [ttft];
     simulated_gc_counter := simulated_gc_counter st;
     young_heap := young_heap st; controller := controller st;
     draws := draws st |}.

Definition complete (st : state) : state :=
  let completed :=
    List.filter (fun x => Inflight.finish_ts x <=?. now st) (inflight st) in
  match completed with
  | [] => st
  | _ =>
      let done_ids := map (fun c => Request.req_id (Inflight.req c)) completed in
      let st' := foldl complete_one st completed in
      let still :=
        List.filter
          (fun x => negb (bool_decide (Request.req_id (Inflight.req x) ∈ done_ids)))
          (inflight st) in
      {| nodes := nodes st'; queue := queue st'; inflight := still;
         idx := idx st'; now := now st'; accepted := accepted st';
         rejected := rejected st'; rejected_reason := rejected_reason st';
         accepted_tokens := accepted_tokens st';
         latencies_ms := latencies_ms st'; ttft_ms := ttft_ms st';
         queue_wait_ms := queue_wait_ms st';
         peak_concurrency := peak_concurrency st';
         allocation_units := allocation_units st'; per_sec := per_sec st';
         sec_cursor := sec_cursor st'; sec_accepted := sec_accepted st';
         sec_rejected := sec_rejected st'; sec_burst := sec_burst st';
         sec_ratelimit := sec_ratelimit st'; sec_lat := sec_lat st';
         sec_ttft := sec_ttft st';
         simulated_gc_counter := simulated_gc_counter st';
         young_heap := young_heap st'; controller := controller st';
         draws := draws st' |}
  end.

(** Phase 3: [while queue and (now - queue[0].arrival_ts) > 1.2]. *)
Definition queue_timeout : float := 12 # 10.

Fixpoint timeout_loop (q : list Request.t) (st : state) : state :=
  match q with
  | [] => st
  | r :: q' =>
      if queue_timeout <?. (now st -. Request.arrival_ts r) then
        timeout_loop q'
          {| nodes := nodes st; queue := q'; inflight := inflight st;
             idx := idx st; now := now st; accepted := accepted st;
             rejected := rejected st + 1;
             rejected_reason := bump "QUEUE_TIMEOUT" (rejected_reason st);
             accepted_tokens := accepted_tokens st;
             latencies_ms := latencies_ms st; ttft_ms := ttft_ms st;
             queue_wait_ms := queue_wait_ms st;
             peak_concurrency := peak_concurrency st;
             allocation_units := allocation_units st; per_sec := per_sec st;
             sec_cursor := sec_cursor st; sec_accepted := sec_accepted st;
             sec_rejected := sec_rejected st + 1; sec_burst := sec_burst st;
             sec_ratelimit := sec_ratelimit st; sec_lat := sec_lat st;
             sec_ttft := sec_ttft st;
             simulated_gc_counter := simulated_gc_counter st;
             young_heap := young_heap st; controller := controller st;
             draws := draws st |}
      else st
  end.

Definition expire (st : state) : state := timeout_loop (queue st) st.

(** Phase 4: admission.  [random.sample(nodes, k=min(3, len(nodes)))] is
    the first [k] positions the oracle gives for this draw, and
    [sample.sort(key=lambda n: n.inflight)] a stable sort of them. *)
Definition inflight_at (ns : list NodeState.t) (i : nat) : Z :=
  from_option NodeState.inflight 0 (ns !! i).

Fixpoint insert_by_inflight (ns : list NodeState.t) (i : nat) (l : list nat)
  : list nat :=
  match l with
  | [] => [i]
  | j :: rest =>
      if inflight_at ns i <=? inflight_at ns j then i :: l
      else j :: insert_by_inflight ns i rest
  end.

Definition sort_by_inflight (ns : list NodeState.t) (sample : list nat) : list nat :=
  foldr (insert_by_inflight ns) [] sample.

(** [for node in sample]: the nodes after the attempts, the [node_id] of
    the node that started the request (if one did) and [fail_reason]. *)
Fixpoint try_nodes (now0 : float) (tokens cap : Z) (sample : list nat)
    (ns : list NodeState.t) (fail_reason : string)
  : list NodeState.t * option nat * string :=
  match sample with
  | [] => (ns, None, fail_reason)
  | i :: rest =>
      match ns !! i with
      | None => try_nodes now0 tokens cap rest ns fail_reason
      | Some n =>
          let '(n', (ok, reason)) := NodeState.can_start n now0 tokens cap in
          if ok then
            (<[i := NodeState.start n' now0 tokens]> ns,
             Some (NodeState.node_id n'), fail_reason)
          else try_nodes now0 tokens cap rest (<[i := n']> ns) reason
      end
  end.

(** The simulated-GC model run after an admission. *)
Definition gc_after (young : Z) : Z * Z :=
  if 3000000 <? young then (1, py_int (of_int young *. (35 # 100)))
  else (0, young).

Definition str_eqb (a b : string) : bool := bool_decide (a = b).

(** [while queue and total_inflight < cap]; [q] is the queue. *)
Fixpoint admit_loop (cap total : Z) (q : list Request.t) (st : state) : state :=
  match q with
  | [] => st
  | r :: q' =>
      if total <? cap then
        let tokens := Request.total_tokens r in
        let k := Nat.min 3 (length (nodes st)) in
        let sample := sort_by_inflight (nodes st) (take k (sampler (draws st))) in
        match try_nodes (now st) tokens cap sample (nodes st) "CONCURRENCY" with
        | (ns, Some nid, _) =>
            let young :=
              young_heap st + (Request.stream_chunks r * 1024
                               + Request.output_tokens r * 16) in
            let fl :=
              {| Inflight.req := r; Inflight.start_ts := now st;
                 Inflight.finish_ts := now st +. Request.service_time_sec r;
                 Inflight.node_id := nid |} in
            admit_loop cap (total + 1) q'
              {| nodes := ns; queue := q'; inflight := inflight st ++ [fl];
                 idx := idx st; now := now st; accepted := accepted st + 1;
                 rejected := rejected st;
                 rejected_reason := rejected_reason st;
                 accepted_tokens := accepted_tokens st + tokens;
                 latencies_ms := latencies_ms st; ttft_ms := ttft_ms st;
                 queue_wait_ms := queue_wait_ms st;
                 peak_concurrency := peak_concurrency st;
                 allocation_units := allocation_units st + (Request.stream_chunks r * 3 + 8);
                 per_sec := per_sec st; sec_cursor := sec_cursor st;
                 sec_accepted := sec_accepted st + 1;
                 sec_rejected := sec_rejected st; sec_burst := sec_burst st;
                 sec_ratelimit := sec_ratelimit st; sec_lat := sec_lat st;
                 sec_ttft := sec_ttft st;
                 simulated_gc_counter := simulated_gc_counter st + fst (gc_after young);
                 young_heap := snd (gc_after young);
                 controller := controller st; draws := S (draws st) |}
        | (ns, None, fail_reason) =>
            {| nodes := ns; queue := queue st; inflight := inflight st;
               idx := idx st; now := now st; accepted := accepted st;
               rejected := rejected st; rejected_reason := rejected_reason st;
               accepted_tokens := accepted_tokens st;
               latencies_ms := latencies_ms st; ttft_ms := ttft_ms st;
               queue_wait_ms := queue_wait_ms st;
               peak_concurrency := peak_concurrency st;
               allocation_units := allocation_units st; per_sec := per_sec st;
               sec_cursor := sec_cursor st; sec_accepted := sec_accepted st;
               sec_rejected := sec_rejected st;
               sec_burst := (if str_eqb fail_reason "BURST" then sec_burst st + 1 else sec_burst st);
               sec_ratelimit := (if str_eqb fail_reason "RATE_RPM" || str_eqb fail_reason "RATE_TPM"
                then sec_ratelimit st + 1 else sec_ratelimit st);
               sec_lat := sec_lat st; sec_ttft := sec_ttft st;
               simulated_gc_counter := simulated_gc_counter st;
               young_heap := young_heap st; controller := controller st;
               draws := S (draws st) |}
        end
      else st
  end.

Definition admission (st : state) : state :=
  admit_loop (current_limit (controller st)) (total_inflight (nodes st))
    (queue st) st.

(** [peak_concurrency = max(peak_concurrency, sum(...))] *)
Definition record_peak (st : state) : state :=
  {| nodes := nodes st; queue := queue st; inflight := inflight st;
     idx := idx st; now := now st; accepted := accepted st;
     rejected := rejected st; rejected_reason := rejected_reason st;
     accepted_tokens := accepted_tokens st; latencies_ms := latencies_ms st;
     ttft_ms := ttft_ms st; queue_wait_ms := queue_wait_ms st;
     peak_concurrency := Z.max (peak_concurrency st) (total_inflight (nodes st));
     allocation_units := allocation_units st; per_sec := per_sec st;
     sec_cursor := sec_cursor st; sec_accepted := sec_accepted st;
     sec_rejected := sec_rejected st; sec_burst := sec_burst st;
     sec_ratelimit := sec_ratelimit st; sec_lat := sec_lat st;
     sec_ttft := sec_ttft st; simulated_gc_counter := simulated_gc_counter st;
     young_heap := young_heap st; controller := controller st;
     draws := draws st |}.

(** Phase 5: [while now >= sec_cursor + 1.0], one window per iteration. *)
Definition window_metrics (st : state) : WindowMetrics.t :=
  let total := Z.max 1 (sec_accepted st + sec_rejected st) in
  {| WindowMetrics.rate_limit := of_int (sec_ratelimit st) /. of_int total;
     WindowMetrics.burst := of_int (sec_burst st) /. of_int total;
     WindowMetrics.p95_latency_ms := percentile (sec_lat st) 95;
     WindowMetrics.p95_ttft_ms := percentile (sec_ttft st) 95;
     WindowMetrics.gc_freq := of_int (simulated_gc_counter st) |}.

Definition roll (st : state) : state :=
  let m := window_metrics st in
  let controller' := update (controller st) (sec_cursor st) m in
  let rec :=
    {| PerSec.second := sec_cursor st;
       PerSec.accepted := sec_accepted st;
       PerSec.rejected := sec_rejected st;
       PerSec.burst_reject := sec_burst st;
       PerSec.rate_reject := sec_ratelimit st;
       PerSec.p95_latency_ms := WindowMetrics.p95_latency_ms m;
       PerSec.p95_ttft_ms := WindowMetrics.p95_ttft_ms m;
       PerSec.controller_limit := current_limit controller';
       PerSec.sim_gc_freq := simulated_gc_counter st |} in
  {| nodes := nodes st; queue := queue st; inflight := inflight st;
     idx := idx st; now := now st; accepted := accepted st;
     rejected := rejected st; rejected_reason := rejected_reason st;
     accepted_tokens := accepted_tokens st; latencies_ms := latencies_ms st;
     ttft_ms := ttft_ms st; queue_wait_ms := queue_wait_ms st;
     peak_concurrency := peak_concurrency st;
     allocation_units := allocation_units st; per_sec := per_sec st ++ [rec];
     sec_cursor := sec_cursor st + 1; sec_accepted := 0; sec_rejected := 0;
     sec_burst := 0; sec_ratelimit := 0; sec_lat := []; sec_ttft := [];
     simulated_gc_counter := 0; young_heap := young_heap st;
     controller := controller'; draws := draws st |}.

Fixpoint rollover_loop (fuel : nat) (st : state) : state :=
  match fuel with
  | O => st
  | S fuel' =>
      if of_int (sec_cursor st) +. 1 <=?. now st then rollover_loop fuel' (roll st)
      else st
  end.

(** The loop body runs [floor(now) - sec_cursor] times when that is
    positive (see [rollover_exits]). *)
Definition rollover (st : state) : state :=
  rollover_loop (Z.to_nat (Qfloor (now st) - sec_cursor st)) st.

(** [now += dt] *)
Definition advance (st : state) : state :=
  {| nodes := nodes st; queue := queue st; inflight := inflight st;
     idx := idx st; now := now st +. dt; accepted := accepted st;
     rejected := rejected st; rejected_reason := rejected_reason st;
     accepted_tokens := accepted_tokens st; latencies_ms := latencies_ms st;
     ttft_ms := ttft_ms st; queue_wait_ms := queue_wait_ms st;
     peak_concurrency := peak_concurrency st;
     allocation_units := allocation_units st; per_sec := per_sec st;
     sec_cursor := sec_cursor st; sec_accepted := sec_accepted st;
     sec_rejected := sec_rejected st; sec_burst := sec_burst st;
     sec_ratelimit := sec_ratelimit st; sec_lat := sec_lat st;
     sec_ttft := sec_ttft st; simulated_gc_counter := simulated_gc_counter st;
     young_heap := young_heap st; controller := controller st;
     draws := draws st |}.

Definition tick (st : state) : state :=
  advance (rollover (record_peak (admission (expire (complete (arrive st)))))).

(** Whether the loop body raises from [st]: phase 2 is the only one that
    can. *)
Definition tick_raises (st : state) : bool := complete_raises (arrive st).

Definition init_state (ns : list NodeState.t) (c : C) : state :=
  {| nodes := ns; queue := []; inflight := []; idx := 0%nat; now := 0;
     accepted := 0; rejected := 0; rejected_reason := ∅; accepted_tokens := 0;
     latencies_ms := []; ttft_ms := []; queue_wait_ms := [];
     peak_concurrency := 0; allocation_units := 0; per_sec := [];
     sec_cursor := 0; sec_accepted := 0; sec_rejected := 0; sec_burst := 0;
     sec_ratelimit := 0; sec_lat := []; sec_ttft := [];
     simulated_gc_counter := 0; young_heap := 0; controller := c;
     draws := 0%nat |}.

(** [k] iterations of the loop body. *)
Definition ticks (k : nat) (st : state) : state := Nat.iter k tick st.

(** How a call of [run_simulation] ends. *)
Inductive outcome :=
  | Raised (exn : string)       (* the call raises *)
  | Finished (final : state)    (* the loop condition became false *)
  | Running (st : state).       (* tick budget used up *)

(** [while now <= end_time], for at most [fuel] iterations. *)
Fixpoint run_loop (fuel : nat) (end_time : float) (st : state) : outcome :=
  if now st <=?. end_time then
    match fuel with
    | O => Running st
    | S fuel' =>
        if tick_raises st then Raised "IndexError"
        else run_loop fuel' end_time (tick st)
    end
  else Finished st.

End WithController.

Arguments state C : clear implicits.
Arguments outcome C : clear implicits.
Arguments Raised {C}.
Arguments Finished {C}.
Arguments Running {C}.

(** [max(r.arrival_ts for r in reqs)], for a non-empty sequence. *)
Definition max_arrival (r : Request.t) (rest : list Request.t) : float :=
  foldl (fun m x => py_max m (Request.arrival_ts x)) (Request.arrival_ts r) rest.

(** The number of iterations [while now <= end_time] makes from [now = 0]. *)
Definition tick_budget (end_time : float) : nat :=
  Z.to_nat (Qfloor (end_time * 50) + 1).

(** [run_simulation(name, reqs, controller, node_factory)] up to the end
    of its loop; [ns] is what the node factory returns.  The summary
    dictionary is computed from the final state, its ["timeseries"] entry
    is [per_sec]. *)
Definition run_simulation {C : Type} `{Controller C}
    (reqs : list Request.t) (sampler : nat -> list nat)
    (c : C) (ns : list NodeState.t) : outcome C :=
  match reqs with
  | [] => Raised "ValueError"      (* max() of an empty sequence *)
  | r :: rest =>
      let end_time := max_arrival r rest +. 20 in
      run_loop reqs sampler (tick_budget end_time) end_time (init_state ns c)
  end.

End Run.

End AbTestSimulator.

(** ** [tune_aimd.py] *)

Module TuneAimd.
Import AbTestSimulator.

Module AimdParams.
Record t := {
  min_c : Z;
  max_c : Z;
  init_c : Z;
  ssthresh : Z;
  decrease_factor : float;
  cooldown_windows : Z;
  rate_limit_threshold : float;
  burst_threshold : float;
  p95_threshold_ms : float;
  gc_threshold : float;
  slow_start_factor : float;
  ai_step : float;
}.
End AimdParams.

Module TunableAimdController.
Import WindowMetrics.

Record t := {
  p : AimdParams.t;
  cwnd : float;
  ssthresh : float;
  cooldown : Z;
}.

Definition init (p0 : AimdParams.t) : t :=
  {| p := p0; cwnd := of_int (AimdParams.init_c p0);
     ssthresh := of_int (AimdParams.ssthresh p0); cooldown := 0 |}.

Definition current_limit (c : t) : Z :=
  Z.max (AimdParams.min_c (p c))
        (Z.min (AimdParams.max_c (p c)) (py_int (cwnd c))).

Definition congested (c : t) (m : WindowMetrics.t) : bool :=
  (AimdParams.rate_limit_threshold (p c) <?. rate_limit m)
  || (AimdParams.burst_threshold (p c) <?. burst m)
  || (AimdParams.p95_threshold_ms (p c) <?. p95_latency_ms m)
  || (AimdParams.gc_threshold (p c) <?. gc_freq m).

Definition update (c : t) (_second : Z) (m : WindowMetrics.t) : t :=
  if 0 <? cooldown c then
    {| p := p c; cwnd := cwnd c; ssthresh := ssthresh c;
       cooldown := cooldown c - 1 |}
  else if congested c m then
    let ssthresh' :=
      py_max (of_int (AimdParams.min_c (p c)))
             (cwnd c *. AimdParams.decrease_factor (p c)) in
    {| p := p c;
       cwnd := py_max (of_int (AimdParams.min_c (p c))) ssthresh';
       ssthresh := ssthresh';
       cooldown := AimdParams.cooldown_windows (p c) |}
  else if cwnd c <?. ssthresh c then
    {| p := p c;
       cwnd := py_min (of_int (AimdParams.max_c (p c)))
                      (cwnd c *. AimdParams.slow_start_factor (p c));
       ssthresh := ssthresh c; cooldown := cooldown c |}
  else
    {| p := p c;
       cwnd := py_min (of_int (AimdParams.max_c (p c)))
                      (cwnd c +. AimdParams.ai_step (p c));
       ssthresh := ssthresh c; cooldown := cooldown c |}.

End TunableAimdController.

#[export] Instance TunableAimdController_Controller
  : Controller TunableAimdController.t :=
  {| current_limit := TunableAimdController.current_limit;
     update := TunableAimdController.update |}.

(** [sample_params]: the values [rng.choice] draws, in call order, and
    the parameters built from them. *)
Module Draws.
Record t := {
  max_c : Z;
  min_c : Z;
  init_c : Z;
  ssthresh : Z;
  decrease_factor : float;
  cooldown_windows : Z;
  rate_limit_threshold : float;
  burst_threshold : float;
  p95_threshold_ms : float;
  gc_threshold : float;
  slow_start_factor : float;
  ai_step : float;
}.
End Draws.

Definition sample_params (d : Draws.t) : AimdParams.t :=
  let max_c := Draws.max_c d in
  let min_c := Draws.min_c d in
  let init_c := Draws.init_c d in
  let ssthresh := Draws.ssthresh d in
  let init_c := if max_c <? init_c then max_c else init_c in
  let min_c := if max_c <=? min_c then Z.max 2 (max_c / 2) else min_c in
  {| AimdParams.min_c := min_c;
     AimdParams.max_c := max_c;
     AimdParams.init_c := Z.max init_c min_c;
     AimdParams.ssthresh := Z.min (Z.max ssthresh min_c) max_c;
     AimdParams.decrease_factor := Draws.decrease_factor d;
     AimdParams.cooldown_windows := Draws.cooldown_windows d;
     AimdParams.rate_limit_threshold := Draws.rate_limit_threshold d;
     AimdParams.burst_threshold := Draws.burst_threshold d;
     AimdParams.p95_threshold_ms := Draws.p95_threshold_ms d;
     AimdParams.gc_threshold := Draws.gc_threshold d;
     AimdParams.slow_start_factor := Draws.slow_start_factor d;
     AimdParams.ai_step := Draws.ai_step d |}.

(** The lists [rng.choice] draws from. *)
Definition drawn_from_lists (d : Draws.t) : Prop :=
  Draws.max_c d ∈ [72; 84; 96; 108] /\
  Draws.min_c d ∈ [4; 6; 8; 10] /\
  Draws.init_c d ∈ [6; 8; 10; 12; 14; 16] /\
  Draws.ssthresh d ∈ [16; 24; 32; 40; 48] /\
  Draws.decrease_factor d ∈ [55 # 100; 6 # 10; 65 # 100; 7 # 10; 75 # 100; 8 # 10]%Q /\
  Draws.cooldown_windows d ∈ [1; 2; 3] /\
  Draws.rate_limit_threshold d ∈ [3 # 100; 5 # 100; 7 # 100; 9 # 100]%Q /\
  Draws.burst_threshold d ∈ [2 # 100; 3 # 100; 5 # 100]%Q /\
  Draws.p95_threshold_ms d ∈ [1600; 1800; 2000; 2200]%Q /\
  Draws.gc_threshold d ∈ [1; 12 # 10; 15 # 10; 18 # 10; 2]%Q /\
  Draws.slow_start_factor d ∈ [12 # 10; 135 # 100; 15 # 10; 165 # 100; 18 # 10]%Q /\
  Draws.ai_step d ∈ [8 # 10; 1; 12 # 10; 15 # 10]%Q.

End TuneAimd.

(** ** List helpers shared by the allocators

    [l[i]] raises [IndexError] outside the list; the lists below are
    created with their final length and only updated in place, and the
    helpers return 0 outside. *)

Definition zitem (l : list Z) (i : nat) : Z := default 0 (l !! i).
Definition fitem (l : list float) (i : nat) : float := default 0%Q (l !! i).

(** [sum] of a list of ints and of a list of floats. *)
Definition zsum (l : list Z) : Z := foldl Z.add 0 l.
Definition fsum (l : list float) : float := foldl fadd 0%Q l.

(** The exact sum that [fsum] computes. *)
Definition qsum (l : list float) : Q := foldr Qplus 0%Q l.

(** ** [adaptive_bucket_ab.py] *)

Module AdaptiveBucketAb.
Import AbTestSimulator.

Definition percentile (values : list float) (p : Z) : float :=
  match values with
  | [] => 0
  | _ =>
      let arr := sorted values in
      let len := Z.of_nat (length arr) in
      let k := Z.max 0 (Z.min (len - 1)
                              (py_int ((of_int p /. 100) *. of_int len) - 1)) in
      nth (Z.to_nat k) arr 0%Q
  end.

(** [AdaptiveBucketAllocator], with the fields it inherits from
    [StaticBucketAllocator]. *)
Module AdaptiveBucketAllocator.

Record t := {
  boundaries : list Z;
  shares : list float;
  total_rpm : Z;
  total_tpm : Z;
  rpm_tokens : list float;
  tpm_tokens : list float;
  last_refill : float;
  token_hist : list Z;        (* deque(maxlen=12000) *)
  win_arrival : list Z;
  win_accepted : list Z;
  win_tokens : list Z;
  win_reject : list Z;
}.

Definition init (total_rpm0 total_tpm0 : Z) : t :=
  {| boundaries := [300; 1200; 3800];
     shares := [35 # 100; 35 # 100; 20 # 100; 10 # 100];
     total_rpm := total_rpm0; total_tpm := total_tpm0;
     rpm_tokens := replicate 4 0%Q; tpm_tokens := replicate 4 0%Q;
     last_refill := 0; token_hist := [];
     win_arrival := [0; 0; 0; 0]; win_accepted := [0; 0; 0; 0];
     win_tokens := [0; 0; 0; 0]; win_reject := [0; 0; 0; 0] |}.

Definition bucket_of (a : t) (tokens : Z) : nat :=
  if tokens <=? zitem (boundaries a) 0 then 0%nat
  else if tokens <=? zitem (boundaries a) 1 then 1%nat
  else if tokens <=? zitem (boundaries a) 2 then 2%nat
  else 3%nat.

(** One iteration of [for i in range(4)] in [refill]. *)
Definition refill_bucket (dt : float) (a : t) (i : nat) : t :=
  let rpm_rate := (of_int (total_rpm a) *. fitem (shares a) i) /. 60 in
  let tpm_rate := (of_int (total_tpm a) *. fitem (shares a) i) /. 60 in
  {| boundaries := boundaries a; shares := shares a; total_rpm := total_rpm a;
     total_tpm := total_tpm a;
     rpm_tokens := <[i := py_min (rpm_rate *. 3) (fitem (rpm_tokens a) i +. dt *. rpm_rate)]>
                   (rpm_tokens a);
     tpm_tokens := <[i := py_min (tpm_rate *. 3) (fitem (tpm_tokens a) i +. dt *. tpm_rate)]>
                   (tpm_tokens a);
     last_refill := last_refill a; token_hist := token_hist a;
     win_arrival := win_arrival a; win_accepted := win_accepted a;
     win_tokens := win_tokens a; win_reject := win_reject a |}.

Definition refill (a : t) (now : float) : t :=
  let dt := py_max 0 (now -. last_refill a) in
  if dt <=?. 0 then a
  else
    let a := foldl (refill_bucket dt) a (seq 0 4) in
    {| boundaries := boundaries a; shares := shares a;
       total_rpm := total_rpm a; total_tpm := total_tpm a;
       rpm_tokens := rpm_tokens a; tpm_tokens := tpm_tokens a;
       last_refill := now; token_hist := token_hist a;
       win_arrival := win_arrival a; win_accepted := win_accepted a;
       win_tokens := win_tokens a; win_reject := win_reject a |}.

Definition can_admit (a : t) (now : float) (bucket : nat) (tokens : Z) : t * bool :=
  let a := refill a now in
  (a, (1 <=?. fitem (rpm_tokens a) bucket)
      && (of_int tokens <=?. fitem (tpm_tokens a) bucket)).

Definition consume (a : t) (bucket : nat) (tokens : Z) : t :=
  {| boundaries := boundaries a; shares := shares a; total_rpm := total_rpm a;
     total_tpm := total_tpm a;
     rpm_tokens := <[bucket := fitem (rpm_tokens a) bucket -. 1]> (rpm_tokens a);
     tpm_tokens := <[bucket := fitem (tpm_tokens a) bucket -. of_int tokens]>
                   (tpm_tokens a);
     last_refill := last_refill a; token_hist := token_hist a;
     win_arrival := win_arrival a; win_accepted := win_accepted a;
     win_tokens := win_tokens a; win_reject := win_reject a |}.

(** [deque.append] with [maxlen=12000]: the oldest entry is dropped. *)
Definition maxlen : nat := Z.to_nat 12000.

Definition hist_append (h : list Z) (x : Z) : list Z :=
  let h' := h ++ [x] in drop (length h' - maxlen) h'.

Definition record_arrival (a : t) (tokens : Z) : t :=
  let b := bucket_of a tokens in
  {| boundaries := boundaries a; shares := shares a; total_rpm := total_rpm a;
     total_tpm := total_tpm a; rpm_tokens := rpm_tokens a;
     tpm_tokens := tpm_tokens a; last_refill := last_refill a;
     token_hist := hist_append (token_hist a) tokens;
     win_arrival := <[b := zitem (win_arrival a) b + 1]> (win_arrival a);
     win_accepted := win_accepted a; win_tokens := win_tokens a;
     win_reject := win_reject a |}.

Definition record_accept (a : t) (tokens : Z) : t :=
  let b := bucket_of a tokens in
  {| boundaries := boundaries a; shares := shares a; total_rpm := total_rpm a;
     total_tpm := total_tpm a; rpm_tokens := rpm_tokens a;
     tpm_tokens := tpm_tokens a; last_refill := last_refill a;
     token_hist := token_hist a; win_arrival := win_arrival a;
     win_accepted := <[b := zitem (win_accepted a) b + 1]> (win_accepted a);
     win_tokens := <[b := zitem (win_tokens a) b + tokens]> (win_tokens a);
     win_reject := win_reject a |}.

Definition record_reject (a : t) (tokens : Z) : t :=
  let b := bucket_of a tokens in
  {| boundaries := boundaries a; shares := shares a; total_rpm := total_rpm a;
     total_tpm := total_tpm a; rpm_tokens := rpm_tokens a;
     tpm_tokens := tpm_tokens a; last_refill := last_refill a;
     token_hist := token_hist a; win_arrival := win_arrival a;
     win_accepted := win_accepted a; win_tokens := win_tokens a;
     win_reject := <[b := zitem (win_reject a) b + 1]> (win_reject a) |}.

Definition _smooth_boundary (old_v new_v : Z) (max_step_ratio : float) : Z :=
  let raw := py_int (add64 (mul64 (7 # 10) (of_int old_v))
                           (mul64 (3 # 10) (of_int new_v))) in
  let step := py_int (of_int old_v *. max_step_ratio) in
  let lo := Z.max 32 (old_v - step) in
  let hi := old_v + step in
  Z.max lo (Z.min hi raw).

Definition _update_boundaries (a : t) : t :=
  let data := token_hist a in
  if (length data <? 200)%nat then a
  else
    let fdata := map of_int data in
    let p40 := py_int (percentile fdata 40) in
    let p75 := py_int (percentile fdata 75) in
    let p92 := py_int (percentile fdata 92) in
    let b1 := _smooth_boundary (zitem (boundaries a) 0) p40 (15 # 100) in
    let b2 := _smooth_boundary (zitem (boundaries a) 1) (Z.max (p40 + 64) p75)
                               (15 # 100) in
    let b3 := _smooth_boundary (zitem (boundaries a) 2) (Z.max (p75 + 256) p92)
                               (15 # 100) in
    if (b1 <? b2) && (b2 <? b3) then
      {| boundaries := [b1; b2; b3]; shares := shares a;
         total_rpm := total_rpm a; total_tpm := total_tpm a;
         rpm_tokens := rpm_tokens a; tpm_tokens := tpm_tokens a;
         last_refill := last_refill a; token_hist := token_hist a;
         win_arrival := win_arrival a; win_accepted := win_accepted a;
         win_tokens := win_tokens a; win_reject := win_reject a |}
    else a.

Definition eps : float := 1 # 1000000000.

(** [_update_shares], one definition per local variable. *)
Definition a_sum (a : t) : float := of_int (zsum (win_arrival a)) +. eps.
Definition ok_sum (a : t) : float := of_int (zsum (win_accepted a)) +. eps.
Definition tok_sum (a : t) : float := of_int (zsum (win_tokens a)) +. eps.

(** The body of [for i in range(4)]: the value appended to [new_shares]. *)
Definition score (a : t) (i : nat) : float :=
  let req_share := of_int (zitem (win_arrival a) i) /. a_sum a in
  let throughput_share := of_int (zitem (win_accepted a) i) /. ok_sum a in
  let token_share := of_int (zitem (win_tokens a) i) /. tok_sum a in
  let risk := of_int (zitem (win_reject a) i)
              /. of_int (Z.max 1 (zitem (win_arrival a) i)) in
  let score := (35 # 100) *. req_share +. (35 # 100) *. throughput_share
               +. (20 # 100) *. token_share -. (25 # 100) *. risk in
  py_max (10 # 100) (py_min (50 # 100) score).

Definition new_shares (a : t) : list float := map (score a) (seq 0 4).

Definition target (a : t) : list float :=
  let s := fsum (new_shares a) in
  map (fun x => x /. s) (new_shares a).

(** [old + max(-0.05, min(0.05, tgt - old))] *)
Definition step_towards (old tgt : float) : float :=
  old +. py_max (- (5 # 100)) (py_min (5 # 100) (tgt -. old)).

Definition updated (a : t) : list float :=
  zip_with step_towards (shares a) (target a).

Definition _update_shares (a : t) : t :=
  let s2 := fsum (updated a) in
  {| boundaries := boundaries a; shares := map (fun x => x /. s2) (updated a);
     total_rpm := total_rpm a; total_tpm := total_tpm a;
     rpm_tokens := rpm_tokens a; tpm_tokens := tpm_tokens a;
     last_refill := last_refill a; token_hist := token_hist a;
     win_arrival := win_arrival a; win_accepted := win_accepted a;
     win_tokens := win_tokens a; win_reject := win_reject a |}.

Definition on_window_end (a : t) : t :=
  let a := _update_shares (_update_boundaries a) in
  {| boundaries := boundaries a; shares := shares a; total_rpm := total_rpm a;
     total_tpm := total_tpm a; rpm_tokens := rpm_tokens a;
     tpm_tokens := tpm_tokens a; last_refill := last_refill a;
     token_hist := token_hist a; win_arrival := [0; 0; 0; 0];
     win_accepted := [0; 0; 0; 0]; win_tokens := [0; 0; 0; 0];
     win_reject := [0; 0; 0; 0] |}.

End AdaptiveBucketAllocator.

(** The timeout phase of [run_one]: the variables it touches and its
    loop [while queue and (now - queue[0].arrival_ts) > timeout_sec].
    [adaptive] is [isinstance(allocator, AdaptiveBucketAllocator)]; a
    static allocator records nothing. *)
Module RunOne.

Record vars := {
  queue : list Request.t;      (* deque *)
  rejected : Z;
  sec_rej : Z;
  reason : gmap string Z;      (* defaultdict(int) *)
  allocator : AdaptiveBucketAllocator.t;
}.

Fixpoint timeout_loop (adaptive : bool) (timeout_sec now : float)
    (q : list Request.t) (v : vars) : vars :=
  match q with
  | [] => v
  | req :: q' =>
      if timeout_sec <?. (now -. Request.arrival_ts req) then
        timeout_loop adaptive timeout_sec now q'
          {| queue := q'; rejected := rejected v + 1; sec_rej := sec_rej v + 1;
             reason := Run.bump "QUEUE_TIMEOUT" (reason v);
             allocator :=
               if adaptive then
                 AdaptiveBucketAllocator.record_reject (allocator v)
                   (Request.total_tokens req)
               else allocator v |}
      else v
  end.

Definition expire (adaptive : bool) (timeout_sec now : float) (v : vars) : vars :=
  timeout_loop adaptive timeout_sec now (queue v) v.

End RunOne.

End AdaptiveBucketAb.

(** ** [full_pipeline_vs_traditional.py] *)

Module FullPipelineVsTraditional.
Import AbTestSimulator.

Definition percentile (values : list float) (p : Z) : float :=
  match values with
  | [] => 0
  | _ =>
      let arr := sorted values in
      let len := Z.of_nat (length arr) in
      let k := Z.max 0 (Z.min (len - 1)
                              (py_int ((of_int p /. 100) *. of_int len) - 1)) in
      nth (Z.to_nat k) arr 0%Q
  end.

(** The [metrics] dictionary [run_engine] hands to [on_window]. *)
Module Metrics.
Record t := {
  p95_ttft_ms : float;
  p95_e2e_ms : float;
  sim_gc_freq : float;
  reject_rate : float;
}.
End Metrics.

Module FullPipelinePolicy.

Record t := {
  fixed_limit : Z;
  total_rpm : Z;
  total_tpm : Z;
  alpha : float;
  boundaries : list Z;
  shares : list float;
  rpm_tokens : list float;
  tpm_tokens : list float;
  last_refill : float;
  hist_tokens : list Z;       (* deque(maxlen=12000) *)
  win_arrival : list Z;
  win_accept : list Z;
  win_tokens : list Z;
  win_reject : list Z;
  est_ratio_ema : float;
}.

Definition init (total_rpm0 total_tpm0 fixed_limit0 : Z) : t :=
  {| fixed_limit := fixed_limit0; total_rpm := total_rpm0;
     total_tpm := total_tpm0; alpha := 1;
     boundaries := [300; 1200; 3800];
     shares := [35 # 100; 35 # 100; 20 # 100; 10 # 100];
     rpm_tokens := replicate 4 0%Q; tpm_tokens := replicate 4 0%Q;
     last_refill := 0; hist_tokens := [];
     win_arrival := [0; 0; 0; 0]; win_accept := [0; 0; 0; 0];
     win_tokens := [0; 0; 0; 0]; win_reject := [0; 0; 0; 0];
     est_ratio_ema := 1 |}.

Definition bucket_of (s : t) (tokens : Z) : nat :=
  if tokens <=? zitem (boundaries s) 0 then 0%nat
  else if tokens <=? zitem (boundaries s) 1 then 1%nat
  else if tokens <=? zitem (boundaries s) 2 then 2%nat
  else 3%nat.

Definition maxlen : nat := Z.to_nat 12000.

Definition hist_append (h : list Z) (x : Z) : list Z :=
  let h' := h ++ [x] in drop (length h' - maxlen) h'.

(** [estimate_tokens(req)]: the estimate, and the policy with the
    arrival recorded. *)
Definition estimate_tokens (s : t) (req : Request.t) : t * Z :=
  let base := Request.input_tokens req
              + py_int (of_int (Request.output_tokens req) *. (85 # 100)) in
  let est := py_int (py_max 1 (of_int base *. est_ratio_ema s *. (108 # 100))) in
  let b := bucket_of s est in
  ({| fixed_limit := fixed_limit s; total_rpm := total_rpm s;
      total_tpm := total_tpm s; alpha := alpha s; boundaries := boundaries s;
      shares := shares s; rpm_tokens := rpm_tokens s;
      tpm_tokens := tpm_tokens s; last_refill := last_refill s;
      hist_tokens := hist_append (hist_tokens s) est;
      win_arrival := <[b := zitem (win_arrival s) b + 1]> (win_arrival s);
      win_accept := win_accept s; win_tokens := win_tokens s;
      win_reject := win_reject s; est_ratio_ema := est_ratio_ema s |}, est).

(** One iteration of [for i in range(4)] in [_refill]. *)
Definition refill_bucket (dt eff_rpm eff_tpm : float) (s : t) (i : nat) : t :=
  let rr := (eff_rpm *. fitem (shares s) i) /. 60 in
  let tr := (eff_tpm *. fitem (shares s) i) /. 60 in
  {| fixed_limit := fixed_limit s; total_rpm := total_rpm s;
     total_tpm := total_tpm s; alpha := alpha s; boundaries := boundaries s;
     shares := shares s;
     rpm_tokens := <[i := py_min (rr *. 3) (fitem (rpm_tokens s) i +. rr *. dt)]>
                   (rpm_tokens s);
     tpm_tokens := <[i := py_min (tr *. 3) (fitem (tpm_tokens s) i +. tr *. dt)]>
                   (tpm_tokens s);
     last_refill := last_refill s; hist_tokens := hist_tokens s;
     win_arrival := win_arrival s; win_accept := win_accept s;
     win_tokens := win_tokens s; win_reject := win_reject s;
     est_ratio_ema := est_ratio_ema s |}.

Definition _refill (s : t) (now : float) : t :=
  let dt := py_max 0 (now -. last_refill s) in
  if dt <=?. 0 then s
  else
    let eff_rpm := of_int (total_rpm s) *. alpha s in
    let eff_tpm := of_int (total_tpm s) *. alpha s in
    let s := foldl (refill_bucket dt eff_rpm eff_tpm) s (seq 0 4) in
    {| fixed_limit := fixed_limit s; total_rpm := total_rpm s;
       total_tpm := total_tpm s; alpha := alpha s; boundaries := boundaries s;
       shares := shares s; rpm_tokens := rpm_tokens s;
       tpm_tokens := tpm_tokens s; last_refill := now;
       hist_tokens := hist_tokens s; win_arrival := win_arrival s;
       win_accept := win_accept s; win_tokens := win_tokens s;
       win_reject := win_reject s; est_ratio_ema := est_ratio_ema s |}.

(** The method [admit]. *)
Definition admit_ (s : t) (now : float) (est_tokens : Z) : t * bool :=
  let s := _refill s now in
  let b := bucket_of s est_tokens in
  if (1 <=?. fitem (rpm_tokens s) b)
     && (of_int est_tokens <=?. fitem (tpm_tokens s) b) then
    ({| fixed_limit := fixed_limit s; total_rpm := total_rpm s;
        total_tpm := total_tpm s; alpha := alpha s; boundaries := boundaries s;
        shares := shares s;
        rpm_tokens := <[b := fitem (rpm_tokens s) b -. 1]> (rpm_tokens s);
        tpm_tokens := <[b := fitem (tpm_tokens s) b -. of_int est_tokens]>
                    (tpm_tokens s);
        last_refill := last_refill s; hist_tokens := hist_tokens s;
        win_arrival := win_arrival s;
        win_accept := <[b := zitem (win_accept s) b + 1]> (win_accept s);
        win_tokens := <[b := zitem (win_tokens s) b + est_tokens]> (win_tokens s);
        win_reject := win_reject s; est_ratio_ema := est_ratio_ema s |}, true)
  else
    ({| fixed_limit := fixed_limit s; total_rpm := total_rpm s;
        total_tpm := total_tpm s; alpha := alpha s; boundaries := boundaries s;
        shares := shares s; rpm_tokens := rpm_tokens s;
        tpm_tokens := tpm_tokens s; last_refill := last_refill s;
        hist_tokens := hist_tokens s; win_arrival := win_arrival s;
        win_accept := win_accept s; win_tokens := win_tokens s;
        win_reject := <[b := zitem (win_reject s) b + 1]> (win_reject s);
        est_ratio_ema := est_ratio_ema s |}, false).

Definition on_result (s : t) (req : Request.t) (accepted : bool) : t :=
  if negb accepted then s
  else
    let est := Z.max 1 (Request.input_tokens req
                        + py_int (of_int (Request.output_tokens req) *. (85 # 100))) in
    let ratio := of_int (Request.total_tokens req) /. of_int est in
    {| fixed_limit := fixed_limit s; total_rpm := total_rpm s;
       total_tpm := total_tpm s; alpha := alpha s; boundaries := boundaries s;
       shares := shares s; rpm_tokens := rpm_tokens s;
       tpm_tokens := tpm_tokens s; last_refill := last_refill s;
       hist_tokens := hist_tokens s; win_arrival := win_arrival s;
       win_accept := win_accept s; win_tokens := win_tokens s;
       win_reject := win_reject s;
       est_ratio_ema := (9 # 10) *. est_ratio_ema s +. (1 # 10) *. ratio |}.

Definition _smooth_boundary (old new : Z) : Z :=
  let raw := py_int (add64 (mul64 (7 # 10) (of_int old))
                           (mul64 (3 # 10) (of_int new))) in
  let step := py_int (of_int old *. (15 # 100)) in
  Z.max (old - step) (Z.min (old + step) raw).

Definition eps : float := 1 # 1000000000.

(** The clamped score of bucket [i] in [_rebalance_buckets]. *)
Definition score (s : t) (i : nat) : float :=
  let a_sum := of_int (zsum (win_arrival s)) +. eps in
  let ok_sum := of_int (zsum (win_accept s)) +. eps in
  let tok_sum := of_int (zsum (win_tokens s)) +. eps in
  let req_share := of_int (zitem (win_arrival s) i) /. a_sum in
  let ok_share := of_int (zitem (win_accept s) i) /. ok_sum in
  let tok_share := of_int (zitem (win_tokens s) i) /. tok_sum in
  let risk := of_int (zitem (win_reject s) i)
              /. of_int (Z.max 1 (zitem (win_arrival s) i)) in
  let score := (35 # 100) *. req_share +. (35 # 100) *. ok_share
               +. (20 # 100) *. tok_share -. (25 # 100) *. risk in
  py_max (10 # 100) (py_min (50 # 100) score).

Definition step_towards (old tgt : float) : float :=
  old +. py_max (- (5 # 100)) (py_min (5 # 100) (tgt -. old)).

Definition _rebalance_buckets (s : t) : t :=
  if (length (hist_tokens s) <? 200)%nat then s
  else
    let arr := map of_int (hist_tokens s) in
    let p40 := py_int (percentile arr 40) in
    let p75 := py_int (percentile arr 75) in
    let p92 := py_int (percentile arr 92) in
    let b1 := _smooth_boundary (zitem (boundaries s) 0) p40 in
    let b2 := _smooth_boundary (zitem (boundaries s) 1) (Z.max (p40 + 64) p75) in
    let b3 := _smooth_boundary (zitem (boundaries s) 2) (Z.max (p75 + 256) p92) in
    let boundaries' :=
      if (b1 <? b2) && (b2 <? b3) then [b1; b2; b3] else boundaries s in
    let target0 := map (score s) (seq 0 4) in
    let s1 := fsum target0 in
    let target := map (fun x => x /. s1) target0 in
    let new_shares := zip_with step_towards (shares s) target in
    let s2 := fsum new_shares in
    {| fixed_limit := fixed_limit s; total_rpm := total_rpm s;
       total_tpm := total_tpm s; alpha := alpha s; boundaries := boundaries';
       shares := map (fun x => x /. s2) new_shares; rpm_tokens := rpm_tokens s;
       tpm_tokens := tpm_tokens s; last_refill := last_refill s;
       hist_tokens := hist_tokens s; win_arrival := [0; 0; 0; 0];
       win_accept := [0; 0; 0; 0]; win_tokens := [0; 0; 0; 0];
       win_reject := [0; 0; 0; 0]; est_ratio_ema := est_ratio_ema s |}.

Definition tighten (m : Metrics.t) : bool :=
  (1400 <?. Metrics.p95_ttft_ms m)
  || ((18 # 10) <?. Metrics.sim_gc_freq m)
  || ((50 # 100) <?. Metrics.reject_rate m).

Definition relax (m : Metrics.t) : bool :=
  (Metrics.p95_ttft_ms m <?. 1150)
  && (Metrics.sim_gc_freq m <?. (12 # 10))
  && (Metrics.reject_rate m <?. (40 # 100)).

Definition on_window (s : t) (m : Metrics.t) : t :=
  let s :=
    if tighten m then
      {| fixed_limit := fixed_limit s; total_rpm := total_rpm s;
         total_tpm := total_tpm s;
         alpha := py_max (65 # 100) (alpha s *. (92 # 100));
         boundaries := boundaries s; shares := shares s;
         rpm_tokens := rpm_tokens s; tpm_tokens := tpm_tokens s;
         last_refill := last_refill s; hist_tokens := hist_tokens s;
         win_arrival := win_arrival s; win_accept := win_accept s;
         win_tokens := win_tokens s; win_reject := win_reject s;
         est_ratio_ema := est_ratio_ema s |}
    else if relax m then
      {| fixed_limit := fixed_limit s; total_rpm := total_rpm s;
         total_tpm := total_tpm s; alpha := py_min 1 (alpha s +. (2 # 100));
         boundaries := boundaries s; shares := shares s;
         rpm_tokens := rpm_tokens s; tpm_tokens := tpm_tokens s;
         last_refill := last_refill s; hist_tokens := hist_tokens s;
         win_arrival := win_arrival s; win_accept := win_accept s;
         win_tokens := win_tokens s; win_reject := win_reject s;
         est_ratio_ema := est_ratio_ema s |}
    else s in
  _rebalance_buckets s.

Definition allowed_concurrency (s : t) : Z := fixed_limit s.

End FullPipelinePolicy.

End FullPipelineVsTraditional.

(** ** Pool policies
    [long_ratio_sweep_pool_vs_traditional.py], class [PoolFirstPolicy], and
    [request_size_sweep_pool_vs_traditional.py], class [PoolPolicy]. *)

Module LongRatioSweep.

Record PoolFirstPolicy := {
  core : Z;
  max_size : Z;
  allocated : Z;
  active : Z;
  idle : list Z;   (* deque *)
}.

(** [__init__]: [idle = deque(range(core))]. *)
Definition PoolFirstPolicy_init (core0 max_size0 : Z) : PoolFirstPolicy :=
  {| core := core0; max_size := max_size0; allocated := core0; active := 0;
     idle := seqZ 0 core0 |}.

Definition capacity (p : PoolFirstPolicy) : Z := max_size p.

Definition acquire_slot (p : PoolFirstPolicy) : PoolFirstPolicy * bool :=
  match idle p with
  | _ :: rest =>
      ({| core := core p; max_size := max_size p; allocated := allocated p;
          active := active p + 1; idle := rest |}, true)
  | [] =>
      if allocated p <? max_size p then
        ({| core := core p; max_size := max_size p;
            allocated := allocated p + 1;
            active := active p + 1; idle := idle p |}, true)
      else (p, false)
  end.

Definition release_slot (p : PoolFirstPolicy) : PoolFirstPolicy :=
  if 0 <? active p then
    {| core := core p; max_size := max_size p; allocated := allocated p;
       active := active p - 1; idle := idle p ++ [1] |}
  else p.

(** The calls the driver [run_sim] makes on the policy object. *)
Inductive pool_call := Acquire | Release.

Definition pool_step (p : PoolFirstPolicy) (c : pool_call) : PoolFirstPolicy :=
  match c with
  | Acquire => fst (acquire_slot p)
  | Release => release_slot p
  end.

Definition pool_run (calls : list pool_call) (p : PoolFirstPolicy) : PoolFirstPolicy :=
  foldl pool_step p calls.

Definition pool_inv (p : PoolFirstPolicy) : Prop :=
  active p + Z.of_nat (length (idle p)) = allocated p /\
  0 <= active p /\
  core p <= allocated p <= max_size p.

(** [Req] and [Node] of the sweep, and the policies' [select_request]. *)
Module Req.
Record t := {
  rid : Z;
  arrival : float;
  in_tok : Z;
  out_tok : Z;
  chunks : Z;
  ttft_delay : float;
  service : float;
  is_long : bool;
}.
Definition total_tokens (r : t) : Z := in_tok r + out_tok r.

(** The dataclass [__eq__]: field by field. *)
Definition eqb (a b : t) : bool :=
  (rid a =? rid b) && Qeq_bool (arrival a) (arrival b)
  && (in_tok a =? in_tok b) && (out_tok a =? out_tok b)
  && (chunks a =? chunks b) && Qeq_bool (ttft_delay a) (ttft_delay b)
  && Qeq_bool (service a) (service b) && Bool.eqb (is_long a) (is_long b).
End Req.

Module Node.

Record t := {
  rpm_limit : Z;
  tpm_limit : Z;
  max_concurrency : Z;
  rpm_tokens : float;
  tpm_tokens : float;
  inflight : Z;
  last_refill : float;
}.

Definition init (rpm tpm max_concurrency0 : Z) : t :=
  {| rpm_limit := rpm; tpm_limit := tpm; max_concurrency := max_concurrency0;
     rpm_tokens := of_int rpm; tpm_tokens := of_int tpm; inflight := 0;
     last_refill := 0 |}.

Definition refill (n : t) (now : float) : t :=
  let dt := py_max 0 (now -. last_refill n) in
  if dt <=?. 0 then n
  else
    {| rpm_limit := rpm_limit n; tpm_limit := tpm_limit n;
       max_concurrency := max_concurrency n;
       rpm_tokens :=
         py_min (of_int (rpm_limit n))
                (rpm_tokens n +. dt *. (of_int (rpm_limit n) /. 60));
       tpm_tokens :=
         py_min (of_int (tpm_limit n))
                (tpm_tokens n +. dt *. (of_int (tpm_limit n) /. 60));
       inflight := inflight n; last_refill := now |}.

Definition try_start (n : t) (now : float) (tokens cap : Z) : t * bool :=
  let n := refill n now in
  if Z.min (max_concurrency n) cap <=? inflight n then (n, false)
  else if (rpm_tokens n <?. 1) || (tpm_tokens n <?. of_int tokens) then (n, false)
  else
    ({| rpm_limit := rpm_limit n; tpm_limit := tpm_limit n;
        max_concurrency := max_concurrency n;
        rpm_tokens := rpm_tokens n -. 1;
        tpm_tokens := tpm_tokens n -. of_int tokens;
        inflight := inflight n + 1; last_refill := last_refill n |}, true).

Definition finish (n : t) : t :=
  if 0 <? inflight n then
    {| rpm_limit := rpm_limit n; tpm_limit := tpm_limit n;
       max_concurrency := max_concurrency n;
       rpm_tokens := rpm_tokens n; tpm_tokens := tpm_tokens n;
       inflight := inflight n - 1; last_refill := last_refill n |}
  else n.

End Node.

(** [TraditionalPolicy.select_request] and [PoolFirstPolicy.select_request];
    [queue[0]] raises [IndexError] on an empty queue ([None] here). *)
Definition traditional_select_request (queue : list Req.t) : option Req.t :=
  head queue.

(** [for req in queue: if not req.is_long: return req] *)
Fixpoint first_short (queue : list Req.t) : option Req.t :=
  match queue with
  | [] => None
  | req :: rest => if negb (Req.is_long req) then Some req else first_short rest
  end.

Definition select_request (queue : list Req.t) : option Req.t :=
  match first_short queue with
  | Some req => Some req
  | None => head queue
  end.

(** [queue.remove(req)]: drops the first entry equal to [req]; raises
    [ValueError] ([None] here) when there is none. *)
Fixpoint remove_first (req : Req.t) (queue : list Req.t) : option (list Req.t) :=
  match queue with
  | [] => None
  | x :: rest =>
      if Req.eqb x req then Some rest
      else option_map (cons x) (remove_first req rest)
  end.

End LongRatioSweep.

Module RequestSizeSweep.
Import LongRatioSweep.

(** [PoolPolicy] has the fields of [PoolFirstPolicy]; its [on_admit]
    ignores the request it is given. *)
Definition on_admit (p : PoolFirstPolicy) : PoolFirstPolicy * bool :=
  match idle p with
  | _ :: rest =>
      ({| core := core p; max_size := max_size p; allocated := allocated p;
          active := active p + 1; idle := rest |}, true)
  | [] =>
      if allocated p <? max_size p then
        ({| core := core p; max_size := max_size p;
            allocated := allocated p + 1;
            active := active p + 1; idle := idle p |}, true)
      else (p, false)
  end.

Definition on_release (p : PoolFirstPolicy) : PoolFirstPolicy :=
  if 0 <? active p then
    {| core := core p; max_size := max_size p; allocated := allocated p;
       active := active p - 1; idle := idle p ++ [1] |}
  else p.

End RequestSizeSweep.

(** ** Views used to state the controller properties *)

Module Spec.
Import AbTestSimulator TuneAimd.

(** The three controller classes as one type. *)
Inductive controller :=
  | Fixed (c : FixedController.t)
  | Aimd (c : AimdController.t)
  | Tuned (c : TunableAimdController.t).

Definition limit_of (c : controller) : Z :=
  match c with
  | Fixed c => current_limit c
  | Aimd c => current_limit c
  | Tuned c => current_limit c
  end.

Definition update_of (c : controller) (sm : Z * WindowMetrics.t) : controller :=
  match c with
  | Fixed c => Fixed (update c sm.1 sm.2)
  | Aimd c => Aimd (update c sm.1 sm.2)
  | Tuned c => Tuned (update c sm.1 sm.2)
  end.

(** The configured [min] and [max]; the fixed controller is the
    degenerate case [min = max = limit]. *)
Definition min_of (c : controller) : Z :=
  match c with
  | Fixed c => FixedController.limit c
  | Aimd c => AimdController.min_c c
  | Tuned c => AimdParams.min_c (TunableAimdController.p c)
  end.

Definition max_of (c : controller) : Z :=
  match c with
  | Fixed c => FixedController.limit c
  | Aimd c => AimdController.max_c c
  | Tuned c => AimdParams.max_c (TunableAimdController.p c)
  end.

(** The AIMD state machine in the words of the design: a window, a
    threshold and a cooldown counter, stepped once per metrics window. *)
Record aimd := {
  window : float;
  threshold : float;
  cooldown : Z;
}.

Record aimd_config := {
  lo : Z;
  hi : Z;
  decrease_factor : float;
  cooldown_windows : Z;
  slow_start_factor : float;
  additive_step : float;
  th_rate_limit : float;
  th_burst : float;
  th_latency_ms : float;
  th_gc : float;
}.

(** The congestion signals of a window, each with its threshold: the
    rate-limited fraction, the burst-rejected fraction, the p95
    end-to-end latency and the simulated-GC frequency. *)
Definition signals (k : aimd_config) (m : WindowMetrics.t)
  : list (float * float) :=
  [ (WindowMetrics.rate_limit m, th_rate_limit k);
    (WindowMetrics.burst m, th_burst k);
    (WindowMetrics.p95_latency_ms m, th_latency_ms k);
    (WindowMetrics.gc_freq m, th_gc k) ].

(** Congestion: any signal exceeds its threshold. *)
Definition any_exceeds (k : aimd_config) (m : WindowMetrics.t) : bool :=
  existsb (fun s => s.2 <?. s.1) (signals k m).

(** [decrease] is what the multiplicative-decrease step makes of the
    window before clamping it to the minimum. *)
Definition aimd_step_with (decrease : float -> float) (k : aimd_config)
    (a : aimd) (m : WindowMetrics.t) : aimd :=
  if 0 <? cooldown a then
    {| window := window a; threshold := threshold a; cooldown := cooldown a - 1 |}
  else if any_exceeds k m then
    let th := py_max (of_int (lo k)) (decrease (window a)) in
    {| window := th; threshold := th; cooldown := cooldown_windows k |}
  else if window a <?. threshold a then
    {| window := py_min (of_int (hi k)) (window a *. slow_start_factor k);
       threshold := threshold a; cooldown := cooldown a |}
  else
    {| window := py_min (of_int (hi k)) (window a +. additive_step k);
       threshold := threshold a; cooldown := cooldown a |}.

(** The step as the design states it: window times the decrease factor. *)
Definition aimd_step (k : aimd_config) : aimd -> WindowMetrics.t -> aimd :=
  aimd_step_with (fun w => w *. decrease_factor k) k.

(** The step with the product computed in binary64 and truncated to an
    integer. *)
Definition aimd_step_trunc (k : aimd_config) : aimd -> WindowMetrics.t -> aimd :=
  aimd_step_with (fun w => of_int (py_int (mul64 w (decrease_factor k)))) k.

Definition view_aimd (c : AimdController.t) : aimd :=
  {| window := AimdController.cwnd c;
     threshold := of_int (AimdController.ssthresh c);
     cooldown := AimdController.cooldown c |}.

(** The constants of [AimdController.update]. *)
Definition config_aimd (c : AimdController.t) : aimd_config :=
  {| lo := AimdController.min_c c; hi := AimdController.max_c c;
     decrease_factor := 7 # 10; cooldown_windows := 2;
     slow_start_factor := 3 # 2; additive_step := 1;
     th_rate_limit := 6 # 100; th_burst := 3 # 100;
     th_latency_ms := 2200; th_gc := 4 |}.

Definition view_tuned (c : TunableAimdController.t) : aimd :=
  {| window := TunableAimdController.cwnd c;
     threshold := TunableAimdController.ssthresh c;
     cooldown := TunableAimdController.cooldown c |}.

Definition config_tuned (c : TunableAimdController.t) : aimd_config :=
  let p := TunableAimdController.p c in
  {| lo := AimdParams.min_c p; hi := AimdParams.max_c p;
     decrease_factor := AimdParams.decrease_factor p;
     cooldown_windows := AimdParams.cooldown_windows p;
     slow_start_factor := AimdParams.slow_start_factor p;
     additive_step := AimdParams.ai_step p;
     th_rate_limit := AimdParams.rate_limit_threshold p;
     th_burst := AimdParams.burst_threshold p;
     th_latency_ms := AimdParams.p95_threshold_ms p;
     th_gc := AimdParams.gc_threshold p |}.

(** Two sample windows: one congested by its rate-limit fraction, one
    quiet. *)
Definition hot : WindowMetrics.t :=
  {| WindowMetrics.rate_limit := 1; WindowMetrics.burst := 0;
     WindowMetrics.p95_latency_ms := 0; WindowMetrics.p95_ttft_ms := 0;
     WindowMetrics.gc_freq := 0 |}.

Definition calm : WindowMetrics.t :=
  {| WindowMetrics.rate_limit := 0; WindowMetrics.burst := 0;
     WindowMetrics.p95_latency_ms := 0; WindowMetrics.p95_ttft_ms := 0;
     WindowMetrics.gc_freq := 0 |}.

(** The windows that bring [AimdController(6, 95, 10)] to window 90:
    three quiet ones, a congested one, its two cooldown windows and 67
    quiet ones. *)
Definition windows_to_90 : list WindowMetrics.t :=
  replicate 3 calm ++ [hot] ++ replicate 2 calm ++ replicate 67 calm.

(** The checks of [can_start] in the words of the design: an ordered
    list of (fails, reason); the first failing one decides. *)
Definition first_failing (checks : list (bool * string)) : bool * string :=
  match List.find fst checks with
  | Some (_, reason) => (false, reason)
  | None => (true, "")
  end.

Definition admission_checks (n : NodeState.t) (token_cost allowed : Z)
  : list (bool * string) :=
  [ (Z.min (NodeState.max_physical_concurrency n) allowed <=? NodeState.inflight n,
     "CONCURRENCY");
    (NodeState.burst_rps_limit n
       <=?. of_int (Z.of_nat (length (NodeState.starts_window n))),
     "BURST");
    (NodeState.rpm_tokens n <?. 1, "RATE_RPM");
    (NodeState.tpm_tokens n <?. of_int token_cost, "RATE_TPM") ].

(** Calls a driver makes on a node. *)
Inductive node_call :=
  | Refill (now : float)
  | CanStart (now : float) (token_cost allowed : Z)
  | Start (now : float) (token_cost : Z)
  | Finish.

Definition node_step (n : NodeState.t) (c : node_call) : NodeState.t :=
  match c with
  | Refill now => NodeState.refill n now
  | CanStart now cost allowed => (NodeState.can_start n now cost allowed).1
  | Start now cost => NodeState.start n now cost
  | Finish => NodeState.finish n
  end.

Definition cost_nonneg (c : node_call) : Prop :=
  match c with
  | Start _ cost => 0 <= cost
  | _ => True
  end.

Definition within_capacity (n : NodeState.t) : Prop :=
  (NodeState.rpm_tokens n <= of_int (NodeState.rpm_limit n))%Q /\
  (NodeState.tpm_tokens n <= of_int (NodeState.tpm_limit n))%Q.

End Spec.

(** ** Calls on the full-pipeline policy *)

Module PipelineSpec.
Import AbTestSimulator FullPipelineVsTraditional.

(** The calls [run_engine] makes on a [FullPipelinePolicy] (with the
    [_refill] that [admit] starts with also exposed). *)
Inductive policy_call :=
  | EstimateTokens (req : Request.t)
  | AdmitTokens (now : float) (est_tokens : Z)
  | OnResult (req : Request.t) (accepted : bool)
  | OnWindow (m : Metrics.t)
  | Refill (now : float).

Definition policy_step (s : FullPipelinePolicy.t) (c : policy_call)
  : FullPipelinePolicy.t :=
  match c with
  | EstimateTokens req => (FullPipelinePolicy.estimate_tokens s req).1
  | AdmitTokens now est => (FullPipelinePolicy.admit_ s now est).1
  | OnResult req accepted => FullPipelinePolicy.on_result s req accepted
  | OnWindow m => FullPipelinePolicy.on_window s m
  | Refill now => FullPipelinePolicy._refill s now
  end.

Definition alpha_in_band (s : FullPipelinePolicy.t) : Prop :=
  (65 # 100 <= FullPipelinePolicy.alpha s <= 1)%Q.

(** Sample windows: one over the time-to-first-token threshold, one
    between the tighten and the relax thresholds. *)
Definition slow_window : Metrics.t :=
  {| Metrics.p95_ttft_ms := 1500; Metrics.p95_e2e_ms := 0;
     Metrics.sim_gc_freq := 0; Metrics.reject_rate := 0 |}.

Definition middling_window : Metrics.t :=
  {| Metrics.p95_ttft_ms := 1200; Metrics.p95_e2e_ms := 0;
     Metrics.sim_gc_freq := 0; Metrics.reject_rate := 0 |}.

End PipelineSpec.

(** ** Calls on the adaptive allocator *)

Module AllocatorSpec.
Import AdaptiveBucketAb.
Import AdaptiveBucketAllocator.

(** The calls [run_one] makes on an [AdaptiveBucketAllocator]. *)
Inductive allocator_call :=
  | RecordArrival (tokens : Z)
  | RecordAccept (tokens : Z)
  | RecordReject (tokens : Z)
  | CanAdmit (now : float) (bucket : nat) (tokens : Z)
  | Consume (bucket : nat) (tokens : Z)
  | OnWindowEnd.

Definition allocator_step (a : t) (c : allocator_call) : t :=
  match c with
  | RecordArrival tokens => record_arrival a tokens
  | RecordAccept tokens => record_accept a tokens
  | RecordReject tokens => record_reject a tokens
  | CanAdmit now bucket tokens => (can_admit a now bucket tokens).1
  | Consume bucket tokens => consume a bucket tokens
  | OnWindowEnd => on_window_end a
  end.

(** Token counts are not negative. *)
Definition tokens_nonneg (c : allocator_call) : Prop :=
  match c with
  | RecordArrival tokens | RecordAccept tokens | RecordReject tokens => 0 <= tokens
  | CanAdmit _ _ tokens | Consume _ tokens => 0 <= tokens
  | OnWindowEnd => True
  end.

Definition increasing (bs : list Z) : Prop :=
  exists b1 b2 b3, bs = [b1; b2; b3] /\ b1 < b2 < b3.

(** Shares: four of them, each positive, summing to 1. *)
Definition shares_ok (l : list float) : Prop :=
  length l = 4%nat /\ Forall (fun x => 0 < x)%Q l /\ (fsum l == 1)%Q.

Definition counters_ok (l : list Z) : Prop :=
  length l = 4%nat /\ Forall (fun x => 0 <= x) l.

Definition allocator_ok (a : t) : Prop :=
  shares_ok (shares a) /\ increasing (boundaries a) /\
  counters_ok (win_arrival a) /\ counters_ok (win_accepted a) /\
  counters_ok (win_tokens a) /\ counters_ok (win_reject a).

(** The band the design states for a share. *)
Definition in_band (x : float) : Prop := (10 # 100 <= x <= 50 # 100)%Q.

(** A window with five accepted arrivals of 200 tokens and four of 400. *)
Definition busy_window : list allocator_call :=
  flat_map (fun x => [RecordArrival x; RecordAccept x])
           [200; 200; 200; 200; 200; 400; 400; 400; 400].

End AllocatorSpec.

(** ** Predicates on runs *)

Module RunSpec.
Import AbTestSimulator.

(** A node as a factory builds it: nothing in flight, a non-negative
    concurrency ceiling. *)
Definition fresh_node (n : NodeState.t) : Prop :=
  NodeState.inflight n = 0 /\ 0 <= NodeState.max_physical_concurrency n.

Definition seats_ok (n : NodeState.t) : Prop :=
  0 <= NodeState.inflight n <= NodeState.max_physical_concurrency n.

(** The input contract: non-decreasing arrival timestamps. *)
Definition sorted_by_arrival (l : list Request.t) : Prop :=
  forall i j a b, (i <= j)%nat -> l !! i = Some a -> l !! j = Some b ->
    (Request.arrival_ts a <= Request.arrival_ts b)%Q.

(** The wait of [r] at time [now] exceeds the timeout. *)
Definition stale_after (timeout now : float) (r : Request.t) : Prop :=
  (timeout < now - Request.arrival_ts r)%Q.

Definition stale : float -> Request.t -> Prop := stale_after Run.queue_timeout.

(** The requests that have left the queue, by admission or by timeout. *)
Definition departed {C : Type} (st : Run.state C) : nat :=
  Z.to_nat (Run.accepted st + Run.rejected st).

(** The ledger of a run over [reqs]: the queue is the part of the
    requests that have arrived so far ([reqs[:idx]]) without the first
    [departed] of them, and every rejection so far is a queue timeout. *)
Definition ledger {C : Type} (reqs : list Request.t) (st : Run.state C) : Prop :=
  Run.queue st = drop (departed st) (take (Run.idx st) reqs) /\
  (departed st <= Run.idx st)%nat /\
  0 <= Run.accepted st /\ 0 <= Run.rejected st /\
  Run.get "QUEUE_TIMEOUT" (Run.rejected_reason st) = Run.rejected st.

Definition request (i : Z) (arrival : float) (tokens : Z) (service : float)
  : Request.t :=
  {| Request.req_id := i; Request.arrival_ts := arrival;
     Request.input_tokens := tokens; Request.output_tokens := 0;
     Request.stream_chunks := 4; Request.ttft_delay_sec := 1 # 10;
     Request.service_time_sec := service |}.

(** Seven small requests with a 5-second service time and one request
    larger than the node's token budget, all arriving at time 0. *)
Definition crowd : list Request.t :=
  map (fun i => request i 0 10 5) (seqZ 0 7) ++ [request 7 0 700000 5].

(** Two requests listed out of arrival order. *)
Definition out_of_order : list Request.t :=
  [request 0 (1 # 2) 10 1; request 1 0 10 1].

Definition first_three : nat -> list nat := fun _ => [0; 1; 2]%nat.

(** Every node's [node_id] is a position of the node list. *)
Definition ids_in_range (ns : list NodeState.t) : Prop :=
  Forall (fun n => (NodeState.node_id n < length ns)%nat) ns.

(** The node ids of a run, those of the nodes and those the flights
    carry, are positions of a node list of length [n]. *)
Definition ids_valid {C : Type} (n : nat) (st : Run.state C) : Prop :=
  length (Run.nodes st) = n /\
  Forall (fun x => (NodeState.node_id x < n)%nat) (Run.nodes st) /\
  Forall (fun f => (Inflight.node_id f < n)%nat) (Run.inflight st).

(** A single node that carries the id 1. *)
Definition misnumbered : list NodeState.t :=
  [NodeState.init 1 1150 520000 14 18].

End RunSpec.

(** ** Further predicates *)

Module Protocol.
Import AbTestSimulator.

(** How the drivers use a node: [start] only after a successful
    [can_start] at the same time, as the [for node in sample] loops do. *)
Definition try_start (n : NodeState.t) (now : float) (token_cost allowed : Z)
  : NodeState.t :=
  let '(n', (ok, _)) := NodeState.can_start n now token_cost allowed in
  if ok then NodeState.start n' now token_cost else n'.

Inductive driver_call :=
  | DRefill (now : float)
  | DTryStart (now : float) (token_cost allowed : Z)
  | DFinish.

Definition driver_step (n : NodeState.t) (c : driver_call) : NodeState.t :=
  match c with
  | DRefill now => NodeState.refill n now
  | DTryStart now cost allowed => try_start n now cost allowed
  | DFinish => NodeState.finish n
  end.

(** The same for the sweep's [Node], whose [try_start] does both. *)
Inductive sweep_call :=
  | SRefill (now : float)
  | STryStart (now : float) (tokens cap : Z)
  | SFinish.

Definition sweep_step (n : LongRatioSweep.Node.t) (c : sweep_call)
  : LongRatioSweep.Node.t :=
  match c with
  | SRefill now => LongRatioSweep.Node.refill n now
  | STryStart now tokens cap => (LongRatioSweep.Node.try_start n now tokens cap).1
  | SFinish => LongRatioSweep.Node.finish n
  end.

(** [sum(x[key] for x in per_sec)] for the two counters of a record. *)
Definition series_accepted (l : list PerSec.t) : Z :=
  foldr (fun r acc => PerSec.accepted r + acc) 0 l.
Definition series_rejected (l : list PerSec.t) : Z :=
  foldr (fun r acc => PerSec.rejected r + acc) 0 l.

(** A node that has not been overdrawn. *)
Definition solvent (n : NodeState.t) : Prop :=
  (0 <= NodeState.rpm_tokens n)%Q /\ (0 <= NodeState.tpm_tokens n)%Q /\
  0 <= NodeState.rpm_limit n /\ 0 <= NodeState.tpm_limit n.

(** The burst window holds at most one start more than the burst limit. *)
Definition burst_bounded (n : NodeState.t) : Prop :=
  (of_int (Z.of_nat (length (NodeState.starts_window n)))
   < NodeState.burst_rps_limit n + 1)%Q.

(** The sweep's node: budgets within their limits, seats within the
    concurrency ceiling. *)
Definition sweep_sound (n : LongRatioSweep.Node.t) : Prop :=
  (0 <= LongRatioSweep.Node.rpm_tokens n
   <= of_int (LongRatioSweep.Node.rpm_limit n))%Q /\
  (0 <= LongRatioSweep.Node.tpm_tokens n
   <= of_int (LongRatioSweep.Node.tpm_limit n))%Q /\
  0 <= LongRatioSweep.Node.inflight n <= LongRatioSweep.Node.max_concurrency n.

Definition sweep_req (rid0 : Z) (long : bool) : LongRatioSweep.Req.t :=
  {| LongRatioSweep.Req.rid := rid0; LongRatioSweep.Req.arrival := 0;
     LongRatioSweep.Req.in_tok := 100; LongRatioSweep.Req.out_tok := 200;
     LongRatioSweep.Req.chunks := 6; LongRatioSweep.Req.ttft_delay := 1 # 10;
     LongRatioSweep.Req.service := 1; LongRatioSweep.Req.is_long := long |}.

(** Controllers over a run of windows. *)
Definition aimd_updates (c : AimdController.t) (ms : list (Z * WindowMetrics.t))
  : AimdController.t :=
  foldl (fun c sm => AimdController.update c sm.1 sm.2) c ms.

Definition tuned_updates (c : TuneAimd.TunableAimdController.t)
    (ms : list (Z * WindowMetrics.t)) : TuneAimd.TunableAimdController.t :=
  foldl (fun c sm => TuneAimd.TunableAimdController.update c sm.1 sm.2) c ms.

(** Parameters under which the tuned controller reacts in the intended
    direction. *)
Definition tuned_params_ok (p : TuneAimd.AimdParams.t) : Prop :=
  TuneAimd.AimdParams.min_c p <= TuneAimd.AimdParams.max_c p /\
  (0 <= TuneAimd.AimdParams.decrease_factor p <= 1)%Q /\
  (1 <= TuneAimd.AimdParams.slow_start_factor p)%Q /\
  (0 <= TuneAimd.AimdParams.ai_step p)%Q.

(** The window stays in [0, max_c]. *)
Definition window_in_range (c : AimdController.t) : Prop :=
  (0 <= AimdController.cwnd c <= of_int (AimdController.max_c c))%Q /\
  AimdController.min_c c <= AimdController.max_c c.

Definition example_draws : TuneAimd.Draws.t :=
  {| TuneAimd.Draws.max_c := 96; TuneAimd.Draws.min_c := 6;
     TuneAimd.Draws.init_c := 10; TuneAimd.Draws.ssthresh := 32;
     TuneAimd.Draws.decrease_factor := 7 # 10;
     TuneAimd.Draws.cooldown_windows := 3;
     TuneAimd.Draws.rate_limit_threshold := 5 # 100;
     TuneAimd.Draws.burst_threshold := 3 # 100;
     TuneAimd.Draws.p95_threshold_ms := 2000; TuneAimd.Draws.gc_threshold := 2;
     TuneAimd.Draws.slow_start_factor := 15 # 10; TuneAimd.Draws.ai_step := 1 |}.

Definition example_params : TuneAimd.AimdParams.t :=
  TuneAimd.sample_params example_draws.

End Protocol.

(** ** The run's report *)

Module Report.
Import AbTestSimulator.

Section WithState.
Context {C : Type}.

(** Entries of the dictionary [run_simulation] returns that are read off
    the counters: [rejected_reason[...]] on the [defaultdict] and the
    95th percentile of the queue waits. *)
Definition burst_reject (st : Run.state C) : Z :=
  Run.get "BURST" (Run.rejected_reason st).
Definition rate_rpm_reject (st : Run.state C) : Z :=
  Run.get "RATE_RPM" (Run.rejected_reason st).
Definition rate_tpm_reject (st : Run.state C) : Z :=
  Run.get "RATE_TPM" (Run.rejected_reason st).
Definition timeout_reject (st : Run.state C) : Z :=
  Run.get "QUEUE_TIMEOUT" (Run.rejected_reason st).
Definition p95_queue_wait_ms (st : Run.state C) : float :=
  percentile (Run.queue_wait_ms st) 95.

(** No key other than [QUEUE_TIMEOUT] has been written. *)
Definition only_timeouts (st : Run.state C) : Prop :=
  forall k, k <> "QUEUE_TIMEOUT" -> Run.rejected_reason st !! k = None.

(** The time series against the running counters. *)
Definition series_ok (st : Run.state C) : Prop :=
  (forall i r, Run.per_sec st !! i = Some r -> PerSec.second r = Z.of_nat i) /\
  Run.sec_cursor st = Z.of_nat (length (Run.per_sec st)) /\
  Run.accepted st = Protocol.series_accepted (Run.per_sec st) + Run.sec_accepted st /\
  Run.rejected st = Protocol.series_rejected (Run.per_sec st) + Run.sec_rejected st /\
  (of_int (Run.sec_cursor st) <= Run.now st)%Q.

(** [wait] as [run_simulation] computes it at completion. *)
Definition wait_of (c : Inflight.t) : float :=
  (Inflight.start_ts c -. Request.arrival_ts (Inflight.req c)) *. 1000.

Definition arrived (now : float) (r : Request.t) : Prop :=
  (Request.arrival_ts r <= now)%Q.

Definition started_after_arrival (c : Inflight.t) : Prop :=
  (Request.arrival_ts (Inflight.req c) <= Inflight.start_ts c)%Q.

Definition started_in_time (c : Inflight.t) : Prop :=
  (Inflight.start_ts c - Request.arrival_ts (Inflight.req c)
   <= Run.queue_timeout)%Q.

Definition waits_ok (st : Run.state C) : Prop :=
  Forall (arrived (Run.now st)) (Run.queue st) /\
  Forall started_after_arrival (Run.inflight st) /\
  Forall (fun w => (0 <= w)%Q) (Run.queue_wait_ms st).

Definition waits_timely (st : Run.state C) : Prop :=
  Forall started_in_time (Run.inflight st) /\
  Forall (fun w => (w <= 1200)%Q) (Run.queue_wait_ms st).

End WithState.
End Report.

(** ** [generate_requests]

    The calls to the random module are answered by an oracle: [gauss] by
    second, [random] and [randint] by request and by position among the
    request's calls. *)

Module Workload.
Import AbTestSimulator.

Record rng := {
  gauss : Z -> float -> float -> float;    (* second, mu, sigma *)
  random : nat -> nat -> float;            (* request, call *)
  randint : nat -> nat -> Z -> Z -> Z;     (* request, call, a, b *)
}.

(** What the random module guarantees: [random()] in [0, 1) and
    [randint(a, b)] in [a, b]. *)
Definition rng_ok (r : rng) : Prop :=
  (forall i k, (0 <= random r i k < 1)%Q) /\
  (forall i k a b, a <= b -> a <= randint r i k a b <= b).

(** Base arrivals and burst windows. *)
Definition lam (sec : Z) : Z :=
  let lam0 :=
    if ((35 <=? sec) && (sec <? 80)) || ((115 <=? sec) && (sec <? 155))
    then 190 else 85 in
  if (155 <=? sec) && (sec <? 175) then 260 else lam0.

(** The body of [for _ in range(n)], for the request numbered [rid].  Two
    sums are rounded as binary64 rounds them: [sec + random.random()],
    which for a draw just below 1 is [sec + 1], and [ttft_delay + 0.02],
    the lower end of the service time. *)
Definition make_request (r : rng) (sec : Z) (rid : nat) : Request.t :=
  let t := add64 (of_int sec) (random r rid 0) in
  let p := random r rid 1 in
  let toks :=
    if p <?. (1 # 2) then (randint r rid 0 40 160, randint r rid 1 80 260)
    else if p <?. (85 # 100) then (randint r rid 0 160 420, randint r rid 1 260 900)
    else (randint r rid 0 420 1100, randint r rid 1 900 2600) in
  let in_tok := toks.1 in
  let out_tok := toks.2 in
  let chunks := Z.max 4 (out_tok / 32) in
  let ttft_delay :=
    (35 # 1000) +. py_min (22 # 100) (of_int chunks *. (22 # 10000))
    +. random r rid 2 *. (25 # 1000) in
  let service :=
    py_max (add64 ttft_delay (2 # 100))
           ((8 # 100) +. of_int chunks *. (12 # 1000)
            +. random r rid 3 *. (8 # 100)) in
  {| Request.req_id := Z.of_nat rid; Request.arrival_ts := t;
     Request.input_tokens := in_tok; Request.output_tokens := out_tok;
     Request.stream_chunks := chunks; Request.ttft_delay_sec := ttft_delay;
     Request.service_time_sec := service |}.

(** [n = max(1, int(random.gauss(lam, lam * 0.1)))] *)
Definition arrivals_in (r : rng) (sec : Z) : nat :=
  Z.to_nat (Z.max 1 (py_int (gauss r sec (of_int (lam sec))
                               (of_int (lam sec) *. (1 # 10))))).

(** [for _ in range(n)], starting at request number [rid]. *)
Fixpoint second_requests (r : rng) (sec : Z) (rid n : nat) : list Request.t :=
  match n with
  | O => []
  | S n' => make_request r sec rid :: second_requests r sec (S rid) n'
  end.

(** [for sec in range(duration_sec)] *)
Fixpoint generate_loop (r : rng) (secs : list Z) (rid : nat) : list Request.t :=
  match secs with
  | [] => []
  | sec :: rest =>
      let n := arrivals_in r sec in
      second_requests r sec rid n ++ generate_loop r rest (rid + n)
  end.

(** [reqs.sort(key=lambda r: r.arrival_ts)], a stable sort. *)
Fixpoint insert_by_arrival (x : Request.t) (l : list Request.t) : list Request.t :=
  match l with
  | [] => [x]
  | y :: rest =>
      if Request.arrival_ts x <=?. Request.arrival_ts y then x :: l
      else y :: insert_by_arrival x rest
  end.

Definition sort_by_arrival (l : list Request.t) : list Request.t :=
  foldr insert_by_arrival [] l.

Definition generate_requests (r : rng) (duration_sec : Z) : list Request.t :=
  sort_by_arrival (generate_loop r (seqZ 0 duration_sec) 0).

(** What holds of every generated request, whatever the draws:
    [chunks == max(4, out_tok // 32)] and
    [ttft_delay_sec + 0.02 <= service_time_sec]. *)
Definition well_shaped (q : Request.t) : Prop :=
  Request.stream_chunks q = Z.max 4 (Request.output_tokens q / 32) /\
  (add64 (Request.ttft_delay_sec q) (2 # 100) <= Request.service_time_sec q)%Q.

(** What holds of it for draws in the ranges of the random module. *)
Definition in_ranges (duration_sec : Z) (q : Request.t) : Prop :=
  (0 <= Request.arrival_ts q <= of_int duration_sec)%Q /\
  40 <= Request.input_tokens q <= 1100 /\
  80 <= Request.output_tokens q <= 2600 /\
  4 <= Request.stream_chunks q <= 81 /\
  ((35 # 1000) <= Request.ttft_delay_sec q <= (28 # 100))%Q.

Definition earlier (a b : Request.t) : Prop :=
  (Request.arrival_ts a <= Request.arrival_ts b)%Q.

(** The requests of second [sec]: they arrive in [sec, sec + 1]. *)
Definition arrives_in (sec : Z) (q : Request.t) : Prop :=
  (of_int sec <= Request.arrival_ts q <= of_int sec + 1)%Q.

(** A fixed oracle, for examples. *)
Definition steady : rng :=
  {| gauss := fun _ _ _ => 5 # 2;
     random := fun _ _ => 1 # 4;
     randint := fun _ _ a _ => a |}.

(** An oracle whose [random()] is the largest binary64 number below 1. *)
Definition late : rng :=
  {| gauss := fun _ _ _ => 5 # 2;
     random := fun _ _ => 9007199254740991 # 9007199254740992;
     randint := fun _ _ a _ => a |}.

End Workload.

(** ** Seat accounting *)

Module Seats.
Import AbTestSimulator.

(** The number of flights of [l] that run on node [i]. *)
Fixpoint on_node (i : nat) (l : list Inflight.t) : Z :=
  match l with
  | [] => 0
  | f :: rest => (if Nat.eqb (Inflight.node_id f) i then 1 else 0) + on_node i rest
  end.

(** [nodes[k].node_id == k], as every node factory of the repository
    builds them. *)
Definition ids_are_positions (ns : list NodeState.t) : Prop :=
  forall i n, ns !! i = Some n -> NodeState.node_id n = i.

Definition flight_id (f : Inflight.t) : Z := Request.req_id (Inflight.req f).

(** [nodes[c.node_id].finish()] for each completed flight. *)
Definition finish_all (ns : list NodeState.t) (done : list Inflight.t)
  : list NodeState.t :=
  foldl (fun ns c => alter NodeState.finish (Inflight.node_id c) ns) ns done.

(** Every node's counter is the number of flights on it, no two flights
    carry the same request id, and every flight's request has left the
    queue. *)
Definition seats_match {C : Type} (reqs : list Request.t) (st : Run.state C)
  : Prop :=
  ids_are_positions (Run.nodes st) /\
  (forall i, Run.inflight_at (Run.nodes st) i = on_node i (Run.inflight st)) /\
  NoDup (map flight_id (Run.inflight st)) /\
  Forall (fun f => Inflight.req f ∈ take (RunSpec.departed st) reqs)
         (Run.inflight st).

End Seats.

(** ** [run_sim] of [long_ratio_sweep_pool_vs_traditional.py]

    The local variables of [run_sim] and the policy object form the record
    [SweepRun.state]; one iteration of [while now <= end] is
    [SweepRun.tick].  [run] calls [run_sim] twice, with a
    [TraditionalPolicy] and [is_pool=False] and with a [PoolFirstPolicy]
    and [is_pool=True]; [policy_t] has these two cases and [is_pool] is
    read off it. *)

Module SweepRun.
Import LongRatioSweep.

Module Flight.
Record t := {
  req : Req.t;
  start : float;
  finish : float;
  node : nat;
}.
End Flight.

Inductive policy_t :=
  | Traditional (cap : Z)
  | PoolFirst (p : PoolFirstPolicy).

Definition is_pool (pol : policy_t) : bool :=
  match pol with Traditional _ => false | PoolFirst _ => true end.

Definition policy_capacity (pol : policy_t) : Z :=
  match pol with Traditional cap => cap | PoolFirst p => capacity p end.

Definition queue_timeout (pol : policy_t) : float :=
  match pol with Traditional _ => 8 # 10 | PoolFirst _ => 14 # 10 end.

Definition policy_select (pol : policy_t) (queue : list Req.t) : option Req.t :=
  match pol with
  | Traditional _ => traditional_select_request queue
  | PoolFirst _ => select_request queue
  end.

(** [is_pool and (not policy.acquire_slot())]: the call is made for the
    pool policy only. *)
Definition acquire (pol : policy_t) : policy_t * bool :=
  match pol with
  | Traditional _ => (pol, true)
  | PoolFirst p => (PoolFirst (acquire_slot p).1, (acquire_slot p).2)
  end.

(** [if is_pool: policy.release_slot()] *)
Definition release (pol : policy_t) : policy_t :=
  match pol with
  | Traditional _ => pol
  | PoolFirst p => PoolFirst (release_slot p)
  end.

(** [build_nodes] *)
Definition build_node (i : Z) : Node.t :=
  Node.init (1150 + i * 80) (520000 + i * 45000) (14 + i).

Definition build_nodes : list Node.t := map build_node (seqZ 0 6).

Record state := {
  nodes : list Node.t;
  queue : list Req.t;   (* deque *)
  flights : list Flight.t;
  idx : nat;
  now : float;
  accepted : Z;
  rejected : Z;
  accepted_tokens : Z;
  ttft : list float;
  e2e : list float;
  sec_gc : list Z;
  sec_gc_counter : Z;
  young_heap : Z;
  policy : policy_t;
  draws : nat;   (* calls made to [random.sample] *)
}.

(** Assignments to one variable. *)
Definition set_nodes (v : list Node.t) (st : state) : state :=
  {| nodes := v; queue := queue st; flights := flights st; idx := idx st;
     now := now st; accepted := accepted st; rejected := rejected st;
     accepted_tokens := accepted_tokens st; ttft := ttft st; e2e := e2e
     st; sec_gc := sec_gc st; sec_gc_counter := sec_gc_counter st;
     young_heap := young_heap st; policy := policy st; draws := draws st
     |}.
Definition set_queue (v : list Req.t) (st : state) : state :=
  {| nodes := nodes st; queue := v; flights := flights st; idx := idx st;
     now := now st; accepted := accepted st; rejected := rejected st;
     accepted_tokens := accepted_tokens st; ttft := ttft st; e2e := e2e
     st; sec_gc := sec_gc st; sec_gc_counter := sec_gc_counter st;
     young_heap := young_heap st; policy := policy st; draws := draws st
     |}.
Definition set_flights (v : list Flight.t) (st : state) : state :=
  {| nodes := nodes st; queue := queue st; flights := v; idx := idx st;
     now := now st; accepted := accepted st; rejected := rejected st;
     accepted_tokens := accepted_tokens st; ttft := ttft st; e2e := e2e
     st; sec_gc := sec_gc st; sec_gc_counter := sec_gc_counter st;
     young_heap := young_heap st; policy := policy st; draws := draws st
     |}.
Definition set_idx (v : nat) (st : state) : state :=
  {| nodes := nodes st; queue := queue st; flights := flights st; idx :=
     v; now := now st; accepted := accepted st; rejected := rejected st;
     accepted_tokens := accepted_tokens st; ttft := ttft st; e2e := e2e
     st; sec_gc := sec_gc st; sec_gc_counter := sec_gc_counter st;
     young_heap := young_heap st; policy := policy st; draws := draws st
     |}.
Definition set_now (v : float) (st : state) : state :=
  {| nodes := nodes st; queue := queue st; flights := flights st; idx :=
     idx st; now := v; accepted := accepted st; rejected := rejected st;
     accepted_tokens := accepted_tokens st; ttft := ttft st; e2e := e2e
     st; sec_gc := sec_gc st; sec_gc_counter := sec_gc_counter st;
     young_heap := young_heap st; policy := policy st; draws := draws st
     |}.
Definition set_accepted (v : Z) (st : state) : state :=
  {| nodes := nodes st; queue := queue st; flights := flights st; idx :=
     idx st; now := now st; accepted := v; rejected := rejected st;
     accepted_tokens := accepted_tokens st; ttft := ttft st; e2e := e2e
     st; sec_gc := sec_gc st; sec_gc_counter := sec_gc_counter st;
     young_heap := young_heap st; policy := policy st; draws := draws st
     |}.
Definition set_rejected (v : Z) (st : state) : state :=
  {| nodes := nodes st; queue := queue st; flights := flights st; idx :=
     idx st; now := now st; accepted := accepted st; rejected := v;
     accepted_tokens := accepted_tokens st; ttft := ttft st; e2e := e2e
     st; sec_gc := sec_gc st; sec_gc_counter := sec_gc_counter st;
     young_heap := young_heap st; policy := policy st; draws := draws st
     |}.
Definition set_accepted_tokens (v : Z) (st : state) : state :=
  {| nodes := nodes st; queue := queue st; flights := flights st; idx :=
     idx st; now := now st; accepted := accepted st; rejected := rejected
     st; accepted_tokens := v; ttft := ttft st; e2e := e2e st; sec_gc :=
     sec_gc st; sec_gc_counter := sec_gc_counter st; young_heap :=
     young_heap st; policy := policy st; draws := draws st |}.
Definition set_ttft (v : list float) (st : state) : state :=
  {| nodes := nodes st; queue := queue st; flights := flights st; idx :=
     idx st; now := now st; accepted := accepted st; rejected := rejected
     st; accepted_tokens := accepted_tokens st; ttft := v; e2e := e2e st;
     sec_gc := sec_gc st; sec_gc_counter := sec_gc_counter st; young_heap
     := young_heap st; policy := policy st; draws := draws st |}.
Definition set_e2e (v : list float) (st : state) : state :=
  {| nodes := nodes st; queue := queue st; flights := flights st; idx :=
     idx st; now := now st; accepted := accepted st; rejected := rejected
     st; accepted_tokens := accepted_tokens st; ttft := ttft st; e2e := v;
     sec_gc := sec_gc st; sec_gc_counter := sec_gc_counter st; young_heap
     := young_heap st; policy := policy st; draws := draws st |}.
Definition set_sec_gc (v : list Z) (st : state) : state :=
  {| nodes := nodes st; queue := queue st; flights := flights st; idx :=
     idx st; now := now st; accepted := accepted st; rejected := rejected
     st; accepted_tokens := accepted_tokens st; ttft := ttft st; e2e :=
     e2e st; sec_gc := v; sec_gc_counter := sec_gc_counter st; young_heap
     := young_heap st; policy := policy st; draws := draws st |}.
Definition set_sec_gc_counter (v : Z) (st : state) : state :=
  {| nodes := nodes st; queue := queue st; flights := flights st; idx :=
     idx st; now := now st; accepted := accepted st; rejected := rejected
     st; accepted_tokens := accepted_tokens st; ttft := ttft st; e2e :=
     e2e st; sec_gc := sec_gc st; sec_gc_counter := v; young_heap :=
     young_heap st; policy := policy st; draws := draws st |}.
Definition set_young_heap (v : Z) (st : state) : state :=
  {| nodes := nodes st; queue := queue st; flights := flights st; idx :=
     idx st; now := now st; accepted := accepted st; rejected := rejected
     st; accepted_tokens := accepted_tokens st; ttft := ttft st; e2e :=
     e2e st; sec_gc := sec_gc st; sec_gc_counter := sec_gc_counter st;
     young_heap := v; policy := policy st; draws := draws st |}.
Definition set_policy (v : policy_t) (st : state) : state :=
  {| nodes := nodes st; queue := queue st; flights := flights st; idx :=
     idx st; now := now st; accepted := accepted st; rejected := rejected
     st; accepted_tokens := accepted_tokens st; ttft := ttft st; e2e :=
     e2e st; sec_gc := sec_gc st; sec_gc_counter := sec_gc_counter st;
     young_heap := young_heap st; policy := v; draws := draws st |}.
Definition set_draws (v : nat) (st : state) : state :=
  {| nodes := nodes st; queue := queue st; flights := flights st; idx :=
     idx st; now := now st; accepted := accepted st; rejected := rejected
     st; accepted_tokens := accepted_tokens st; ttft := ttft st; e2e :=
     e2e st; sec_gc := sec_gc st; sec_gc_counter := sec_gc_counter st;
     young_heap := young_heap st; policy := policy st; draws := v |}.

Definition dt : float := 1 # 50.

(** [sum(n.inflight for n in nodes)] *)
Definition total_inflight (ns : list Node.t) : Z :=
  foldr (fun n acc => Node.inflight n + acc) 0 ns.

Definition inflight_at (ns : list Node.t) (i : nat) : Z :=
  from_option Node.inflight 0 (ns !! i).

Section WithInput.
Variable reqs : list Req.t.
Variable sampler : nat -> list nat.

(** [while idx < len(reqs) and reqs[idx].arrival <= now]; [pending] is
    [reqs[idx:]]. *)
Fixpoint arrive_loop (pending : list Req.t) (st : state) : state :=
  match pending with
  | [] => st
  | r :: rest =>
      if Req.arrival r <=?. now st then
        arrive_loop rest (set_idx (S (idx st)) (set_queue (queue st ++ [r]) st))
      else st
  end.

Definition arrive (st : state) : state := arrive_loop (drop (idx st) reqs) st.

(** The body of [for f in done]. *)
Definition complete_one (st : state) (f : Flight.t) : state :=
  let r := Flight.req f in
  let st := set_nodes (alter Node.finish (Flight.node f) (nodes st)) st in
  let st := set_policy (release (policy st)) st in
  let st :=
    set_ttft (ttft st ++ [(Flight.start f -. Req.arrival r +. Req.ttft_delay r)
                          *. 1000]) st in
  set_e2e (e2e st ++ [(Flight.finish f -. Req.arrival r) *. 1000]) st.

Definition complete (st : state) : state :=
  let done := List.filter (fun f => Flight.finish f <=?. now st) (flights st) in
  match done with
  | [] => st
  | _ =>
      let done_ids := map (fun f => Req.rid (Flight.req f)) done in
      let st' := foldl complete_one st done in
      set_flights
        (List.filter
           (fun f => negb (bool_decide (Req.rid (Flight.req f) ∈ done_ids)))
           (flights st)) st'
  end.

(** [while queue and now - queue[0].arrival > policy.queue_timeout()] *)
Fixpoint timeout_loop (q : list Req.t) (st : state) : state :=
  match q with
  | [] => st
  | r :: q' =>
      if queue_timeout (policy st) <?. (now st -. Req.arrival r) then
        timeout_loop q' (set_rejected (rejected st + 1) (set_queue q' st))
      else st
  end.

Definition expire (st : state) : state := timeout_loop (queue st) st.

(** [sample.sort(key=lambda n: n.inflight)], a stable sort of the sampled
    positions. *)
Fixpoint insert_by_inflight (ns : list Node.t) (i : nat) (l : list nat)
  : list nat :=
  match l with
  | [] => [i]
  | j :: rest =>
      if inflight_at ns i <=? inflight_at ns j then i :: l
      else j :: insert_by_inflight ns i rest
  end.

Definition sort_by_inflight (ns : list Node.t) (sample : list nat) : list nat :=
  foldr (insert_by_inflight ns) [] sample.

(** [for node in sample: if node.try_start(...)]: the nodes after the
    attempts and the position ([nodes.index(node)]) of the node that
    started the request, if one did. *)
Fixpoint try_nodes (now0 : float) (tokens cap : Z) (sample : list nat)
    (ns : list Node.t) : list Node.t * option nat :=
  match sample with
  | [] => (ns, None)
  | i :: rest =>
      match ns !! i with
      | None => try_nodes now0 tokens cap rest ns
      | Some n =>
          let n' := (Node.try_start n now0 tokens cap).1 in
          if (Node.try_start n now0 tokens cap).2 then (<[i := n']> ns, Some i)
          else try_nodes now0 tokens cap rest (<[i := n']> ns)
      end
  end.

(** The allocation-churn model run after an admission. *)
Definition heap_after (pool : bool) (req : Req.t) (young : Z) : Z :=
  let young := young + (Req.chunks req * 1024 + Req.out_tok req * 16) in
  if negb pool && Req.is_long req then young + Req.chunks req * 700 else young.

Definition gc_after (pool : bool) (young : Z) : Z * Z :=
  if 3000000 <? young then
    (1, py_int (of_int young *. (if pool then 38 # 100 else 30 # 100)))
  else (0, young).

Definition sample_size (pol : policy_t) : nat :=
  if is_pool pol then 4%nat else 2%nat.

(** [queue.remove(req)]; it raises [ValueError] when [req] is not in the
    queue, which [select_request] excludes. *)
Definition queue_remove (req : Req.t) (queue : list Req.t) : list Req.t :=
  default queue (remove_first req queue).

(** One admission: the request was started on node [i]. *)
Definition admitted (req : Req.t) (i : nat) (ns : list Node.t) (st : state)
  : state :=
  let pool := is_pool (policy st) in
  let young := heap_after pool req (young_heap st) in
  let fl := {| Flight.req := req; Flight.start := now st;
               Flight.finish := now st +. Req.service req; Flight.node := i |} in
  set_young_heap (gc_after pool young).2
    (set_sec_gc_counter (sec_gc_counter st + (gc_after pool young).1)
       (set_flights (flights st ++ [fl])
          (set_accepted_tokens (accepted_tokens st + Req.total_tokens req)
             (set_accepted (accepted st + 1)
                (set_queue (queue_remove req (queue st))
                   (set_nodes ns st)))))).

(** [while queue and total_inflight < policy.capacity()]; every iteration
    that does not leave the loop removes a request from the queue, so
    [len(queue)] iterations are enough ([fuel]). *)
Fixpoint admit_loop (fuel : nat) (total : Z) (st : state) : state :=
  match fuel with
  | O => st
  | S fuel' =>
      match policy_select (policy st) (queue st) with
      | None => st
      | Some req =>
          if total <? policy_capacity (policy st) then
            if (acquire (policy st)).2 then
              let st := set_policy (acquire (policy st)).1 st in
              let cap := policy_capacity (policy st) in
              let k := Nat.min (sample_size (policy st)) (length (nodes st)) in
              let sample :=
                sort_by_inflight (nodes st) (take k (sampler (draws st))) in
              let st := set_draws (S (draws st)) st in
              match try_nodes (now st) (Req.total_tokens req) cap sample
                      (nodes st) with
              | (ns, Some i) => admit_loop fuel' (total + 1) (admitted req i ns st)
              | (ns, None) => set_policy (release (policy st)) (set_nodes ns st)
              end
            else st
          else st
      end
  end.

Definition admission (st : state) : state :=
  admit_loop (length (queue st)) (total_inflight (nodes st)) st.

(** [abs(x)] *)
Definition fabs (x : float) : float := if x <?. 0 then 0 -. x else x.

(** [now % 1.0] for a non-negative [now]. *)
Definition mod_one (x : float) : float := x -. of_int (Qfloor x).

(** [if abs((now % 1.0) - 0.0) < dt / 2] *)
Definition gc_window (st : state) : state :=
  if fabs (mod_one (now st) -. 0) <?. dt /. 2 then
    set_sec_gc_counter 0 (set_sec_gc (sec_gc st ++ [sec_gc_counter st]) st)
  else st.

(** [now += dt] *)
Definition advance (st : state) : state := set_now (now st +. dt) st.

Definition tick (st : state) : state :=
  advance (gc_window (admission (expire (complete (arrive st))))).

Definition ticks (k : nat) (st : state) : state := Nat.iter k tick st.

(** [while now <= end]: [None] when the tick budget is used up with the
    loop condition still true. *)
Fixpoint run_loop (fuel : nat) (end_time : float) (st : state) : option state :=
  if now st <=?. end_time then
    match fuel with
    | O => None
    | S fuel' => run_loop fuel' end_time (tick st)
    end
  else Some st.

End WithInput.

Definition init_state (ns : list Node.t) (pol : policy_t) : state :=
  {| nodes := ns; queue := []; flights := []; idx := 0%nat; now := 0;
     accepted := 0; rejected := 0; accepted_tokens := 0; ttft := []; e2e := [];
     sec_gc := []; sec_gc_counter := 0; young_heap := 0; policy := pol;
     draws := 0%nat |}.

(** [max(r.arrival for r in reqs) + 20] *)
Definition end_time (r : Req.t) (rest : list Req.t) : float :=
  foldl (fun m x => py_max m (Req.arrival x)) (Req.arrival r) rest +. 20.

Inductive outcome :=
  | Raised (exn : string)       (* the call raises before the loop *)
  | Finished (final : state)    (* the loop condition became false *)
  | Running (st : state).       (* tick budget used up *)

(** [run_sim(reqs, policy, is_pool)] up to the end of its loop, on the
    nodes of [build_nodes]. *)
Definition run_sim (reqs : list Req.t) (sampler : nat -> list nat)
    (pol : policy_t) : outcome :=
  match reqs with
  | [] => Raised "ValueError"   (* max() of an empty sequence *)
  | r :: rest =>
      let e := end_time r rest in
      let st0 := init_state build_nodes pol in
      let budget := AbTestSimulator.Run.tick_budget e in
      match run_loop reqs sampler budget e st0 with
      | Some st => Finished st
      | None => Running (ticks reqs sampler budget st0)
      end
  end.

(** A fixed answer of [random.sample], for examples. *)
Definition first_four : nat -> list nat := fun _ => [0; 1; 2; 3]%nat.

(** The number of flights of [l] on node [i]. *)
Fixpoint on_node (i : nat) (l : list Flight.t) : Z :=
  match l with
  | [] => 0
  | f :: rest => (if Nat.eqb (Flight.node f) i then 1 else 0) + on_node i rest
  end.

Definition flight_rid (f : Flight.t) : Z := Req.rid (Flight.req f).

(** [nodes[f.node].finish()] for each completed flight. *)
Definition finish_flights (ns : list Node.t) (done : list Flight.t) : list Node.t :=
  foldl (fun ns f => alter Node.finish (Flight.node f) ns) ns done.

(** The requests that are queued or in flight. *)
Definition pending_rids (st : state) : list Z :=
  map Req.rid (queue st) ++ map flight_rid (flights st).

(** The pool's slot count is the number of flights. *)
Definition slots_match (st : state) : Prop :=
  match policy st with
  | Traditional _ => True
  | PoolFirst p => pool_inv p /\ active p = Z.of_nat (length (flights st))
  end.

(** Every node's counter is the number of flights on it, the queued and
    in-flight requests are distinct requests that have arrived, the
    counters add up, and the policy is of the kind and capacity the run was
    started with ([pol0]). *)
Definition sweep_ok (reqs : list Req.t) (pol0 : policy_t) (st : state) : Prop :=
  (forall i, inflight_at (nodes st) i = on_node i (flights st)) /\
  NoDup (pending_rids st) /\
  (forall x, x ∈ pending_rids st -> x ∈ map Req.rid (take (idx st) reqs)) /\
  slots_match st /\
  Z.of_nat (idx st) = Z.of_nat (length (queue st)) + accepted st + rejected st /\
  accepted st = Z.of_nat (length (flights st)) + Z.of_nat (length (e2e st)) /\
  length (ttft st) = length (e2e st) /\
  0 <= rejected st /\
  Z.of_nat (length (flights st)) <= Z.max 0 (policy_capacity (policy st)) /\
  is_pool (policy st) = is_pool pol0 /\
  policy_capacity (policy st) = policy_capacity pol0.

End SweepRun.

(** * Properties *)

(** ** Numbers *)

Lemma fadd_eq x y : (x +. y == x + y)%Q.
Proof. apply Qred_correct. Qed.
Lemma fsub_eq x y : (x -. y == x - y)%Q.
Proof. apply Qred_correct. Qed.
Lemma fmul_eq x y : (x *. y == x * y)%Q.
Proof. apply Qred_correct. Qed.
Lemma fdiv_eq x y : (x /. y == x / y)%Q.
Proof. apply Qred_correct. Qed.

Lemma fle_true x y : (x <=?. y) = true <-> (x <= y)%Q.
Proof. apply Qle_bool_iff. Qed.

Lemma fle_false x y : (x <=?. y) = false <-> (y < x)%Q.
Proof.
  unfold fle. split; intros H.
  - apply Qnot_le_lt. intros Hle. apply Qle_bool_iff in Hle. congruence.
  - destruct (Qle_bool x y) eqn:E; [|reflexivity].
    apply Qle_bool_iff in E. exfalso. apply (Qlt_not_le _ _ H E).
Qed.

Lemma flt_true x y : (x <?. y) = true <-> (x < y)%Q.
Proof.
  unfold flt. rewrite negb_true_iff. apply fle_false.
Qed.

Lemma flt_false x y : (x <?. y) = false <-> (y <= x)%Q.
Proof.
  unfold flt. rewrite negb_false_iff. apply fle_true.
Qed.

Ltac fcases :=
  repeat match goal with
  | H : (_ <?. _) = true |- _ => apply flt_true in H
  | H : (_ <?. _) = false |- _ => apply flt_false in H
  | H : (_ <=?. _) = true |- _ => apply fle_true in H
  | H : (_ <=?. _) = false |- _ => apply fle_false in H
  end.

Ltac fnorm :=
  repeat first [ rewrite fadd_eq | rewrite fsub_eq | rewrite fmul_eq | rewrite fdiv_eq ].

Lemma py_max_l a b : (a <= py_max a b)%Q.
Proof. unfold py_max. destruct (a <?. b) eqn:E; fcases; lra. Qed.
Lemma py_max_r a b : (b <= py_max a b)%Q.
Proof. unfold py_max. destruct (a <?. b) eqn:E; fcases; lra. Qed.
Lemma py_min_l a b : (py_min a b <= a)%Q.
Proof. unfold py_min. destruct (b <?. a) eqn:E; fcases; lra. Qed.
Lemma py_min_r a b : (py_min a b <= b)%Q.
Proof. unfold py_min. destruct (b <?. a) eqn:E; fcases; lra. Qed.
Lemma py_max_lub a b c : (a <= c -> b <= c -> py_max a b <= c)%Q.
Proof. unfold py_max. destruct (a <?. b); auto. Qed.
Lemma py_min_glb a b c : (c <= a -> c <= b -> c <= py_min a b)%Q.
Proof. unfold py_min. destruct (b <?. a); auto. Qed.

Lemma of_int_le a b : a <= b -> (of_int a <= of_int b)%Q.
Proof. intros. unfold of_int. rewrite <- Zle_Qle. assumption. Qed.

Lemma of_int_max a b : of_int (Z.max a b) = py_max (of_int a) (of_int b).
Proof.
  unfold py_max, of_int.
  destruct (inject_Z a <?. inject_Z b) eqn:E; fcases.
  - rewrite <- Zlt_Qlt in E. f_equal. lia.
  - rewrite <- Zle_Qle in E. f_equal. lia.
Qed.

Lemma py_max_idem a b : py_max a (py_max a b) = py_max a b.
Proof.
  unfold py_max at 2 3. destruct (a <?. b) eqn:E.
  - unfold py_max. rewrite E. reflexivity.
  - unfold py_max. destruct (a <?. a) eqn:E'; reflexivity.
Qed.

(** ** Binary64 rounding *)

Lemma pow2_pos e : (0 < pow2 e)%Q.
Proof. apply Qpower_0_lt. reflexivity. Qed.

Lemma pow2_plus a b : (pow2 (a + b) == pow2 a * pow2 b)%Q.
Proof. apply Qpower_plus. intros H. discriminate H. Qed.

Lemma pow2_int e : 0 <= e -> (pow2 e == inject_Z (2 ^ e))%Q.
Proof. intros He. unfold pow2. rewrite Zpower_Qpower by exact He. reflexivity. Qed.

Lemma pow2_le a b : a <= b -> (pow2 a <= pow2 b)%Q.
Proof. intros H. apply Qpower_le_compat_l; [exact H | discriminate]. Qed.

Lemma pow2_le_inv a b : (pow2 a <= pow2 b)%Q -> a <= b.
Proof. intros H. apply (Qpower_le_compat_l_inv 2); [exact H | reflexivity]. Qed.

Lemma rne_floor q : Qfloor q <= rne q <= Qfloor q + 1.
Proof.
  unfold rne. destruct (_ ?= _)%Q; [destruct (Z.even _)| |]; lia.
Qed.

Lemma rne_near q : (q - (1 # 2) <= inject_Z (rne q) <= q + (1 # 2))%Q.
Proof.
  pose proof (Qfloor_le q) as Hlo. pose proof (Qlt_floor q) as Hhi.
  rewrite inject_Z_plus in Hhi. change (inject_Z 1) with 1%Q in Hhi.
  unfold rne. destruct (_ ?= _)%Q eqn:E.
  - apply Qeq_alt in E.
    destruct (Z.even _); [|rewrite inject_Z_plus; change (inject_Z 1) with 1%Q]; lra.
  - apply Qlt_alt in E. lra.
  - apply Qgt_alt in E. rewrite inject_Z_plus. change (inject_Z 1) with 1%Q. lra.
Qed.

Lemma rne_le_int q n : (q <= inject_Z n)%Q -> rne q <= n.
Proof.
  intros Hq. pose proof (Qfloor_le q) as Hlo.
  assert (Hf : Qfloor q <= n).
  { rewrite <- (Qfloor_Z n). apply Qfloor_resp_le, Hq. }
  unfold rne. destruct (_ ?= _)%Q eqn:E.
  - apply Qeq_alt in E. destruct (Z.even _); [exact Hf|].
    assert (Hlt : (inject_Z (Qfloor q) < inject_Z n)%Q) by lra.
    rewrite <- Zlt_Qlt in Hlt. lia.
  - exact Hf.
  - apply Qgt_alt in E.
    assert (Hlt : (inject_Z (Qfloor q) < inject_Z n)%Q) by lra.
    rewrite <- Zlt_Qlt in Hlt. lia.
Qed.

Lemma rne_ge_int q n : (inject_Z n <= q)%Q -> n <= rne q.
Proof.
  intros Hq.
  assert (Hf : n <= Qfloor q).
  { rewrite <- (Qfloor_Z n). apply Qfloor_resp_le, Hq. }
  pose proof (rne_floor q). lia.
Qed.

(** [2^(ilog2 x) <= x < 2^(ilog2 x + 1)] *)
Lemma ilog2_spec x : (0 < x)%Q -> (pow2 (ilog2 x) <= x < pow2 (ilog2 x + 1))%Q.
Proof.
  intros Hx. destruct x as [n d]. unfold ilog2. cbn [Qnum Qden].
  assert (Hn : 0 < n) by (unfold Qlt in Hx; simpl in Hx; lia).
  set (a := Z.log2 n). set (b := Z.log2 (Z.pos d)).
  assert (Ha0 : 0 <= a) by apply Z.log2_nonneg.
  assert (Hb0 : 0 <= b) by apply Z.log2_nonneg.
  destruct (Z.log2_spec n Hn) as [Ha1 Ha2]. fold a in Ha1, Ha2.
  destruct (Z.log2_spec (Z.pos d) eq_refl) as [Hb1 Hb2]. fold b in Hb1, Hb2.
  assert (HN : (n # d == inject_Z n / inject_Z (Z.pos d))%Q) by apply Qmake_Qdiv.
  assert (HD : (0 < inject_Z (Z.pos d))%Q) by reflexivity.
  assert (Hxd : ((n # d) * inject_Z (Z.pos d) == inject_Z n)%Q).
  { rewrite HN. field. intros H0. rewrite H0 in HD. discriminate HD. }
  (* 2^(a-b-1) * 2^(b+1) = 2^a and 2^(a-b+1) * 2^b = 2^(a+1) *)
  assert (Hlow : (pow2 (a - b - 1) * inject_Z (2 ^ Z.succ b) == inject_Z (2 ^ a))%Q).
  { rewrite <- !pow2_int by lia. rewrite <- pow2_plus.
    replace (a - b - 1 + Z.succ b) with a by lia. reflexivity. }
  assert (Hupp : (pow2 (a - b + 1) * inject_Z (2 ^ b) == inject_Z (2 ^ Z.succ a))%Q).
  { rewrite <- !pow2_int by lia. rewrite <- pow2_plus.
    replace (a - b + 1 + b) with (Z.succ a) by lia. reflexivity. }
  assert (Ha1q : (inject_Z (2 ^ a) <= inject_Z n)%Q) by (rewrite <- Zle_Qle; exact Ha1).
  assert (Ha2q : (inject_Z n < inject_Z (2 ^ Z.succ a))%Q) by (rewrite <- Zlt_Qlt; exact Ha2).
  assert (Hb1q : (inject_Z (2 ^ b) <= inject_Z (Z.pos d))%Q) by (rewrite <- Zle_Qle; exact Hb1).
  assert (Hb2q : (inject_Z (Z.pos d) < inject_Z (2 ^ Z.succ b))%Q) by (rewrite <- Zlt_Qlt; exact Hb2).
  pose proof (pow2_pos (a - b - 1)) as Hp1.
  pose proof (pow2_pos (a - b + 1)) as Hp2.
  assert (Hb0q : (0 < inject_Z (2 ^ b))%Q).
  { rewrite <- pow2_int by lia. apply pow2_pos. }
  revert Hlow Hupp Ha1q Ha2q Hb1q Hb2q Hp1 Hp2 Hxd HD Hb0q.
  generalize (inject_Z (2 ^ a)) (inject_Z (2 ^ Z.succ a)) (inject_Z (2 ^ b))
    (inject_Z (2 ^ Z.succ b)) (inject_Z n) (inject_Z (Z.pos d)).
  intros A A' B B' N D Hlow Hupp Ha1q Ha2q Hb1q Hb2q Hp1 Hp2 Hxd HD Hb0q.
  set (x := (n # d)%Q) in * .
  assert (Hx0 : (0 < x)%Q) by exact Hx.
  (* lower: 2^(a-b-1) <= x; upper: x < 2^(a-b+1) *)
  assert (L : (pow2 (a - b - 1) <= x)%Q).
  { destruct (Qlt_le_dec x (pow2 (a - b - 1))) as [Hc|Hc]; [exfalso|exact Hc].
    assert (H1 : (x * D < pow2 (a - b - 1) * D)%Q) by (apply Qmult_lt_compat_r; assumption).
    assert (H2 : (pow2 (a - b - 1) * D <= pow2 (a - b - 1) * B')%Q).
    { rewrite !(Qmult_comm (pow2 (a - b - 1))).
      apply Qmult_le_compat_r; [lra|lra]. }
    lra. }
  assert (U : (x < pow2 (a - b + 1))%Q).
  { destruct (Qlt_le_dec x (pow2 (a - b + 1))) as [Hc|Hc]; [exact Hc|exfalso].
    assert (H1 : (pow2 (a - b + 1) * D <= x * D)%Q) by (apply Qmult_le_compat_r; [assumption|lra]).
    assert (H2 : (pow2 (a - b + 1) * B <= pow2 (a - b + 1) * D)%Q).
    { rewrite !(Qmult_comm (pow2 (a - b + 1))).
      apply Qmult_le_compat_r; [lra|lra]. }
    lra. }
  destruct (Qle_bool (pow2 (a - b)) x) eqn:E.
  - apply Qle_bool_iff in E. split; [exact E|exact U].
  - assert (Hlt : (x < pow2 (a - b))%Q).
    { destruct (Qlt_le_dec x (pow2 (a - b))) as [Hc|Hc]; [exact Hc|].
      apply Qle_bool_iff in Hc. rewrite Hc in E. discriminate E. }
    replace (a - b - 1 + 1) with (a - b) by lia. split; [exact L|exact Hlt].
Qed.

Lemma round64_pos_eq x :
  (round64_pos x == inject_Z (rne (x / pow2 (ilog2 x - 52))) * pow2 (ilog2 x - 52))%Q.
Proof. unfold round64_pos. apply Qred_correct. Qed.

Lemma round64_pos_nonneg x : (0 < x)%Q -> (0 <= round64_pos x)%Q.
Proof.
  intros Hx. rewrite round64_pos_eq.
  pose proof (pow2_pos (ilog2 x - 52)) as Hu.
  set (u := pow2 (ilog2 x - 52)) in * .
  apply Qmult_le_0_compat; [|lra].
  change 0%Q with (inject_Z 0). rewrite <- Zle_Qle. apply rne_ge_int.
  change (inject_Z 0) with 0%Q. apply Qle_shift_div_l; [exact Hu|lra].
Qed.

(** The relative error of rounding is at most [2^-53]. *)
Lemma round64_pos_upper x :
  (0 < x)%Q -> (round64_pos x <= x * (1 + (1 # 9007199254740992)))%Q.
Proof.
  intros Hx. rewrite round64_pos_eq.
  destruct (ilog2_spec x Hx) as [Hlo _].
  pose proof (pow2_pos (ilog2 x - 52)) as Hu.
  assert (He : (pow2 (ilog2 x) == pow2 (ilog2 x - 52) * inject_Z (2 ^ 52))%Q).
  { rewrite <- (pow2_int 52) by lia. rewrite <- pow2_plus.
    replace (ilog2 x - 52 + 52) with (ilog2 x) by lia. reflexivity. }
  set (u := pow2 (ilog2 x - 52)) in * .
  destruct (rne_near (x / u)) as [_ Hr].
  assert (Hq : (x / u * u == x)%Q) by (field; lra).
  assert (Hm : (inject_Z (rne (x / u)) * u <= (x / u + (1 # 2)) * u)%Q)
    by (apply Qmult_le_compat_r; lra).
  change (inject_Z (2 ^ 52)) with 4503599627370496%Q in He.
  rewrite He in Hlo. lra.
Qed.

Lemma round64_pos_lower x :
  (0 < x)%Q -> (x * (1 - (1 # 9007199254740992)) <= round64_pos x)%Q.
Proof.
  intros Hx. rewrite round64_pos_eq.
  destruct (ilog2_spec x Hx) as [Hlo _].
  pose proof (pow2_pos (ilog2 x - 52)) as Hu.
  assert (He : (pow2 (ilog2 x) == pow2 (ilog2 x - 52) * inject_Z (2 ^ 52))%Q).
  { rewrite <- (pow2_int 52) by lia. rewrite <- pow2_plus.
    replace (ilog2 x - 52 + 52) with (ilog2 x) by lia. reflexivity. }
  set (u := pow2 (ilog2 x - 52)) in * .
  destruct (rne_near (x / u)) as [Hr _].
  assert (Hq : (x / u * u == x)%Q) by (field; lra).
  assert (Hm : ((x / u - (1 # 2)) * u <= inject_Z (rne (x / u)) * u)%Q)
    by (apply Qmult_le_compat_r; lra).
  change (inject_Z (2 ^ 52)) with 4503599627370496%Q in He.
  rewrite He in Hlo. lra.
Qed.

Lemma round64_cases x :
  (x == 0 /\ round64 x = 0)%Q \/
  ((0 < x)%Q /\ round64 x = round64_pos x) \/
  ((x < 0)%Q /\ (round64 x == - round64_pos (- x))%Q).
Proof.
  destruct x as [[|p|p] d]; unfold round64; cbn [Qnum].
  - left. split; reflexivity.
  - right; left. split; reflexivity.
  - right; right. split; [reflexivity|apply Qred_correct].
Qed.

Lemma round64_nonneg x : (0 <= x)%Q -> (0 <= round64 x)%Q.
Proof.
  intros Hx. destruct (round64_cases x) as [[_ ->] | [[H0 ->] | [H0 _]]].
  - lra.
  - apply round64_pos_nonneg, H0.
  - lra.
Qed.

Lemma round64_upper x :
  (0 <= x)%Q -> (round64 x <= x * (1 + (1 # 9007199254740992)))%Q.
Proof.
  intros Hx. destruct (round64_cases x) as [[H0 ->] | [[H0 ->] | [H0 _]]].
  - lra.
  - apply round64_pos_upper, H0.
  - lra.
Qed.

Lemma round64_lower x :
  (0 <= x)%Q -> (x * (1 - (1 # 9007199254740992)) <= round64 x)%Q.
Proof.
  intros Hx. destruct (round64_cases x) as [[H0 ->] | [[H0 ->] | [H0 _]]].
  - lra.
  - apply round64_pos_lower, H0.
  - lra.
Qed.

(** Rounding does not cross a number of the grid it rounds to. *)
Lemma round64_pos_le_grid x N :
  (0 < x)%Q -> (x <= inject_Z N * pow2 (ilog2 x - 52))%Q ->
  (round64_pos x <= inject_Z N * pow2 (ilog2 x - 52))%Q.
Proof.
  intros Hx Hle. rewrite round64_pos_eq.
  pose proof (pow2_pos (ilog2 x - 52)) as Hu.
  set (u := pow2 (ilog2 x - 52)) in * .
  apply Qmult_le_compat_r; [|lra].
  rewrite <- Zle_Qle. apply rne_le_int.
  apply Qle_shift_div_r; [exact Hu|exact Hle].
Qed.

Lemma round64_pos_ge_grid x N :
  (0 < x)%Q -> (inject_Z N * pow2 (ilog2 x - 52) <= x)%Q ->
  (inject_Z N * pow2 (ilog2 x - 52) <= round64_pos x)%Q.
Proof.
  intros Hx Hle. rewrite round64_pos_eq.
  pose proof (pow2_pos (ilog2 x - 52)) as Hu.
  set (u := pow2 (ilog2 x - 52)) in * .
  apply Qmult_le_compat_r; [|lra].
  rewrite <- Zle_Qle. apply rne_ge_int.
  apply Qle_shift_div_l; [exact Hu|exact Hle].
Qed.

(** An integer up to [2^53] in absolute value is on every grid at or
    below its own. *)
Lemma int_on_grid n e :
  e <= 52 -> (inject_Z (n * 2 ^ (52 - e)) * pow2 (e - 52) == inject_Z n)%Q.
Proof.
  intros He. rewrite inject_Z_mult, <- pow2_int by lia.
  rewrite <- Qmult_assoc, <- pow2_plus.
  replace (52 - e + (e - 52)) with 0 by lia. change (pow2 0) with 1%Q. ring.
Qed.

Lemma round64_pos_le_int x n :
  (0 < x)%Q -> n <= 2 ^ 53 -> (x <= inject_Z n)%Q -> (round64_pos x <= inject_Z n)%Q.
Proof.
  intros Hx Hn Hle. destruct (ilog2_spec x Hx) as [Hlo _].
  assert (He : ilog2 x <= 53).
  { apply pow2_le_inv. rewrite (pow2_int 53) by lia.
    assert ((inject_Z n <= inject_Z (2 ^ 53))%Q) by (rewrite <- Zle_Qle; exact Hn).
    lra. }
  destruct (Z_le_gt_dec (ilog2 x) 52) as [H52|H52].
  - rewrite <- (int_on_grid n (ilog2 x) H52).
    apply round64_pos_le_grid; [exact Hx|].
    rewrite int_on_grid by exact H52. exact Hle.
  - assert (E : ilog2 x = 53) by lia.
    assert (Hn' : (inject_Z (2 ^ 53) <= inject_Z n)%Q).
    { rewrite <- (pow2_int 53) by lia. rewrite <- E. lra. }
    assert (Hg : (inject_Z (2 ^ 52) * pow2 (ilog2 x - 52) == inject_Z (2 ^ 53))%Q).
    { rewrite E. reflexivity. }
    assert (Hr : (round64_pos x <= inject_Z (2 ^ 52) * pow2 (ilog2 x - 52))%Q).
    { apply round64_pos_le_grid; [exact Hx|]. rewrite Hg.
      assert ((inject_Z n <= inject_Z (2 ^ 53))%Q) by (rewrite <- Zle_Qle; exact Hn).
      lra. }
    rewrite Hg in Hr. lra.
Qed.

Lemma round64_pos_ge_int x n :
  (0 < x)%Q -> n <= 2 ^ 53 -> (inject_Z n <= x)%Q -> (inject_Z n <= round64_pos x)%Q.
Proof.
  intros Hx Hn Hle. destruct (ilog2_spec x Hx) as [Hlo _].
  destruct (Z_le_gt_dec (ilog2 x) 52) as [H52|H52].
  - rewrite <- (int_on_grid n (ilog2 x) H52).
    apply round64_pos_ge_grid; [exact Hx|].
    rewrite int_on_grid by exact H52. exact Hle.
  - assert (Hg : (inject_Z (2 ^ 52) * pow2 (ilog2 x - 52) == pow2 (ilog2 x))%Q).
    { rewrite <- (pow2_int 52) by lia. rewrite <- pow2_plus.
      replace (52 + (ilog2 x - 52)) with (ilog2 x) by lia. reflexivity. }
    assert (Hr : (inject_Z (2 ^ 52) * pow2 (ilog2 x - 52) <= round64_pos x)%Q).
    { apply round64_pos_ge_grid; [exact Hx|]. rewrite Hg. exact Hlo. }
    rewrite Hg in Hr.
    assert (H53 : (pow2 53 <= pow2 (ilog2 x))%Q) by (apply pow2_le; lia).
    rewrite (pow2_int 53) in H53 by lia.
    assert ((inject_Z n <= inject_Z (2 ^ 53))%Q) by (rewrite <- Zle_Qle; exact Hn).
    lra.
Qed.

(** Rounding keeps a non-negative number between the integers (up to
    [2^53]) that enclose it. *)
Lemma round64_between a b x :
  0 <= a -> b <= 2 ^ 53 -> (inject_Z a <= x <= inject_Z b)%Q ->
  (inject_Z a <= round64 x <= inject_Z b)%Q.
Proof.
  intros Ha Hb [Hax Hxb].
  assert (Ha0 : (0 <= inject_Z a)%Q).
  { change 0%Q with (inject_Z 0). rewrite <- Zle_Qle. exact Ha. }
  assert (Hab : a <= b).
  { rewrite Zle_Qle. lra. }
  destruct (round64_cases x) as [[H0 ->] | [[H0 ->] | [H0 _]]].
  - lra.
  - split; [apply round64_pos_ge_int | apply round64_pos_le_int];
      first [assumption | lia].
  - lra.
Qed.

Lemma ilog2_unique x e :
  (0 < x)%Q -> (pow2 e <= x < pow2 (e + 1))%Q -> ilog2 x = e.
Proof.
  intros Hx [Hlo Hhi]. destruct (ilog2_spec x Hx) as [Hlo' Hhi'].
  assert (H1 : ilog2 x < e + 1).
  { apply (Qpower_lt_compat_l_inv 2); [|reflexivity]. fold (pow2 (ilog2 x)) (pow2 (e + 1)). lra. }
  assert (H2 : e < ilog2 x + 1).
  { apply (Qpower_lt_compat_l_inv 2); [|reflexivity]. fold (pow2 e) (pow2 (ilog2 x + 1)). lra. }
  lia.
Qed.

Lemma pow2_52 e : (pow2 e == inject_Z (2 ^ 52) * pow2 (e - 52))%Q.
Proof.
  rewrite <- (pow2_int 52) by lia. rewrite <- pow2_plus.
  replace (52 + (e - 52)) with e by lia. reflexivity.
Qed.

(** A number with a 53-bit significand is not changed by rounding. *)
Lemma round64_pos_fixes z N e :
  (z == inject_Z N * pow2 (e - 52))%Q -> 2 ^ 52 <= N <= 2 ^ 53 ->
  (round64_pos z == z)%Q.
Proof.
  intros Hz HN.
  pose proof (pow2_pos (e - 52)) as Hu.
  assert (HN0 : (inject_Z (2 ^ 52) <= inject_Z N)%Q) by (rewrite <- Zle_Qle; lia).
  assert (HN1 : (inject_Z N <= inject_Z (2 ^ 53))%Q) by (rewrite <- Zle_Qle; lia).
  change (inject_Z (2 ^ 52)) with 4503599627370496%Q in HN0.
  change (inject_Z (2 ^ 53)) with 9007199254740992%Q in HN1.
  assert (Hz0 : (0 < z)%Q).
  { rewrite Hz. apply Qmult_lt_0_compat; [lra|exact Hu]. }
  destruct (Z_lt_le_dec N (2 ^ 53)) as [Hlt|Hge].
  - assert (He : ilog2 z = e).
    { apply ilog2_unique; [exact Hz0|].
      rewrite (pow2_52 e), (pow2_52 (e + 1)).
      replace (e + 1 - 52) with (1 + (e - 52)) by lia. rewrite pow2_plus.
      change (pow2 1) with 2%Q. change (inject_Z (2 ^ 52)) with 4503599627370496%Q.
      assert (HN2 : (inject_Z N < inject_Z (2 ^ 53))%Q) by (rewrite <- Zlt_Qlt; exact Hlt).
      change (inject_Z (2 ^ 53)) with 9007199254740992%Q in HN2.
      rewrite Hz. split.
      - apply Qmult_le_compat_r; [exact HN0|lra].
      - setoid_replace (4503599627370496 * (2 * pow2 (e - 52)))%Q
          with (9007199254740992 * pow2 (e - 52))%Q using relation Qeq by ring.
        apply Qmult_lt_compat_r; [exact Hu|exact HN2]. }
    pose proof (round64_pos_le_grid z N Hz0) as H1.
    pose proof (round64_pos_ge_grid z N Hz0) as H2.
    rewrite He in H1, H2. rewrite <- Hz in H1, H2.
    apply Qle_antisym; [apply H1|apply H2]; lra.
  - assert (EN : N = 2 ^ 53) by lia. subst N.
    assert (Hz' : (z == inject_Z (2 ^ 52) * pow2 (e + 1 - 52))%Q).
    { rewrite Hz. replace (e + 1 - 52) with (1 + (e - 52)) by lia. rewrite pow2_plus.
      change (pow2 1) with 2%Q. change (inject_Z (2 ^ 52)) with 4503599627370496%Q.
      change (inject_Z (2 ^ 53)) with 9007199254740992%Q. ring. }
    assert (He : ilog2 z = e + 1).
    { apply ilog2_unique; [exact Hz0|].
      rewrite (pow2_52 (e + 1)), (pow2_52 (e + 1 + 1)).
      replace (e + 1 + 1 - 52) with (1 + (e + 1 - 52)) by lia. rewrite pow2_plus.
      change (pow2 1) with 2%Q. rewrite <- Hz'.
      pose proof (pow2_pos (e + 1 - 52)) as Hu'.
      change (inject_Z (2 ^ 52)) with 4503599627370496%Q in Hz' |- * .
      split; [lra|].
      setoid_replace (4503599627370496 * (2 * pow2 (e + 1 - 52)))%Q
        with (2 * (4503599627370496 * pow2 (e + 1 - 52)))%Q using relation Qeq by ring.
      rewrite <- Hz'. lra. }
    pose proof (round64_pos_le_grid z (2 ^ 52) Hz0) as H1.
    pose proof (round64_pos_ge_grid z (2 ^ 52) Hz0) as H2.
    rewrite He in H1, H2. rewrite <- Hz' in H1, H2.
    apply Qle_antisym; [apply H1|apply H2]; lra.
Qed.

(** What rounding returns has a 53-bit significand. *)
Lemma round64_pos_grid x :
  (0 < x)%Q ->
  exists N, (round64_pos x == inject_Z N * pow2 (ilog2 x - 52))%Q /\
            2 ^ 52 <= N <= 2 ^ 53.
Proof.
  intros Hx. exists (rne (x / pow2 (ilog2 x - 52))).
  split; [apply round64_pos_eq|].
  destruct (ilog2_spec x Hx) as [Hlo Hhi].
  pose proof (pow2_pos (ilog2 x - 52)) as Hu.
  rewrite (pow2_52 (ilog2 x)) in Hlo. rewrite (pow2_52 (ilog2 x + 1)) in Hhi.
  replace (ilog2 x + 1 - 52) with (1 + (ilog2 x - 52)) in Hhi by lia.
  rewrite pow2_plus in Hhi. change (pow2 1) with 2%Q in Hhi.
  set (u := pow2 (ilog2 x - 52)) in * .
  split.
  - apply rne_ge_int. apply Qle_shift_div_l; [exact Hu|exact Hlo].
  - apply rne_le_int. apply Qle_shift_div_r; [exact Hu|].
    change (inject_Z (2 ^ 53)) with 9007199254740992%Q.
    change (inject_Z (2 ^ 52)) with 4503599627370496%Q in Hhi. lra.
Qed.

(** Rounding twice is rounding once. *)
Lemma round64_idem x : (round64 (round64 x) == round64 x)%Q.
Proof.
  destruct (round64_cases x) as [[_ ->] | [[H0 ->] | [H0 Hx]]].
  - reflexivity.
  - destruct (round64_pos_grid x H0) as (N & HN & Hb).
    pose proof (round64_pos_fixes _ N _ HN Hb) as Hfix.
    assert (Hpos : (0 < round64_pos x)%Q).
    { rewrite HN. apply Qmult_lt_0_compat; [|apply pow2_pos].
      assert ((inject_Z (2 ^ 52) <= inject_Z N)%Q) by (rewrite <- Zle_Qle; lia).
      change (inject_Z (2 ^ 52)) with 4503599627370496%Q in H. lra. }
    destruct (round64_cases (round64_pos x)) as [[H1 _] | [[_ ->] | [H1 _]]];
      [lra | exact Hfix | lra].
  - assert (Hm : (0 < - x)%Q) by lra.
    destruct (round64_pos_grid (- x) Hm) as (N & HN & Hb).
    assert (Hpos : (0 < round64_pos (- x))%Q).
    { rewrite HN. apply Qmult_lt_0_compat; [|apply pow2_pos].
      assert ((inject_Z (2 ^ 52) <= inject_Z N)%Q) by (rewrite <- Zle_Qle; lia).
      change (inject_Z (2 ^ 52)) with 4503599627370496%Q in H. lra. }
    destruct (round64_cases (round64 x)) as [[H1 _] | [[H1 _] | [_ H2]]];
      [lra | lra |].
    assert (Hfix : (round64_pos (- round64 x) == - round64 x)%Q).
    { apply (round64_pos_fixes _ N (ilog2 (- x))); [|exact Hb].
      rewrite <- HN. rewrite Hx. apply Qopp_involutive. }
    eapply Qeq_trans; [exact H2|]. rewrite Hfix. apply Qopp_involutive.
Qed.

(** [int(w * 0.7)] on a non-negative window: the rounded product is not
    above the window. *)
Lemma mul64_07_le w : (0 <= w)%Q -> (0 <= mul64 w (7 # 10) <= w)%Q.
Proof.
  intros Hw. unfold mul64.
  pose proof (round64_nonneg w Hw) as Hr0.
  pose proof (round64_upper w Hw) as Hr1.
  change (round64 (7 # 10)) with (3152519739159347 # 4503599627370496)%Q.
  set (r := round64 w) in * .
  assert (Hp : (0 <= r * (3152519739159347 # 4503599627370496))%Q)
    by (apply Qmult_le_0_compat; [exact Hr0 | discriminate]).
  pose proof (round64_nonneg _ Hp) as Hq0.
  pose proof (round64_upper _ Hp) as Hq1.
  split; [exact Hq0|]. lra.
Qed.

(** ** Pool policies *)

Section PoolProperties.
Import LongRatioSweep.

Lemma PoolFirstPolicy_init_inv core0 max0 :
  0 <= core0 <= max0 -> pool_inv (PoolFirstPolicy_init core0 max0).
Proof.
  intros Hc. unfold pool_inv, PoolFirstPolicy_init; simpl.
  rewrite length_seqZ. lia.
Qed.

Lemma acquire_slot_inv p : pool_inv p -> pool_inv (acquire_slot p).1.
Proof.
  unfold pool_inv, acquire_slot. intros (Hsum & Hact & Hlo & Hhi).
  destruct (idle p) as [|x rest] eqn:Hidle; simpl in * |-; simpl.
  - destruct (allocated p <? max_size p) eqn:Hlt; simpl.
    + apply Z.ltb_lt in Hlt. rewrite ?Hidle; simpl in *|-; simpl; lia.
    + rewrite ?Hidle; simpl in *|-; simpl; lia.
  - lia.
Qed.

Lemma release_slot_inv p : pool_inv p -> pool_inv (release_slot p).
Proof.
  unfold pool_inv, release_slot. intros (Hsum & Hact & Hlo & Hhi).
  destruct (0 <? active p) eqn:Hpos; simpl.
  - apply Z.ltb_lt in Hpos. rewrite length_app. simpl. lia.
  - lia.
Qed.

Lemma pool_run_inv calls p : pool_inv p -> pool_inv (pool_run calls p).
Proof.
  unfold pool_run. revert p.
  induction calls as [|c calls IH]; intros p Hp; simpl; [assumption|].
  apply IH. destruct c; simpl.
  - apply acquire_slot_inv; assumption.
  - apply release_slot_inv; assumption.
Qed.

Lemma acquire_slot_true p :
  (acquire_slot p).2 = true <-> idle p <> [] \/ allocated p < max_size p.
Proof.
  unfold acquire_slot.
  destruct (idle p) as [|x rest]; simpl.
  - destruct (allocated p <? max_size p) eqn:Hlt; simpl.
    + apply Z.ltb_lt in Hlt. split; auto.
    + apply Z.ltb_ge in Hlt. split; [discriminate|].
      intros [H | H]; [congruence | lia].
  - split; [|reflexivity]. intros _. left. discriminate.
Qed.

(** C10. Starting from [PoolFirstPolicy(core, max_size)] with
    [0 <= core <= max_size], after any sequence of [acquire_slot] and
    [release_slot] calls the pool satisfies
    [active + len(idle) == allocated], [0 <= active] and
    [core <= allocated <= max_size]; one more call of either kind keeps
    it; [acquire_slot] returns [True] exactly when an idle slot exists or
    [allocated < max_size]; [PoolPolicy.on_admit] and [on_release] are the
    same functions. *)
Theorem pool_first_invariant (core0 max0 : Z) (calls : list pool_call) :
  0 <= core0 <= max0 ->
  let p := pool_run calls (PoolFirstPolicy_init core0 max0) in
  pool_inv p /\
  pool_inv (acquire_slot p).1 /\
  pool_inv (release_slot p) /\
  ((acquire_slot p).2 = true <-> idle p <> [] \/ allocated p < max_size p) /\
  RequestSizeSweep.on_admit p = acquire_slot p /\
  RequestSizeSweep.on_release p = release_slot p.
Proof.
  intros Hc p.
  assert (Hp : pool_inv p).
  { apply pool_run_inv, PoolFirstPolicy_init_inv, Hc. }
  split; [exact Hp|].
  split; [apply acquire_slot_inv, Hp|].
  split; [apply release_slot_inv, Hp|].
  split; [apply acquire_slot_true|].
  split; reflexivity.
Qed.

Lemma pool_first_invariant_witness :
  0 <= 2 <= 3 /\
  pool_inv (pool_run [Acquire; Acquire; Acquire; Acquire; Release; Release]
                     (PoolFirstPolicy_init 2 3)).
Proof.
  split; [lia|].
  apply (pool_first_invariant 2 3
           [Acquire; Acquire; Acquire; Acquire; Release; Release]).
  lia.
Defined.

End PoolProperties.

(** ** Controllers *)

Section ControllerProperties.
Import AbTestSimulator TuneAimd Spec.

Lemma clamp_bounds lo hi x : lo <= hi -> lo <= Z.max lo (Z.min hi x) <= hi.
Proof. lia. Qed.

Lemma update_of_min c sm : min_of (update_of c sm) = min_of c.
Proof.
  destruct c as [c|c|c]; simpl; [reflexivity| |].
  - unfold AimdController.update.
    repeat match goal with |- context [if ?b then _ else _] => destruct b end;
      reflexivity.
  - unfold TunableAimdController.update.
    repeat match goal with |- context [if ?b then _ else _] => destruct b end;
      reflexivity.
Qed.

Lemma update_of_max c sm : max_of (update_of c sm) = max_of c.
Proof.
  destruct c as [c|c|c]; simpl; [reflexivity| |].
  - unfold AimdController.update.
    repeat match goal with |- context [if ?b then _ else _] => destruct b end;
      reflexivity.
  - unfold TunableAimdController.update.
    repeat match goal with |- context [if ?b then _ else _] => destruct b end;
      reflexivity.
Qed.

Lemma updates_min ms c : min_of (foldl update_of c ms) = min_of c.
Proof.
  revert c. induction ms as [|sm ms IH]; intros c; simpl; [reflexivity|].
  rewrite IH. apply update_of_min.
Qed.

Lemma updates_max ms c : max_of (foldl update_of c ms) = max_of c.
Proof.
  revert c. induction ms as [|sm ms IH]; intros c; simpl; [reflexivity|].
  rewrite IH. apply update_of_max.
Qed.

Lemma limit_of_bounds c : min_of c <= max_of c -> min_of c <= limit_of c <= max_of c.
Proof.
  destruct c as [c|c|c]; simpl; intros Hc.
  - unfold FixedController.current_limit. lia.
  - apply clamp_bounds, Hc.
  - apply clamp_bounds, Hc.
Qed.

(** C5. For a fixed, AIMD or tuned-AIMD controller configured with
    [min <= max] (for the fixed one [min = max = limit]), in any state,
    after any finite sequence of window-metrics updates the configured
    bounds are unchanged and [min <= current_limit() <= max]. *)
Theorem controller_bounds (c : controller) (ms : list (Z * WindowMetrics.t)) :
  min_of c <= max_of c ->
  let c' := foldl update_of c ms in
  min_of c' = min_of c /\ max_of c' = max_of c /\
  min_of c <= limit_of c' <= max_of c.
Proof.
  intros Hc c'. subst c'.
  pose proof (updates_min ms c) as Hmin.
  pose proof (updates_max ms c) as Hmax.
  split; [exact Hmin|]. split; [exact Hmax|].
  rewrite <- Hmin, <- Hmax. apply limit_of_bounds. rewrite Hmin, Hmax. exact Hc.
Qed.

Lemma controller_bounds_witness :
  6 <= 95 /\
  6 <= limit_of (foldl update_of (Aimd (AimdController.init 6 95 10))
                   [(0, calm); (1, hot); (2, calm)]) <= 95.
Proof.
  split; [lia|].
  apply (controller_bounds (Aimd (AimdController.init 6 95 10))
           [(0, calm); (1, hot); (2, calm)]).
  simpl. lia.
Defined.

(** The congestion tests of the two controllers are the design's: any
    of the four signals above its threshold. *)
Lemma aimd_congested_any c m :
  AimdController.congested m = any_exceeds (config_aimd c) m.
Proof.
  unfold AimdController.congested, any_exceeds, signals; cbn.
  repeat match goal with |- context [?a <?. ?b] =>
    destruct (a <?. b) end; reflexivity.
Qed.

Lemma tuned_congested_any c m :
  TunableAimdController.congested c m = any_exceeds (config_tuned c) m.
Proof.
  unfold TunableAimdController.congested, any_exceeds, signals; cbn.
  repeat match goal with |- context [?a <?. ?b] =>
    destruct (a <?. b) end; reflexivity.
Qed.

(** The tuned controller takes the design's step. *)
Lemma tuned_update_step c s m :
  view_tuned (TunableAimdController.update c s m)
  = aimd_step (config_tuned c) (view_tuned c) m.
Proof.
  unfold aimd_step, aimd_step_with. rewrite <- tuned_congested_any.
  unfold TunableAimdController.update, view_tuned.
  simpl.
  destruct (0 <? TunableAimdController.cooldown c); [reflexivity|].
  destruct (TunableAimdController.congested c m).
  - simpl. rewrite py_max_idem. reflexivity.
  - destruct (TunableAimdController.cwnd c <?. TunableAimdController.ssthresh c);
      reflexivity.
Qed.

Lemma tuned_update_params c s m :
  TunableAimdController.p (TunableAimdController.update c s m)
  = TunableAimdController.p c.
Proof.
  unfold TunableAimdController.update.
  repeat match goal with |- context [if ?b then _ else _] => destruct b end;
    reflexivity.
Qed.

(** [AimdController] takes the step with the product rounded and
    truncated. *)
Lemma aimd_update_step c s m :
  view_aimd (AimdController.update c s m)
  = aimd_step_trunc (config_aimd c) (view_aimd c) m.
Proof.
  unfold aimd_step_trunc, aimd_step_with. rewrite <- (aimd_congested_any c).
  unfold AimdController.update, view_aimd.
  simpl.
  destruct (0 <? AimdController.cooldown c); [reflexivity|].
  destruct (AimdController.congested m).
  - simpl. rewrite Z.max_r by lia.
    rewrite of_int_max. reflexivity.
  - destruct (AimdController.cwnd c <?. of_int (AimdController.ssthresh c));
      reflexivity.
Qed.

Lemma aimd_update_params c s m :
  AimdController.min_c (AimdController.update c s m) = AimdController.min_c c /\
  AimdController.max_c (AimdController.update c s m) = AimdController.max_c c.
Proof.
  unfold AimdController.update.
  repeat match goal with |- context [if ?b then _ else _] => destruct b end;
    split; reflexivity.
Qed.



End ControllerProperties.

(** ** Node admission *)

Section NodeProperties.
Import AbTestSimulator Spec.

(** C2. [can_start] refills the node, then reports the first failing
    check in the order CONCURRENCY, BURST, RATE_RPM, RATE_TPM (or success
    when none fails); in every case the node it leaves behind is exactly
    the refilled node, so a failure consumes nothing. *)
Theorem can_start_first_failing (n : NodeState.t) (now : float)
    (token_cost allowed : Z) :
  let n' := NodeState.refill n now in
  NodeState.can_start n now token_cost allowed
  = (n', first_failing (admission_checks n' token_cost allowed)).
Proof.
  intros n'. unfold NodeState.can_start, first_failing, admission_checks.
  fold n'. simpl.
  destruct (Z.min _ _ <=? _); [reflexivity|]. simpl.
  destruct (NodeState.burst_rps_limit n' <=?. _); [reflexivity|]. simpl.
  destruct (NodeState.rpm_tokens n' <?. 1); [reflexivity|]. simpl.
  destruct (NodeState.tpm_tokens n' <?. of_int token_cost); reflexivity.
Qed.

Lemma refill_within n now :
  within_capacity n -> within_capacity (NodeState.refill n now).
Proof.
  intros Hn. unfold NodeState.refill.
  destruct (_ <=?. 0); [exact Hn|].
  split; simpl; apply py_min_l.
Qed.

Lemma start_within n now cost :
  0 <= cost -> within_capacity n -> within_capacity (NodeState.start n now cost).
Proof.
  intros Hc [Hr Ht]. split; simpl; fnorm.
  - lra.
  - apply of_int_le in Hc. change (of_int 0) with 0%Q in Hc. lra.
Qed.

Lemma finish_within n : within_capacity n -> within_capacity (NodeState.finish n).
Proof.
  intros Hn. unfold NodeState.finish. destruct (0 <? _); exact Hn.
Qed.

Lemma node_step_within n c :
  cost_nonneg c -> within_capacity n -> within_capacity (node_step n c).
Proof.
  destruct c as [now|now cost allowed|now cost|]; simpl; intros Hc Hn.
  - apply refill_within, Hn.
  - rewrite can_start_first_failing. simpl. apply refill_within, Hn.
  - apply start_within; assumption.
  - apply finish_within, Hn.
Qed.

Lemma node_steps_within calls n :
  Forall cost_nonneg calls -> within_capacity n ->
  within_capacity (foldl node_step n calls).
Proof.
  revert n. induction calls as [|c calls IH]; intros n Hcs Hn; simpl.
  - exact Hn.
  - inversion Hcs; subst. apply IH; [assumption|].
    apply node_step_within; assumption.
Qed.

Lemma init_within i rpm tpm conc burst :
  within_capacity (NodeState.init i rpm tpm conc burst).
Proof. split; simpl; lra. Qed.

(** C6. Starting from a freshly constructed node, after any sequence of
    [refill], [can_start], [start] and [finish] calls (at any timestamps,
    with non-negative token costs) [rpm_tokens <= rpm_limit] and
    [tpm_tokens <= tpm_limit] hold, and they hold again after one more
    [refill]. *)
Theorem token_bucket_capacity (i : nat) (rpm tpm conc : Z) (burst : float)
    (calls : list node_call) :
  Forall cost_nonneg calls ->
  let n := foldl node_step (NodeState.init i rpm tpm conc burst) calls in
  within_capacity n /\ forall now, within_capacity (NodeState.refill n now).
Proof.
  intros Hcs n.
  assert (Hn : within_capacity n)
    by (apply node_steps_within; [exact Hcs | apply init_within]).
  split; [exact Hn|]. intros now. apply refill_within, Hn.
Qed.

Lemma token_bucket_capacity_witness :
  Forall cost_nonneg [Start 0 100; Refill (1 # 2); Start (1 # 2) 50; Finish; Refill 90] /\
  within_capacity
    (foldl node_step (NodeState.init 0 1150 520000 14 (46 # 3))
       [Start 0 100; Refill (1 # 2); Start (1 # 2) 50; Finish; Refill 90]).
Proof.
  assert (H : Forall cost_nonneg
                [Start 0 100; Refill (1 # 2); Start (1 # 2) 50; Finish; Refill 90]).
  { repeat constructor; simpl; lia. }
  split; [exact H|].
  exact (proj1 (token_bucket_capacity 0 1150 520000 14 (46 # 3) _ H)).
Defined.

End NodeProperties.

(** ** The suppression multiplier of the full-pipeline policy *)

Section AlphaProperties.
Import AbTestSimulator FullPipelineVsTraditional PipelineSpec.
Import FullPipelinePolicy.

Lemma refill_buckets_alpha dt er et l s :
  alpha (foldl (refill_bucket dt er et) s l) = alpha s.
Proof.
  revert s. induction l as [|i l IH]; intros s; simpl; [reflexivity|].
  rewrite IH. reflexivity.
Qed.

Lemma _refill_alpha s now : alpha (_refill s now) = alpha s.
Proof.
  unfold _refill. destruct (_ <=?. 0); [reflexivity|].
  cbn [alpha]. apply refill_buckets_alpha.
Qed.

Lemma _rebalance_buckets_alpha s : alpha (_rebalance_buckets s) = alpha s.
Proof.
  unfold _rebalance_buckets. destruct (_ <? _)%nat; reflexivity.
Qed.

Lemma estimate_tokens_alpha s req : alpha (estimate_tokens s req).1 = alpha s.
Proof. reflexivity. Qed.

Lemma admit_alpha s now est : alpha (admit_ s now est).1 = alpha s.
Proof.
  unfold admit_. destruct (_ && _); simpl; apply _refill_alpha.
Qed.

Lemma on_result_alpha s req acc : alpha (on_result s req acc) = alpha s.
Proof. unfold on_result. destruct (negb acc); reflexivity. Qed.

Lemma on_window_alpha s m :
  alpha (on_window s m)
  = if tighten m then py_max (65 # 100) (alpha s *. (92 # 100))
    else if relax m then py_min 1 (alpha s +. (2 # 100))
    else alpha s.
Proof.
  unfold on_window. rewrite _rebalance_buckets_alpha.
  destruct (tighten m); [reflexivity|]. destruct (relax m); reflexivity.
Qed.

Lemma on_window_band s m : alpha_in_band s -> alpha_in_band (on_window s m).
Proof.
  unfold alpha_in_band. intros [Hlo Hhi]. rewrite on_window_alpha.
  destruct (tighten m); [|destruct (relax m)].
  - split; [apply py_max_l|].
    apply py_max_lub; [lra|]. fnorm. lra.
  - split; [|apply py_min_l].
    apply py_min_glb; [lra|]. fnorm. lra.
  - split; assumption.
Qed.

Lemma policy_step_band s c : alpha_in_band s -> alpha_in_band (policy_step s c).
Proof.
  destruct c as [req|now est|req acc|m|now]; simpl; intros Hs.
  - exact Hs.
  - unfold alpha_in_band. rewrite admit_alpha. exact Hs.
  - unfold alpha_in_band. rewrite on_result_alpha. exact Hs.
  - apply on_window_band, Hs.
  - unfold alpha_in_band. rewrite _refill_alpha. exact Hs.
Qed.

Lemma policy_steps_band calls s :
  alpha_in_band s -> alpha_in_band (foldl policy_step s calls).
Proof.
  revert s. induction calls as [|c calls IH]; intros s Hs; simpl; [exact Hs|].
  apply IH, policy_step_band, Hs.
Qed.

Lemma tighten_true m :
  tighten m = true <->
  (1400 < Metrics.p95_ttft_ms m \/ 18 # 10 < Metrics.sim_gc_freq m
   \/ 50 # 100 < Metrics.reject_rate m)%Q.
Proof.
  unfold tighten. rewrite !orb_true_iff, !flt_true. tauto.
Qed.

Lemma relax_true m :
  relax m = true <->
  (Metrics.p95_ttft_ms m < 1150 /\ Metrics.sim_gc_freq m < 12 # 10
   /\ Metrics.reject_rate m < 40 # 100)%Q.
Proof.
  unfold relax. rewrite !andb_true_iff, !flt_true. tauto.
Qed.

(** C8, as the code has it.  After any sequence of calls on a freshly
    constructed policy, alpha lies in [0.65, 1.0].  On a window where p95
    time-to-first-token > 1400, simulated-GC frequency > 1.8 or reject rate
    > 0.50, [on_window] sets alpha to [max(0.65, alpha * 0.92)]; otherwise,
    on a window where p95 time-to-first-token < 1150, simulated-GC
    frequency < 1.2 and reject rate < 0.40, it sets alpha to
    [min(1.0, alpha + 0.02)]; on every remaining window alpha is
    unchanged. *)
Theorem alpha_band_and_steps (total_rpm0 total_tpm0 limit0 : Z)
    (calls : list policy_call) (m : Metrics.t) :
  let s := foldl policy_step (init total_rpm0 total_tpm0 limit0) calls in
  let over :=
    (1400 < Metrics.p95_ttft_ms m \/ 18 # 10 < Metrics.sim_gc_freq m
     \/ 50 # 100 < Metrics.reject_rate m)%Q in
  let under :=
    (Metrics.p95_ttft_ms m < 1150 /\ Metrics.sim_gc_freq m < 12 # 10
     /\ Metrics.reject_rate m < 40 # 100)%Q in
  (65 # 100 <= alpha s <= 1)%Q /\
  (over -> alpha (on_window s m) = py_max (65 # 100) (alpha s *. (92 # 100))) /\
  (~ over -> under -> alpha (on_window s m) = py_min 1 (alpha s +. (2 # 100))) /\
  (~ over -> ~ under -> alpha (on_window s m) = alpha s).
Proof.
  intros s over under.
  split.
  { apply policy_steps_band. unfold alpha_in_band, init; simpl. lra. }
  rewrite on_window_alpha.
  pose proof (tighten_true m) as Ht. pose proof (relax_true m) as Hr.
  fold over in Ht. fold under in Hr.
  assert (Ho : if tighten m then over else ~ over).
  { destruct (tighten m); [apply Ht; reflexivity|].
    intros Ho. apply Ht in Ho. discriminate Ho. }
  assert (Hu : if relax m then under else ~ under).
  { destruct (relax m); [apply Hr; reflexivity|].
    intros Hu. apply Hr in Hu. discriminate Hu. }
  destruct (tighten m), (relax m); repeat split; intros; try reflexivity;
    contradiction.
Qed.

Lemma alpha_band_and_steps_witness :
  alpha (on_window (foldl policy_step (init 8100 3795000 95) [OnWindow slow_window])
                   slow_window)
  = py_max (65 # 100)
      (alpha (foldl policy_step (init 8100 3795000 95) [OnWindow slow_window])
       *. (92 # 100)).
Proof.
  apply (alpha_band_and_steps 8100 3795000 95 [OnWindow slow_window] slow_window).
  left. reflexivity.
Defined.

(** C8 as stated fails on a window between the two sets of thresholds:
    after one tightening alpha is 0.92, and a window with p95
    time-to-first-token 1200 (no GC events, no rejects) leaves it at 0.92
    instead of raising it to 0.94. *)
Lemma alpha_dead_band :
  let s := on_window (init 8100 3795000 95) slow_window in
  tighten middling_window = false /\
  alpha s = (23 # 25)%Q /\
  alpha (on_window s middling_window) = (23 # 25)%Q /\
  ~ (alpha (on_window s middling_window) == py_min 1 (alpha s +. (2 # 100)))%Q.
Proof.
  vm_compute. repeat split; try reflexivity.
  intros H. discriminate H.
Qed.

End AlphaProperties.

(** ** The adaptive bucket allocator *)

Section AllocatorProperties.
Import AdaptiveBucketAb AllocatorSpec.
Import AdaptiveBucketAllocator.


Lemma fsum_from acc l : (foldl fadd acc l == acc + qsum l)%Q.
Proof.
  revert acc. induction l as [|x l IH]; intros acc; simpl.
  - lra.
  - rewrite IH, fadd_eq. lra.
Qed.

Lemma fsum_qsum l : (fsum l == qsum l)%Q.
Proof. unfold fsum. rewrite fsum_from. lra. Qed.

Lemma qsum_scale c l : (qsum (map (fun x => x /. c) l) == qsum l / c)%Q.
Proof.
  induction l as [|x l IH]; simpl.
  - unfold Qdiv. lra.
  - rewrite IH, fdiv_eq. unfold Qdiv. lra.
Qed.

Lemma qsum_pos x l : Forall (fun y => 0 < y)%Q (x :: l) -> (0 < qsum (x :: l))%Q.
Proof.
  revert x. induction l as [|y l IH]; intros x Hall; simpl.
  - inversion Hall; subst. lra.
  - inversion Hall as [|? ? Hx Hrest]; subst.
    specialize (IH y Hrest). simpl in IH. lra.
Qed.

Lemma zsum_from acc l : foldl Z.add acc l = acc + foldr Z.add 0 l.
Proof.
  revert acc. induction l as [|x l IH]; intros acc; simpl; [lia|].
  rewrite IH. lia.
Qed.

Lemma zsum_nonneg l : Forall (fun x => 0 <= x) l -> 0 <= zsum l.
Proof.
  unfold zsum. rewrite zsum_from. induction 1; simpl; lia.
Qed.

Lemma divisor_pos l : Forall (fun x => 0 <= x) l -> (0 < of_int (zsum l) +. eps)%Q.
Proof.
  intros Hl. apply zsum_nonneg, of_int_le in Hl.
  change (of_int 0) with 0%Q in Hl. rewrite fadd_eq.
  assert (0 < eps)%Q by reflexivity. lra.
Qed.

Lemma score_pos a i : (0 < score a i)%Q.
Proof.
  unfold score. eapply Qlt_le_trans; [|apply py_max_l]. reflexivity.
Qed.

Lemma new_shares_pos a : Forall (fun x => 0 < x)%Q (new_shares a).
Proof.
  unfold new_shares. apply Forall_map, Forall_forall. intros i _. apply score_pos.
Qed.

Lemma new_shares_sum_pos a : (0 < fsum (new_shares a))%Q.
Proof.
  rewrite fsum_qsum. pose proof (new_shares_pos a) as H.
  unfold new_shares in H |- *; simpl in H; simpl.
  apply qsum_pos in H. exact H.
Qed.

Lemma Qdiv_pos x c : (0 < x -> 0 < c -> 0 < x / c)%Q.
Proof.
  intros Hx Hc. unfold Qdiv. apply Qmult_lt_0_compat; [exact Hx|].
  apply Qinv_lt_0_compat, Hc.
Qed.

Lemma target_pos a : Forall (fun x => 0 < x)%Q (target a).
Proof.
  unfold target. apply Forall_map.
  eapply Forall_impl; [apply new_shares_pos|].
  intros x Hx. simpl. rewrite fdiv_eq. apply Qdiv_pos; [exact Hx|].
  apply new_shares_sum_pos.
Qed.

Lemma target_length a : length (target a) = 4%nat.
Proof. reflexivity. Qed.

Lemma step_towards_pos old tgt : (0 < old -> 0 < tgt -> 0 < step_towards old tgt)%Q.
Proof.
  intros Ho Ht. unfold step_towards, py_max, py_min.
  destruct (_ <?. 5 # 100) eqn:E1; fcases;
    match goal with |- context [if ?b then _ else _] => destruct b eqn:E2 end;
    fcases; revert E1 E2; fnorm; intros; fnorm; lra.
Qed.

Lemma zip_step_pos l k :
  Forall (fun x => 0 < x)%Q l -> Forall (fun x => 0 < x)%Q k ->
  Forall (fun x => 0 < x)%Q (zip_with step_towards l k).
Proof.
  intros Hl. revert k. induction Hl as [|x l Hx Hl IH]; intros k Hk; simpl.
  - constructor.
  - destruct Hk as [|y k Hy Hk]; constructor.
    + apply step_towards_pos; assumption.
    + apply IH, Hk.
Qed.

Lemma updated_pos a :
  Forall (fun x => 0 < x)%Q (shares a) -> Forall (fun x => 0 < x)%Q (updated a).
Proof. intros H. apply zip_step_pos; [exact H | apply target_pos]. Qed.

Lemma updated_length a : length (shares a) = 4%nat -> length (updated a) = 4%nat.
Proof.
  intros H. unfold updated. rewrite length_zip_with, H, target_length. reflexivity.
Qed.

Lemma updated_sum_pos a :
  length (shares a) = 4%nat -> Forall (fun x => 0 < x)%Q (shares a) ->
  (0 < fsum (updated a))%Q.
Proof.
  intros Hlen Hpos. rewrite fsum_qsum.
  pose proof (updated_length a Hlen) as Hl.
  pose proof (updated_pos a Hpos) as Hp.
  destruct (updated a) as [|x l]; [discriminate Hl|].
  apply qsum_pos, Hp.
Qed.

Lemma _update_shares_ok a :
  length (shares a) = 4%nat -> Forall (fun x => 0 < x)%Q (shares a) ->
  shares_ok (shares (_update_shares a)).
Proof.
  intros Hlen Hpos. unfold shares_ok, _update_shares; cbn [shares].
  pose proof (updated_sum_pos a Hlen Hpos) as Hs2.
  split; [|split].
  - rewrite length_map. apply updated_length, Hlen.
  - apply Forall_map. eapply Forall_impl; [apply updated_pos, Hpos|].
    intros x Hx. simpl. rewrite fdiv_eq. apply Qdiv_pos; assumption.
  - rewrite fsum_qsum, qsum_scale, <- fsum_qsum.
    unfold Qdiv. apply Qmult_inv_r. lra.
Qed.

Lemma _update_boundaries_increasing a :
  increasing (boundaries a) -> increasing (boundaries (_update_boundaries a)).
Proof.
  intros Hb. unfold _update_boundaries.
  destruct (_ <? 200)%nat; [exact Hb|].
  match goal with |- context [if ?b then _ else _] => destruct b eqn:E end;
    [|exact Hb].
  apply andb_true_iff in E as [E1 E2].
  apply Z.ltb_lt in E1, E2. cbn [boundaries].
  eexists _, _, _. split; [reflexivity|]. lia.
Qed.

Lemma _update_boundaries_shares a : shares (_update_boundaries a) = shares a.
Proof.
  unfold _update_boundaries. destruct (_ <? 200)%nat; [reflexivity|].
  match goal with |- context [if ?b then _ else _] => destruct b end; reflexivity.
Qed.

Lemma zeros_ok : counters_ok [0; 0; 0; 0].
Proof. split; [reflexivity|]. repeat constructor; lia. Qed.

Lemma on_window_end_ok a : allocator_ok a -> allocator_ok (on_window_end a).
Proof.
  intros ((Hlen & Hpos & _) & Hb & _).
  unfold allocator_ok, on_window_end; cbn [shares boundaries win_arrival
    win_accepted win_tokens win_reject _update_shares].
  split; [|split; [|repeat split; apply zeros_ok]].
  - apply (_update_shares_ok (_update_boundaries a));
      rewrite _update_boundaries_shares; assumption.
  - apply _update_boundaries_increasing, Hb.
Qed.

Lemma counters_bump l b d : 0 <= d -> counters_ok l ->
  counters_ok (<[b := zitem l b + d]> l).
Proof.
  intros Hd [Hlen Hall]. split; [rewrite length_insert; exact Hlen|].
  apply Forall_insert; [exact Hall|].
  unfold zitem. destruct (l !! b) as [x|] eqn:E; simpl; [|lia].
  rewrite Forall_forall in Hall.
  assert (0 <= x) by (apply Hall; eapply list_elem_of_lookup_2; exact E). lia.
Qed.

Lemma refill_buckets_same dt l a :
  let a' := foldl (refill_bucket dt) a l in
  shares a' = shares a /\ boundaries a' = boundaries a /\
  win_arrival a' = win_arrival a /\ win_accepted a' = win_accepted a /\
  win_tokens a' = win_tokens a /\ win_reject a' = win_reject a.
Proof.
  revert a. induction l as [|i l IH]; intros a; simpl; [repeat split|].
  destruct (IH (refill_bucket dt a i)) as (-> & -> & -> & -> & -> & ->).
  repeat split.
Qed.

Lemma refill_ok a now : allocator_ok a -> allocator_ok (refill a now).
Proof.
  intros Ha. unfold refill. destruct (_ <=?. 0); [exact Ha|].
  unfold allocator_ok; cbn [shares boundaries win_arrival win_accepted
    win_tokens win_reject].
  destruct (refill_buckets_same (py_max 0 (now -. last_refill a)) (seq 0 4) a)
    as (-> & -> & -> & -> & -> & ->).
  exact Ha.
Qed.

Lemma allocator_step_ok a c :
  tokens_nonneg c -> allocator_ok a -> allocator_ok (allocator_step a c).
Proof.
  destruct c as [tok|tok|tok|now b tok|b tok|]; simpl; intros Hc Ha.
  - destruct Ha as (Hs & Hb & Ha1 & Ha2 & Ha3 & Ha4).
    refine (conj _ (conj _ (conj _ (conj _ (conj _ _)))));
      first [assumption | apply counters_bump; [lia | assumption]].
  - destruct Ha as (Hs & Hb & Ha1 & Ha2 & Ha3 & Ha4).
    refine (conj _ (conj _ (conj _ (conj _ (conj _ _)))));
      first [assumption | apply counters_bump; [lia | assumption]].
  - destruct Ha as (Hs & Hb & Ha1 & Ha2 & Ha3 & Ha4).
    refine (conj _ (conj _ (conj _ (conj _ (conj _ _)))));
      first [assumption | apply counters_bump; [lia | assumption]].
  - apply refill_ok, Ha.
  - exact Ha.
  - apply on_window_end_ok, Ha.
Qed.

Lemma allocator_steps_ok calls a :
  Forall tokens_nonneg calls -> allocator_ok a ->
  allocator_ok (foldl allocator_step a calls).
Proof.
  revert a. induction calls as [|c calls IH]; intros a Hcs Ha; simpl; [exact Ha|].
  inversion Hcs; subst. apply IH; [assumption|].
  apply allocator_step_ok; assumption.
Qed.

Lemma init_ok rpm tpm : allocator_ok (init rpm tpm).
Proof.
  unfold allocator_ok, init; cbn [shares boundaries win_arrival win_accepted
    win_tokens win_reject].
  split; [|split; [|repeat split; apply zeros_ok]].
  - split; [reflexivity|]. split; [|reflexivity].
    repeat constructor.
  - exists 300, 1200, 3800. split; [reflexivity|lia].
Qed.

(** C3, as the code has it.  Starting from a freshly constructed
    allocator, after any sequence of calls with non-negative token counts,
    a re-balance ([on_window_end]) divides by positive sums only and
    leaves four shares that sum to 1 and are each strictly positive, and
    three strictly increasing boundaries; the window counters are reset.
    (The clamp to [0.10, 0.50] applies to the scores before shares are
    normalised; the shares themselves are not kept in that band.) *)
Theorem rebalance_shares_sum_to_one (total_rpm0 total_tpm0 : Z)
    (calls : list allocator_call) :
  Forall tokens_nonneg calls ->
  let a := foldl allocator_step (init total_rpm0 total_tpm0) calls in
  let a1 := _update_boundaries a in
  (0 < a_sum a1 /\ 0 < ok_sum a1 /\ 0 < tok_sum a1 /\
   0 < fsum (new_shares a1) /\ 0 < fsum (updated a1))%Q /\
  shares_ok (shares (on_window_end a)) /\
  increasing (boundaries (on_window_end a)) /\
  allocator_ok (on_window_end a).
Proof.
  intros Hcs a a1.
  assert (Ha : allocator_ok a)
    by (apply allocator_steps_ok; [exact Hcs | apply init_ok]).
  pose proof (on_window_end_ok a Ha) as Hw.
  split; [|split; [apply Hw | split; [apply Hw | exact Hw]]].
  destruct Ha as ((Hlen & Hpos & _) & Hb & (_ & H1) & (_ & H2) & (_ & H3) & _).
  assert (Hsame : win_arrival a1 = win_arrival a /\
                  win_accepted a1 = win_accepted a /\
                  win_tokens a1 = win_tokens a).
  { subst a1. unfold _update_boundaries. destruct (_ <? 200)%nat; [repeat split|].
    match goal with |- context [if ?b then _ else _] => destruct b end;
      repeat split. }
  destruct Hsame as (E1 & E2 & E3).
  unfold a_sum, ok_sum, tok_sum. rewrite E1, E2, E3.
  repeat split; try (apply divisor_pos; assumption).
  - apply new_shares_sum_pos.
  - apply updated_sum_pos; subst a1; rewrite _update_boundaries_shares; assumption.
Qed.

Lemma rebalance_shares_sum_to_one_witness :
  Forall tokens_nonneg busy_window /\
  shares_ok (shares (on_window_end (foldl allocator_step (init 8100 3795000) busy_window))).
Proof.
  assert (H : Forall tokens_nonneg busy_window).
  { unfold busy_window. simpl. repeat constructor; simpl; lia. }
  split; [exact H|].
  exact (proj1 (proj2 (rebalance_shares_sum_to_one 8100 3795000 busy_window H))).
Defined.

(** C3 as stated fails for the share band: after a window with five
    accepted arrivals in the first bucket and four in the second, the
    first re-balance leaves the fourth share below 0.10 (about 0.088),
    although the shares still sum to 1 and the boundaries are unchanged. *)
Lemma rebalance_share_below_band :
  let a := on_window_end (foldl allocator_step (init 8100 3795000) busy_window) in
  ~ Forall in_band (shares a) /\
  (fitem (shares a) 3 < 10 # 100)%Q /\
  (fsum (shares a) == 1)%Q /\
  boundaries a = [300; 1200; 3800].
Proof.
  assert (Hlt : (fitem (shares (on_window_end
             (foldl allocator_step (init 8100 3795000) busy_window))) 3
           < 10 # 100)%Q) by (vm_compute; reflexivity).
  cbv zeta. split; [|split; [exact Hlt|split; vm_compute; reflexivity]].
  intros Hall. rewrite Forall_forall in Hall.
  assert (Hin : in_band (fitem (shares (on_window_end
             (foldl allocator_step (init 8100 3795000) busy_window))) 3)).
  { apply Hall. vm_compute. do 3 right. left. }
  destruct Hin as [Hlo _]. apply (Qlt_not_le _ _ Hlt Hlo).
Qed.

End AllocatorProperties.

(** ** The tick loop *)

Section RunProperties.
Import AbTestSimulator RunSpec.
Import Run.
Context {C : Type} `{Controller C}.
Variable reqs : list Request.t.
Variable sampler : nat -> list nat.

(** *** What each phase leaves alone *)

Lemma arrive_loop_frame pending (st : state C) :
  let st' := arrive_loop pending st in
  nodes st' = nodes st /\ controller st' = controller st /\ now st' = now st /\
  accepted st' = accepted st /\ rejected st' = rejected st /\
  rejected_reason st' = rejected_reason st.
Proof.
  revert st. induction pending as [|r rest IH]; intros st; simpl.
  - repeat split.
  - destruct (_ <=?. _); [|repeat split].
    match goal with |- context [arrive_loop rest ?s] => exact (IH s) end.
Qed.

Lemma complete_one_frame (st : state C) c :
  let st' := complete_one st c in
  queue st' = queue st /\ idx st' = idx st /\ now st' = now st /\
  accepted st' = accepted st /\ rejected st' = rejected st /\
  rejected_reason st' = rejected_reason st /\ controller st' = controller st.
Proof. repeat split. Qed.

Lemma complete_all_frame l (st : state C) :
  let st' := foldl complete_one st l in
  queue st' = queue st /\ idx st' = idx st /\ now st' = now st /\
  accepted st' = accepted st /\ rejected st' = rejected st /\
  rejected_reason st' = rejected_reason st /\ controller st' = controller st.
Proof.
  revert st. induction l as [|c l IH]; intros st; simpl; [repeat split|].
  exact (IH (complete_one st c)).
Qed.

Lemma complete_frame (st : state C) :
  let st' := complete st in
  queue st' = queue st /\ idx st' = idx st /\ now st' = now st /\
  accepted st' = accepted st /\ rejected st' = rejected st /\
  rejected_reason st' = rejected_reason st /\ controller st' = controller st.
Proof.
  unfold complete. destruct (List.filter _ _) as [|c l]; [repeat split|].
  cbn [queue idx now accepted rejected rejected_reason controller].
  apply (complete_all_frame (c :: l) st).
Qed.

Lemma timeout_loop_frame q (st : state C) :
  let st' := timeout_loop q st in
  nodes st' = nodes st /\ controller st' = controller st /\ now st' = now st /\
  idx st' = idx st /\ accepted st' = accepted st.
Proof.
  revert st. induction q as [|r q IH]; intros st; simpl; [repeat split|].
  destruct (_ <?. _); [|repeat split].
  match goal with |- context [timeout_loop q ?s] => exact (IH s) end.
Qed.

Lemma admit_loop_frame cap t q (st : state C) :
  let st' := admit_loop sampler cap t q st in
  controller st' = controller st /\ now st' = now st /\ idx st' = idx st /\
  rejected st' = rejected st /\ rejected_reason st' = rejected_reason st.
Proof.
  revert t st. induction q as [|r q IH]; intros t st; simpl; [repeat split|].
  destruct (t <? cap); [|repeat split].
  destruct (try_nodes _ _ _ _ _ _) as [[ns res] fr].
  destruct res as [nid|]; [|repeat split].
  match goal with |- context [admit_loop _ _ ?t' q ?s] => exact (IH t' s) end.
Qed.

Lemma rollover_loop_frame fuel (st : state C) :
  let st' := rollover_loop fuel st in
  nodes st' = nodes st /\ queue st' = queue st /\ idx st' = idx st /\
  now st' = now st /\ accepted st' = accepted st /\ rejected st' = rejected st /\
  rejected_reason st' = rejected_reason st.
Proof.
  revert st. induction fuel as [|fuel IH]; intros st; simpl; [repeat split|].
  destruct (_ <=?. _); [|repeat split].
  exact (IH (roll st)).
Qed.

(** *** Seats *)

Lemma total_alter_finish i ns : total_inflight (alter NodeState.finish i ns) <= total_inflight ns.
Proof.
  revert i. induction ns as [|n ns IH]; intros i; simpl; [lia|].
  destruct i as [|i]; simpl.
  - clear IH. unfold NodeState.finish.
    destruct (0 <? NodeState.inflight n); simpl; lia.
  - apply Zplus_le_compat_l. exact (IH i).
Qed.

Lemma finish_seats n : seats_ok n -> seats_ok (NodeState.finish n).
Proof.
  unfold seats_ok, NodeState.finish.
  destruct (0 <? NodeState.inflight n) eqn:E; simpl; [|auto].
  apply Z.ltb_lt in E. lia.
Qed.

Lemma complete_all_nodes l (st : state C) :
  Forall seats_ok (nodes st) ->
  Forall seats_ok (nodes (foldl complete_one st l)) /\
  total_inflight (nodes (foldl complete_one st l)) <= total_inflight (nodes st).
Proof.
  revert st. induction l as [|c l IH]; intros st Hst; simpl; [split; [exact Hst|lia]|].
  destruct (IH (complete_one st c)) as [H1 H2].
  - simpl. apply Forall_alter; [exact Hst|]. intros n _. apply finish_seats.
  - split; [exact H1|]. etransitivity; [exact H2|].
    simpl. apply total_alter_finish.
Qed.

Lemma complete_nodes (st : state C) :
  Forall seats_ok (nodes st) ->
  Forall seats_ok (nodes (complete st)) /\
  total_inflight (nodes (complete st)) <= total_inflight (nodes st).
Proof.
  intros Hst. unfold complete.
  destruct (List.filter _ _) as [|c l]; [split; [exact Hst|lia]|].
  cbn [nodes]. apply complete_all_nodes, Hst.
Qed.

Lemma total_insert i n m ns :
  ns !! i = Some n ->
  total_inflight (<[i := m]> ns) = total_inflight ns - NodeState.inflight n + NodeState.inflight m.
Proof.
  revert i. induction ns as [|x ns IH]; intros i Hi; [discriminate Hi|].
  destruct i as [|i]; simpl in Hi |-; simpl.
  - inversion Hi; subst. lia.
  - rewrite (IH i Hi). lia.
Qed.

Lemma refill_seats n now0 :
  NodeState.inflight (NodeState.refill n now0) = NodeState.inflight n /\
  NodeState.max_physical_concurrency (NodeState.refill n now0)
  = NodeState.max_physical_concurrency n.
Proof.
  unfold NodeState.refill. destruct (_ <=?. 0); split; reflexivity.
Qed.

Lemma can_start_seats n now0 tokens cap n' ok reason :
  NodeState.can_start n now0 tokens cap = (n', (ok, reason)) ->
  NodeState.inflight n' = NodeState.inflight n /\
  NodeState.max_physical_concurrency n' = NodeState.max_physical_concurrency n /\
  (ok = true ->
   NodeState.inflight n < Z.min (NodeState.max_physical_concurrency n) cap).
Proof.
  unfold NodeState.can_start.
  destruct (refill_seats n now0) as [Hi Hp].
  destruct (Z.min _ _ <=? _) eqn:E.
  { intros [= <- <- <-]. repeat split; try assumption. discriminate. }
  apply Z.leb_gt in E. rewrite Hi, Hp in E.
  repeat match goal with |- context [if ?b then _ else _] => destruct b end;
    intros [= <- <- <-]; repeat split; try assumption; try discriminate; auto.
Qed.

Lemma try_nodes_seats now0 tokens cap sample :
  forall ns fr ns' res fr',
  try_nodes now0 tokens cap sample ns fr = (ns', res, fr') ->
  Forall seats_ok ns ->
  Forall seats_ok ns' /\
  total_inflight ns' = total_inflight ns + match res with Some _ => 1 | None => 0 end /\
  (forall nid, res = Some nid -> total_inflight ns < cap \/ cap <= total_inflight ns).
Proof.
  induction sample as [|i rest IH]; intros ns fr ns' res fr' Htry Hns; simpl in Htry.
  - inversion Htry; subst. split; [exact Hns|]. split; [lia|]. intros; lia.
  - destruct (ns !! i) as [n|] eqn:Hi; [|eapply IH; eassumption].
    destruct (NodeState.can_start n now0 tokens cap) as [n' [ok reason]] eqn:Hcs.
    destruct (can_start_seats _ _ _ _ _ _ _ Hcs) as (Hinf & Hphys & Hok).
    assert (Hn : seats_ok n).
    { rewrite Forall_forall in Hns. apply Hns.
      eapply list_elem_of_lookup_2; exact Hi. }
    destruct ok.
    + inversion Htry; subst. specialize (Hok eq_refl).
      split; [|split; [|intros; lia]].
      * apply Forall_insert; [exact Hns|].
        unfold seats_ok in Hn |- *; simpl; lia.
      * rewrite (total_insert _ _ _ _ Hi). simpl. lia.
    + destruct (IH _ _ _ _ _ Htry) as (H1 & H2 & H3).
      * apply Forall_insert; [exact Hns|].
        unfold seats_ok in Hn |- *; lia.
      * split; [exact H1|]. split; [|intros; lia].
        rewrite H2, (total_insert _ _ _ _ Hi). lia.
Qed.

Lemma admit_loop_nodes cap q :
  forall t (st : state C),
  t = total_inflight (nodes st) -> Forall seats_ok (nodes st) ->
  Forall seats_ok (nodes (admit_loop sampler cap t q st)) /\
  total_inflight (nodes (admit_loop sampler cap t q st)) <= Z.max t cap.
Proof.
  induction q as [|r q IH]; intros t st Ht Hst; simpl.
  - split; [exact Hst|lia].
  - destruct (t <? cap) eqn:Hlt; [|split; [exact Hst|lia]].
    apply Z.ltb_lt in Hlt.
    destruct (try_nodes _ _ _ _ _ _) as [[ns res] fr] eqn:Htry.
    destruct (try_nodes_seats _ _ _ _ _ _ _ _ _ Htry Hst) as (H1 & H2 & _).
    destruct res as [nid|].
    + match goal with |- context [admit_loop _ _ ?t' q ?s] =>
        destruct (IH t' s) as [H3 H4] end.
      * cbn [nodes]. lia.
      * exact H1.
      * split; [exact H3|]. lia.
    + simpl. split; [exact H1|]. lia.
Qed.

Lemma admission_nodes (st : state C) :
  Forall seats_ok (nodes st) ->
  Forall seats_ok (nodes (admission sampler st)) /\
  total_inflight (nodes (admission sampler st))
  <= Z.max (total_inflight (nodes st)) (current_limit (controller st)).
Proof. intros Hst. apply admit_loop_nodes; [reflexivity | exact Hst]. Qed.

Lemma tick_nodes (st : state C) :
  Forall seats_ok (nodes st) ->
  Forall seats_ok (nodes (tick reqs sampler st)) /\
  total_inflight (nodes (tick reqs sampler st))
  <= Z.max (total_inflight (nodes st)) (current_limit (controller st)).
Proof.
  intros Hst. unfold tick, advance, rollover, record_peak, expire, arrive.
  cbn [nodes].
  match goal with |- context [rollover_loop ?f ?s] =>
    destruct (rollover_loop_frame f s) as (-> & _) end.
  cbn [nodes].
  set (st1 := arrive_loop (drop (idx st) reqs) st).
  destruct (arrive_loop_frame (drop (idx st) reqs) st) as (Hn1 & Hc1 & _).
  fold st1 in Hn1, Hc1.
  set (st2 := complete st1).
  destruct (complete_frame st1) as (_ & _ & _ & _ & _ & _ & Hc2).
  fold st2 in Hc2.
  assert (Hst1 : Forall seats_ok (nodes st1)) by (rewrite Hn1; exact Hst).
  destruct (complete_nodes st1 Hst1) as [Hs2 Ht2]. fold st2 in Hs2, Ht2.
  set (st3 := timeout_loop (queue st2) st2).
  destruct (timeout_loop_frame (queue st2) st2) as (Hn3 & Hc3 & _).
  fold st3 in Hn3, Hc3.
  assert (Hst3 : Forall seats_ok (nodes st3)) by (rewrite Hn3; exact Hs2).
  destruct (admission_nodes st3 Hst3) as [Hs4 Ht4].
  split; [exact Hs4|].
  rewrite Hn3, Hc3, Hc2, Hc1 in Ht4. rewrite Hn1 in Ht2. lia.
Qed.

Lemma fresh_seats ns : Forall fresh_node ns -> Forall seats_ok ns /\ total_inflight ns = 0.
Proof.
  induction 1 as [|n ns [Hi Hp] _ [IH1 IH2]]; simpl.
  - split; [constructor|reflexivity].
  - split; [constructor; [unfold seats_ok; lia | exact IH1] | lia].
Qed.

Lemma ticks_S k (st : state C) :
  ticks reqs sampler (S k) st = tick reqs sampler (ticks reqs sampler k st).
Proof. reflexivity. Qed.

Lemma ticks_seats k (st : state C) :
  Forall seats_ok (nodes st) -> Forall seats_ok (nodes (ticks reqs sampler k st)).
Proof.
  intros Hst. induction k as [|k IH]; [exact Hst|].
  rewrite ticks_S. apply tick_nodes, IH.
Qed.

Lemma ticks_total k (st : state C) L :
  Forall seats_ok (nodes st) -> total_inflight (nodes st) <= Z.max 0 L ->
  (forall j, (j < k)%nat ->
     current_limit (controller (ticks reqs sampler j st)) <= L) ->
  total_inflight (nodes (ticks reqs sampler k st)) <= Z.max 0 L.
Proof.
  intros Hst H0. induction k as [|k IH]; intros HL; [exact H0|].
  rewrite ticks_S.
  destruct (tick_nodes (ticks reqs sampler k st) (ticks_seats k st Hst)) as [_ Ht].
  assert (total_inflight (nodes (ticks reqs sampler k st)) <= Z.max 0 L)
    by (apply IH; intros j Hj; apply HL; lia).
  specialize (HL k (Nat.lt_succ_diag_r k)). lia.
Qed.

(** C1, as the code has it.  From fresh nodes, in every state the tick
    loop reaches each node has [0 <= inflight <= max_physical_concurrency];
    one tick never raises the sum of in-flight counts above the limit the
    controller returned at that tick (the sum after the tick is at most
    the larger of the sum before it and that limit); so the sum never
    exceeds the largest limit the controller has returned at a tick so
    far; and [can_start] succeeds only on a node with
    [inflight < min(max_physical_concurrency, limit)].  Nothing lowers
    the in-flight counts when the controller lowers its limit. *)
Theorem admission_seats (c : C) (ns : list NodeState.t) (k : nat) (L : Z) :
  Forall fresh_node ns ->
  let st := ticks reqs sampler k (init_state ns c) in
  Forall seats_ok (nodes st) /\
  total_inflight (nodes (tick reqs sampler st))
  <= Z.max (total_inflight (nodes st)) (current_limit (controller st)) /\
  ((forall j, (j < k)%nat ->
      current_limit (controller (ticks reqs sampler j (init_state ns c))) <= L) ->
   total_inflight (nodes st) <= Z.max 0 L) /\
  (forall n now0 tokens cap,
     (NodeState.can_start n now0 tokens cap).2.1 = true ->
     NodeState.inflight n < Z.min (NodeState.max_physical_concurrency n) cap).
Proof.
  intros Hns st. destruct (fresh_seats ns Hns) as [Hs H0].
  assert (Hst : Forall seats_ok (nodes st)) by (apply ticks_seats; exact Hs).
  split; [exact Hst|]. split; [apply tick_nodes, Hst|]. split.
  - intros HL. apply ticks_total; [exact Hs | simpl; lia | exact HL].
  - intros n now0 tokens cap Hok.
    destruct (NodeState.can_start n now0 tokens cap) as [n' [ok reason]] eqn:Hcs.
    apply (can_start_seats _ _ _ _ _ _ _ Hcs). exact Hok.
Qed.

(** *** The window loop exits by its own condition *)

Lemma rollover_loop_exits fuel :
  forall st : state C,
  Qfloor (now st) - sec_cursor st <= Z.of_nat fuel ->
  (now (rollover_loop fuel st)
   < of_int (sec_cursor (rollover_loop fuel st)) + 1)%Q.
Proof.
  induction fuel as [|fuel IH]; intros st Hfuel; simpl.
  - pose proof (Qlt_floor (now st)) as Hfl.
    assert (Hle : (inject_Z (Qfloor (now st) + 1)
                   <= inject_Z (sec_cursor st + 1))%Q)
      by (rewrite <- Zle_Qle; lia).
    rewrite (inject_Z_plus (sec_cursor st) 1) in Hle. unfold of_int.
    change (inject_Z 1) with 1%Q in Hle. lra.
  - destruct (_ <=?. _) eqn:E.
    + apply (IH (roll st)). simpl. lia.
    + apply fle_false in E. rewrite fadd_eq in E. exact E.
Qed.

Lemma rollover_exits (st : state C) :
  (now (rollover st) < of_int (sec_cursor (rollover st)) + 1)%Q.
Proof. apply rollover_loop_exits. lia. Qed.

(** *** Termination of the loop *)

Lemma tick_now (st : state C) : now (tick reqs sampler st) = now st +. dt.
Proof.
  unfold tick, advance, rollover, record_peak, admission, expire, arrive.
  cbn [now].
  match goal with |- context [rollover_loop ?f ?s] =>
    destruct (rollover_loop_frame f s) as (_ & _ & _ & -> & _) end.
  cbn [now].
  match goal with |- context [admit_loop _ ?c ?t ?q ?s] =>
    destruct (admit_loop_frame c t q s) as (_ & -> & _) end.
  match goal with |- context [timeout_loop ?q ?s] =>
    destruct (timeout_loop_frame q s) as (_ & _ & -> & _) end.
  match goal with |- context [complete ?s] =>
    destruct (complete_frame s) as (_ & _ & -> & _) end.
  match goal with |- context [arrive_loop ?p ?s] =>
    destruct (arrive_loop_frame p s) as (_ & _ & -> & _) end.
  reflexivity.
Qed.

Lemma ticks_shift k (st : state C) :
  ticks reqs sampler k (tick reqs sampler st) = ticks reqs sampler (S k) st.
Proof. unfold ticks. symmetry. apply Nat.iter_succ_r. Qed.

(** *** Node ids of the flights *)

Lemma arrive_loop_flights pending (st : state C) :
  inflight (arrive_loop pending st) = inflight st.
Proof.
  revert st. induction pending as [|r rest IH]; intros st; simpl; [reflexivity|].
  destruct (_ <=?. _); [|reflexivity].
  match goal with |- context [arrive_loop rest ?s] => exact (IH s) end.
Qed.

Lemma timeout_loop_flights q (st : state C) :
  inflight (timeout_loop q st) = inflight st.
Proof.
  revert st. induction q as [|r q IH]; intros st; simpl; [reflexivity|].
  destruct (_ <?. _); [|reflexivity].
  match goal with |- context [timeout_loop q ?s] => exact (IH s) end.
Qed.

Lemma rollover_loop_flights fuel (st : state C) :
  inflight (rollover_loop fuel st) = inflight st.
Proof.
  revert st. induction fuel as [|fuel IH]; intros st; simpl; [reflexivity|].
  destruct (_ <=?. _); [|reflexivity].
  exact (IH (roll st)).
Qed.

Lemma finish_node_id n : NodeState.node_id (NodeState.finish n) = NodeState.node_id n.
Proof. unfold NodeState.finish. destruct (0 <? _); reflexivity. Qed.

Lemma can_start_node_id n now0 tokens cap :
  NodeState.node_id (NodeState.can_start n now0 tokens cap).1 = NodeState.node_id n.
Proof.
  unfold NodeState.can_start.
  assert (Hr : NodeState.node_id (NodeState.refill n now0) = NodeState.node_id n).
  { unfold NodeState.refill. destruct (_ <=?. _); reflexivity. }
  repeat match goal with |- context [if ?b then _ else _] => destruct b end;
    exact Hr.
Qed.

Lemma complete_all_valid n l :
  forall st : state C,
  ids_valid n st -> ids_valid n (foldl complete_one st l).
Proof.
  induction l as [|c l IH]; intros st Hst; [exact Hst|].
  apply (IH (complete_one st c)).
  destruct Hst as (Hlen & Hns & Hfl).
  unfold ids_valid, complete_one; cbn [nodes inflight].
  split; [rewrite length_alter; exact Hlen|]. split; [|exact Hfl].
  apply Forall_alter; [exact Hns|].
  intros x _ Hx. rewrite finish_node_id. exact Hx.
Qed.

Lemma complete_valid n (st : state C) : ids_valid n st -> ids_valid n (complete st).
Proof.
  intros Hst. unfold complete.
  destruct (List.filter _ (inflight st)) as [|c l] eqn:Hdone; [exact Hst|].
  destruct (complete_all_valid n (c :: l) st Hst) as (Hlen & Hns & _).
  unfold ids_valid; cbn [nodes inflight].
  split; [exact Hlen|]. split; [exact Hns|].
  destruct Hst as (_ & _ & Hfl).
  rewrite Forall_forall in Hfl |- * . intros f Hf.
  apply Hfl. apply list_elem_of_In in Hf. apply filter_In in Hf as [Hf _].
  apply list_elem_of_In, Hf.
Qed.

Lemma try_nodes_valid n now0 tokens cap sample :
  forall ns fr ns' res fr',
  try_nodes now0 tokens cap sample ns fr = (ns', res, fr') ->
  length ns = n -> Forall (fun x => (NodeState.node_id x < n)%nat) ns ->
  length ns' = n /\ Forall (fun x => (NodeState.node_id x < n)%nat) ns' /\
  forall nid, res = Some nid -> (nid < n)%nat.
Proof.
  induction sample as [|i rest IH]; intros ns fr ns' res fr' Htry Hlen Hns;
    simpl in Htry.
  - inversion Htry; subst. split; [reflexivity|]. split; [exact Hns|].
    intros nid Hnid. discriminate Hnid.
  - destruct (ns !! i) as [x|] eqn:Hi; [|eapply IH; eassumption].
    assert (Hx : (NodeState.node_id x < n)%nat).
    { rewrite Forall_forall in Hns. apply Hns.
      eapply list_elem_of_lookup_2; exact Hi. }
    pose proof (can_start_node_id x now0 tokens cap) as Hid.
    destruct (NodeState.can_start x now0 tokens cap) as [x' [ok reason]].
    cbn [fst] in Hid.
    destruct ok.
    + inversion Htry; subst.
      split; [apply length_insert|]. split.
      * apply Forall_insert; [exact Hns|].
        unfold NodeState.start; cbn [NodeState.node_id]. rewrite Hid. exact Hx.
      * intros nid Hnid. inversion Hnid; subst. rewrite Hid. exact Hx.
    + eapply IH; [exact Htry | rewrite length_insert; exact Hlen |].
      apply Forall_insert; [exact Hns|]. rewrite Hid. exact Hx.
Qed.

Lemma admit_loop_valid n cap q :
  forall t (st : state C),
  ids_valid n st -> ids_valid n (admit_loop sampler cap t q st).
Proof.
  induction q as [|r q IH]; intros t st Hst; simpl; [exact Hst|].
  destruct (t <? cap); [|exact Hst].
  destruct Hst as (Hlen & Hns & Hfl).
  destruct (try_nodes _ _ _ _ _ _) as [[ns res] fr] eqn:Htry.
  destruct (try_nodes_valid n _ _ _ _ _ _ _ _ _ Htry Hlen Hns) as (H1 & H2 & H3).
  destruct res as [nid|].
  - apply IH. unfold ids_valid; cbn [nodes inflight].
    split; [exact H1|]. split; [exact H2|].
    apply Forall_app. split; [exact Hfl|].
    constructor; [|constructor]. cbn [Inflight.node_id]. apply H3. reflexivity.
  - unfold ids_valid; cbn [nodes inflight]. repeat split; assumption.
Qed.

Lemma tick_valid n (st : state C) :
  ids_valid n st -> ids_valid n (tick reqs sampler st).
Proof.
  intros Hst.
  assert (H1 : ids_valid n (arrive reqs st)).
  { unfold ids_valid, arrive. rewrite arrive_loop_flights.
    destruct (arrive_loop_frame (drop (idx st) reqs) st) as (-> & _). exact Hst. }
  apply complete_valid in H1.
  assert (H2 : ids_valid n (expire (complete (arrive reqs st)))).
  { unfold ids_valid, expire. rewrite timeout_loop_flights.
    match goal with |- context [timeout_loop ?q ?s] =>
      destruct (timeout_loop_frame q s) as (-> & _) end.
    exact H1. }
  assert (H3 : ids_valid n (admission sampler (expire (complete (arrive reqs st)))))
    by (apply admit_loop_valid, H2).
  unfold tick, advance, rollover, record_peak, ids_valid; cbn [nodes inflight].
  rewrite rollover_loop_flights.
  match goal with |- context [rollover_loop ?f ?s] =>
    destruct (rollover_loop_frame f s) as (-> & _) end.
  exact H3.
Qed.

Lemma ticks_valid n k (st : state C) :
  ids_valid n st -> ids_valid n (ticks reqs sampler k st).
Proof.
  intros Hst. induction k as [|k IH]; [exact Hst|].
  unfold ticks. rewrite Nat.iter_succ. apply tick_valid, IH.
Qed.

Lemma init_valid ns (c : C) :
  ids_in_range ns -> ids_valid (length ns) (init_state ns c).
Proof.
  intros Hns. unfold ids_valid; cbn [nodes inflight init_state].
  split; [reflexivity|]. split; [exact Hns|constructor].
Qed.

(** With all ids in range phase 2 does not raise. *)
Lemma valid_no_raise n (st : state C) :
  ids_valid n st -> tick_raises reqs st = false.
Proof.
  intros (Hlen & _ & Hfl). unfold tick_raises, complete_raises, arrive.
  rewrite arrive_loop_flights.
  destruct (arrive_loop_frame (drop (idx st) reqs) st) as (-> & _ & -> & _).
  apply not_true_is_false. intros Hex.
  apply existsb_exists in Hex as (f & Hf & Hout).
  apply filter_In in Hf as [Hf _].
  rewrite Forall_forall in Hfl. apply list_elem_of_In, Hfl in Hf.
  rewrite Hlen in Hout. apply negb_true_iff, Nat.ltb_ge in Hout. lia.
Qed.

(** *** How the loop ends *)

Lemma run_loop_outcome end_time fuel :
  forall st : state C,
  (end_time < now st + inject_Z (Z.of_nat fuel) * dt)%Q ->
  exists k, (k <= fuel)%nat /\
    (forall j, (j < k)%nat ->
       (now (ticks reqs sampler j st) <= end_time)%Q /\
       tick_raises reqs (ticks reqs sampler j st) = false) /\
    ((run_loop reqs sampler fuel end_time st = Finished (ticks reqs sampler k st) /\
      (end_time < now (ticks reqs sampler k st))%Q) \/
     (run_loop reqs sampler fuel end_time st = Raised "IndexError" /\
      (now (ticks reqs sampler k st) <= end_time)%Q /\
      tick_raises reqs (ticks reqs sampler k st) = true)).
Proof.
  induction fuel as [|fuel IH]; intros st Hfuel.
  - exists 0%nat. simpl. change (inject_Z (Z.of_nat 0)) with 0%Q in Hfuel.
    assert (Hlt : (end_time < now st)%Q) by lra.
    pose proof Hlt as Hlt'. apply fle_false in Hlt'. rewrite Hlt'.
    split; [lia|]. split; [intros j Hj; lia|]. left. split; [reflexivity|exact Hlt].
  - cbn [run_loop]. destruct (now st <=?. end_time) eqn:Hle.
    + destruct (tick_raises reqs st) eqn:Hraise.
      * exists 0%nat. split; [lia|]. split; [intros j Hj; lia|]. right.
        split; [reflexivity|]. split; [apply fle_true, Hle|exact Hraise].
      * destruct (IH (tick reqs sampler st)) as (k & Hk & Hbefore & Hend).
        { rewrite tick_now, fadd_eq.
          rewrite Nat2Z.inj_succ in Hfuel. unfold Z.succ in Hfuel.
          rewrite inject_Z_plus in Hfuel. change (inject_Z 1) with 1%Q in Hfuel.
          unfold dt in Hfuel |- *; lra. }
        exists (S k). rewrite <- ticks_shift.
        split; [lia|]. split; [|exact Hend].
        intros [|j] Hj; [split; [apply fle_true, Hle|exact Hraise]|].
        rewrite <- ticks_shift. apply Hbefore. lia.
    + exists 0%nat. split; [lia|]. split; [intros j Hj; lia|]. left.
      split; [reflexivity|apply fle_false, Hle].
Qed.

Lemma tick_budget_enough end_time :
  (end_time < 0 + inject_Z (Z.of_nat (tick_budget end_time)) * dt)%Q.
Proof.
  unfold tick_budget, dt.
  pose proof (Qlt_floor (end_time * 50)) as Hfl.
  set (b := (Qfloor (end_time * 50) + 1)%Z) in Hfl |- *; simpl.
  assert (Hb : (inject_Z b <= inject_Z (Z.of_nat (Z.to_nat b)))%Q).
  { rewrite <- Zle_Qle. lia. }
  lra.
Qed.

(** *** The queue ledger *)

Lemma drop_head {A} (l : list A) n x rest :
  drop n l = x :: rest -> l !! n = Some x /\ rest = drop (S n) l.
Proof.
  intros Hd.
  assert (Hx : l !! n = Some x).
  { pose proof (lookup_drop l n 0) as Hl. rewrite Hd in Hl. simpl in Hl.
    rewrite Nat.add_0_r in Hl. symmetry. exact Hl. }
  split; [exact Hx|].
  rewrite (drop_S _ _ _ Hx) in Hd. congruence.
Qed.

Lemma slice_grow (l : list Request.t) p n r :
  (p <= n)%nat -> l !! n = Some r ->
  drop p (take (S n) l) = drop p (take n l) ++ [r].
Proof.
  intros Hp Hr. rewrite (take_S_r _ _ _ Hr).
  apply drop_app_le. rewrite length_take.
  apply lookup_lt_Some in Hr. lia.
Qed.

Lemma slice_pop (l : list Request.t) p n r rest :
  drop p (take n l) = r :: rest ->
  rest = drop (S p) (take n l) /\ (S p <= n)%nat.
Proof.
  intros Hd. destruct (drop_head _ _ _ _ Hd) as [Hr ->].
  split; [reflexivity|].
  apply lookup_lt_Some in Hr. rewrite length_take in Hr. lia.
Qed.

Lemma get_bump k d : get k (bump k d) = get k d + 1.
Proof. unfold get, bump. rewrite lookup_insert_eq. reflexivity. Qed.

Lemma arrive_loop_ledger pending :
  forall st : state C,
  pending = drop (idx st) reqs -> ledger reqs st ->
  ledger reqs (arrive_loop pending st).
Proof.
  induction pending as [|r rest IH]; intros st Hp Hst; simpl; [exact Hst|].
  destruct (_ <=?. _); [|exact Hst].
  symmetry in Hp. destruct (drop_head _ _ _ _ Hp) as [Hr Hrest].
  destruct Hst as (Hq & Hd & Ha & Hrj & Hrr).
  match goal with |- context [arrive_loop rest ?s] => apply (IH s) end.
  - exact Hrest.
  - unfold ledger, departed in Hq, Hd |- *; cbn [queue idx accepted rejected
      rejected_reason].
    split; [|split; [lia|auto]].
    rewrite Hq. symmetry. apply slice_grow; assumption.
Qed.

Lemma complete_ledger (st : state C) : ledger reqs st -> ledger reqs (complete st).
Proof.
  destruct (complete_frame st) as (Hq & Hi & _ & Ha & Hr & Hrr & _).
  unfold ledger, departed. rewrite Hq, Hi, Ha, Hr, Hrr. auto.
Qed.

Lemma timeout_loop_ledger q :
  forall st : state C,
  q = queue st -> ledger reqs st -> ledger reqs (timeout_loop q st).
Proof.
  induction q as [|r q IH]; intros st Hq Hst; simpl; [exact Hst|].
  destruct (_ <?. _); [|exact Hst].
  destruct Hst as (Hsl & Hd & Ha & Hrj & Hrr).
  rewrite <- Hq in Hsl. symmetry in Hsl.
  destruct (slice_pop _ _ _ _ _ Hsl) as [Hrest Hle].
  match goal with |- context [timeout_loop q ?s] => apply (IH s) end;
    [reflexivity|].
  unfold ledger, departed in Hrest, Hle |- *; cbn [queue idx accepted rejected
    rejected_reason].
  replace (Z.to_nat (accepted st + (rejected st + 1)))
    with (S (Z.to_nat (accepted st + rejected st))) by lia.
  split; [exact Hrest|]. split; [exact Hle|]. split; [exact Ha|].
  split; [lia|]. rewrite get_bump, Hrr. reflexivity.
Qed.

Lemma admit_loop_ledger cap q :
  forall t (st : state C),
  q = queue st -> ledger reqs st -> ledger reqs (admit_loop sampler cap t q st).
Proof.
  induction q as [|r q IH]; intros t st Hq Hst; simpl; [exact Hst|].
  destruct (t <? cap); [|exact Hst].
  destruct (try_nodes _ _ _ _ _ _) as [[ns res] fr].
  destruct res as [nid|]; [|exact Hst].
  destruct Hst as (Hsl & Hd & Ha & Hrj & Hrr).
  rewrite <- Hq in Hsl. symmetry in Hsl.
  destruct (slice_pop _ _ _ _ _ Hsl) as [Hrest Hle].
  match goal with |- context [admit_loop _ _ ?t' q ?s] => apply (IH t' s) end;
    [reflexivity|].
  unfold ledger, departed in Hrest, Hle |- *; cbn [queue idx accepted rejected
    rejected_reason].
  replace (Z.to_nat (accepted st + 1 + rejected st))
    with (S (Z.to_nat (accepted st + rejected st))) by lia.
  split; [exact Hrest|]. split; [exact Hle|]. split; [lia|].
  split; [exact Hrj | exact Hrr].
Qed.

Lemma tick_ledger (st : state C) : ledger reqs st -> ledger reqs (tick reqs sampler st).
Proof.
  intros Hst. unfold tick.
  assert (H1 : ledger reqs (arrive reqs st))
    by (apply arrive_loop_ledger; [reflexivity | exact Hst]).
  assert (H2 : ledger reqs (complete (arrive reqs st)))
    by (apply complete_ledger, H1).
  assert (H3 : ledger reqs (expire (complete (arrive reqs st))))
    by (apply timeout_loop_ledger; [reflexivity | exact H2]).
  assert (H4 : ledger reqs (admission sampler (expire (complete (arrive reqs st)))))
    by (apply admit_loop_ledger; [reflexivity | exact H3]).
  set (st4 := admission sampler (expire (complete (arrive reqs st)))) in H4 |- *;
    simpl.
  unfold advance, rollover.
  match goal with |- context [rollover_loop ?f ?s] =>
    destruct (rollover_loop_frame f s) as (_ & Hq & Hi & _ & Ha & Hr & Hrr) end.
  unfold ledger, departed; cbn [queue idx accepted rejected rejected_reason].
  rewrite Hq, Hi, Ha, Hr, Hrr. exact H4.
Qed.

Lemma ticks_ledger k (st : state C) :
  ledger reqs st -> ledger reqs (ticks reqs sampler k st).
Proof.
  intros Hst. induction k as [|k IH]; [exact Hst|].
  rewrite ticks_S. apply tick_ledger, IH.
Qed.

Lemma init_ledger ns (c : C) : ledger reqs (init_state ns c).
Proof.
  unfold ledger, departed, init_state; simpl. repeat split; lia.
Qed.

(** *** The timeout phase *)

Lemma slice_sorted p n :
  sorted_by_arrival reqs -> sorted_by_arrival (drop p (take n reqs)).
Proof.
  intros Hs i j a b Hij Ha Hb.
  rewrite lookup_drop in Ha, Hb.
  apply lookup_take_Some in Ha as [Ha _]. apply lookup_take_Some in Hb as [Hb _].
  apply (Hs (p + i)%nat (p + j)%nat); [lia | assumption | assumption].
Qed.

Lemma fresh_behind_head now0 (l : list Request.t) r :
  sorted_by_arrival (r :: l) -> ~ stale now0 r ->
  Forall (fun x => ~ stale now0 x) (r :: l).
Proof.
  intros Hs Hr. apply Forall_forall. intros x Hx.
  apply list_elem_of_lookup in Hx as [j Hj].
  assert (Hle : (Request.arrival_ts r <= Request.arrival_ts x)%Q)
    by (apply (Hs 0%nat j); [lia | reflexivity | exact Hj]).
  unfold stale, stale_after in Hr |- *; lra.
Qed.

Lemma timeout_loop_exact q :
  forall st : state C,
  q = queue st ->
  exists gone,
    q = gone ++ queue (timeout_loop q st) /\
    Forall (stale (now st)) gone /\
    rejected (timeout_loop q st) = rejected st + Z.of_nat (length gone) /\
    get "QUEUE_TIMEOUT" (rejected_reason (timeout_loop q st))
    = get "QUEUE_TIMEOUT" (rejected_reason st) + Z.of_nat (length gone) /\
    match queue (timeout_loop q st) with
    | [] => True
    | r :: _ => ~ stale (now st) r
    end.
Proof.
  induction q as [|r q IH]; intros st Hq; simpl.
  - exists []. rewrite <- Hq. simpl. repeat split; try lia. constructor.
  - destruct (_ <?. _) eqn:E.
    + apply flt_true in E. rewrite fsub_eq in E.
      match goal with |- context [timeout_loop q ?s] =>
        destruct (IH s eq_refl) as (gone & Hg & Hst & Hrej & Hrr & Hhd) end.
      cbn [now rejected rejected_reason] in Hst, Hrej, Hrr, Hhd.
      exists (r :: gone). simpl.
      split; [f_equal; exact Hg|]. split; [constructor; assumption|].
      split; [lia|]. split; [|exact Hhd].
      rewrite Hrr, get_bump. lia.
    + apply flt_false in E. rewrite fsub_eq in E.
      exists []. rewrite <- Hq. simpl. repeat split; try lia; [constructor|].
      unfold stale, stale_after. lra.
Qed.

Lemma expire_exact (st : state C) :
  sorted_by_arrival (queue st) ->
  exists gone,
    queue st = gone ++ queue (expire st) /\
    Forall (stale (now st)) gone /\
    Forall (fun r => ~ stale (now st) r) (queue (expire st)) /\
    rejected (expire st) = rejected st + Z.of_nat (length gone) /\
    get "QUEUE_TIMEOUT" (rejected_reason (expire st))
    = get "QUEUE_TIMEOUT" (rejected_reason st) + Z.of_nat (length gone).
Proof.
  intros Hs. unfold expire.
  destruct (timeout_loop_exact (queue st) st eq_refl)
    as (gone & Hg & Hst & Hrej & Hrr & Hhd).
  exists gone. repeat split; try assumption.
  destruct (queue (timeout_loop (queue st) st)) as [|r l] eqn:Hq; [constructor|].
  apply fresh_behind_head; [|exact Hhd].
  intros i j a b Hij Ha Hb.
  apply (Hs (length gone + i)%nat (length gone + j)%nat); [lia| |];
    rewrite Hg, lookup_app_r by lia;
    [replace (length gone + i - length gone)%nat with i by lia
    |replace (length gone + j - length gone)%nat with j by lia]; assumption.
Qed.

Lemma run_simulation_timeouts (c : C) (ns : list NodeState.t) (k : nat) :
  sorted_by_arrival reqs ->
  let st := ticks reqs sampler k (init_state ns c) in
  let before := complete (arrive reqs st) in
  let after := expire before in
  ledger reqs st /\
  exists gone,
    queue before = gone ++ queue after /\
    Forall (stale (now st)) gone /\
    Forall (fun r => ~ stale (now st) r) (queue after) /\
    rejected after = rejected before + Z.of_nat (length gone) /\
    get "QUEUE_TIMEOUT" (rejected_reason after)
    = get "QUEUE_TIMEOUT" (rejected_reason before) + Z.of_nat (length gone) /\
    ledger reqs after.
Proof.
  intros Hs st before after.
  assert (Hst : ledger reqs st) by (apply ticks_ledger, init_ledger).
  split; [exact Hst|].
  assert (Hb : ledger reqs before).
  { apply complete_ledger, arrive_loop_ledger; [reflexivity | exact Hst]. }
  assert (Hnow : now before = now st).
  { subst before. destruct (complete_frame (arrive reqs st)) as (_ & _ & -> & _).
    unfold arrive.
    destruct (arrive_loop_frame (drop (idx st) reqs) st) as (_ & _ & -> & _).
    reflexivity. }
  destruct (expire_exact before) as (gone & H1 & H2 & H3 & H4 & H5).
  { destruct Hb as (-> & _). apply slice_sorted, Hs. }
  exists gone. rewrite Hnow in H2, H3.
  split; [exact H1|]. split; [exact H2|]. split; [exact H3|].
  split; [exact H4|]. split; [exact H5|].
  apply timeout_loop_ledger; [reflexivity | exact Hb].
Qed.

End RunProperties.

(** The timeout phase of [run_one] on a queue sorted by arrival. *)
Lemma run_one_timeouts adaptive timeout_sec now0 q :
  forall v : AdaptiveBucketAb.RunOne.vars,
  q = AdaptiveBucketAb.RunOne.queue v ->
  RunSpec.sorted_by_arrival q ->
  let v' := AdaptiveBucketAb.RunOne.timeout_loop adaptive timeout_sec now0 q v in
  exists gone,
    q = gone ++ AdaptiveBucketAb.RunOne.queue v' /\
    Forall (RunSpec.stale_after timeout_sec now0) gone /\
    Forall (fun r => ~ RunSpec.stale_after timeout_sec now0 r)
           (AdaptiveBucketAb.RunOne.queue v') /\
    AdaptiveBucketAb.RunOne.rejected v'
    = AdaptiveBucketAb.RunOne.rejected v + Z.of_nat (length gone) /\
    AbTestSimulator.Run.get "QUEUE_TIMEOUT" (AdaptiveBucketAb.RunOne.reason v')
    = AbTestSimulator.Run.get "QUEUE_TIMEOUT" (AdaptiveBucketAb.RunOne.reason v)
      + Z.of_nat (length gone).
Proof.
  induction q as [|r q IH]; intros v Hq Hs; simpl.
  - exists []. rewrite <- Hq. simpl. repeat split; try lia; constructor.
  - destruct (_ <?. _) eqn:E.
    + apply flt_true in E. rewrite fsub_eq in E.
      match goal with |- context [AdaptiveBucketAb.RunOne.timeout_loop _ _ _ q ?s] =>
        destruct (IH s eq_refl) as (gone & Hg & Hst & Hfresh & Hrej & Hrr) end.
      { intros i j a b Hij Ha Hb. apply (Hs (S i) (S j)); [lia | exact Ha | exact Hb]. }
      cbn [AdaptiveBucketAb.RunOne.rejected AdaptiveBucketAb.RunOne.reason]
        in Hrej, Hrr.
      exists (r :: gone). simpl.
      split; [f_equal; exact Hg|]. split; [constructor; assumption|].
      split; [exact Hfresh|]. split; [lia|].
      rewrite Hrr, get_bump. lia.
    + apply flt_false in E. rewrite fsub_eq in E.
      exists []. rewrite <- Hq. simpl.
      split; [reflexivity|]. split; [constructor|].
      split; [|split; lia].
      apply Forall_forall. intros x Hx.
      apply list_elem_of_lookup in Hx as [j Hj].
      assert (Hle : (AbTestSimulator.Request.arrival_ts r
                     <= AbTestSimulator.Request.arrival_ts x)%Q)
        by (apply (Hs 0%nat j); [lia | reflexivity | exact Hj]).
      unfold RunSpec.stale_after. lra.
Qed.

(** C7.  For requests sorted by arrival, in every state the tick loop of
    [run_simulation] reaches: the queue is the arrived requests
    [reqs[:idx]] without its first [accepted + rejected] entries, so each
    request leaves the queue once, by admission or by timeout, and is
    never queued again; every rejection counted so far is a
    QUEUE_TIMEOUT.  In the next tick the timeout phase removes exactly
    the queued requests whose wait exceeds the timeout (a prefix of the
    queue, none is left behind) and adds their number to both counters.
    The timeout phase of [run_one] does the same on a queue sorted by
    arrival, for its [timeout_sec]. *)
Theorem timeout_counted_once {C : Type} `{AbTestSimulator.Controller C}
    (reqs : list AbTestSimulator.Request.t) (sampler : nat -> list nat)
    (c : C) (ns : list AbTestSimulator.NodeState.t) (k : nat) :
  RunSpec.sorted_by_arrival reqs ->
  let st := AbTestSimulator.Run.ticks reqs sampler k
              (AbTestSimulator.Run.init_state ns c) in
  let before := AbTestSimulator.Run.complete (AbTestSimulator.Run.arrive reqs st) in
  let after := AbTestSimulator.Run.expire before in
  (RunSpec.ledger reqs st /\
   exists gone,
     AbTestSimulator.Run.queue before = gone ++ AbTestSimulator.Run.queue after /\
     Forall (RunSpec.stale (AbTestSimulator.Run.now st)) gone /\
     Forall (fun r => ~ RunSpec.stale (AbTestSimulator.Run.now st) r)
            (AbTestSimulator.Run.queue after) /\
     AbTestSimulator.Run.rejected after
     = AbTestSimulator.Run.rejected before + Z.of_nat (length gone) /\
     AbTestSimulator.Run.get "QUEUE_TIMEOUT" (AbTestSimulator.Run.rejected_reason after)
     = AbTestSimulator.Run.get "QUEUE_TIMEOUT"
         (AbTestSimulator.Run.rejected_reason before)
       + Z.of_nat (length gone) /\
     RunSpec.ledger reqs after) /\
  (forall adaptive timeout_sec now0 (v : AdaptiveBucketAb.RunOne.vars),
     RunSpec.sorted_by_arrival (AdaptiveBucketAb.RunOne.queue v) ->
     let v' := AdaptiveBucketAb.RunOne.expire adaptive timeout_sec now0 v in
     exists gone,
       AdaptiveBucketAb.RunOne.queue v = gone ++ AdaptiveBucketAb.RunOne.queue v' /\
       Forall (RunSpec.stale_after timeout_sec now0) gone /\
       Forall (fun r => ~ RunSpec.stale_after timeout_sec now0 r)
              (AdaptiveBucketAb.RunOne.queue v') /\
       AdaptiveBucketAb.RunOne.rejected v'
       = AdaptiveBucketAb.RunOne.rejected v + Z.of_nat (length gone) /\
       AbTestSimulator.Run.get "QUEUE_TIMEOUT" (AdaptiveBucketAb.RunOne.reason v')
       = AbTestSimulator.Run.get "QUEUE_TIMEOUT" (AdaptiveBucketAb.RunOne.reason v)
         + Z.of_nat (length gone)).
Proof.
  intros Hs st before after. split.
  - exact (run_simulation_timeouts reqs sampler c ns k Hs).
  - intros adaptive timeout_sec now0 v Hv v'.
    exact (run_one_timeouts adaptive timeout_sec now0 _ v eq_refl Hv).
Qed.


Section RunExamples.
Import AbTestSimulator RunSpec.
Import Run.

Lemma admission_seats_witness :
  Forall fresh_node [make_node 0] /\
  total_inflight
    (nodes (ticks crowd first_three 3
              (init_state [make_node 0] (AimdController.init 4 80 8))))
  <= Z.max 0 8.
Proof.
  assert (Hf : Forall fresh_node [make_node 0]).
  { repeat constructor. simpl. lia. }
  split; [exact Hf|].
  apply (admission_seats crowd first_three (AimdController.init 4 80 8)
           [make_node 0] 3 8 Hf).
  intros j Hj.
  destruct j as [|[|[|j]]]; [vm_compute; discriminate ..|lia].
Defined.

(** C1 as stated fails once an AIMD controller lowers its limit.  One
    node with 14 seats, [AimdController(4, 80, 8)], seven 5-second
    requests and one oversized request at time 0: seven are admitted
    under limit 8, the oversized one is refused for its token cost on
    every tick, the first window is congested and the limit drops to 5
    while seven requests are still in flight on the node. *)
Lemma limit_drop_leaves_seats :
  let st := ticks crowd first_three 55
              (init_state [make_node 0] (AimdController.init 4 80 8)) in
  current_limit (controller st) = 5 /\
  total_inflight (nodes st) = 7 /\
  map NodeState.inflight (nodes st) = [7] /\
  map NodeState.max_physical_concurrency (nodes st) = [14] /\
  ~ total_inflight (nodes st) <= current_limit (controller st) /\
  ~ Forall (fun n => NodeState.inflight n
                     <= Z.min (NodeState.max_physical_concurrency n)
                              (current_limit (controller st))) (nodes st).
Proof.
  vm_compute. repeat split; try reflexivity.
  - intros Hle. apply Hle. reflexivity.
  - intros Hall. inversion Hall as [|? ? Hle _]. apply Hle. reflexivity.
Qed.



(** The second way the loop ends: with a single node that carries the id
    1, the first completion looks up [nodes[1]] and the call raises. *)
Lemma misnumbered_node_raises :
  ~ ids_in_range misnumbered /\
  run_simulation out_of_order first_three (FixedController.init 95) misnumbered
  = Raised "IndexError".
Proof.
  split; [|vm_compute; reflexivity].
  intros Hns. inversion Hns as [|n l Hn _]. simpl in Hn. lia.
Qed.

Lemma crowd_sorted : sorted_by_arrival crowd.
Proof.
  assert (Hall : Forall (fun r => Request.arrival_ts r = 0%Q) crowd)
    by (repeat constructor).
  intros i j a b _ Ha Hb. rewrite Forall_forall in Hall.
  rewrite (Hall a), (Hall b); [lra | |]; eapply list_elem_of_lookup_2; eassumption.
Qed.

Lemma timeout_counted_once_witness :
  sorted_by_arrival crowd /\
  ledger crowd (ticks crowd first_three 62
                  (init_state [make_node 0] (AimdController.init 4 80 8))).
Proof.
  split; [exact crowd_sorted|].
  exact (proj1 (proj1 (timeout_counted_once crowd first_three
                         (AimdController.init 4 80 8) [make_node 0] 62
                         crowd_sorted))).
Defined.

(** In that run the oversized request is the one timeout: after 62 ticks
    it has been counted once. *)
Lemma crowd_timeout_count :
  let st := ticks crowd first_three 62
              (init_state [make_node 0] (AimdController.init 4 80 8)) in
  accepted st = 7 /\ rejected st = 1 /\
  get "QUEUE_TIMEOUT" (rejected_reason st) = 1 /\ queue st = [].
Proof. vm_compute. repeat split; reflexivity. Qed.

End RunExamples.

(** ** Percentiles *)

Section PercentileProperties.
Import AbTestSimulator.

Lemma insert_sorted_perm x l : insert_sorted x l ≡ₚ x :: l.
Proof.
  induction l as [|y l IH]; simpl; [reflexivity|].
  destruct (x <=?. y); [reflexivity|].
  rewrite IH. apply Permutation_swap.
Qed.

Lemma sorted_perm l : sorted l ≡ₚ l.
Proof.
  induction l as [|x l IH]; simpl; [reflexivity|].
  unfold sorted in IH |- *; simpl. rewrite insert_sorted_perm, IH. reflexivity.
Qed.

Lemma sorted_length l : length (sorted l) = length l.
Proof. apply Permutation_length, sorted_perm. Qed.

Lemma insert_sorted_ascending x l :
  StronglySorted Qle l -> StronglySorted Qle (insert_sorted x l).
Proof.
  induction 1 as [|y l Hl IH Hy]; simpl.
  - repeat constructor.
  - destruct (x <=?. y) eqn:E; fcases.
    + constructor; [constructor; assumption|].
      constructor; [exact E|].
      eapply Forall_impl; [exact Hy|]. intros z Hz. simpl in Hz |-; simpl. lra.
    + constructor; [exact IH|].
      rewrite insert_sorted_perm. constructor; [lra | exact Hy].
Qed.

Lemma sorted_ascending l : StronglySorted Qle (sorted l).
Proof.
  induction l as [|x l IH]; [constructor|].
  apply insert_sorted_ascending, IH.
Qed.

Lemma ascending_nth (l : list float) i j :
  StronglySorted Qle l -> (i <= j < length l)%nat ->
  (nth i l 0 <= nth j l 0)%Q.
Proof.
  intros Hl. revert i j. induction Hl as [|x l Hl IH Hx]; intros i j Hij.
  - simpl in Hij. lia.
  - destruct i as [|i], j as [|j]; simpl in Hij |-; simpl; try lia.
    + lra.
    + rewrite Forall_forall in Hx. apply Hx.
      apply list_elem_of_In, nth_In. lia.
    + apply IH. lia.
Qed.

Lemma nth_member (l : list float) k : (k < length l)%nat -> nth k l 0%Q ∈ l.
Proof. intros Hk. apply list_elem_of_In, nth_In, Hk. Qed.

(** The index [percentile] reads, clamped into the list. *)
Lemma percentile_index values p :
  values <> [] ->
  exists k, (k < length values)%nat /\
            percentile values p = nth k (sorted values) 0%Q /\
            Z.of_nat k = Z.min (Z.of_nat (length values) - 1)
                           (Z.max 0 (Qceiling ((of_int p /. 100)
                                               *. of_int (Z.of_nat (length values))) - 1)).
Proof.
  intros Hne. unfold percentile.
  destruct values as [|v vs]; [congruence|].
  set (vals := v :: vs). rewrite sorted_length.
  assert (Hlen : (0 < length vals)%nat) by (simpl; lia).
  eexists. split; [|split; [reflexivity|]].
  - lia.
  - rewrite Z2Nat.id by lia. reflexivity.
Qed.

Lemma percentile_member values p : values <> [] -> percentile values p ∈ values.
Proof.
  intros Hne. destruct (percentile_index values p Hne) as (k & Hk & -> & _).
  rewrite <- (sorted_perm values) at 2. apply nth_member.
  rewrite sorted_length. exact Hk.
Qed.

Lemma percentile_100_index values :
  values <> [] ->
  percentile values 100 = nth (length values - 1) (sorted values) 0%Q.
Proof.
  intros Hne. destruct (percentile_index values 100 Hne) as (k & Hk & -> & Hidx).
  f_equal.
  assert (Hc : Qceiling ((of_int 100 /. 100) *. of_int (Z.of_nat (length values)))
               = Z.of_nat (length values)).
  { assert (E : ((of_int 100 /. 100) *. of_int (Z.of_nat (length values))
                 == inject_Z (Z.of_nat (length values)))%Q).
    { fnorm. unfold of_int. change (inject_Z 100) with 100%Q. field. }
    rewrite E. unfold Qceiling. rewrite <- inject_Z_opp, Qfloor_Z. lia. }
  rewrite Hc in Hidx. lia.
Qed.

(** X1. [percentile] of [ab_test_simulator.py] returns 0.0 on an empty
    list; on a non-empty list it returns one of the values, for every
    [p]; and [percentile(values, 100)] is the largest value. *)
Theorem percentile_is_a_sample (values : list float) (p : Z) :
  percentile [] p = 0%Q /\
  (values <> [] -> percentile values p ∈ values) /\
  (forall x, x ∈ values -> (x <= percentile values 100)%Q).
Proof.
  split; [reflexivity|]. split; [apply percentile_member|].
  intros x Hx.
  assert (Hne : values <> []) by (intros ->; inversion Hx).
  rewrite percentile_100_index by exact Hne.
  rewrite <- (sorted_perm values) in Hx.
  apply list_elem_of_lookup in Hx as [i Hi].
  pose proof (lookup_lt_Some _ _ _ Hi) as Hlt.
  rewrite <- (nth_lookup_Some _ _ 0%Q _ Hi).
  apply ascending_nth; [apply sorted_ascending|].
  rewrite sorted_length in Hlt |- *; lia.
Qed.

Lemma percentile_is_a_sample_witness :
  percentile [3; 1; 2]%Q 50 ∈ [3; 1; 2]%Q.
Proof.
  apply (percentile_is_a_sample [3; 1; 2]%Q 50). discriminate.
Defined.

(** The truncating variant of [adaptive_bucket_ab.py]. *)
Lemma py_int_le_ceiling x : py_int x <= Qceiling x.
Proof.
  destruct x as [n d]. unfold py_int, Qceiling, Qfloor; simpl.
  destruct (Z_le_gt_dec 0 n) as [Hn|Hn].
  - rewrite Z.quot_div_nonneg by lia.
    pose proof (Z.div_mod n (Zpos d)) as Hdm.
    pose proof (Z.mod_pos_bound n (Zpos d)) as Hm.
    pose proof (Z.div_mod (- n) (Zpos d)) as Hdm'.
    pose proof (Z.mod_pos_bound (- n) (Zpos d)) as Hm'.
    nia.
  - replace n with (- (- n)) at 1 by lia.
    rewrite Z.quot_opp_l by lia.
    rewrite Z.quot_div_nonneg by lia. lia.
Qed.

Lemma adaptive_percentile_index values p :
  values <> [] ->
  exists k, (k < length values)%nat /\
            AdaptiveBucketAb.percentile values p = nth k (sorted values) 0%Q /\
            Z.of_nat k = Z.max 0 (Z.min (Z.of_nat (length values) - 1)
                           (py_int ((of_int p /. 100)
                                    *. of_int (Z.of_nat (length values))) - 1)).
Proof.
  intros Hne. unfold AdaptiveBucketAb.percentile.
  destruct values as [|v vs]; [congruence|].
  set (vals := v :: vs). rewrite sorted_length.
  assert (Hlen : (0 < length vals)%nat) by (simpl; lia).
  eexists. split; [|split; [reflexivity|]].
  - lia.
  - rewrite Z2Nat.id by lia. reflexivity.
Qed.

(** X2. The [percentile] of [adaptive_bucket_ab.py] (identical in
    [full_pipeline_vs_traditional.py]) returns 0.0 on an empty list and
    one of the values otherwise; because it truncates where
    [ab_test_simulator.percentile] rounds up, on the same data and [p] it
    never returns more than that one does. *)
Theorem adaptive_percentile_below (values : list float) (p : Z) :
  AdaptiveBucketAb.percentile [] p = 0%Q /\
  FullPipelineVsTraditional.percentile values p = AdaptiveBucketAb.percentile values p /\
  (values <> [] -> AdaptiveBucketAb.percentile values p ∈ values) /\
  (AdaptiveBucketAb.percentile values p <= percentile values p)%Q.
Proof.
  split; [reflexivity|]. split; [reflexivity|].
  destruct values as [|v vs]; [split; [congruence | simpl; lra]|].
  set (vals := v :: vs).
  assert (Hne : vals <> []) by discriminate.
  destruct (adaptive_percentile_index vals p Hne) as (k & Hk & Hka & Hik).
  destruct (percentile_index vals p Hne) as (j & Hj & Hjs & Hij).
  split.
  - intros _. rewrite Hka. rewrite <- (sorted_perm vals) at 2.
    apply nth_member. rewrite sorted_length. exact Hk.
  - rewrite Hka, Hjs. apply ascending_nth; [apply sorted_ascending|].
    rewrite sorted_length.
    pose proof (py_int_le_ceiling
                  ((of_int p /. 100) *. of_int (Z.of_nat (length vals)))).
    lia.
Qed.

Lemma adaptive_percentile_below_witness :
  AdaptiveBucketAb.percentile [3; 1; 2]%Q 50 ∈ [3; 1; 2]%Q.
Proof.
  apply (adaptive_percentile_below [3; 1; 2]%Q 50). discriminate.
Defined.

End PercentileProperties.

(** ** Nodes under the drivers' protocol *)

Section NodeProtocolProperties.
Import AbTestSimulator Protocol.

Lemma py_max_0_nonneg x : (0 <= py_max 0 x)%Q.
Proof. apply py_max_l. Qed.

Lemma refill_amount_nonneg dt limit : (0 <= dt)%Q -> 0 <= limit ->
  (0 <= dt *. (of_int limit /. 60))%Q.
Proof.
  intros Hdt Hl. apply of_int_le in Hl. change (of_int 0) with 0%Q in Hl.
  fnorm. apply Qmult_le_0_compat; [exact Hdt|].
  unfold Qdiv. apply Qmult_le_0_compat; [exact Hl|]. discriminate.
Qed.

Lemma refill_solvent n now : solvent n -> solvent (NodeState.refill n now).
Proof.
  intros (Hr & Ht & Hrl & Htl). unfold NodeState.refill.
  destruct (_ <=?. 0); [repeat split; assumption|].
  pose proof (py_max_0_nonneg (now -. NodeState.last_refill_ts n)) as Hdt.
  pose proof (refill_amount_nonneg _ _ Hdt Hrl) as H1.
  pose proof (refill_amount_nonneg _ _ Hdt Htl) as H2.
  repeat split; simpl; try assumption.
  - apply py_min_glb; [|rewrite fadd_eq; lra].
    apply of_int_le in Hrl. exact Hrl.
  - apply py_min_glb; [|rewrite fadd_eq; lra].
    apply of_int_le in Htl. exact Htl.
Qed.

Lemma can_start_state n now cost allowed :
  (NodeState.can_start n now cost allowed).1 = NodeState.refill n now.
Proof.
  unfold NodeState.can_start.
  repeat match goal with |- context [if ?b then _ else _] => destruct b end;
    reflexivity.
Qed.

Lemma can_start_ok n now cost allowed :
  (NodeState.can_start n now cost allowed).2.1 = true ->
  let n' := NodeState.refill n now in
  NodeState.inflight n' < Z.min (NodeState.max_physical_concurrency n') allowed /\
  (of_int (Z.of_nat (length (NodeState.starts_window n')))
   < NodeState.burst_rps_limit n')%Q /\
  (1 <= NodeState.rpm_tokens n')%Q /\
  (of_int cost <= NodeState.tpm_tokens n')%Q.
Proof.
  unfold NodeState.can_start. cbv zeta.
  destruct (Z.min _ _ <=? _) eqn:E1; [discriminate|].
  destruct (_ <=?. of_int _) eqn:E2; [discriminate|].
  destruct (_ <?. 1) eqn:E3; [discriminate|].
  destruct (_ <?. of_int cost) eqn:E4; [discriminate|].
  intros _. apply Z.leb_gt in E1. fcases. repeat split; assumption.
Qed.

Lemma try_start_cases n now cost allowed :
  let n' := NodeState.refill n now in
  (try_start n now cost allowed = n' /\
   (NodeState.can_start n now cost allowed).2.1 = false) \/
  (try_start n now cost allowed = NodeState.start n' now cost /\
   (NodeState.can_start n now cost allowed).2.1 = true).
Proof.
  cbv zeta. unfold try_start.
  pose proof (can_start_state n now cost allowed) as Hs.
  destruct (NodeState.can_start n now cost allowed) as [n' [ok r]].
  simpl in Hs |-; simpl. subst n'. destruct ok; [right | left]; split; reflexivity.
Qed.

Lemma try_start_solvent n now cost allowed :
  solvent n -> solvent (try_start n now cost allowed).
Proof.
  intros Hn. pose proof (refill_solvent n now Hn) as Hr.
  destruct (try_start_cases n now cost allowed) as [[-> _] | [-> Hok]];
    [exact Hr|].
  apply can_start_ok in Hok. cbv zeta in Hok.
  destruct Hok as (_ & _ & H1 & H2). destruct Hr as (_ & _ & Hrl & Htl).
  repeat split; simpl; try assumption; fnorm; lra.
Qed.

Lemma driver_step_solvent n c : solvent n -> solvent (driver_step n c).
Proof.
  destruct c as [now|now cost allowed|]; simpl; intros Hn.
  - apply refill_solvent, Hn.
  - apply try_start_solvent, Hn.
  - unfold NodeState.finish. destruct (0 <? _); exact Hn.
Qed.

(** X3. A node built with non-negative limits and driven as the tick
    loops drive it ([refill], [can_start] followed by [start] only on
    success, [finish]) is never overdrawn: [rpm_tokens] and [tpm_tokens]
    stay non-negative, whatever the timestamps and token costs. *)
Theorem node_never_overdrawn (i : nat) (rpm tpm conc : Z) (burst : float)
    (calls : list driver_call) :
  0 <= rpm -> 0 <= tpm ->
  let n := foldl driver_step (NodeState.init i rpm tpm conc burst) calls in
  (0 <= NodeState.rpm_tokens n)%Q /\ (0 <= NodeState.tpm_tokens n)%Q.
Proof.
  intros Hr Ht n.
  assert (Hn : solvent n).
  { subst n. generalize (NodeState.init i rpm tpm conc burst),
      (conj (of_int_le _ _ Hr) (conj (of_int_le _ _ Ht) (conj Hr Ht))
       : solvent (NodeState.init i rpm tpm conc burst)).
    induction calls as [|c calls IH]; intros n0 Hn0; simpl; [exact Hn0|].
    apply IH, driver_step_solvent, Hn0. }
  split; apply Hn.
Qed.

Lemma node_never_overdrawn_witness :
  0 <= 2 /\
  (0 <= NodeState.rpm_tokens
          (foldl driver_step (NodeState.init 0 2 100 5 3)
             [DTryStart 0 60 5; DTryStart 0 60 5; DTryStart 1 30 5; DFinish]))%Q.
Proof.
  split; [lia|].
  refine (proj1 (node_never_overdrawn 0 2 100 5 3
           [DTryStart 0 60 5; DTryStart 0 60 5; DTryStart 1 30 5; DFinish] _ _));
    lia.
Defined.

Lemma evict_suffix bound w :
  exists old, w = old ++ NodeState.evict bound w /\
              Forall (fun x => x < bound)%Q old /\
              match NodeState.evict bound w with
              | [] => True
              | x :: _ => (bound <= x)%Q
              end.
Proof.
  induction w as [|x w IH]; simpl.
  - exists []. repeat split. constructor.
  - destruct (x <?. bound) eqn:E; fcases.
    + destruct IH as (old & Hw & Hold & Hhd).
      exists (x :: old). simpl. split; [f_equal; exact Hw|].
      split; [constructor; assumption | exact Hhd].
    + exists []. repeat split; [constructor | exact E].
Qed.

Lemma evict_length bound w : (length (NodeState.evict bound w) <= length w)%nat.
Proof.
  destruct (evict_suffix bound w) as (old & Hw & _).
  rewrite Hw at 2. rewrite length_app. lia.
Qed.

Lemma refill_burst n now :
  NodeState.burst_rps_limit (NodeState.refill n now) = NodeState.burst_rps_limit n /\
  (length (NodeState.starts_window (NodeState.refill n now))
   <= length (NodeState.starts_window n))%nat.
Proof.
  unfold NodeState.refill. destruct (_ <=?. 0); simpl; [split; [reflexivity|lia]|].
  split; [reflexivity | apply evict_length].
Qed.

Lemma refill_burst_bounded n now :
  burst_bounded n -> burst_bounded (NodeState.refill n now).
Proof.
  unfold burst_bounded. intros Hn.
  destruct (refill_burst n now) as [-> Hlen].
  assert (Hle : (of_int (Z.of_nat (length (NodeState.starts_window
                                             (NodeState.refill n now))))
                 <= of_int (Z.of_nat (length (NodeState.starts_window n))))%Q)
    by (apply of_int_le; lia).
  lra.
Qed.

Lemma driver_step_burst n c : burst_bounded n -> burst_bounded (driver_step n c).
Proof.
  destruct c as [now|now cost allowed|]; simpl; intros Hn.
  - apply refill_burst_bounded, Hn.
  - pose proof (refill_burst_bounded n now Hn) as Hr.
    destruct (try_start_cases n now cost allowed) as [[-> _] | [-> Hok]];
      [exact Hr|].
    apply can_start_ok in Hok. cbv zeta in Hok. destruct Hok as (_ & Hb & _).
    unfold burst_bounded; simpl. rewrite length_app; simpl.
    rewrite Nat2Z.inj_add. unfold of_int in Hb; unfold of_int.
    rewrite inject_Z_plus. change (inject_Z (Z.of_nat 1)) with 1%Q. lra.
  - unfold NodeState.finish. destruct (0 <? _); exact Hn.
Qed.

(** X4. Under the same protocol the burst window never holds more than
    [burst_rps_limit] entries after an admission: its length stays below
    [burst_rps_limit + 1] (for a non-negative limit), and every [refill]
    only shortens it from the front. *)
Theorem burst_window_bounded (i : nat) (rpm tpm conc : Z) (burst : float)
    (calls : list driver_call) (now : float) :
  (0 <= burst)%Q ->
  let n := foldl driver_step (NodeState.init i rpm tpm conc burst) calls in
  (of_int (Z.of_nat (length (NodeState.starts_window n))) < burst + 1)%Q /\
  exists old, NodeState.starts_window n
              = old ++ NodeState.starts_window (NodeState.refill n now).
Proof.
  intros Hb n.
  assert (Hn : burst_bounded n /\ NodeState.burst_rps_limit n = burst).
  { subst n.
    assert (H0 : burst_bounded (NodeState.init i rpm tpm conc burst) /\
                 NodeState.burst_rps_limit (NodeState.init i rpm tpm conc burst)
                 = burst).
    { split; [|reflexivity]. unfold burst_bounded; simpl.
      change (of_int (Z.of_nat 0)) with 0%Q. lra. }
    revert H0. generalize (NodeState.init i rpm tpm conc burst).
    induction calls as [|c calls IH]; intros n0 Hn0; simpl; [exact Hn0|].
    apply IH. destruct Hn0 as [Hbb Hbl]. split; [apply driver_step_burst, Hbb|].
    rewrite <- Hbl. destruct c as [t|t cost allowed|]; simpl.
    - apply refill_burst.
    - destruct (try_start_cases n0 t cost allowed) as [[-> _] | [-> _]];
        simpl; apply refill_burst.
    - unfold NodeState.finish. destruct (0 <? _); reflexivity. }
  destruct Hn as [Hbb Hbl]. unfold burst_bounded in Hbb. rewrite Hbl in Hbb.
  split; [exact Hbb|].
  unfold NodeState.refill. destruct (_ <=?. 0); simpl.
  - exists []. reflexivity.
  - destruct (evict_suffix (now -. 1) (NodeState.starts_window n))
      as (old & Hw & _).
    exists old. exact Hw.
Qed.

Lemma burst_window_bounded_witness :
  (0 <= 2)%Q /\
  (of_int (Z.of_nat (length (NodeState.starts_window
     (foldl driver_step (NodeState.init 0 100 100 5 2)
        [DTryStart 0 1 5; DTryStart 0 1 5; DTryStart 0 1 5; DTryStart 2 1 5]))))
   < 2 + 1)%Q.
Proof.
  split; [lra|].
  refine (proj1 (burst_window_bounded 0 100 100 5 2
           [DTryStart 0 1 5; DTryStart 0 1 5; DTryStart 0 1 5; DTryStart 2 1 5]
           0 _)).
  lra.
Defined.

Lemma sorted_app_r (l1 l2 : list float) :
  StronglySorted Qle (l1 ++ l2) -> StronglySorted Qle l2.
Proof.
  induction l1 as [|x l1 IH]; simpl; [auto|].
  intros Hs. apply StronglySorted_inv in Hs as [Hs _]. apply IH, Hs.
Qed.

(** X5. When time has advanced, [refill] drops from the burst window
    exactly the leading timestamps older than one second; if the window
    is in time order, every timestamp it keeps is within the last
    second. *)
Theorem refill_evicts_old_starts (n : NodeState.t) (now : float) :
  (NodeState.last_refill_ts n < now)%Q ->
  StronglySorted Qle (NodeState.starts_window n) ->
  let n' := NodeState.refill n now in
  exists old,
    NodeState.starts_window n = old ++ NodeState.starts_window n' /\
    Forall (fun t => t < now - 1)%Q old /\
    Forall (fun t => now - 1 <= t)%Q (NodeState.starts_window n').
Proof.
  intros Hadv Hs n'. subst n'. unfold NodeState.refill.
  destruct (_ <=?. 0) eqn:E.
  { exfalso. fcases. unfold py_max in E.
    destruct (0 <?. _) eqn:E'; fcases; revert E E'; fnorm; intros; lra. }
  simpl.
  destruct (evict_suffix (now -. 1) (NodeState.starts_window n))
    as (old & Hw & Hold & Hhd).
  exists old. split; [exact Hw|]. split.
  - eapply Forall_impl; [exact Hold|]. intros t Ht. simpl in Ht.
    rewrite fsub_eq in Ht. exact Ht.
  - rewrite Hw in Hs. apply sorted_app_r in Hs.
    destruct (NodeState.evict (now -. 1) (NodeState.starts_window n))
      as [|x rest]; [constructor|].
    rewrite fsub_eq in Hhd.
    apply StronglySorted_inv in Hs as [_ Hx].
    constructor; [exact Hhd|].
    eapply Forall_impl; [exact Hx|]. intros t Ht. simpl in Ht. lra.
Qed.

Lemma refill_evicts_old_starts_witness :
  Forall (fun t => 4 - 1 <= t)%Q
    (NodeState.starts_window
       (NodeState.refill
          (foldl driver_step (NodeState.init 0 100 100 5 9)
             [DTryStart 2 1 5; DTryStart (5 # 2) 1 5; DTryStart 3 1 5]) 4)).
Proof.
  destruct (refill_evicts_old_starts
              (foldl driver_step (NodeState.init 0 100 100 5 9)
                 [DTryStart 2 1 5; DTryStart (5 # 2) 1 5; DTryStart 3 1 5])
              4) as (old & _ & _ & Hkeep).
  - vm_compute. reflexivity.
  - vm_compute. repeat constructor; discriminate.
  - exact Hkeep.
Defined.

(** X6. [refill] at a time not later than the last refill changes
    nothing; in particular refilling twice at the same time is the same
    as refilling once. *)
Theorem refill_not_backwards (n : NodeState.t) (now now' : float) :
  (now' <= now)%Q ->
  NodeState.refill (NodeState.refill n now) now' = NodeState.refill n now.
Proof.
  intros Hle. unfold NodeState.refill at 2 3.
  destruct (py_max 0 (now -. NodeState.last_refill_ts n) <=?. 0) eqn:E.
  - unfold NodeState.refill.
    assert (E' : (py_max 0 (now' -. NodeState.last_refill_ts n) <=?. 0) = true).
    { apply fle_true. apply fle_true in E.
      pose proof (py_max_r 0 (now -. NodeState.last_refill_ts n)) as Hr.
      pose proof (fsub_eq now (NodeState.last_refill_ts n)) as Hs.
      apply py_max_lub; [lra|]. rewrite fsub_eq. lra. }
    rewrite E'. reflexivity.
  - unfold NodeState.refill; simpl.
    assert (E' : (py_max 0 (now' -. now) <=?. 0) = true).
    { apply fle_true. apply py_max_lub; [lra|]. fnorm. lra. }
    rewrite E'. reflexivity.
Qed.

Lemma refill_not_backwards_witness :
  NodeState.refill (NodeState.refill (NodeState.init 0 100 100 5 9) 3) 3
  = NodeState.refill (NodeState.init 0 100 100 5 9) 3.
Proof.
  apply (refill_not_backwards (NodeState.init 0 100 100 5 9) 3 3). lra.
Defined.

End NodeProtocolProperties.

(** ** The sweep's node and request selection *)

Section SweepProperties.
Import LongRatioSweep Protocol.

Lemma sweep_refill_sound n now : sweep_sound n -> sweep_sound (Node.refill n now).
Proof.
  intros Hn. unfold Node.refill.
  destruct (_ <=?. 0); [exact Hn|].
  destruct Hn as ((Hr0 & Hr1) & (Ht0 & Ht1) & Hi).
  pose proof (py_max_l 0 (now -. Node.last_refill n)) as Hdt.
  assert (Hrl : 0 <= Node.rpm_limit n).
  { rewrite Zle_Qle. change (inject_Z 0) with 0%Q.
    change (inject_Z (Node.rpm_limit n)) with (of_int (Node.rpm_limit n)). lra. }
  assert (Htl : 0 <= Node.tpm_limit n).
  { rewrite Zle_Qle. change (inject_Z 0) with 0%Q.
    change (inject_Z (Node.tpm_limit n)) with (of_int (Node.tpm_limit n)). lra. }
  pose proof (refill_amount_nonneg _ _ Hdt Hrl) as H1.
  pose proof (refill_amount_nonneg _ _ Hdt Htl) as H2.
  unfold sweep_sound; simpl.
  split; [|split; [|exact Hi]].
  - split; [|apply py_min_l].
    apply py_min_glb; [lra | rewrite fadd_eq; lra].
  - split; [|apply py_min_l].
    apply py_min_glb; [lra | rewrite fadd_eq; lra].
Qed.

Lemma sweep_try_start_sound n now tokens cap :
  0 <= tokens -> sweep_sound n -> sweep_sound (Node.try_start n now tokens cap).1.
Proof.
  intros Htok Hn. pose proof (sweep_refill_sound n now Hn) as Hr.
  unfold Node.try_start. cbv zeta.
  set (n1 := Node.refill n now) in Hr |- *; simpl.
  destruct (Z.min _ _ <=? _) eqn:E1; [exact Hr|].
  destruct (_ || _) eqn:E2; [exact Hr|].
  apply Z.leb_gt in E1. apply orb_false_iff in E2 as [E2 E3]. fcases.
  destruct Hr as ((Hr0 & Hr1) & (Ht0 & Ht1) & Hi).
  apply of_int_le in Htok. change (of_int 0) with 0%Q in Htok.
  unfold sweep_sound; simpl. repeat split; try (fnorm; lra); lia.
Qed.

Lemma sweep_step_sound n c :
  match c with STryStart _ tokens _ => 0 <= tokens | _ => True end ->
  sweep_sound n -> sweep_sound (sweep_step n c).
Proof.
  destruct c as [now|now tokens cap|]; simpl; intros Hc Hn.
  - apply sweep_refill_sound, Hn.
  - apply sweep_try_start_sound; assumption.
  - unfold Node.finish. destruct (0 <? Node.inflight n) eqn:E; [|exact Hn].
    apply Z.ltb_lt in E. destruct Hn as (Hr & Ht & Hi).
    unfold sweep_sound; simpl. repeat split; try apply Hr; try apply Ht; lia.
Qed.

(** X17. The sweep's [Node] (with [try_start] doing check and consumption
    in one call) stays sound under any sequence of [refill], [try_start]
    and [finish] with non-negative token counts, from a node built with
    non-negative limits: both budgets stay between 0 and their limit and
    [0 <= inflight <= max_concurrency]; a refused [try_start] changes
    nothing beyond the refill. *)
Theorem sweep_node_sound (rpm tpm conc : Z) (calls : list sweep_call)
    (now : float) (tokens cap : Z) :
  0 <= rpm -> 0 <= tpm -> 0 <= conc ->
  Forall (fun c => match c with STryStart _ t _ => 0 <= t | _ => True end) calls ->
  let n := foldl sweep_step (Node.init rpm tpm conc) calls in
  (0 <= Node.rpm_tokens n <= of_int (Node.rpm_limit n))%Q /\
  (0 <= Node.tpm_tokens n <= of_int (Node.tpm_limit n))%Q /\
  0 <= Node.inflight n <= Node.max_concurrency n /\
  ((Node.try_start n now tokens cap).2 = false ->
   (Node.try_start n now tokens cap).1 = Node.refill n now).
Proof.
  intros Hr Ht Hc Hcalls n.
  assert (Hn : sweep_sound n).
  { subst n.
    assert (H0 : sweep_sound (Node.init rpm tpm conc)).
    { unfold sweep_sound; simpl. apply of_int_le in Hr, Ht.
      change (of_int 0) with 0%Q in Hr, Ht. repeat split; try lra; lia. }
    revert H0. generalize (Node.init rpm tpm conc).
    induction Hcalls as [|c calls Hc0 _ IH]; intros n0 H0; simpl; [exact H0|].
    apply IH, sweep_step_sound; assumption. }
  destruct Hn as (H1 & H2 & H3).
  split; [exact H1|]. split; [exact H2|]. split; [exact H3|].
  unfold Node.try_start. cbv zeta.
  destruct (Z.min _ _ <=? _); [reflexivity|].
  destruct (_ || _); [reflexivity|]. discriminate.
Qed.

Lemma sweep_node_sound_witness :
  0 <= Node.inflight
         (foldl sweep_step (Node.init 2 100 1)
            [STryStart 0 60 5; STryStart 0 60 5; SFinish; SFinish])
    <= 1.
Proof.
  refine (proj1 (proj2 (proj2 (sweep_node_sound 2 100 1
            [STryStart 0 60 5; STryStart 0 60 5; SFinish; SFinish] 0 0 0
            _ _ _ _)))); try lia.
  repeat constructor; lia.
Defined.

Lemma first_short_spec queue req :
  first_short queue = Some req ->
  exists before after,
    queue = before ++ req :: after /\ Req.is_long req = false /\
    Forall (fun r => Req.is_long r = true) before.
Proof.
  induction queue as [|r queue IH]; simpl; [discriminate|].
  destruct (Req.is_long r) eqn:E; simpl.
  - intros Hf. destruct (IH Hf) as (before & after & -> & Hs & Hb).
    exists (r :: before), after. repeat split; [exact Hs|].
    constructor; assumption.
  - intros [= <-]. exists [], queue. repeat split; [exact E | constructor].
Qed.

Lemma first_short_none queue :
  first_short queue = None -> Forall (fun r => Req.is_long r = true) queue.
Proof.
  induction queue as [|r queue IH]; simpl; [constructor|].
  destruct (Req.is_long r) eqn:E; simpl; [|discriminate].
  intros Hf. constructor; [exact E | apply IH, Hf].
Qed.

Lemma req_eqb_refl r : Req.eqb r r = true.
Proof.
  unfold Req.eqb. rewrite !Z.eqb_refl, eqb_reflx.
  assert (Hq : forall x, Qeq_bool x x = true)
    by (intros x; apply Qeq_bool_iff; reflexivity).
  rewrite !Hq. reflexivity.
Qed.

Lemma remove_first_member req queue :
  req ∈ queue -> exists rest, remove_first req queue = Some rest /\
                              length queue = S (length rest).
Proof.
  induction queue as [|x queue IH]; intros Hin; [inversion Hin|].
  simpl. destruct (Req.eqb x req) eqn:E.
  - exists queue. split; reflexivity.
  - apply elem_of_cons in Hin as [-> | Hin].
    + rewrite req_eqb_refl in E. discriminate.
    + destruct (IH Hin) as (rest & -> & Hlen). simpl.
      exists (x :: rest). split; [reflexivity|]. simpl. lia.
Qed.

(** X18. On a non-empty queue [PoolFirstPolicy.select_request] returns a
    request of the queue: the first one that is not long, with only long
    requests ahead of it, or the head when every request is long; so the
    [queue.remove(req)] that follows an admission finds it and shortens
    the queue by one. *)
Theorem select_request_in_queue (queue : list Req.t) :
  queue <> [] ->
  exists req,
    select_request queue = Some req /\
    req ∈ queue /\
    (exists before after,
       queue = before ++ req :: after /\
       Forall (fun r => Req.is_long r = true) before /\
       (Req.is_long req = true ->
        before = [] /\ Forall (fun r => Req.is_long r = true) queue)) /\
    (exists rest, remove_first req queue = Some rest /\
                  length queue = S (length rest)).
Proof.
  intros Hne. unfold select_request.
  destruct (first_short queue) as [req|] eqn:Hf.
  - destruct (first_short_spec _ _ Hf) as (before & after & Hq & Hs & Hb).
    assert (Hin : req ∈ queue).
    { rewrite Hq. apply elem_of_app. right. apply elem_of_cons. left. reflexivity. }
    exists req. split; [reflexivity|]. split; [exact Hin|].
    split; [|apply remove_first_member, Hin].
    exists before, after. split; [exact Hq|]. split; [exact Hb|].
    intros Hl. congruence.
  - destruct queue as [|r queue]; [congruence|].
    pose proof (first_short_none _ Hf) as Hall.
    assert (Hin : r ∈ r :: queue) by (apply elem_of_cons; left; reflexivity).
    exists r. split; [reflexivity|]. split; [exact Hin|].
    split; [|apply remove_first_member, Hin].
    exists [], queue. split; [reflexivity|]. split; [constructor|].
    intros _. split; [reflexivity | exact Hall].
Qed.

Lemma select_request_in_queue_witness :
  [sweep_req 0 true; sweep_req 1 false] <> [] /\
  exists req, select_request [sweep_req 0 true; sweep_req 1 false] = Some req /\
              req ∈ [sweep_req 0 true; sweep_req 1 false].
Proof.
  assert (Hne : [sweep_req 0 true; sweep_req 1 false] <> []) by discriminate.
  split; [exact Hne|].
  destruct (select_request_in_queue _ Hne) as (req & H1 & H2 & _).
  exists req. split; assumption.
Defined.

End SweepProperties.

(** ** AIMD controllers: direction, cooldown, window bounds *)

(** [lia] looks inside [py_int]; hide the truncations first. *)
Ltac zlia :=
  repeat match goal with
  | |- context [py_int ?x] =>
      let z := fresh "z" in set (z := py_int x) in *; clearbody z
  | H : context [py_int ?x] |- _ =>
      let z := fresh "z" in set (z := py_int x) in *; clearbody z
  end;
  repeat match goal with x := _ |- _ => clearbody x end;
  lia.

Section AimdProperties.
Import AbTestSimulator TuneAimd Protocol.

Lemma py_int_of_int z : py_int (of_int z) = z.
Proof. unfold py_int, of_int; simpl. apply Z.quot_1_r. Qed.

Lemma py_int_floor x : (0 <= x)%Q -> py_int x = Qfloor x.
Proof.
  destruct x as [n d]. unfold Qle, py_int, Qfloor; simpl. intros Hn.
  apply Z.quot_div_nonneg; lia.
Qed.

Lemma py_int_ceiling x : (x <= 0)%Q -> py_int x = Qceiling x.
Proof.
  destruct x as [n d]. unfold Qle, py_int, Qceiling, Qfloor; simpl. intros Hn.
  replace n with (- (- n)) at 1 by lia.
  rewrite Z.quot_opp_l by lia. rewrite Z.quot_div_nonneg by lia. reflexivity.
Qed.

Lemma py_int_mono x y : (x <= y)%Q -> py_int x <= py_int y.
Proof.
  intros Hxy.
  destruct (Qlt_le_dec x 0) as [Hx|Hx], (Qlt_le_dec y 0) as [Hy|Hy].
  - rewrite !py_int_ceiling by lra. apply Qceiling_resp_le, Hxy.
  - rewrite (py_int_ceiling x), (py_int_floor y) by lra.
    assert (Qceiling x <= Qceiling 0) by (apply Qceiling_resp_le; lra).
    assert (Qfloor 0 <= Qfloor y) by (apply Qfloor_resp_le; lra).
    change (Qceiling 0) with 0 in *|-. change (Qfloor 0) with 0 in *|-. lia.
  - lra.
  - rewrite !py_int_floor by lra. apply Qfloor_resp_le, Hxy.
Qed.

Lemma py_int_nonneg x : (0 <= x)%Q -> 0 <= py_int x.
Proof. intros Hx. change 0 with (py_int 0). apply py_int_mono, Hx. Qed.

Lemma py_min_cases a b : py_min a b = a \/ py_min a b = b.
Proof. unfold py_min. destruct (b <?. a); auto. Qed.

Lemma py_max_cases a b : py_max a b = a \/ py_max a b = b.
Proof. unfold py_max. destruct (a <?. b); auto. Qed.

(** X7. [AimdController.update] never moves the limit the wrong way: for
    a non-negative window and [min_c <= max_c], a window spent in
    cooldown leaves [current_limit()] unchanged, a congested window never
    raises it, and a quiet window never lowers it. *)
Theorem aimd_limit_direction (c : AimdController.t) (s : Z) (m : WindowMetrics.t) :
  (0 <= AimdController.cwnd c)%Q ->
  AimdController.min_c c <= AimdController.max_c c ->
  let c' := AimdController.update c s m in
  (0 < AimdController.cooldown c ->
   AimdController.current_limit c' = AimdController.current_limit c) /\
  (AimdController.cooldown c <= 0 -> AimdController.congested m = true ->
   AimdController.current_limit c' <= AimdController.current_limit c) /\
  (AimdController.cooldown c <= 0 -> AimdController.congested m = false ->
   AimdController.current_limit c <= AimdController.current_limit c').
Proof.
  intros Hw Hmm c'. subst c'.
  unfold AimdController.update, AimdController.current_limit.
  destruct (0 <? AimdController.cooldown c) eqn:Ecd.
  { apply Z.ltb_lt in Ecd. repeat split; intros; cbn [AimdController.min_c AimdController.max_c AimdController.cwnd]; lia. }
  apply Z.ltb_ge in Ecd.
  destruct (AimdController.congested m) eqn:Ecg.
  - split; [lia|]. split; [|discriminate]. intros _ _. cbn [AimdController.min_c AimdController.max_c AimdController.cwnd].
    rewrite py_int_of_int.
    assert (Hcut : py_int (mul64 (AimdController.cwnd c) (7 # 10))
                   <= py_int (AimdController.cwnd c))
      by (apply py_int_mono, mul64_07_le, Hw).
    zlia.
  - split; [lia|]. split; [discriminate|]. intros _ _.
    destruct (AimdController.cwnd c <?. of_int (AimdController.ssthresh c));
      cbn [AimdController.min_c AimdController.max_c AimdController.cwnd].
    + destruct (py_min_cases (of_int (AimdController.max_c c))
                  (AimdController.cwnd c *. (3 # 2))) as [-> | ->].
      * rewrite py_int_of_int. zlia.
      * assert (py_int (AimdController.cwnd c)
                <= py_int (AimdController.cwnd c *. (3 # 2)))
          by (apply py_int_mono; fnorm; lra).
        zlia.
    + destruct (py_min_cases (of_int (AimdController.max_c c))
                  (AimdController.cwnd c +. 1)) as [-> | ->].
      * rewrite py_int_of_int. zlia.
      * assert (py_int (AimdController.cwnd c)
                <= py_int (AimdController.cwnd c +. 1))
          by (apply py_int_mono; fnorm; lra).
        zlia.
Qed.

Lemma aimd_limit_direction_witness :
  AimdController.current_limit
    (AimdController.update (AimdController.init 4 80 8) 0 Spec.hot)
  <= AimdController.current_limit (AimdController.init 4 80 8).
Proof.
  refine (proj1 (proj2 (aimd_limit_direction (AimdController.init 4 80 8) 0
                          Spec.hot _ _)) _ _).
  all: first [reflexivity | cbv; intros; discriminate].
Defined.

(** X8. [TunableAimdController.update] has the same direction property
    whenever the decrease factor is in [0, 1], the slow-start factor is at
    least 1 and the additive step is non-negative. *)
Theorem tuned_limit_direction (c : TunableAimdController.t) (s : Z)
    (m : WindowMetrics.t) :
  (0 <= TunableAimdController.cwnd c)%Q ->
  tuned_params_ok (TunableAimdController.p c) ->
  let c' := TunableAimdController.update c s m in
  (0 < TunableAimdController.cooldown c ->
   TunableAimdController.current_limit c' = TunableAimdController.current_limit c) /\
  (TunableAimdController.cooldown c <= 0 ->
   TunableAimdController.congested c m = true ->
   TunableAimdController.current_limit c' <= TunableAimdController.current_limit c) /\
  (TunableAimdController.cooldown c <= 0 ->
   TunableAimdController.congested c m = false ->
   TunableAimdController.current_limit c <= TunableAimdController.current_limit c').
Proof.
  intros Hw (Hmm & Hdf & Hss & Hai) c'. subst c'.
  unfold TunableAimdController.update, TunableAimdController.current_limit.
  destruct (0 <? TunableAimdController.cooldown c) eqn:Ecd.
  { apply Z.ltb_lt in Ecd. repeat split; intros; cbn [TunableAimdController.p TunableAimdController.cwnd]; lia. }
  apply Z.ltb_ge in Ecd.
  set (p := TunableAimdController.p c) in *|-; fold p.
  set (w := TunableAimdController.cwnd c) in *|-; fold w.
  destruct (TunableAimdController.congested c m) eqn:Ecg.
  - split; [lia|]. split; [|discriminate]. intros _ _. cbn [TunableAimdController.p TunableAimdController.cwnd]. fold p w.
    rewrite py_max_idem.
    destruct (py_max_cases (of_int (AimdParams.min_c p))
                (w *. AimdParams.decrease_factor p)) as [-> | ->].
    + pose proof (py_int_of_int (AimdParams.min_c p)). zlia.
    + assert (py_int (w *. AimdParams.decrease_factor p) <= py_int w).
      { apply py_int_mono. fnorm.
        assert (0 <= w * (1 - AimdParams.decrease_factor p))%Q
          by (apply Qmult_le_0_compat; lra).
        lra. }
      zlia.
  - split; [lia|]. split; [discriminate|]. intros _ _.
    destruct (w <?. TunableAimdController.ssthresh c);
      cbn [TunableAimdController.p TunableAimdController.cwnd]; fold p w.
    + destruct (py_min_cases (of_int (AimdParams.max_c p))
                  (w *. AimdParams.slow_start_factor p)) as [-> | ->].
      * pose proof (py_int_of_int (AimdParams.max_c p)). zlia.
      * assert (py_int w <= py_int (w *. AimdParams.slow_start_factor p)).
        { apply py_int_mono. fnorm.
          assert (0 <= w * (AimdParams.slow_start_factor p - 1))%Q
            by (apply Qmult_le_0_compat; lra).
          lra. }
        zlia.
    + destruct (py_min_cases (of_int (AimdParams.max_c p))
                  (w +. AimdParams.ai_step p)) as [-> | ->].
      * pose proof (py_int_of_int (AimdParams.max_c p)). zlia.
      * assert (py_int w <= py_int (w +. AimdParams.ai_step p))
          by (apply py_int_mono; fnorm; lra).
        zlia.
Qed.

End AimdProperties.

Section AimdMore.
Import AbTestSimulator TuneAimd Protocol.

Lemma tuned_limit_direction_witness :
  TunableAimdController.current_limit (TunableAimdController.init example_params)
  <= TunableAimdController.current_limit
       (TunableAimdController.update (TunableAimdController.init example_params)
          0 Spec.calm).
Proof.
  refine (proj2 (proj2 (tuned_limit_direction
                          (TunableAimdController.init example_params) 0
                          Spec.calm _ _)) _ _).
  - cbv; intros; discriminate.
  - repeat split; cbv; intros; discriminate.
  - cbv; intros; discriminate.
  - reflexivity.
Defined.

Lemma aimd_update_cooling c s m :
  0 < AimdController.cooldown c ->
  AimdController.update c s m
  = {| AimdController.min_c := AimdController.min_c c;
       AimdController.max_c := AimdController.max_c c;
       AimdController.cwnd := AimdController.cwnd c;
       AimdController.ssthresh := AimdController.ssthresh c;
       AimdController.cooldown := AimdController.cooldown c - 1 |}.
Proof.
  intros Hc. unfold AimdController.update.
  apply Z.ltb_lt in Hc. rewrite Hc. reflexivity.
Qed.

Lemma tuned_update_cooling c s m :
  0 < TunableAimdController.cooldown c ->
  TunableAimdController.update c s m
  = {| TunableAimdController.p := TunableAimdController.p c;
       TunableAimdController.cwnd := TunableAimdController.cwnd c;
       TunableAimdController.ssthresh := TunableAimdController.ssthresh c;
       TunableAimdController.cooldown := TunableAimdController.cooldown c - 1 |}.
Proof.
  intros Hc. unfold TunableAimdController.update.
  apply Z.ltb_lt in Hc. rewrite Hc. reflexivity.
Qed.

Lemma aimd_cooldown_run ms :
  forall c, Z.of_nat (length ms) <= AimdController.cooldown c ->
  let c' := aimd_updates c ms in
  AimdController.cwnd c' = AimdController.cwnd c /\
  AimdController.ssthresh c' = AimdController.ssthresh c /\
  AimdController.cooldown c' = AimdController.cooldown c - Z.of_nat (length ms).
Proof.
  induction ms as [|sm ms IH]; intros c Hc.
  - simpl. repeat split. lia.
  - change (length (sm :: ms)) with (S (length ms)) in Hc |- *; cbv zeta.
    change (aimd_updates c (sm :: ms))
      with (aimd_updates (AimdController.update c sm.1 sm.2) ms).
    rewrite aimd_update_cooling by lia.
    match goal with |- context [aimd_updates ?c0 ms] =>
      destruct (IH c0) as (H1 & H2 & H3) end.
    { simpl. lia. }
    rewrite H1, H2, H3. simpl. repeat split. lia.
Qed.

Lemma tuned_cooldown_run ms :
  forall c, Z.of_nat (length ms) <= TunableAimdController.cooldown c ->
  let c' := tuned_updates c ms in
  TunableAimdController.cwnd c' = TunableAimdController.cwnd c /\
  TunableAimdController.ssthresh c' = TunableAimdController.ssthresh c /\
  TunableAimdController.cooldown c'
  = TunableAimdController.cooldown c - Z.of_nat (length ms).
Proof.
  induction ms as [|sm ms IH]; intros c Hc.
  - simpl. repeat split. lia.
  - change (length (sm :: ms)) with (S (length ms)) in Hc |- *; cbv zeta.
    change (tuned_updates c (sm :: ms))
      with (tuned_updates (TunableAimdController.update c sm.1 sm.2) ms).
    rewrite tuned_update_cooling by lia.
    match goal with |- context [tuned_updates ?c0 ms] =>
      destruct (IH c0) as (H1 & H2 & H3) end.
    { simpl. lia. }
    rewrite H1, H2, H3. simpl. repeat split. lia.
Qed.

(** X9. Cooldown blocks adaptation.  While the cooldown counter is
    positive, updates only count it down: after [k <= cooldown] windows of
    any metrics the window and the threshold are unchanged and the
    counter is lower by [k].  A congested window sets the counter (to 2 in
    [AimdController], to [cooldown_windows] in [TunableAimdController]),
    so the windows that follow a cut, that many of them, cannot change the
    window again. *)
Theorem cooldown_blocks_adaptation (ms : list (Z * WindowMetrics.t)) :
  (forall c, Z.of_nat (length ms) <= AimdController.cooldown c ->
     AimdController.cwnd (aimd_updates c ms) = AimdController.cwnd c /\
     AimdController.ssthresh (aimd_updates c ms) = AimdController.ssthresh c /\
     AimdController.cooldown (aimd_updates c ms)
     = AimdController.cooldown c - Z.of_nat (length ms)) /\
  (forall c, Z.of_nat (length ms) <= TunableAimdController.cooldown c ->
     TunableAimdController.cwnd (tuned_updates c ms) = TunableAimdController.cwnd c /\
     TunableAimdController.ssthresh (tuned_updates c ms)
     = TunableAimdController.ssthresh c /\
     TunableAimdController.cooldown (tuned_updates c ms)
     = TunableAimdController.cooldown c - Z.of_nat (length ms)) /\
  (forall c s m, AimdController.cooldown c <= 0 ->
     AimdController.congested m = true -> Z.of_nat (length ms) <= 2 ->
     AimdController.cwnd (aimd_updates (AimdController.update c s m) ms)
     = AimdController.cwnd (AimdController.update c s m)) /\
  (forall c s m, TunableAimdController.cooldown c <= 0 ->
     TunableAimdController.congested c m = true ->
     Z.of_nat (length ms) <= AimdParams.cooldown_windows (TunableAimdController.p c) ->
     TunableAimdController.cwnd
       (tuned_updates (TunableAimdController.update c s m) ms)
     = TunableAimdController.cwnd (TunableAimdController.update c s m)).
Proof.
  split; [intros c Hc; apply aimd_cooldown_run, Hc|].
  split; [intros c Hc; apply tuned_cooldown_run, Hc|].
  split.
  - intros c s m Hcd Hcg Hlen. apply aimd_cooldown_run.
    unfold AimdController.update.
    apply Z.ltb_ge in Hcd. rewrite Hcd, Hcg. simpl. exact Hlen.
  - intros c s m Hcd Hcg Hlen. apply tuned_cooldown_run.
    unfold TunableAimdController.update.
    apply Z.ltb_ge in Hcd. rewrite Hcd, Hcg. simpl. exact Hlen.
Qed.

Lemma cooldown_blocks_adaptation_witness :
  AimdController.cwnd
    (aimd_updates (AimdController.update (AimdController.init 4 80 8) 0 Spec.hot)
       [(1, Spec.calm); (2, Spec.calm)])
  = AimdController.cwnd (AimdController.update (AimdController.init 4 80 8) 0 Spec.hot).
Proof.
  refine (proj1 (proj2 (proj2 (cooldown_blocks_adaptation
            [(1, Spec.calm); (2, Spec.calm)]))) (AimdController.init 4 80 8) 0
            Spec.hot _ _ _).
  - cbv; intros; discriminate.
  - reflexivity.
  - cbv; intros; discriminate.
Defined.

Lemma aimd_update_window c s m :
  window_in_range c -> window_in_range (AimdController.update c s m).
Proof.
  intros [[Hlo Hhi] Hmm]. unfold window_in_range, AimdController.update.
  destruct (0 <? AimdController.cooldown c); [repeat split; assumption|].
  destruct (AimdController.congested m).
  - cbn [AimdController.cwnd AimdController.max_c AimdController.min_c].
    split; [|exact Hmm].
    set (t := py_int (mul64 (AimdController.cwnd c) (7 # 10))).
    destruct (mul64_07_le (AimdController.cwnd c) Hlo) as [Hm0 Hm1].
    assert (Ht0 : 0 <= t)
      by (apply py_int_nonneg, Hm0).
    assert (Htw : (of_int t <= AimdController.cwnd c)%Q).
    { subst t. rewrite py_int_floor by exact Hm0.
      eapply Qle_trans; [apply Qfloor_le|]. exact Hm1. }
    clearbody t.
    rewrite Z.max_r by lia.
    destruct (Z.max_spec (AimdController.min_c c) t) as [[Hlt ->] | [Hge ->]].
    + split; [|lra]. apply of_int_le in Ht0. exact Ht0.
    + split; [|apply of_int_le, Hmm].
      assert (H0 : (of_int 0 <= of_int (AimdController.min_c c))%Q)
        by (apply of_int_le; lia).
      exact H0.
  - destruct (AimdController.cwnd c <?. of_int (AimdController.ssthresh c));
      cbn [AimdController.cwnd AimdController.max_c AimdController.min_c];
      (split; [|exact Hmm]); (split; [|apply py_min_l]);
      apply py_min_glb; try lra; fnorm; lra.
Qed.

(** X10. From [AimdController(min_c, max_c, init_c)] with
    [0 <= init_c <= max_c] and [min_c <= max_c], after any sequence of
    updates the window stays in [0, max_c]: the [min(max_c, ...)] clamp in
    [current_limit] never has to cut it. *)
Theorem aimd_window_in_range (min_c0 max_c0 init_c : Z)
    (ms : list (Z * WindowMetrics.t)) :
  0 <= init_c <= max_c0 -> min_c0 <= max_c0 ->
  let c := aimd_updates (AimdController.init min_c0 max_c0 init_c) ms in
  (0 <= AimdController.cwnd c <= of_int max_c0)%Q /\
  AimdController.current_limit c
  = Z.max min_c0 (py_int (AimdController.cwnd c)).
Proof.
  intros Hi Hmm c.
  assert (Hc : window_in_range c /\ AimdController.max_c c = max_c0 /\
               AimdController.min_c c = min_c0).
  { subst c. unfold aimd_updates.
    assert (H0 : window_in_range (AimdController.init min_c0 max_c0 init_c) /\
                 AimdController.max_c (AimdController.init min_c0 max_c0 init_c)
                 = max_c0 /\
                 AimdController.min_c (AimdController.init min_c0 max_c0 init_c)
                 = min_c0).
    { split; [|split; reflexivity]. split; [|exact Hmm]. simpl.
      split; [change 0%Q with (of_int 0)|]; apply of_int_le; lia. }
    revert H0. generalize (AimdController.init min_c0 max_c0 init_c).
    induction ms as [|sm ms IH]; intros c0 H0; simpl; [exact H0|].
    apply IH. destruct H0 as (Hw & Hmax & Hmin).
    split; [apply aimd_update_window, Hw|].
    destruct (aimd_update_params c0 sm.1 sm.2) as [-> ->]. split; assumption. }
  destruct Hc as ([[Hlo Hhi] _] & Hmax & Hmin).
  rewrite Hmax in Hhi. split; [split; assumption|].
  unfold AimdController.current_limit. rewrite Hmax, Hmin.
  assert (py_int (AimdController.cwnd c) <= max_c0).
  { rewrite <- (py_int_of_int max_c0). apply py_int_mono, Hhi. }
  zlia.
Qed.

Lemma aimd_window_in_range_witness :
  (0 <= AimdController.cwnd
          (aimd_updates (AimdController.init 4 80 8)
             [(0%Z, Spec.calm); (1%Z, Spec.hot); (2%Z, Spec.calm)])
   <= of_int 80)%Q.
Proof.
  refine (proj1 (aimd_window_in_range 4 80 8
                   [(0, Spec.calm); (1, Spec.hot); (2, Spec.calm)] _ _)); lia.
Defined.

(** X11. [sample_params] always builds a well-formed parameter set from
    draws with [max_c >= 3]: [min_c < max_c], [min_c <= init_c <= max_c]
    and [min_c <= ssthresh <= max_c].  For draws from the lists in the
    source neither clamping [if] fires and the [min]/[max] on [ssthresh]
    change nothing ([min_c] and [ssthresh] are the drawn values and
    [init_c] is the larger of the drawn [init_c] and [min_c]); the
    decrease factor is in [0, 1], the slow-start factor is at least 1, the
    additive step is non-negative and the cooldown is positive, so the
    direction property of the tuned controller applies to every sampled
    controller. *)
Theorem sample_params_well_formed (d : Draws.t) :
  3 <= Draws.max_c d ->
  let p := sample_params d in
  AimdParams.max_c p = Draws.max_c d /\
  AimdParams.min_c p < AimdParams.max_c p /\
  AimdParams.min_c p <= AimdParams.init_c p <= AimdParams.max_c p /\
  AimdParams.min_c p <= AimdParams.ssthresh p <= AimdParams.max_c p /\
  (drawn_from_lists d ->
   tuned_params_ok p /\ 1 <= AimdParams.cooldown_windows p /\
   AimdParams.min_c p = Draws.min_c d /\
   AimdParams.init_c p = Z.max (Draws.init_c d) (Draws.min_c d) /\
   AimdParams.ssthresh p = Draws.ssthresh d).
Proof.
  intros Hmax p. subst p. unfold sample_params, tuned_params_ok.
  cbn [AimdParams.min_c AimdParams.max_c AimdParams.init_c AimdParams.ssthresh
       AimdParams.decrease_factor AimdParams.slow_start_factor AimdParams.ai_step
       AimdParams.cooldown_windows].
  assert (Hhalf : Z.max 2 (Draws.max_c d / 2) < Draws.max_c d).
  { pose proof (Z.div_lt_upper_bound (Draws.max_c d) 2 (Draws.max_c d)). lia. }
  destruct (Draws.max_c d <? Draws.init_c d) eqn:E1;
    [apply Z.ltb_lt in E1 | apply Z.ltb_ge in E1];
    (destruct (Draws.max_c d <=? Draws.min_c d) eqn:E2;
     [apply Z.leb_le in E2 | apply Z.leb_gt in E2]);
    (split; [reflexivity|]); (split; [lia|]); (split; [lia|]); (split; [lia|]);
    intros (H1 & H2 & H3 & H4 & H5 & H6 & _ & _ & _ & _ & H7 & H8);
    assert (B1 : 72 <= Draws.max_c d <= 108)
      by (revert H1; generalize (Draws.max_c d); intros z Hz;
          repeat (apply elem_of_cons in Hz as [-> | Hz]; [lia|]); inversion Hz);
    assert (B2 : 4 <= Draws.min_c d <= 10)
      by (revert H2; generalize (Draws.min_c d); intros z Hz;
          repeat (apply elem_of_cons in Hz as [-> | Hz]; [lia|]); inversion Hz);
    assert (B3 : 6 <= Draws.init_c d <= 16)
      by (revert H3; generalize (Draws.init_c d); intros z Hz;
          repeat (apply elem_of_cons in Hz as [-> | Hz]; [lia|]); inversion Hz);
    assert (B4 : 16 <= Draws.ssthresh d <= 48)
      by (revert H4; generalize (Draws.ssthresh d); intros z Hz;
          repeat (apply elem_of_cons in Hz as [-> | Hz]; [lia|]); inversion Hz);
    assert (B5 : (0 <= Draws.decrease_factor d <= 1)%Q)
      by (revert H5; generalize (Draws.decrease_factor d); intros z Hz;
          repeat (apply elem_of_cons in Hz as [-> | Hz]; [lra|]); inversion Hz);
    assert (B6 : 1 <= Draws.cooldown_windows d)
      by (revert H6; generalize (Draws.cooldown_windows d); intros z Hz;
          repeat (apply elem_of_cons in Hz as [-> | Hz]; [lia|]); inversion Hz);
    assert (B7 : (1 <= Draws.slow_start_factor d)%Q)
      by (revert H7; generalize (Draws.slow_start_factor d); intros z Hz;
          repeat (apply elem_of_cons in Hz as [-> | Hz]; [lra|]); inversion Hz);
    assert (B8 : (0 <= Draws.ai_step d)%Q)
      by (revert H8; generalize (Draws.ai_step d); intros z Hz;
          repeat (apply elem_of_cons in Hz as [-> | Hz]; [lra|]); inversion Hz);
    try lia;
    (split; [split; [lia|]; split; [exact B5|]; split; [exact B7 | exact B8]|]);
    (split; [exact B6|]); (split; [reflexivity|]); split; lia.
Qed.

Lemma sample_params_well_formed_witness :
  3 <= Draws.max_c example_draws /\ drawn_from_lists example_draws /\
  tuned_params_ok (sample_params example_draws).
Proof.
  assert (Hmax : 3 <= Draws.max_c example_draws) by (simpl; lia).
  assert (Hd : drawn_from_lists example_draws).
  { unfold drawn_from_lists, example_draws; simpl.
    repeat split; repeat constructor. }
  split; [exact Hmax|]. split; [exact Hd|].
  exact (proj1 (proj2 (proj2 (proj2 (proj2
           (sample_params_well_formed example_draws Hmax)))) Hd)).
Defined.

End AimdMore.

(** ** The allocator's buckets and history *)

Section AllocatorMore.
Import AbTestSimulator AdaptiveBucketAb AllocatorSpec.
Import AdaptiveBucketAllocator.

Lemma bucket_of_range a tokens : (bucket_of a tokens < 4)%nat.
Proof.
  unfold bucket_of.
  repeat match goal with |- context [if ?b then _ else _] => destruct b end; lia.
Qed.

(** X12. [bucket_of] always returns one of the four bucket indices and
    is monotone: a request with more tokens never lands in a lower
    bucket, whatever the boundaries are; with increasing boundaries
    [b1 < b2 < b3] the bucket is the number of boundaries below the token
    count. *)
Theorem bucket_of_monotone (a : AdaptiveBucketAllocator.t) (t1 t2 : Z) :
  t1 <= t2 ->
  (bucket_of a t1 < 4)%nat /\
  (bucket_of a t1 <= bucket_of a t2)%nat /\
  (forall b1 b2 b3, boundaries a = [b1; b2; b3] -> b1 < b2 < b3 ->
     (bucket_of a t1 = 0%nat <-> t1 <= b1) /\
     (bucket_of a t1 = 1%nat <-> b1 < t1 <= b2) /\
     (bucket_of a t1 = 2%nat <-> b2 < t1 <= b3) /\
     (bucket_of a t1 = 3%nat <-> b3 < t1)).
Proof.
  intros Hle. split; [apply bucket_of_range|]. split.
  - unfold bucket_of.
    repeat match goal with |- context [?x <=? ?y] =>
      let E := fresh "E" in destruct (x <=? y) eqn:E;
      [apply Z.leb_le in E | apply Z.leb_gt in E] end; lia.
  - intros b1 b2 b3 Hb Hinc. unfold bucket_of. rewrite Hb.
    unfold zitem; simpl.
    repeat match goal with |- context [?x <=? ?y] =>
      let E := fresh "E" in destruct (x <=? y) eqn:E;
      [apply Z.leb_le in E | apply Z.leb_gt in E] end;
      repeat split; intros; try lia; try discriminate.
Qed.

Lemma bucket_of_monotone_witness :
  (bucket_of (init 8100 3795000) 250 <= bucket_of (init 8100 3795000) 5000)%nat.
Proof.
  refine (proj1 (proj2 (bucket_of_monotone (init 8100 3795000) 250 5000 _))). lia.
Defined.

Lemma hist_append_length h x :
  (length h <= maxlen)%nat -> (length (hist_append h x) <= maxlen)%nat.
Proof.
  intros Hh. unfold hist_append. rewrite length_drop, length_app. simpl. lia.
Qed.

Lemma hist_append_last h x : last (hist_append h x) = Some x.
Proof.
  unfold hist_append.
  assert (Hlen : (length (h ++ [x]) - maxlen <= length h)%nat).
  { rewrite length_app. simpl. unfold maxlen.
    assert (0 < Z.to_nat 12000)%nat by lia. lia. }
  rewrite drop_app_le by exact Hlen. apply last_snoc.
Qed.

Lemma allocator_step_hist a c :
  (length (token_hist a) <= maxlen)%nat ->
  (length (token_hist (allocator_step a c)) <= maxlen)%nat.
Proof.
  intros Ha. destruct c as [tok|tok|tok|now b tok|b tok|]; simpl; try exact Ha.
  - apply hist_append_length, Ha.
  - unfold refill. destruct (_ <=?. 0); [exact Ha|]. simpl.
    generalize (seq 0 4). intros l. revert a Ha.
    induction l as [|i l IH]; intros a Ha; simpl; [exact Ha|].
    apply IH. exact Ha.
  - unfold _update_boundaries.
    destruct (_ <? 200)%nat; [exact Ha|].
    match goal with |- context [if ?b then _ else _] => destruct b end; exact Ha.
Qed.

(** X13. The token history behaves as a bounded deque: after any
    sequence of calls on a fresh allocator it holds at most [maxlen]
    (12000) entries, and [record_arrival] always leaves the recorded token count
    as its newest entry. *)
Theorem token_history_bounded (total_rpm0 total_tpm0 : Z)
    (calls : list allocator_call) (tokens : Z) :
  let a := foldl allocator_step (init total_rpm0 total_tpm0) calls in
  (length (token_hist a) <= maxlen)%nat /\
  last (token_hist (record_arrival a tokens)) = Some tokens.
Proof.
  intros a. split; [|apply hist_append_last].
  subst a.
  assert (H0 : (length (token_hist (init total_rpm0 total_tpm0)) <= maxlen)%nat)
    by (simpl; lia).
  revert H0. generalize (init total_rpm0 total_tpm0).
  induction calls as [|c calls IH]; intros a0 H0; simpl; [exact H0|].
  apply IH, allocator_step_hist, H0.
Qed.

(** X14. [_smooth_boundary] moves a non-negative boundary by at most
    [int(old * 0.15)] in either direction and never returns less than 32:
    the result lies between [max(32, old - step)] and
    [max(32, old + step)].  The variant in [FullPipelinePolicy] has no
    floor: its result lies between [old - step] and [old + step]. *)
Theorem smooth_boundary_step (old_v new_v : Z) :
  0 <= old_v ->
  let step := py_int (of_int old_v *. (15 # 100)) in
  0 <= step <= old_v /\
  Z.max 32 (old_v - step) <= _smooth_boundary old_v new_v (15 # 100)
                          <= Z.max 32 (old_v + step) /\
  old_v - step
  <= FullPipelineVsTraditional.FullPipelinePolicy._smooth_boundary old_v new_v
  <= old_v + step.
Proof.
  intros Hold step.
  assert (Hq : (of_int 0 <= of_int old_v)%Q) by (apply of_int_le, Hold).
  change (of_int 0) with 0%Q in Hq.
  assert (Hs0 : 0 <= step)
    by (apply py_int_nonneg; fnorm; lra).
  assert (Hs1 : step <= old_v).
  { rewrite <- (py_int_of_int old_v). subst step. apply py_int_mono. fnorm. lra. }
  unfold _smooth_boundary,
    FullPipelineVsTraditional.FullPipelinePolicy._smooth_boundary.
  fold step. clearbody step.
  zlia.
Qed.

Lemma smooth_boundary_step_witness :
  Z.max 32 (300 - py_int (of_int 300 *. (15 # 100)))
  <= _smooth_boundary 300 5000 (15 # 100)
  <= Z.max 32 (300 + py_int (of_int 300 *. (15 # 100))).
Proof.
  refine (proj1 (proj2 (smooth_boundary_step 300 5000 _))). lia.
Defined.

(** The weighted sum is binary64's: for boundary 48 and percentile 28 it
    is 41.99999999999999 and the result 41, where the exact sum is 42. *)
Lemma smooth_boundary_rounds :
  _smooth_boundary 48 28 (15 # 100) = 41 /\
  FullPipelineVsTraditional.FullPipelinePolicy._smooth_boundary 48 28 = 41 /\
  py_int ((7 # 10) *. of_int 48 +. (3 # 10) *. of_int 28) = 42.
Proof. vm_compute. repeat split; reflexivity. Qed.

(** X15. A bucket is never overdrawn by an admission: when [can_admit]
    answers yes, [consume] on the allocator it leaves behind keeps both
    token counts of that bucket non-negative. *)
Theorem bucket_never_overdrawn (a : AdaptiveBucketAllocator.t) (now : float)
    (bucket : nat) (tokens : Z) :
  (can_admit a now bucket tokens).2 = true ->
  let a' := consume (can_admit a now bucket tokens).1 bucket tokens in
  (0 <= fitem (rpm_tokens a') bucket)%Q /\ (0 <= fitem (tpm_tokens a') bucket)%Q.
Proof.
  unfold can_admit; cbn [fst snd]. intros Hok.
  apply andb_true_iff in Hok as [Hr Ht]. fcases.
  set (a1 := refill a now) in *|-; fold a1.
  unfold consume; cbn [rpm_tokens tpm_tokens]. unfold fitem in Hr, Ht |- *; simpl.
  split.
  - destruct (rpm_tokens a1 !! bucket) as [x|] eqn:E; simpl in Hr.
    + rewrite list_lookup_insert_eq by (eapply lookup_lt_Some; exact E).
      simpl. rewrite fsub_eq. lra.
    + exfalso. apply (Qlt_not_le 0 1); [reflexivity | exact Hr].
  - destruct (tpm_tokens a1 !! bucket) as [x|] eqn:E; simpl in Ht.
    + rewrite list_lookup_insert_eq by (eapply lookup_lt_Some; exact E).
      simpl. rewrite fsub_eq. lra.
    + rewrite list_insert_ge by (apply lookup_ge_None; exact E).
      rewrite E. simpl. lra.
Qed.

Lemma bucket_never_overdrawn_witness :
  (0 <= fitem (rpm_tokens (consume (can_admit (init 8100 3795000) 1 0 100).1 0 100)) 0)%Q.
Proof.
  refine (proj1 (bucket_never_overdrawn (init 8100 3795000) 1 0 100 _)).
  vm_compute. reflexivity.
Defined.

End AllocatorMore.

(** ** The full-pipeline policy's estimates *)

Section PipelineMore.
Import AbTestSimulator FullPipelineVsTraditional PipelineSpec.
Import FullPipelinePolicy.

(** X16. [estimate_tokens] never estimates less than one token, records
    the estimate as the newest history entry and counts the arrival in
    the estimate's bucket; it leaves alpha, the shares and the budgets
    alone. *)
Theorem estimate_at_least_one (s : FullPipelinePolicy.t) (req : Request.t) :
  let s' := (estimate_tokens s req).1 in
  let est := (estimate_tokens s req).2 in
  1 <= est /\
  last (hist_tokens s') = Some est /\
  win_arrival s' = <[bucket_of s est := zitem (win_arrival s) (bucket_of s est) + 1]>
                     (win_arrival s) /\
  alpha s' = alpha s /\ shares s' = shares s /\
  rpm_tokens s' = rpm_tokens s /\ tpm_tokens s' = tpm_tokens s.
Proof.
  cbv zeta. unfold estimate_tokens; cbn [fst snd hist_tokens win_arrival alpha
    shares rpm_tokens tpm_tokens].
  split; [|split; [|repeat split]].
  - rewrite <- (py_int_of_int 1) at 1. apply py_int_mono.
    change (of_int 1) with 1%Q. apply py_max_l.
  - unfold hist_append.
    match goal with |- context [drop ?n (?h ++ [?x])] =>
      assert (Hlen : (n <= length h)%nat) end.
    { rewrite length_app. simpl. unfold maxlen.
      assert (0 < Z.to_nat 12000)%nat by lia. lia. }
    rewrite drop_app_le by exact Hlen. apply last_snoc.
Qed.

End PipelineMore.

(** ** The run's counters, time series and queue waits *)

Section RunReport.
Import AbTestSimulator RunSpec Protocol Report.
Import Run.
Context {C : Type} `{Controller C}.
Variable reqs : list Request.t.
Variable sampler : nat -> list nat.

(** The loop body up to [now += dt]. *)
Lemma tick_phases (st : state C) :
  tick reqs sampler st
  = advance (rollover (record_peak (admission sampler
               (expire (complete (arrive reqs st)))))).
Proof. reflexivity. Qed.

(** *** Rejection reasons *)

Lemma timeout_loop_reason q :
  forall st : state C, only_timeouts st -> only_timeouts (timeout_loop q st).
Proof.
  induction q as [|r q IH]; intros st Hst; simpl; [exact Hst|].
  destruct (_ <?. _); [|exact Hst].
  match goal with |- context [timeout_loop q ?s] => apply (IH s) end.
  intros k Hk. cbn [rejected_reason]. unfold bump.
  rewrite lookup_insert_ne by congruence. apply Hst, Hk.
Qed.

Lemma tick_reason (st : state C) :
  only_timeouts st -> only_timeouts (tick reqs sampler st).
Proof.
  intros Hst.
  assert (H1 : only_timeouts (arrive reqs st)).
  { unfold only_timeouts, arrive.
    destruct (arrive_loop_frame (drop (idx st) reqs) st)
      as (_ & _ & _ & _ & _ & ->). exact Hst. }
  assert (H2 : only_timeouts (complete (arrive reqs st))).
  { unfold only_timeouts.
    destruct (complete_frame (arrive reqs st)) as (_ & _ & _ & _ & _ & -> & _).
    exact H1. }
  assert (H3 : only_timeouts (expire (complete (arrive reqs st))))
    by (apply timeout_loop_reason, H2).
  set (st3 := expire (complete (arrive reqs st))) in H3.
  rewrite tick_phases. fold st3.
  unfold only_timeouts, advance, rollover. cbn [rejected_reason].
  match goal with |- context [rollover_loop ?f ?s] =>
    destruct (rollover_loop_frame f s) as (_ & _ & _ & _ & _ & _ & ->) end.
  cbn [record_peak rejected_reason]. unfold admission.
  match goal with |- context [admit_loop _ ?c ?t ?q ?s] =>
    destruct (admit_loop_frame sampler c t q s) as (_ & _ & _ & _ & ->) end.
  exact H3.
Qed.

Lemma ticks_reason k (st : state C) :
  only_timeouts st -> only_timeouts (ticks reqs sampler k st).
Proof.
  intros Hst. induction k as [|k IH]; [exact Hst|].
  rewrite ticks_S. apply tick_reason, IH.
Qed.

(** X19. In every state the tick loop of [run_simulation] reaches, on any
    input, the only key of [rejected_reason] that has been written is
    [QUEUE_TIMEOUT]: the summary's [burst_reject], [rate_rpm_reject] and
    [rate_tpm_reject] are 0 (refusals for those reasons are counted only
    per second, in [sec_burst] and [sec_ratelimit]) and [timeout_reject]
    equals [rejected]. *)
Theorem reject_breakdown (c : C) (ns : list NodeState.t) (k : nat) :
  let st := ticks reqs sampler k (init_state ns c) in
  burst_reject st = 0 /\ rate_rpm_reject st = 0 /\ rate_tpm_reject st = 0 /\
  timeout_reject st = rejected st.
Proof.
  intros st.
  assert (Hk : only_timeouts st).
  { apply ticks_reason. intros key _. apply lookup_empty. }
  assert (Hl : ledger reqs st) by (apply ticks_ledger, init_ledger).
  unfold burst_reject, rate_rpm_reject, rate_tpm_reject, timeout_reject, get.
  rewrite !Hk by discriminate.
  repeat split. apply Hl.
Qed.

(** *** The time series *)

Lemma arrive_loop_series pending :
  forall st : state C, series_ok st -> series_ok (arrive_loop pending st).
Proof.
  induction pending as [|r rest IH]; intros st Hst; simpl; [exact Hst|].
  destruct (_ <=?. _); [|exact Hst].
  match goal with |- context [arrive_loop rest ?s] => apply (IH s) end.
  exact Hst.
Qed.

Lemma complete_all_series l :
  forall st : state C, series_ok st -> series_ok (foldl complete_one st l).
Proof.
  induction l as [|c l IH]; intros st Hst; simpl; [exact Hst|].
  apply IH. exact Hst.
Qed.

Lemma complete_series (st : state C) : series_ok st -> series_ok (complete st).
Proof.
  intros Hst. unfold complete.
  destruct (List.filter _ _) as [|c l]; [exact Hst|].
  exact (complete_all_series (c :: l) st Hst).
Qed.

Lemma timeout_loop_series q :
  forall st : state C, series_ok st -> series_ok (timeout_loop q st).
Proof.
  induction q as [|r q IH]; intros st Hst; simpl; [exact Hst|].
  destruct (_ <?. _); [|exact Hst].
  match goal with |- context [timeout_loop q ?s] => apply (IH s) end.
  destruct Hst as (H1 & H2 & H3 & H4 & H5).
  unfold series_ok; cbn [per_sec sec_cursor accepted rejected sec_accepted
    sec_rejected now].
  split; [exact H1|]. split; [exact H2|]. split; [exact H3|].
  split; [lia | exact H5].
Qed.

Lemma admit_loop_series cap q :
  forall t (st : state C),
  series_ok st -> series_ok (admit_loop sampler cap t q st).
Proof.
  induction q as [|r q IH]; intros t st Hst; simpl; [exact Hst|].
  destruct (t <? cap); [|exact Hst].
  destruct (try_nodes _ _ _ _ _ _) as [[ns res] fr].
  destruct res as [nid|]; [|exact Hst].
  match goal with |- context [admit_loop _ _ ?t' q ?s] => apply (IH t' s) end.
  destruct Hst as (H1 & H2 & H3 & H4 & H5).
  unfold series_ok; cbn [per_sec sec_cursor accepted rejected sec_accepted
    sec_rejected now].
  split; [exact H1|]. split; [exact H2|]. split; [lia|].
  split; [exact H4 | exact H5].
Qed.

Lemma series_accepted_snoc l r :
  series_accepted (l ++ [r]) = series_accepted l + PerSec.accepted r.
Proof.
  induction l as [|x l IH]; simpl; [lia|].
  unfold series_accepted in IH |- *; simpl. rewrite IH. lia.
Qed.

Lemma series_rejected_snoc l r :
  series_rejected (l ++ [r]) = series_rejected l + PerSec.rejected r.
Proof.
  induction l as [|x l IH]; simpl; [lia|].
  unfold series_rejected in IH |- *; simpl. rewrite IH. lia.
Qed.

Lemma roll_series (st : state C) :
  (of_int (sec_cursor st) + 1 <= now st)%Q -> series_ok st -> series_ok (roll st).
Proof.
  intros Hnow (H1 & H2 & H3 & H4 & H5).
  unfold series_ok, roll; cbn [per_sec sec_cursor accepted rejected sec_accepted
    sec_rejected now].
  split; [|split; [|split; [|split]]].
  - intros i r Hi. apply lookup_app_Some in Hi as [Hi | [Hlen Hi]].
    + apply H1, Hi.
    + apply list_lookup_singleton_Some in Hi as [Hi <-].
      cbn [PerSec.second]. lia.
  - rewrite length_app. simpl. lia.
  - rewrite series_accepted_snoc. cbn [PerSec.accepted]. lia.
  - rewrite series_rejected_snoc. cbn [PerSec.rejected]. lia.
  - unfold of_int in Hnow |- *; rewrite inject_Z_plus.
    change (inject_Z 1) with 1%Q. exact Hnow.
Qed.

Lemma rollover_loop_series fuel :
  forall st : state C, series_ok st -> series_ok (rollover_loop fuel st).
Proof.
  induction fuel as [|fuel IH]; intros st Hst; simpl; [exact Hst|].
  destruct (_ <=?. _) eqn:E; [|exact Hst].
  apply IH, roll_series; [|exact Hst].
  apply fle_true in E. rewrite fadd_eq in E. exact E.
Qed.

Lemma floor_unique z x : (inject_Z z <= x < inject_Z z + 1)%Q -> Qfloor x = z.
Proof.
  intros [Hlo Hhi].
  pose proof (Qfloor_le x) as Hfl. pose proof (Qlt_floor x) as Hlt.
  assert (H1 : (inject_Z (Qfloor x) < inject_Z (z + 1))%Q).
  { rewrite inject_Z_plus. change (inject_Z 1) with 1%Q. lra. }
  assert (H2 : (inject_Z z < inject_Z (Qfloor x + 1))%Q) by lra.
  rewrite <- Zlt_Qlt in H1, H2. lia.
Qed.

(** The loop body before [now += dt]. *)
Lemma body_series (st : state C) :
  series_ok st ->
  let st' := rollover (record_peak (admission sampler
               (expire (complete (arrive reqs st))))) in
  series_ok st' /\ now st' = now st.
Proof.
  intros Hst st'.
  assert (Hs : series_ok st').
  { apply rollover_loop_series.
    assert (H4 : series_ok (admission sampler (expire (complete (arrive reqs st))))).
    { apply admit_loop_series, timeout_loop_series, complete_series,
        arrive_loop_series, Hst. }
    exact H4. }
  split; [exact Hs|].
  unfold st', rollover.
  match goal with |- context [rollover_loop ?f ?s] =>
    destruct (rollover_loop_frame f s) as (_ & _ & _ & -> & _) end.
  cbn [record_peak now]. unfold admission.
  match goal with |- context [admit_loop _ ?c ?t ?q ?s] =>
    destruct (admit_loop_frame sampler c t q s) as (_ & -> & _) end.
  unfold expire.
  match goal with |- context [timeout_loop ?q ?s] =>
    destruct (timeout_loop_frame q s) as (_ & _ & -> & _) end.
  destruct (complete_frame (arrive reqs st)) as (_ & _ & -> & _).
  unfold arrive.
  destruct (arrive_loop_frame (drop (idx st) reqs) st) as (_ & _ & -> & _).
  reflexivity.
Qed.

Lemma tick_series (st : state C) :
  series_ok st -> series_ok (tick reqs sampler st).
Proof.
  intros Hst. destruct (body_series st Hst) as [(H1 & H2 & H3 & H4 & H5) Hn].
  rewrite tick_phases.
  unfold series_ok; cbn [advance per_sec sec_cursor accepted rejected
    sec_accepted sec_rejected now].
  split; [exact H1|]. split; [exact H2|]. split; [exact H3|].
  split; [exact H4|]. rewrite fadd_eq. unfold dt. lra.
Qed.

Lemma ticks_series k (st : state C) :
  series_ok st -> series_ok (ticks reqs sampler k st).
Proof.
  intros Hst. induction k as [|k IH]; [exact Hst|].
  rewrite ticks_S. apply tick_series, IH.
Qed.

(** X20. In every state the tick loop of [run_simulation] reaches, on any
    input: the time series has one record per closed one-second window,
    in order, the [i]-th with ["second"] equal to [i]; [sec_cursor] is
    their number; [accepted] and [rejected] are the sums of the records'
    ["accepted"] and ["rejected"] plus the counters of the open window;
    and after the tick made at time [now] the series has [floor(now)]
    records, so no window is skipped or emitted twice. *)
Theorem timeseries_accounts (c : C) (ns : list NodeState.t) (k : nat) :
  let st := ticks reqs sampler k (init_state ns c) in
  (forall i r, per_sec st !! i = Some r -> PerSec.second r = Z.of_nat i) /\
  sec_cursor st = Z.of_nat (length (per_sec st)) /\
  accepted st = series_accepted (per_sec st) + sec_accepted st /\
  rejected st = series_rejected (per_sec st) + sec_rejected st /\
  Z.of_nat (length (per_sec (tick reqs sampler st))) = Qfloor (now st).
Proof.
  intros st.
  assert (Hst : series_ok st).
  { apply ticks_series. unfold series_ok; simpl.
    split; [intros i r Hi; inversion Hi|].
    repeat split; try reflexivity. unfold of_int, inject_Z, Qle; simpl. lia. }
  destruct Hst as (H1 & H2 & H3 & H4 & H5).
  split; [exact H1|]. split; [exact H2|]. split; [exact H3|]. split; [exact H4|].
  destruct (body_series st (conj H1 (conj H2 (conj H3 (conj H4 H5)))))
    as [(_ & B2 & _ & _ & B5) Hn].
  pose proof (rollover_exits (record_peak (admission sampler
                (expire (complete (arrive reqs st)))))) as Hex.
  rewrite tick_phases. cbn [advance per_sec].
  rewrite <- B2. symmetry. apply floor_unique.
  rewrite <- Hn. unfold of_int in B5, Hex. split; [exact B5 | exact Hex].
Qed.

(** *** Queue waits *)

Lemma arrive_loop_other pending :
  forall st : state C,
  let st' := arrive_loop pending st in
  inflight st' = inflight st /\ queue_wait_ms st' = queue_wait_ms st.
Proof.
  induction pending as [|r rest IH]; intros st; simpl; [split; reflexivity|].
  destruct (_ <=?. _); [|split; reflexivity].
  match goal with |- context [arrive_loop rest ?s] => exact (IH s) end.
Qed.

Lemma arrive_loop_arrived pending :
  forall st : state C,
  Forall (arrived (now st)) (queue st) ->
  Forall (arrived (now st)) (queue (arrive_loop pending st)).
Proof.
  induction pending as [|r rest IH]; intros st Hst; simpl; [exact Hst|].
  destruct (_ <=?. _) eqn:E; [|exact Hst].
  match goal with |- context [arrive_loop rest ?s] => apply (IH s) end.
  cbn [queue now]. apply Forall_app. split; [exact Hst|].
  constructor; [|constructor]. apply fle_true in E. exact E.
Qed.

Lemma complete_all_waits l :
  forall st : state C,
  queue_wait_ms (foldl complete_one st l) = queue_wait_ms st ++ map wait_of l /\
  inflight (foldl complete_one st l) = inflight st.
Proof.
  induction l as [|c l IH]; intros st; simpl.
  - rewrite app_nil_r. split; reflexivity.
  - destruct (IH (complete_one st c)) as [-> ->].
    cbn [complete_one queue_wait_ms inflight].
    rewrite <- app_assoc. split; reflexivity.
Qed.

Lemma complete_waits (st : state C) :
  exists done,
    done ⊆ inflight st /\
    queue_wait_ms (complete st) = queue_wait_ms st ++ map wait_of done /\
    inflight (complete st) ⊆ inflight st.
Proof.
  unfold complete.
  destruct (List.filter (fun x => Inflight.finish_ts x <=?. now st) (inflight st))
    as [|c l] eqn:Hf.
  - exists []. split; [apply list_subseteq_nil|].
    rewrite app_nil_r. split; reflexivity.
  - exists (c :: l). cbn [queue_wait_ms inflight].
    destruct (complete_all_waits (c :: l) st) as [-> _].
    split; [|split; [reflexivity|]].
    + rewrite <- Hf. intros x Hx. apply list_elem_of_In in Hx.
      apply filter_In in Hx as [Hx _]. apply list_elem_of_In, Hx.
    + intros x Hx. apply list_elem_of_In in Hx.
      apply filter_In in Hx as [Hx _]. apply list_elem_of_In, Hx.
Qed.

Lemma Forall_subseteq {A} (P : A -> Prop) (l1 l2 : list A) :
  l1 ⊆ l2 -> Forall P l2 -> Forall P l1.
Proof.
  intros Hsub Hl. apply Forall_forall. intros x Hx.
  rewrite Forall_forall in Hl. apply Hl, Hsub, Hx.
Qed.

Lemma wait_nonneg c : started_after_arrival c -> (0 <= wait_of c)%Q.
Proof.
  unfold started_after_arrival, wait_of. intros Hc.
  rewrite fmul_eq, fsub_eq. lra.
Qed.

Lemma wait_in_time c : started_in_time c -> (wait_of c <= 1200)%Q.
Proof.
  unfold started_in_time, wait_of, queue_timeout. intros Hc.
  rewrite fmul_eq, fsub_eq. lra.
Qed.

Lemma timeout_loop_other q :
  forall st : state C,
  let st' := timeout_loop q st in
  inflight st' = inflight st /\ queue_wait_ms st' = queue_wait_ms st.
Proof.
  induction q as [|r q IH]; intros st; simpl; [split; reflexivity|].
  destruct (_ <?. _); [|split; reflexivity].
  match goal with |- context [timeout_loop q ?s] => exact (IH s) end.
Qed.

Lemma timeout_loop_queue (P : Request.t -> Prop) q :
  forall st : state C,
  q = queue st -> Forall P q -> Forall P (queue (timeout_loop q st)).
Proof.
  induction q as [|r q IH]; intros st Hq Hall; simpl;
    [rewrite <- Hq; constructor|].
  destruct (_ <?. _); [|rewrite <- Hq; exact Hall].
  match goal with |- context [timeout_loop q ?s] => apply (IH s) end;
    [reflexivity|].
  inversion Hall; assumption.
Qed.

Lemma admit_loop_flights (P : Request.t -> Prop) (Q : Inflight.t -> Prop) cap q :
  forall t (st : state C),
  q = queue st ->
  (forall r nid, P r ->
     Q {| Inflight.req := r; Inflight.start_ts := now st;
          Inflight.finish_ts := now st +. Request.service_time_sec r;
          Inflight.node_id := nid |}) ->
  Forall P q -> Forall Q (inflight st) ->
  let st' := admit_loop sampler cap t q st in
  Forall P (queue st') /\ Forall Q (inflight st') /\
  queue_wait_ms st' = queue_wait_ms st.
Proof.
  induction q as [|r q IH]; intros t st Hq HPQ Hall Hfl; simpl.
  - rewrite <- Hq. repeat split; [constructor | exact Hfl].
  - destruct (t <? cap); [|rewrite <- Hq; repeat split; assumption].
    destruct (try_nodes _ _ _ _ _ _) as [[ns res] fr].
    destruct res as [nid|];
      [|cbn [queue inflight queue_wait_ms]; rewrite <- Hq; repeat split; assumption].
    inversion Hall as [|? ? Hr Hrest]; subst.
    match goal with |- context [admit_loop _ _ ?t' q ?s] =>
      destruct (IH t' s) as (I1 & I2 & I3) end.
    + reflexivity.
    + cbn [now]. exact HPQ.
    + exact Hrest.
    + cbn [inflight]. apply Forall_app. split; [exact Hfl|].
      constructor; [|constructor]. apply HPQ, Hr.
    + split; [exact I1|]. split; [exact I2|]. exact I3.
Qed.

Lemma rollover_loop_other fuel :
  forall st : state C,
  let st' := rollover_loop fuel st in
  inflight st' = inflight st /\ queue_wait_ms st' = queue_wait_ms st.
Proof.
  induction fuel as [|fuel IH]; intros st; simpl; [split; reflexivity|].
  destruct (_ <=?. _); [|split; reflexivity].
  exact (IH (roll st)).
Qed.

(** One tick, for a property [P] of queued requests that holds on arrival
    and a property [Q] of flights that holds when a request with [P] is
    started. *)
Lemma body_waits (P : float -> Request.t -> Prop) (Q : Inflight.t -> Prop)
    (R : float -> Prop) (st : state C) :
  (forall r nid, P (now st) r ->
     Q {| Inflight.req := r; Inflight.start_ts := now st;
          Inflight.finish_ts := now st +. Request.service_time_sec r;
          Inflight.node_id := nid |}) ->
  (forall c, Q c -> R (wait_of c)) ->
  Forall (P (now st)) (queue (expire (complete (arrive reqs st)))) ->
  Forall Q (inflight st) -> Forall R (queue_wait_ms st) ->
  let st' := tick reqs sampler st in
  Forall (P (now st)) (queue st') /\ Forall Q (inflight st') /\
  Forall R (queue_wait_ms st').
Proof.
  intros HPQ HQR Hq Hfl Hw.
  set (st1 := arrive reqs st).
  destruct (arrive_loop_other (drop (idx st) reqs) st) as [A1 A2].
  fold (arrive reqs st) in A1, A2. fold st1 in A1, A2, Hq.
  destruct (complete_waits st1) as (done & D1 & D2 & D3).
  set (st2 := complete st1) in D2, D3, Hq.
  destruct (timeout_loop_other (queue st2) st2) as [T1 T2].
  fold (expire st2) in T1, T2. set (st3 := expire st2) in T1, T2, Hq.
  assert (Hnow : now st3 = now st).
  { unfold st3, expire.
    destruct (timeout_loop_frame (queue st2) st2) as (_ & _ & -> & _).
    unfold st2. destruct (complete_frame st1) as (_ & _ & -> & _).
    unfold st1, arrive.
    destruct (arrive_loop_frame (drop (idx st) reqs) st) as (_ & _ & -> & _).
    reflexivity. }
  assert (Hfl3 : Forall Q (inflight st3)).
  { rewrite T1. apply (Forall_subseteq _ _ _ D3). rewrite A1. exact Hfl. }
  assert (Hw3 : Forall R (queue_wait_ms st3)).
  { rewrite T2, D2, A2. apply Forall_app. split; [exact Hw|].
    apply Forall_forall. intros w Hin. apply list_elem_of_fmap in Hin as (c & -> & Hc).
    apply HQR. rewrite A1 in D1. rewrite Forall_forall in Hfl.
    apply Hfl, D1, Hc. }
  destruct (admit_loop_flights (P (now st)) Q (current_limit (controller st3))
              (queue st3) (total_inflight (nodes st3)) st3 eq_refl)
    as (M1 & M2 & M3).
  { rewrite Hnow. exact HPQ. }
  { exact Hq. }
  { exact Hfl3. }
  fold (admission sampler st3) in M1, M2, M3.
  intros st'. unfold st'. rewrite tick_phases. fold st1 st2 st3.
  cbn [advance queue inflight queue_wait_ms]. unfold rollover.
  match goal with |- context [rollover_loop ?f ?s] =>
    destruct (rollover_loop_frame f s) as (_ & -> & _);
    destruct (rollover_loop_other f s) as [-> ->] end.
  cbn [record_peak queue inflight queue_wait_ms].
  split; [exact M1|]. split; [exact M2|]. rewrite M3. exact Hw3.
Qed.

Lemma tick_waits (st : state C) : waits_ok st -> waits_ok (tick reqs sampler st).
Proof.
  intros (Hq & Hfl & Hw).
  destruct (body_waits arrived started_after_arrival (fun w => (0 <= w)%Q) st)
    as (B1 & B2 & B3).
  - intros r nid Hr. exact Hr.
  - apply wait_nonneg.
  - apply timeout_loop_queue; [reflexivity|].
    destruct (complete_frame (arrive reqs st)) as (-> & _).
    apply arrive_loop_arrived, Hq.
  - exact Hfl.
  - exact Hw.
  - split; [|split; [exact B2 | exact B3]].
    rewrite tick_now. eapply Forall_impl; [exact B1|].
    intros r Hr. unfold arrived in Hr |- *; rewrite fadd_eq. unfold dt. lra.
Qed.

Lemma ticks_waits k (st : state C) : waits_ok st -> waits_ok (ticks reqs sampler k st).
Proof.
  intros Hst. induction k as [|k IH]; [exact Hst|].
  rewrite ticks_S. apply tick_waits, IH.
Qed.

Lemma tick_timely (st : state C) :
  sorted_by_arrival reqs -> ledger reqs st ->
  waits_timely st -> waits_timely (tick reqs sampler st).
Proof.
  intros Hs Hl (Hfl & Hw).
  assert (Hb : ledger reqs (complete (arrive reqs st))).
  { apply complete_ledger, arrive_loop_ledger; [reflexivity | exact Hl]. }
  assert (Hnow : now (complete (arrive reqs st)) = now st).
  { destruct (complete_frame (arrive reqs st)) as (_ & _ & -> & _).
    unfold arrive.
    destruct (arrive_loop_frame (drop (idx st) reqs) st) as (_ & _ & -> & _).
    reflexivity. }
  destruct (expire_exact (complete (arrive reqs st))) as (gone & _ & _ & Hfresh & _).
  { destruct Hb as (-> & _). apply slice_sorted, Hs. }
  rewrite Hnow in Hfresh.
  destruct (body_waits (fun now0 r => ~ stale now0 r) started_in_time
              (fun w => (w <= 1200)%Q) st) as (_ & B2 & B3).
  - intros r nid Hr. unfold started_in_time, stale, stale_after in Hr |- *;
    cbn [Inflight.start_ts Inflight.req]. lra.
  - apply wait_in_time.
  - exact Hfresh.
  - exact Hfl.
  - exact Hw.
  - split; [exact B2 | exact B3].
Qed.

Lemma ticks_timely k (st : state C) :
  sorted_by_arrival reqs -> ledger reqs st ->
  waits_timely st -> waits_timely (ticks reqs sampler k st).
Proof.
  intros Hs Hl Hst. induction k as [|k IH]; [exact Hst|].
  rewrite ticks_S. apply tick_timely; [exact Hs | apply ticks_ledger, Hl | exact IH].
Qed.

Lemma percentile_within (P : float -> Prop) l p :
  P 0%Q -> Forall P l -> P (percentile l p).
Proof.
  intros H0 Hl. destruct l as [|x l]; [exact H0|].
  rewrite Forall_forall in Hl. apply Hl, percentile_member. discriminate.
Qed.

(** X21. In every state the tick loop of [run_simulation] reaches, on any
    input, no recorded queue wait is negative (a request is queued only
    once its arrival time has been reached, and started from the queue);
    for requests sorted by arrival no recorded wait exceeds the 1.2 s
    queue timeout (1200 ms), a request that has waited longer having been
    timed out before the admission phase.  The summary's
    [p95_queue_wait_ms] lies within the same bounds. *)
Theorem queue_waits_bounded (c : C) (ns : list NodeState.t) (k : nat) :
  let st := ticks reqs sampler k (init_state ns c) in
  Forall (fun w => (0 <= w)%Q) (queue_wait_ms st) /\
  (0 <= p95_queue_wait_ms st)%Q /\
  (sorted_by_arrival reqs ->
   Forall (fun w => (w <= 1200)%Q) (queue_wait_ms st) /\
   (p95_queue_wait_ms st <= 1200)%Q).
Proof.
  intros st.
  assert (Hw : waits_ok st).
  { apply ticks_waits. unfold waits_ok; simpl. repeat split; constructor. }
  destruct Hw as (_ & _ & Hw).
  split; [exact Hw|]. split.
  - apply (percentile_within (fun w => (0 <= w)%Q)); [lra | exact Hw].
  - intros Hs.
    assert (Ht : waits_timely st).
    { apply ticks_timely; [exact Hs | apply init_ledger|].
      unfold waits_timely; simpl. split; constructor. }
    destruct Ht as (_ & Ht). split; [exact Ht|].
    apply (percentile_within (fun w => (w <= 1200)%Q)); [lra | exact Ht].
Qed.

End RunReport.

Section RunReportExamples.
Import AbTestSimulator RunSpec Report.
Import Run.

Lemma queue_waits_bounded_witness :
  sorted_by_arrival crowd /\
  (p95_queue_wait_ms (ticks crowd first_three 300
                        (init_state [make_node 0] (AimdController.init 4 80 8)))
   <= 1200)%Q.
Proof.
  split; [exact crowd_sorted|].
  exact (proj2 (proj2 (proj2 (queue_waits_bounded crowd first_three
                   (AimdController.init 4 80 8) [make_node 0] 300))
                 crowd_sorted)).
Defined.

Lemma timeseries_accounts_witness :
  exists r,
    per_sec (ticks crowd first_three 60
               (init_state [make_node 0] (AimdController.init 4 80 8))) !! 0%nat
    = Some r /\
    PerSec.second r = 0.
Proof.
  eexists. split; [vm_compute; reflexivity|].
  apply (proj1 (timeseries_accounts crowd first_three (AimdController.init 4 80 8)
                  [make_node 0] 60) 0%nat).
  vm_compute. reflexivity.
Defined.

End RunReportExamples.

(** ** Generated workloads *)

Section WorkloadProperties.
Import AbTestSimulator RunSpec Workload.

Lemma insert_by_arrival_perm x l : insert_by_arrival x l ≡ₚ x :: l.
Proof.
  induction l as [|y l IH]; simpl; [reflexivity|].
  destruct (_ <=?. _); [reflexivity|].
  rewrite IH. apply Permutation_swap.
Qed.

Lemma sort_by_arrival_perm l : sort_by_arrival l ≡ₚ l.
Proof.
  induction l as [|x l IH]; simpl; [reflexivity|].
  unfold sort_by_arrival in IH |- *; simpl.
  rewrite insert_by_arrival_perm, IH. reflexivity.
Qed.

Lemma insert_by_arrival_sorted x l :
  StronglySorted earlier l -> StronglySorted earlier (insert_by_arrival x l).
Proof.
  induction 1 as [|y l Hl IH Hy]; simpl.
  - repeat constructor.
  - destruct (_ <=?. _) eqn:E; fcases.
    + constructor; [constructor; assumption|].
      constructor; [exact E|].
      eapply Forall_impl; [exact Hy|].
      intros z Hz. unfold earlier in Hz |- *; lra.
    + constructor; [exact IH|].
      rewrite insert_by_arrival_perm. constructor; [|exact Hy].
      unfold earlier. lra.
Qed.

Lemma sort_by_arrival_sorted l : StronglySorted earlier (sort_by_arrival l).
Proof.
  induction l as [|x l IH]; [constructor|].
  apply insert_by_arrival_sorted, IH.
Qed.

Lemma strongly_sorted_by_arrival l :
  StronglySorted earlier l -> sorted_by_arrival l.
Proof.
  induction 1 as [|x l Hl IH Hx]; intros i j a b Hij Ha Hb.
  - inversion Ha.
  - destruct i as [|i], j as [|j]; simpl in Ha, Hb; try lia.
    + inversion Ha; inversion Hb; subst. lra.
    + inversion Ha; subst. rewrite Forall_forall in Hx.
      apply Hx. eapply list_elem_of_lookup_2; exact Hb.
    + apply (IH i j); [lia | assumption | assumption].
Qed.

Lemma second_requests_ids r sec n :
  forall rid,
  map Request.req_id (second_requests r sec rid n) = map Z.of_nat (seq rid n).
Proof.
  induction n as [|n IH]; intros rid; simpl; [reflexivity|].
  rewrite IH. reflexivity.
Qed.

Lemma second_requests_length r sec n rid :
  length (second_requests r sec rid n) = n.
Proof.
  revert rid. induction n as [|n IH]; intros rid; simpl; [reflexivity|].
  rewrite IH. reflexivity.
Qed.

Lemma generate_loop_ids r secs :
  forall rid,
  map Request.req_id (generate_loop r secs rid)
  = map Z.of_nat (seq rid (length (generate_loop r secs rid))).
Proof.
  induction secs as [|sec secs IH]; intros rid; simpl; [reflexivity|].
  rewrite map_app, length_app, seq_app, map_app, second_requests_length.
  rewrite second_requests_ids, IH. reflexivity.
Qed.

Lemma arrivals_in_pos r sec : (1 <= arrivals_in r sec)%nat.
Proof. unfold arrivals_in. lia. Qed.

Lemma generate_loop_length r secs :
  forall rid, (length secs <= length (generate_loop r secs rid))%nat.
Proof.
  induction secs as [|sec secs IH]; intros rid; simpl; [lia|].
  rewrite length_app, second_requests_length.
  pose proof (arrivals_in_pos r sec). pose proof (IH (rid + arrivals_in r sec)%nat).
  lia.
Qed.

Lemma make_request_shaped r sec rid : well_shaped (make_request r sec rid).
Proof.
  unfold well_shaped, make_request; cbn [Request.stream_chunks
    Request.output_tokens Request.ttft_delay_sec Request.service_time_sec].
  split; [reflexivity|].
  match goal with |- (_ <= py_max ?a ?b)%Q => exact (py_max_l a b) end.
Qed.

(** [sec + random()] for a second below [2^53]. *)
Lemma add64_second sec u :
  0 <= sec < 2 ^ 53 -> (0 <= u <= 1)%Q ->
  (of_int sec <= add64 (of_int sec) u <= of_int sec + 1)%Q.
Proof.
  intros Hsec Hu. unfold add64, of_int.
  destruct (round64_between sec sec (inject_Z sec)) as [Hs0 Hs1];
    [lia | lia | lra |].
  destruct (round64_between 0 1 u) as [Hu0 Hu1]; [lia | lia | exact Hu |].
  change (inject_Z 0) with 0%Q in Hu0. change (inject_Z 1) with 1%Q in Hu1.
  destruct (round64_between sec (sec + 1) (round64 (inject_Z sec) + round64 u))
    as [Hr0 Hr1]; [lia | lia | |].
  { rewrite inject_Z_plus. change (inject_Z 1) with 1%Q. lra. }
  rewrite inject_Z_plus in Hr1. change (inject_Z 1) with 1%Q in Hr1.
  split; assumption.
Qed.

Lemma make_request_arrival r sec rid :
  rng_ok r -> 0 <= sec < 2 ^ 53 -> arrives_in sec (make_request r sec rid).
Proof.
  intros [Hrand _] Hsec. unfold arrives_in, make_request; cbn [Request.arrival_ts].
  apply add64_second; [exact Hsec|].
  destruct (Hrand rid 0%nat) as [H0 H1]. lra.
Qed.

Lemma make_request_ranges r sec rid duration_sec :
  rng_ok r -> 0 <= sec < duration_sec -> duration_sec <= 2 ^ 53 ->
  in_ranges duration_sec (make_request r sec rid).
Proof.
  intros [Hrand Hint] Hsec Hdur.
  assert (Hin : 40 <= Request.input_tokens (make_request r sec rid) <= 1100 /\
                80 <= Request.output_tokens (make_request r sec rid) <= 2600).
  { unfold make_request; cbn [Request.input_tokens Request.output_tokens].
    destruct (_ <?. (1 # 2)); [|destruct (_ <?. (85 # 100))]; cbn [fst snd].
    all: match goal with
         | |- _ <= ?x <= _ /\ _ <= ?y <= _ =>
             match x with randint _ _ _ ?a ?b =>
             match y with randint _ _ _ ?c ?d =>
               assert (Ha : a <= b) by lia; assert (Hc : c <= d) by lia;
               pose proof (Hint rid 0%nat a b Ha) as H1;
               pose proof (Hint rid 1%nat c d Hc) as H2;
               revert H1 H2; generalize x, y; intros x' y' H1 H2; lia
             end end
         end. }
  destruct Hin as [Hi Ho].
  assert (Hch : 4 <= Request.stream_chunks (make_request r sec rid) <= 81).
  { destruct (make_request_shaped r sec rid) as [-> _].
    pose proof (Z.div_le_mono (Request.output_tokens (make_request r sec rid))
                  2600 32 eq_refl (proj2 Ho)) as Hd.
    change (2600 / 32) with 81 in Hd.
    revert Hd. generalize (Request.output_tokens (make_request r sec rid) / 32).
    intros z Hz. lia. }
  split; [|split; [exact Hi|split; [exact Ho|split; [exact Hch|]]]].
  - destruct (make_request_arrival r sec rid (conj Hrand Hint)) as [Ha0 Ha1];
      [lia|].
    assert (Hs0 : (of_int 0 <= of_int sec)%Q) by (apply of_int_le; lia).
    assert (Hs1 : (of_int (sec + 1) <= of_int duration_sec)%Q)
      by (apply of_int_le; lia).
    unfold of_int in Hs0, Hs1, Ha0, Ha1 |- *; rewrite inject_Z_plus in Hs1.
    change (inject_Z 0) with 0%Q in Hs0. change (inject_Z 1) with 1%Q in Hs1.
    lra.
  - revert Hch. unfold make_request; cbn [Request.stream_chunks
      Request.ttft_delay_sec].
    set (chunks := Z.max 4 _). intros Hch.
    destruct (Hrand rid 2%nat) as [H0 H1].
    pose proof (py_min_l (22 # 100) (of_int chunks *. (22 # 10000))) as Hl.
    assert (Hc : (0 <= of_int chunks *. (22 # 10000))%Q).
    { rewrite fmul_eq.
      assert (Hc0 : (of_int 0 <= of_int chunks)%Q) by (apply of_int_le; lia).
      change (of_int 0) with 0%Q in Hc0. lra. }
    assert (Hg : (0 <= py_min (22 # 100) (of_int chunks *. (22 # 10000)))%Q)
      by (apply py_min_glb; [lra | exact Hc]).
    revert Hl Hg. generalize (py_min (22 # 100) (of_int chunks *. (22 # 10000))).
    intros m Hl Hg. fnorm. lra.
Qed.

Lemma second_requests_all (P : Request.t -> Prop) r sec n :
  (forall rid, P (make_request r sec rid)) ->
  forall rid, Forall P (second_requests r sec rid n).
Proof.
  intros HP. induction n as [|n IH]; intros rid; simpl; constructor;
    [apply HP | apply IH].
Qed.

Lemma generate_loop_all (P : Request.t -> Prop) r secs :
  (forall sec rid, sec ∈ secs -> P (make_request r sec rid)) ->
  forall rid, Forall P (generate_loop r secs rid).
Proof.
  induction secs as [|sec secs IH]; intros HP rid; simpl; [constructor|].
  apply Forall_app. split.
  - apply second_requests_all. intros rid'. apply HP. apply elem_of_cons. auto.
  - apply IH. intros sec' rid' Hin. apply HP. apply elem_of_cons. auto.
Qed.

(** The requests come in one group per second, none of them empty. *)
Lemma generate_loop_groups r secs :
  forall rid, exists groups,
    generate_loop r secs rid = concat groups /\
    length groups = length secs /\
    forall i g sec, groups !! i = Some g -> secs !! i = Some sec ->
      g <> [] /\ Forall (fun q => exists rid', q = make_request r sec rid') g.
Proof.
  induction secs as [|sec secs IH]; intros rid.
  - exists []. split; [reflexivity|]. split; [reflexivity|].
    intros i g sec Hg. rewrite lookup_nil in Hg. discriminate Hg.
  - destruct (IH (rid + arrivals_in r sec)%nat) as (groups & Hcat & Hlen & Hall).
    exists (second_requests r sec rid (arrivals_in r sec) :: groups).
    split; [simpl; rewrite Hcat; reflexivity|]. split; [simpl; rewrite Hlen; reflexivity|].
    intros [|i] g sec' Hg Hsec; simpl in Hg, Hsec.
    + inversion Hg; inversion Hsec; subst. split.
      * pose proof (arrivals_in_pos r sec') as Hpos.
        destruct (arrivals_in r sec'); [lia|]. discriminate.
      * apply second_requests_all. intros rid'. exists rid'. reflexivity.
    + exact (Hall i g sec' Hg Hsec).
Qed.

(** X22. Whatever the random draws, [generate_requests] returns a
    workload that meets the input contract of [run_simulation]: sorted by
    arrival time, with the request ids [0 .. len-1] each used once; every
    request has [stream_chunks = max(4, output_tokens // 32)] and
    [service_time_sec >= ttft_delay_sec + 0.02], the sum as binary64
    computes it; and the
    workload is a rearrangement of [duration_sec] groups of requests, one
    per second, none of them empty.  For draws in the ranges the random
    module guarantees and [duration_sec <= 2^53], the requests of the
    group of second [s] arrive in [s, s + 1] (the binary64 sum
    [s + random()] can be [s + 1]), so that arrivals lie in
    [0, duration_sec]; input tokens lie in [40, 1100], output tokens in
    [80, 2600], chunks in [4, 81] and the first-token delay in
    [0.035, 0.28] seconds. *)
Theorem generated_workload (r : rng) (duration_sec : Z) :
  let reqs := generate_requests r duration_sec in
  sorted_by_arrival reqs /\
  map Request.req_id reqs ≡ₚ map Z.of_nat (seq 0 (length reqs)) /\
  NoDup (map Request.req_id reqs) /\
  Forall well_shaped reqs /\
  exists groups,
    reqs ≡ₚ concat groups /\
    length groups = Z.to_nat duration_sec /\
    (forall i g, groups !! i = Some g -> g <> []) /\
    (rng_ok r -> duration_sec <= 2 ^ 53 ->
     (forall i g, groups !! i = Some g -> Forall (arrives_in (Z.of_nat i)) g) /\
     Forall (in_ranges duration_sec) reqs).
Proof.
  intros reqs. subst reqs. unfold generate_requests.
  set (raw := generate_loop r (seqZ 0 duration_sec) 0).
  pose proof (sort_by_arrival_perm raw) as Hperm.
  assert (Hlen : length (sort_by_arrival raw) = length raw)
    by (apply Permutation_length, Hperm).
  assert (Hids : map Request.req_id (sort_by_arrival raw)
                 ≡ₚ map Z.of_nat (seq 0 (length (sort_by_arrival raw)))).
  { rewrite Hlen. unfold raw at 2. rewrite <- generate_loop_ids. fold raw.
    apply Permutation_map, Hperm. }
  split; [apply strongly_sorted_by_arrival, sort_by_arrival_sorted|].
  split; [exact Hids|]. split; [|split].
  - rewrite Hids. apply NoDup_fmap_2; [apply Nat2Z.inj' | apply NoDup_seq].
  - rewrite Hperm. apply generate_loop_all. intros sec rid _.
    apply make_request_shaped.
  - destruct (generate_loop_groups r (seqZ 0 duration_sec) 0)
      as (groups & Hcat & Hgl & Hall).
    fold raw in Hcat. rewrite length_seqZ in Hgl.
    exists groups. split; [rewrite Hperm, Hcat; reflexivity|].
    split; [exact Hgl|]. split.
    + intros i g Hg.
      assert (Hi : (i < Z.to_nat duration_sec)%nat)
        by (rewrite <- Hgl; eapply lookup_lt_Some; exact Hg).
      assert (Hsec : seqZ 0 duration_sec !! i = Some (0 + Z.of_nat i))
        by (apply lookup_seqZ; split; [reflexivity|lia]).
      exact (proj1 (Hall i g _ Hg Hsec)).
    + intros Hr Hdur. split.
      * intros i g Hg.
        assert (Hi : (i < Z.to_nat duration_sec)%nat)
          by (rewrite <- Hgl; eapply lookup_lt_Some; exact Hg).
        assert (Hsec : seqZ 0 duration_sec !! i = Some (0 + Z.of_nat i))
          by (apply lookup_seqZ; split; [reflexivity|lia]).
        destruct (Hall i g _ Hg Hsec) as [_ Hg'].
        eapply Forall_impl; [exact Hg'|].
        intros q [rid' ->]. simpl.
        apply make_request_arrival; [exact Hr|lia].
      * rewrite Hperm. apply generate_loop_all. intros sec rid Hin.
        apply elem_of_seqZ in Hin.
        apply make_request_ranges; [exact Hr | lia | exact Hdur].
Qed.

Lemma generated_workload_witness :
  rng_ok steady /\ 3 <= 2 ^ 53 /\
  Forall (in_ranges 3) (generate_requests steady 3).
Proof.
  assert (Hr : rng_ok steady).
  { split; [intros i k; simpl; lra | intros i k a b Hab; simpl; lia]. }
  assert (Hd : 3 <= 2 ^ 53) by (vm_compute; discriminate).
  split; [exact Hr|]. split; [exact Hd|].
  destruct (proj2 (proj2 (proj2 (proj2 (generated_workload steady 3)))))
    as (groups & _ & _ & _ & Hin).
  exact (proj2 (Hin Hr Hd)).
Defined.

(** The upper end of [s, s + 1] is reached: with a draw of [1 - 2^-53]
    the request generated in second 1 arrives at 2. *)
Lemma arrival_rounds_up :
  rng_ok late /\ Request.arrival_ts (make_request late 1 0) = 2%Q.
Proof.
  split; [|vm_compute; reflexivity].
  split; [intros i k; simpl; split; [discriminate|reflexivity]
         | intros i k a b Hab; simpl; lia].
Qed.

End WorkloadProperties.

(** ** Seats are conserved *)

Section SeatProperties.
Import AbTestSimulator RunSpec Seats.
Import Run.
Context {C : Type} `{Controller C}.
Variable reqs : list Request.t.
Variable sampler : nat -> list nat.
Hypothesis reqs_ids : NoDup (map Request.req_id reqs).

Lemma on_node_nonneg i l : 0 <= on_node i l.
Proof.
  induction l as [|f l IH]; simpl; [lia|].
  destruct (Nat.eqb _ _); lia.
Qed.

Lemma on_node_app i l1 l2 : on_node i (l1 ++ l2) = on_node i l1 + on_node i l2.
Proof.
  induction l1 as [|f l1 IH]; simpl; [lia|]. rewrite IH. lia.
Qed.

Lemma on_node_split (P : Inflight.t -> bool) i l :
  on_node i l
  = on_node i (List.filter P l) + on_node i (List.filter (fun x => negb (P x)) l).
Proof.
  induction l as [|f l IH]; simpl; [lia|].
  destruct (P f); simpl; rewrite IH; lia.
Qed.

Lemma inflight_at_cons n ns i : inflight_at (n :: ns) (S i) = inflight_at ns i.
Proof. reflexivity. Qed.

Lemma inflight_at_alter_finish j ns i :
  inflight_at (alter NodeState.finish j ns) i
  = inflight_at ns i
    - (if Nat.eqb j i then (if 0 <? inflight_at ns j then 1 else 0) else 0).
Proof.
  unfold inflight_at. destruct (Nat.eqb j i) eqn:E.
  - apply Nat.eqb_eq in E. subst i.
    destruct (ns !! j) as [n|] eqn:Hj.
    + rewrite list_lookup_alter_eq, Hj. simpl.
      unfold NodeState.finish. destruct (0 <? NodeState.inflight n); simpl; lia.
    + rewrite list_lookup_alter_eq, Hj. simpl. lia.
  - apply Nat.eqb_neq in E. rewrite list_lookup_alter_ne by exact E. lia.
Qed.

Lemma total_alter_finish_exact j ns :
  total_inflight (alter NodeState.finish j ns)
  = total_inflight ns - (if 0 <? inflight_at ns j then 1 else 0).
Proof.
  revert j. induction ns as [|n ns IH]; intros j; [reflexivity|].
  destruct j as [|j].
  - unfold inflight_at. cbn [alter list_alter lookup list_lookup total_inflight
      foldr from_option].
    unfold NodeState.finish.
    destruct (0 <? NodeState.inflight n); cbn [NodeState.inflight]; lia.
  - rewrite inflight_at_cons. specialize (IH j).
    change (alter NodeState.finish (S j) (n :: ns))
      with (n :: alter NodeState.finish j ns).
    change (total_inflight (n :: alter NodeState.finish j ns))
      with (NodeState.inflight n + total_inflight (alter NodeState.finish j ns)).
    change (total_inflight (n :: ns))
      with (NodeState.inflight n + total_inflight ns).
    rewrite IH. lia.
Qed.

Lemma inflight_at_insert j m ns i n :
  ns !! j = Some n ->
  inflight_at (<[j := m]> ns) i
  = if Nat.eqb j i then NodeState.inflight m else inflight_at ns i.
Proof.
  intros Hj. unfold inflight_at. destruct (Nat.eqb j i) eqn:E.
  - apply Nat.eqb_eq in E. subst i.
    rewrite list_lookup_insert_eq by (eapply lookup_lt_Some; exact Hj).
    reflexivity.
  - apply Nat.eqb_neq in E. rewrite list_lookup_insert_ne by exact E.
    reflexivity.
Qed.

Lemma ids_alter_finish j ns :
  ids_are_positions ns -> ids_are_positions (alter NodeState.finish j ns).
Proof.
  intros Hns i n Hi. destruct (decide (j = i)) as [->|Hne].
  - rewrite list_lookup_alter_eq in Hi.
    destruct (ns !! i) as [m|] eqn:Hm; [|discriminate Hi].
    simpl in Hi. inversion Hi; subst.
    rewrite <- (Hns i m Hm). unfold NodeState.finish.
    destruct (0 <? _); reflexivity.
  - rewrite list_lookup_alter_ne in Hi by exact Hne. apply Hns, Hi.
Qed.

Lemma ids_insert j m ns :
  ids_are_positions ns -> NodeState.node_id m = j ->
  ids_are_positions (<[j := m]> ns).
Proof.
  intros Hns Hm i n Hi. destruct (decide (j = i)) as [->|Hne].
  - destruct (decide (i < length ns)%nat) as [Hlt|Hge].
    + rewrite list_lookup_insert_eq in Hi by exact Hlt. inversion Hi; subst.
      reflexivity.
    + rewrite list_insert_ge in Hi by lia. apply Hns, Hi.
  - rewrite list_lookup_insert_ne in Hi by exact Hne. apply Hns, Hi.
Qed.

(** *** Completions *)

Lemma finish_all_ids done :
  forall ns, ids_are_positions ns -> ids_are_positions (finish_all ns done).
Proof.
  induction done as [|c done IH]; intros ns Hns; [exact Hns|].
  apply (IH (alter NodeState.finish (Inflight.node_id c) ns)).
  apply ids_alter_finish, Hns.
Qed.

Lemma finish_all_count done :
  forall ns,
  (forall i, on_node i done <= inflight_at ns i) ->
  forall i, inflight_at (finish_all ns done) i = inflight_at ns i - on_node i done.
Proof.
  induction done as [|c done IH]; intros ns Hle i; [simpl; lia|].
  change (finish_all ns (c :: done))
    with (finish_all (alter NodeState.finish (Inflight.node_id c) ns) done).
  assert (Hpos : 0 < inflight_at ns (Inflight.node_id c)).
  { specialize (Hle (Inflight.node_id c)). simpl in Hle.
    rewrite Nat.eqb_refl in Hle.
    pose proof (on_node_nonneg (Inflight.node_id c) done). lia. }
  apply Z.ltb_lt in Hpos.
  rewrite IH.
  - rewrite inflight_at_alter_finish, Hpos. simpl.
    destruct (Nat.eqb _ _); lia.
  - intros j. rewrite inflight_at_alter_finish, Hpos.
    specialize (Hle j). simpl in Hle. destruct (Nat.eqb _ _); lia.
Qed.

Lemma complete_all_finish l :
  forall st : state C,
  nodes (foldl complete_one st l) = finish_all (nodes st) l.
Proof.
  induction l as [|c l IH]; intros st; [reflexivity|].
  change (foldl complete_one st (c :: l))
    with (foldl complete_one (complete_one st c) l).
  rewrite IH. reflexivity.
Qed.

Lemma nodup_same_key {A} (g : A -> Z) (l : list A) x y :
  NoDup (map g l) -> x ∈ l -> y ∈ l -> g x = g y -> x = y.
Proof.
  induction l as [|a l IH]; intros Hnd Hx Hy Hg; [inversion Hx|].
  simpl in Hnd. apply NoDup_cons in Hnd as [Ha Hnd].
  apply elem_of_cons in Hx as [->|Hx]; apply elem_of_cons in Hy as [->|Hy].
  - reflexivity.
  - exfalso. apply Ha. rewrite Hg. apply list_elem_of_fmap. exists y. auto.
  - exfalso. apply Ha. rewrite <- Hg. apply list_elem_of_fmap. exists x. auto.
  - apply IH; assumption.
Qed.

Lemma nodup_filter {A} (g : A -> Z) (P : A -> bool) (l : list A) :
  NoDup (map g l) -> NoDup (map g (List.filter P l)).
Proof.
  induction l as [|a l IH]; intros Hnd; simpl; [constructor|].
  simpl in Hnd. apply NoDup_cons in Hnd as [Ha Hnd].
  destruct (P a); [|apply IH, Hnd].
  simpl. apply NoDup_cons. split; [|apply IH, Hnd].
  intros Hin. apply Ha. apply list_elem_of_fmap in Hin as (y & Hy & Hin).
  apply list_elem_of_fmap. exists y. split; [exact Hy|].
  apply list_elem_of_In in Hin. apply filter_In in Hin as [Hin _].
  apply list_elem_of_In, Hin.
Qed.

Lemma filter_none {A} (P : A -> bool) (l : list A) :
  List.filter P l = [] -> List.filter (fun x => negb (P x)) l = l.
Proof.
  induction l as [|a l IH]; simpl; [reflexivity|].
  destruct (P a); [discriminate|]. simpl. intros Hf. rewrite IH by exact Hf.
  reflexivity.
Qed.

(** With distinct request ids the flights kept by [complete] are those
    that have not finished. *)
Lemma complete_flights (st : state C) :
  NoDup (map flight_id (inflight st)) ->
  let done := List.filter (fun x => Inflight.finish_ts x <=?. now st) (inflight st) in
  nodes (complete st) = finish_all (nodes st) done /\
  inflight (complete st)
  = List.filter (fun x => negb (Inflight.finish_ts x <=?. now st)) (inflight st).
Proof.
  intros Hnd done. unfold complete. fold done.
  destruct done as [|c l] eqn:Hd.
  - split; [reflexivity|]. symmetry. apply filter_none. exact Hd.
  - cbn [nodes inflight]. rewrite <- Hd. split; [apply complete_all_finish|].
    apply filter_ext_in. intros x Hx. f_equal.
    destruct (Inflight.finish_ts x <=?. now st) eqn:E.
    + apply bool_decide_eq_true. apply list_elem_of_fmap.
      exists x. split; [reflexivity|].
      apply list_elem_of_In. unfold done. apply filter_In. split; assumption.
    + apply bool_decide_eq_false. intros Hin.
      apply list_elem_of_fmap in Hin as (y & Hy & Hin).
      apply list_elem_of_In in Hin. unfold done in Hin.
      apply filter_In in Hin as [Hin Hfin].
      assert (x = y).
      { apply (nodup_same_key flight_id (inflight st)); try assumption;
          apply list_elem_of_In; assumption. }
      subst y. congruence.
Qed.

Lemma complete_match (st : state C) :
  seats_match reqs st -> seats_match reqs (complete st).
Proof.
  intros (Hids & Hcount & Hnd & Hdep).
  destruct (complete_flights st Hnd) as [Hn Hf].
  destruct (complete_frame st) as (_ & _ & _ & Ha & Hr & _).
  unfold seats_match, departed. rewrite Hn, Hf, Ha, Hr.
  assert (Hs : forall i,
             on_node i (inflight st)
             = on_node i (List.filter
                            (fun x => Inflight.finish_ts x <=?. now st) (inflight st))
               + on_node i (List.filter
                              (fun x => negb (Inflight.finish_ts x <=?. now st))
                              (inflight st))).
  { intros i.
    exact (on_node_split (fun x => Inflight.finish_ts x <=?. now st) i (inflight st)). }
  split; [apply finish_all_ids, Hids|]. split; [|split].
  - intros i. rewrite finish_all_count.
    + rewrite Hcount, (Hs i). lia.
    + intros j. rewrite Hcount, (Hs j).
      pose proof (on_node_nonneg j
        (List.filter (fun x => negb (Inflight.finish_ts x <=?. now st))
           (inflight st))).
      lia.
  - apply nodup_filter, Hnd.
  - apply Forall_forall. intros f Hin. rewrite Forall_forall in Hdep.
    apply Hdep. apply list_elem_of_In in Hin. apply filter_In in Hin as [Hin _].
    apply list_elem_of_In, Hin.
Qed.

(** *** Requests that have left the queue *)

Lemma take_grows {A} (l : list A) n m x : (n <= m)%nat -> x ∈ take n l -> x ∈ take m l.
Proof.
  intros Hnm Hx. apply list_elem_of_lookup in Hx as [i Hi].
  apply lookup_take_Some in Hi as [Hi Hlt].
  apply list_elem_of_lookup. exists i. apply lookup_take_Some. split; [exact Hi|lia].
Qed.

Lemma departed_flights (l : list Inflight.t) n m :
  (n <= m)%nat ->
  Forall (fun f => Inflight.req f ∈ take n reqs) l ->
  Forall (fun f => Inflight.req f ∈ take m reqs) l.
Proof.
  intros Hnm Hl. eapply Forall_impl; [exact Hl|].
  intros f. apply take_grows, Hnm.
Qed.

Lemma expire_match (st : state C) :
  ledger reqs st -> seats_match reqs st -> seats_match reqs (expire st).
Proof.
  intros Hl (Hids & Hcount & Hnd & Hdep). unfold expire.
  destruct (timeout_loop_frame (queue st) st) as (Hn & _ & _ & _ & Ha).
  destruct (timeout_loop_other (queue st) st) as [Hf _].
  destruct (timeout_loop_exact (queue st) st eq_refl) as (gone & _ & _ & Hr & _).
  unfold seats_match. rewrite Hn, Hf.
  split; [exact Hids|]. split; [exact Hcount|]. split; [exact Hnd|].
  eapply departed_flights; [|exact Hdep].
  unfold departed. rewrite Ha, Hr.
  destruct Hl as (_ & _ & Hacc & Hrej & _). lia.
Qed.

(** *** Admissions *)

Lemma refill_id n now0 :
  NodeState.node_id (NodeState.refill n now0) = NodeState.node_id n.
Proof. unfold NodeState.refill. destruct (_ <=?. 0); reflexivity. Qed.

Lemma try_nodes_count now0 tokens cap sample :
  forall ns fr ns' res fr',
  try_nodes now0 tokens cap sample ns fr = (ns', res, fr') ->
  ids_are_positions ns ->
  ids_are_positions ns' /\
  forall i, inflight_at ns' i
            = inflight_at ns i
              + match res with
                | Some nid => if Nat.eqb nid i then 1 else 0
                | None => 0
                end.
Proof.
  induction sample as [|j rest IH]; intros ns fr ns' res fr' Htry Hns;
    simpl in Htry.
  - inversion Htry; subst. split; [exact Hns|]. intros i. lia.
  - destruct (ns !! j) as [n|] eqn:Hj; [|eapply IH; eassumption].
    destruct (NodeState.can_start n now0 tokens cap) as [n' [ok reason]] eqn:Hcs.
    destruct (can_start_seats _ _ _ _ _ _ _ Hcs) as (Hinf & _ & _).
    assert (Hid : NodeState.node_id n' = j).
    { pose proof (can_start_state n now0 tokens cap) as Hst.
      rewrite Hcs in Hst. simpl in Hst. rewrite Hst, refill_id.
      apply Hns, Hj. }
    destruct ok.
    + injection Htry as <- <- <-. rewrite Hid. split.
      * apply ids_insert; [exact Hns | exact Hid].
      * intros i. rewrite (inflight_at_insert _ _ _ _ _ Hj).
        destruct (Nat.eqb j i) eqn:E; [|lia].
        apply Nat.eqb_eq in E. subst i. unfold inflight_at. rewrite Hj.
        cbn [from_option NodeState.start NodeState.inflight]. lia.
    + destruct (IH _ _ _ _ _ Htry) as [H1 H2].
      * apply ids_insert; [exact Hns | exact Hid].
      * split; [exact H1|]. intros i. rewrite H2.
        rewrite (inflight_at_insert _ _ _ _ _ Hj).
        destruct (Nat.eqb j i) eqn:E; [|reflexivity].
        apply Nat.eqb_eq in E. subst i. unfold inflight_at. rewrite Hj. simpl.
        lia.
Qed.

Lemma fresh_id (l : list Request.t) d r :
  NoDup (map Request.req_id l) -> l !! d = Some r ->
  forall x, x ∈ take d l -> Request.req_id x <> Request.req_id r.
Proof.
  intros Hnd Hr x Hx Heq.
  apply list_elem_of_lookup in Hx as [i Hi].
  apply lookup_take_Some in Hi as [Hi Hlt].
  assert (Hi' : map Request.req_id l !! i = Some (Request.req_id x))
    by (rewrite list_lookup_fmap, Hi; reflexivity).
  assert (Hd' : map Request.req_id l !! d = Some (Request.req_id r))
    by (rewrite list_lookup_fmap, Hr; reflexivity).
  rewrite Heq in Hi'.
  pose proof (NoDup_lookup _ _ _ _ Hnd Hi' Hd'). lia.
Qed.

Lemma admit_loop_match cap q :
  forall t (st : state C),
  q = queue st -> ledger reqs st -> seats_match reqs st ->
  seats_match reqs (admit_loop sampler cap t q st).
Proof.
  induction q as [|r q IH]; intros t st Hq Hl Hm; simpl; [exact Hm|].
  destruct (t <? cap); [|exact Hm].
  destruct (try_nodes _ _ _ _ _ _) as [[ns res] fr] eqn:Htry.
  destruct Hm as (Hids & Hcount & Hnd & Hdep).
  destruct (try_nodes_count _ _ _ _ _ _ _ _ _ Htry Hids) as [Hids' Hcount'].
  destruct res as [nid|].
  - destruct Hl as (Hsl & Hd & Ha & Hrj & Hrr).
    rewrite <- Hq in Hsl. symmetry in Hsl.
    destruct (slice_pop _ _ _ _ _ Hsl) as [Hrest Hle].
    destruct (drop_head _ _ _ _ Hsl) as [Hr _].
    apply lookup_take_Some in Hr as [Hr _].
    assert (Hdep' : Z.to_nat (accepted st + 1 + rejected st) = S (departed st))
      by (unfold departed; lia).
    match goal with |- context [admit_loop _ _ ?t' q ?s] => apply (IH t' s) end.
    + reflexivity.
    + unfold ledger, departed in Hrest, Hle |- *; cbn [queue idx accepted rejected
        rejected_reason].
      rewrite Hdep'. split; [exact Hrest|]. split; [exact Hle|]. split; [lia|].
      split; [exact Hrj | exact Hrr].
    + unfold seats_match, departed; cbn [nodes inflight accepted rejected].
      rewrite Hdep'.
      split; [exact Hids'|]. split; [|split].
      * intros i. rewrite Hcount', Hcount, on_node_app. simpl. lia.
      * rewrite map_app. apply NoDup_app. split; [exact Hnd|]. split.
        -- intros x Hx Hx'. simpl in Hx'. apply list_elem_of_singleton in Hx'.
           apply list_elem_of_fmap in Hx as (f & Hf & Hin).
           rewrite Forall_forall in Hdep.
           apply (fresh_id reqs (departed st) r reqs_ids Hr (Inflight.req f));
             [apply Hdep, Hin|].
           unfold flight_id in Hf, Hx'. simpl in Hx'. congruence.
        -- simpl. apply NoDup_singleton.
      * apply Forall_app. split.
        -- eapply departed_flights; [|exact Hdep]. lia.
        -- constructor; [|constructor]. cbn [Inflight.req].
           apply list_elem_of_lookup. exists (departed st).
           apply lookup_take_Some. split; [exact Hr | lia].
  - unfold seats_match, departed; cbn [nodes inflight accepted rejected].
    split; [exact Hids'|]. split; [|split; assumption].
    intros i. rewrite Hcount', Hcount. lia.
Qed.

(** *** One tick *)

Lemma tick_match (st : state C) :
  ledger reqs st -> seats_match reqs st -> seats_match reqs (tick reqs sampler st).
Proof.
  intros Hl Hm.
  assert (L1 : ledger reqs (arrive reqs st))
    by (apply arrive_loop_ledger; [reflexivity | exact Hl]).
  assert (M1 : seats_match reqs (arrive reqs st)).
  { unfold arrive.
    destruct (arrive_loop_frame (drop (idx st) reqs) st)
      as (Hn & _ & _ & Ha & Hr & _).
    destruct (arrive_loop_other (drop (idx st) reqs) st) as [Hf _].
    unfold seats_match, departed. rewrite Hn, Hf, Ha, Hr. exact Hm. }
  assert (L2 : ledger reqs (complete (arrive reqs st))) by (apply complete_ledger, L1).
  assert (M2 : seats_match reqs (complete (arrive reqs st)))
    by (apply complete_match, M1).
  assert (L3 : ledger reqs (expire (complete (arrive reqs st))))
    by (apply timeout_loop_ledger; [reflexivity | exact L2]).
  assert (M3 : seats_match reqs (expire (complete (arrive reqs st))))
    by (apply expire_match; assumption).
  assert (M4 : seats_match reqs
                 (admission sampler (expire (complete (arrive reqs st)))))
    by (apply admit_loop_match; [reflexivity | exact L3 | exact M3]).
  rewrite tick_phases.
  set (st4 := admission sampler (expire (complete (arrive reqs st)))) in M4 |- *;
    cbv beta.
  unfold seats_match, departed, advance, rollover;
    cbn [nodes inflight accepted rejected].
  match goal with |- context [rollover_loop ?f ?s] =>
    destruct (rollover_loop_frame f s) as (-> & _ & _ & _ & -> & -> & _);
    destruct (rollover_loop_other f s) as [-> _] end.
  exact M4.
Qed.

Lemma ticks_match k (st : state C) :
  ledger reqs st -> seats_match reqs st -> seats_match reqs (ticks reqs sampler k st).
Proof.
  intros Hl Hm. induction k as [|k IH]; [exact Hm|].
  rewrite ticks_S. apply tick_match; [apply ticks_ledger, Hl | exact IH].
Qed.

(** *** The sum of the counters *)

Lemma no_seats_taken ns :
  (forall i, inflight_at ns i = 0) -> total_inflight ns = 0.
Proof.
  induction ns as [|n ns IH]; intros H0; [reflexivity|].
  change (total_inflight (n :: ns)) with (NodeState.inflight n + total_inflight ns).
  rewrite IH.
  - pose proof (H0 0%nat) as Hn. unfold inflight_at in Hn. simpl in Hn. lia.
  - intros i. exact (H0 (S i)).
Qed.

Lemma seats_sum l :
  forall ns, (forall i, inflight_at ns i = on_node i l) ->
  total_inflight ns = Z.of_nat (length l).
Proof.
  induction l as [|f l IH]; intros ns Hns; [apply no_seats_taken, Hns|].
  set (j := Inflight.node_id f).
  assert (Hpos : 0 < inflight_at ns j).
  { rewrite Hns. simpl. fold j. rewrite Nat.eqb_refl.
    pose proof (on_node_nonneg j l). lia. }
  apply Z.ltb_lt in Hpos.
  pose proof (total_alter_finish_exact j ns) as Ht. rewrite Hpos in Ht.
  rewrite (IH (alter NodeState.finish j ns)) in Ht.
  - change (length (f :: l)) with (S (length l)). lia.
  - intros i. rewrite inflight_at_alter_finish, Hpos, Hns. simpl. fold j.
    destruct (Nat.eqb j i); lia.
Qed.

Lemma init_match ns (c : C) :
  ids_are_positions ns -> Forall fresh_node ns ->
  seats_match reqs (init_state ns c).
Proof.
  intros Hids Hfresh. unfold seats_match; cbn [init_state nodes inflight].
  split; [exact Hids|]. split; [|split; constructor].
  intros i. simpl. unfold inflight_at.
  destruct (ns !! i) as [n|] eqn:Hi; [|reflexivity]. simpl.
  rewrite Forall_forall in Hfresh.
  apply (Hfresh n). eapply list_elem_of_lookup_2; exact Hi.
Qed.

(** X23. Seats are conserved.  For requests with distinct ids and nodes
    whose [node_id] is their position in the list (as every node factory
    of the repository builds them), starting with nothing in flight: in
    every state the tick loop of [run_simulation] reaches, each node's
    [inflight] counter is the number of entries of the in-flight list
    that run on it, so [sum(n.inflight for n in nodes)], which
    [peak_concurrency] records, is the length of the in-flight list; every
    entry's [node_id] indexes an existing node, so
    [nodes[c.node_id].finish()] never fails and always releases a seat;
    and no two entries carry the same request id. *)
Theorem seats_conserved (c : C) (ns : list NodeState.t) (k : nat) :
  ids_are_positions ns -> Forall fresh_node ns ->
  let st := ticks reqs sampler k (init_state ns c) in
  (forall i, inflight_at (nodes st) i = on_node i (inflight st)) /\
  total_inflight (nodes st) = Z.of_nat (length (inflight st)) /\
  Forall (fun f => (Inflight.node_id f < length (nodes st))%nat /\
                   0 < inflight_at (nodes st) (Inflight.node_id f))
         (inflight st) /\
  NoDup (map flight_id (inflight st)).
Proof.
  intros Hids Hfresh st.
  assert (Hm : seats_match reqs st).
  { apply ticks_match; [apply init_ledger | apply init_match; assumption]. }
  destruct Hm as (_ & Hcount & Hnd & _).
  split; [exact Hcount|]. split; [apply seats_sum, Hcount|].
  split; [|exact Hnd].
  apply Forall_forall. intros f Hin.
  assert (Hpos : 0 < inflight_at (nodes st) (Inflight.node_id f)).
  { rewrite Hcount. apply list_elem_of_In in Hin.
    clear -Hin reqs_ids. induction (inflight st) as [|g l IH]; [inversion Hin|].
    simpl. pose proof (on_node_nonneg (Inflight.node_id f) l).
    destruct Hin as [->|Hin].
    - rewrite Nat.eqb_refl. lia.
    - specialize (IH Hin). destruct (Nat.eqb _ _); lia. }
  split; [|exact Hpos].
  unfold inflight_at in Hpos.
  destruct (nodes st !! Inflight.node_id f) as [n|] eqn:Hn; [|simpl in Hpos; lia].
  eapply lookup_lt_Some; exact Hn.
Qed.

End SeatProperties.

Section SeatExamples.
Import AbTestSimulator RunSpec Seats.
Import Run.

Lemma seats_conserved_witness :
  NoDup (map Request.req_id crowd) /\ ids_are_positions make_nodes /\
  Forall fresh_node make_nodes /\
  total_inflight (nodes (ticks crowd first_three 40
                           (init_state make_nodes (AimdController.init 4 80 8))))
  = Z.of_nat (length (inflight (ticks crowd first_three 40
                           (init_state make_nodes (AimdController.init 4 80 8))))).
Proof.
  assert (Hnd : NoDup (map Request.req_id crowd)).
  { apply (bool_decide_unpack (NoDup (map Request.req_id crowd))).
    vm_compute. exact I. }
  assert (Hids : ids_are_positions make_nodes).
  { intros i n Hi.
    do 6 (destruct i as [|i]; [inversion Hi; reflexivity|]). inversion Hi. }
  assert (Hfresh : Forall fresh_node make_nodes).
  { repeat constructor; simpl; lia. }
  split; [exact Hnd|]. split; [exact Hids|]. split; [exact Hfresh|].
  exact (proj1 (proj2 (seats_conserved crowd first_three Hnd
                         (AimdController.init 4 80 8) make_nodes 40 Hids Hfresh))).
Defined.

End SeatExamples.

(** ** The sweep's tick loop *)

Ltac sweep_fields :=
  cbn [SweepRun.nodes SweepRun.queue SweepRun.flights SweepRun.idx SweepRun.now
       SweepRun.accepted SweepRun.rejected SweepRun.accepted_tokens
       SweepRun.ttft SweepRun.e2e SweepRun.sec_gc SweepRun.sec_gc_counter
       SweepRun.young_heap SweepRun.policy SweepRun.draws
       SweepRun.set_nodes SweepRun.set_queue SweepRun.set_flights
       SweepRun.set_idx SweepRun.set_now SweepRun.set_accepted
       SweepRun.set_rejected SweepRun.set_accepted_tokens SweepRun.set_ttft
       SweepRun.set_e2e SweepRun.set_sec_gc SweepRun.set_sec_gc_counter
       SweepRun.set_young_heap SweepRun.set_policy SweepRun.set_draws].

Section SweepRunProperties.
Import LongRatioSweep SweepRun.
Variable reqs : list Req.t.
Variable sampler : nat -> list nat.
Variable pol0 : policy_t.
Hypothesis reqs_rids : NoDup (map Req.rid reqs).

(** *** Counting flights *)

Lemma flights_on_nonneg i l : 0 <= on_node i l.
Proof.
  induction l as [|f l IH]; simpl; [lia|].
  destruct (Nat.eqb _ _); lia.
Qed.

Lemma flights_on_app i l1 l2 : on_node i (l1 ++ l2) = on_node i l1 + on_node i l2.
Proof.
  induction l1 as [|f l1 IH]; simpl; [lia|]. rewrite IH. lia.
Qed.

Lemma flights_on_split (P : Flight.t -> bool) i l :
  on_node i l
  = on_node i (List.filter P l) + on_node i (List.filter (fun x => negb (P x)) l).
Proof.
  induction l as [|f l IH]; simpl; [lia|].
  destruct (P f); simpl; rewrite IH; lia.
Qed.

Lemma filter_split_length {A} (P : A -> bool) (l : list A) :
  length l
  = (length (List.filter P l) + length (List.filter (fun x => negb (P x)) l))%nat.
Proof.
  induction l as [|a l IH]; simpl; [reflexivity|].
  destruct (P a); simpl; rewrite IH; lia.
Qed.

Lemma sweep_at_alter_finish j ns i :
  inflight_at (alter Node.finish j ns) i
  = inflight_at ns i
    - (if Nat.eqb j i then (if 0 <? inflight_at ns j then 1 else 0) else 0).
Proof.
  unfold inflight_at. destruct (Nat.eqb j i) eqn:E.
  - apply Nat.eqb_eq in E. subst i.
    destruct (ns !! j) as [n|] eqn:Hj.
    + rewrite list_lookup_alter_eq, Hj. simpl.
      unfold Node.finish. destruct (0 <? Node.inflight n); simpl; lia.
    + rewrite list_lookup_alter_eq, Hj. simpl. lia.
  - apply Nat.eqb_neq in E. rewrite list_lookup_alter_ne by exact E. lia.
Qed.

Lemma sweep_total_alter_finish j ns :
  total_inflight (alter Node.finish j ns)
  = total_inflight ns - (if 0 <? inflight_at ns j then 1 else 0).
Proof.
  revert j. induction ns as [|n ns IH]; intros j; [reflexivity|].
  destruct j as [|j].
  - unfold inflight_at. cbn [alter list_alter lookup list_lookup total_inflight
      foldr from_option].
    unfold Node.finish.
    destruct (0 <? Node.inflight n); cbn [Node.inflight]; lia.
  - change (inflight_at (n :: ns) (S j)) with (inflight_at ns j).
    specialize (IH j).
    change (alter Node.finish (S j) (n :: ns))
      with (n :: alter Node.finish j ns).
    change (total_inflight (n :: alter Node.finish j ns))
      with (Node.inflight n + total_inflight (alter Node.finish j ns)).
    change (total_inflight (n :: ns)) with (Node.inflight n + total_inflight ns).
    rewrite IH. lia.
Qed.

Lemma sweep_at_insert j m ns i n :
  ns !! j = Some n ->
  inflight_at (<[j := m]> ns) i
  = if Nat.eqb j i then Node.inflight m else inflight_at ns i.
Proof.
  intros Hj. unfold inflight_at. destruct (Nat.eqb j i) eqn:E.
  - apply Nat.eqb_eq in E. subst i.
    rewrite list_lookup_insert_eq by (eapply lookup_lt_Some; exact Hj).
    reflexivity.
  - apply Nat.eqb_neq in E. rewrite list_lookup_insert_ne by exact E.
    reflexivity.
Qed.

Lemma sweep_no_seats ns :
  (forall i, inflight_at ns i = 0) -> total_inflight ns = 0.
Proof.
  induction ns as [|n ns IH]; intros H0; [reflexivity|].
  change (total_inflight (n :: ns)) with (Node.inflight n + total_inflight ns).
  rewrite IH.
  - pose proof (H0 0%nat) as Hn. unfold inflight_at in Hn. simpl in Hn. lia.
  - intros i. exact (H0 (S i)).
Qed.

Lemma sweep_seats_sum l :
  forall ns, (forall i, inflight_at ns i = on_node i l) ->
  total_inflight ns = Z.of_nat (length l).
Proof.
  induction l as [|f l IH]; intros ns Hns; [apply sweep_no_seats, Hns|].
  set (j := Flight.node f).
  assert (Hpos : 0 < inflight_at ns j).
  { rewrite Hns. simpl. fold j. rewrite Nat.eqb_refl.
    pose proof (flights_on_nonneg j l). lia. }
  apply Z.ltb_lt in Hpos.
  pose proof (sweep_total_alter_finish j ns) as Ht. rewrite Hpos in Ht.
  rewrite (IH (alter Node.finish j ns)) in Ht.
  - change (length (f :: l)) with (S (length l)). lia.
  - intros i. rewrite sweep_at_alter_finish, Hpos, Hns. simpl. fold j.
    destruct (Nat.eqb j i); lia.
Qed.

(** *** The pool's slots *)

Lemma acquire_slot_counts p :
  (acquire_slot p).2 = true ->
  active (acquire_slot p).1 = active p + 1 /\
  max_size (acquire_slot p).1 = max_size p.
Proof.
  unfold acquire_slot. destruct (idle p) as [|x rest].
  - destruct (allocated p <? max_size p); simpl; [split; reflexivity|discriminate].
  - simpl. split; reflexivity.
Qed.

Lemma release_slot_counts p :
  0 < active p ->
  active (release_slot p) = active p - 1 /\ max_size (release_slot p) = max_size p.
Proof.
  intros Hp. unfold release_slot. apply Z.ltb_lt in Hp. rewrite Hp.
  split; reflexivity.
Qed.

Lemma release_slot_size p : max_size (release_slot p) = max_size p.
Proof. unfold release_slot. destruct (0 <? active p); reflexivity. Qed.

Lemma acquire_slot_size p : max_size (acquire_slot p).1 = max_size p.
Proof.
  unfold acquire_slot. destruct (idle p); [destruct (_ <? _)|]; reflexivity.
Qed.

Lemma pool_grants p n :
  pool_inv p -> active p = n -> n < max_size p -> (acquire_slot p).2 = true.
Proof.
  intros (Hsum & Hact & Hlo & Hhi) Hn Hlt. apply acquire_slot_true.
  destruct (idle p) as [|x rest] eqn:Hidle; [right | left; discriminate].
  simpl in Hsum. lia.
Qed.

Lemma release_capacity pol : policy_capacity (release pol) = policy_capacity pol.
Proof. destruct pol as [cap|p]; [reflexivity|]. apply release_slot_size. Qed.

Lemma acquire_capacity pol :
  policy_capacity (acquire pol).1 = policy_capacity pol.
Proof. destruct pol as [cap|p]; [reflexivity|]. apply acquire_slot_size. Qed.

Lemma release_kind pol : is_pool (release pol) = is_pool pol.
Proof. destruct pol; reflexivity. Qed.

Lemma acquire_kind pol : is_pool (acquire pol).1 = is_pool pol.
Proof. destruct pol; reflexivity. Qed.

(** [k] releases on a pool with at least [k] active slots. *)
Lemma release_many k :
  forall pol n,
  match pol with
  | Traditional _ => True
  | PoolFirst p => pool_inv p /\ active p = Z.of_nat (k + n)
  end ->
  match Nat.iter k release pol with
  | Traditional _ => True
  | PoolFirst p => pool_inv p /\ active p = Z.of_nat n
  end /\
  policy_capacity (Nat.iter k release pol) = policy_capacity pol /\
  is_pool (Nat.iter k release pol) = is_pool pol.
Proof.
  induction k as [|k IH]; intros pol n Hp;
    [split; [exact Hp | split; reflexivity]|].
  simpl. destruct (IH pol (S n)) as (H1 & H2 & H3).
  { destruct pol as [cap|p]; [exact I|].
    replace (k + S n)%nat with (S k + n)%nat by lia. exact Hp. }
  rewrite release_capacity, release_kind, H2, H3.
  split; [|split; reflexivity].
  destruct (Nat.iter k release pol) as [cap|p]; [exact I|].
  destruct H1 as [Hinv Hact]. simpl.
  destruct (release_slot_counts p) as [Ha _]; [lia|].
  split; [apply release_slot_inv, Hinv | lia].
Qed.

(** *** Completions *)

Lemma finish_flights_count done :
  forall ns,
  (forall i, on_node i done <= inflight_at ns i) ->
  forall i, inflight_at (finish_flights ns done) i = inflight_at ns i - on_node i done.
Proof.
  induction done as [|c done IH]; intros ns Hle i; [simpl; lia|].
  change (finish_flights ns (c :: done))
    with (finish_flights (alter Node.finish (Flight.node c) ns) done).
  assert (Hpos : 0 < inflight_at ns (Flight.node c)).
  { specialize (Hle (Flight.node c)). simpl in Hle.
    rewrite Nat.eqb_refl in Hle.
    pose proof (flights_on_nonneg (Flight.node c) done). lia. }
  apply Z.ltb_lt in Hpos.
  rewrite IH.
  - rewrite sweep_at_alter_finish, Hpos. simpl.
    destruct (Nat.eqb _ _); lia.
  - intros j. rewrite sweep_at_alter_finish, Hpos.
    specialize (Hle j). simpl in Hle. destruct (Nat.eqb _ _); lia.
Qed.

Lemma complete_all_fields done :
  forall st,
  let st' := foldl complete_one st done in
  nodes st' = finish_flights (nodes st) done /\
  policy st' = Nat.iter (length done) release (policy st) /\
  length (ttft st') = (length (ttft st) + length done)%nat /\
  length (e2e st') = (length (e2e st) + length done)%nat /\
  queue st' = queue st /\ idx st' = idx st /\ accepted st' = accepted st /\
  rejected st' = rejected st /\ now st' = now st.
Proof.
  induction done as [|f done IH]; intros st.
  - simpl. repeat split; lia.
  - change (foldl complete_one st (f :: done))
      with (foldl complete_one (complete_one st f) done).
    cbv zeta. destruct (IH (complete_one st f))
      as (H1 & H2 & H3 & H4 & H5 & H6 & H7 & H8 & H9).
    rewrite H1, H2, H3, H4, H5, H6, H7, H8, H9.
    unfold complete_one; sweep_fields. rewrite !length_app. simpl.
    split; [reflexivity|]. split.
    { symmetry. apply (Nat.iter_succ_r (length done) release). }
    repeat split; lia.
Qed.

Lemma rid_same_flight (l : list Flight.t) x y :
  NoDup (map flight_rid l) -> x ∈ l -> y ∈ l -> flight_rid x = flight_rid y ->
  x = y.
Proof.
  induction l as [|a l IH]; intros Hnd Hx Hy Hg; [inversion Hx|].
  simpl in Hnd. apply NoDup_cons in Hnd as [Ha Hnd].
  apply elem_of_cons in Hx as [->|Hx]; apply elem_of_cons in Hy as [->|Hy].
  - reflexivity.
  - exfalso. apply Ha. rewrite Hg. apply list_elem_of_fmap. exists y. auto.
  - exfalso. apply Ha. rewrite <- Hg. apply list_elem_of_fmap. exists x. auto.
  - apply IH; assumption.
Qed.

Lemma filter_nothing {A} (P : A -> bool) (l : list A) :
  List.filter P l = [] -> List.filter (fun x => negb (P x)) l = l.
Proof.
  induction l as [|a l IH]; simpl; [reflexivity|].
  destruct (P a); [discriminate|]. simpl. intros Hf. rewrite IH by exact Hf.
  reflexivity.
Qed.

(** With distinct request ids the flights kept are those that have not
    finished. *)
Lemma sweep_complete_fields st :
  NoDup (map flight_rid (flights st)) ->
  let done := List.filter (fun f => Flight.finish f <=?. now st) (flights st) in
  nodes (complete st) = finish_flights (nodes st) done /\
  policy (complete st) = Nat.iter (length done) release (policy st) /\
  flights (complete st)
  = List.filter (fun f => negb (Flight.finish f <=?. now st)) (flights st) /\
  length (ttft (complete st)) = (length (ttft st) + length done)%nat /\
  length (e2e (complete st)) = (length (e2e st) + length done)%nat /\
  queue (complete st) = queue st /\ idx (complete st) = idx st /\
  accepted (complete st) = accepted st /\ rejected (complete st) = rejected st /\
  now (complete st) = now st.
Proof.
  intros Hnd done. unfold complete. fold done.
  destruct done as [|c l] eqn:Hd.
  - simpl. rewrite !Nat.add_0_r. repeat split.
    symmetry. apply filter_nothing. exact Hd.
  - rewrite <- Hd.
    destruct (complete_all_fields done st)
      as (H1 & H2 & H3 & H4 & H5 & H6 & H7 & H8 & H9).
    sweep_fields.
    split; [exact H1|]. split; [exact H2|]. split; [|repeat split; assumption].
    apply filter_ext_in. intros x Hx. f_equal.
    destruct (Flight.finish x <=?. now st) eqn:E.
    + apply bool_decide_eq_true. apply list_elem_of_fmap.
      exists x. split; [reflexivity|].
      apply list_elem_of_In. unfold done. apply filter_In. split; assumption.
    + apply bool_decide_eq_false. intros Hin.
      apply list_elem_of_fmap in Hin as (y & Hy & Hin).
      apply list_elem_of_In in Hin. unfold done in Hin.
      apply filter_In in Hin as [Hin Hfin].
      assert (x = y).
      { apply (rid_same_flight (flights st)); try assumption;
          apply list_elem_of_In; assumption. }
      subst y. congruence.
Qed.

Lemma filter_rids_nodup (P : Flight.t -> bool) (l : list Flight.t) :
  NoDup (map flight_rid l) -> NoDup (map flight_rid (List.filter P l)).
Proof.
  induction l as [|a l IH]; intros Hnd; simpl; [constructor|].
  simpl in Hnd. apply NoDup_cons in Hnd as [Ha Hnd].
  destruct (P a); [|apply IH, Hnd].
  simpl. apply NoDup_cons. split; [|apply IH, Hnd].
  intros Hin. apply Ha. apply list_elem_of_fmap in Hin as (y & Hy & Hin).
  apply list_elem_of_fmap. exists y. split; [exact Hy|].
  apply list_elem_of_In in Hin. apply filter_In in Hin as [Hin _].
  apply list_elem_of_In, Hin.
Qed.

Lemma filter_rids_subset (P : Flight.t -> bool) (l : list Flight.t) x :
  x ∈ map flight_rid (List.filter P l) -> x ∈ map flight_rid l.
Proof.
  intros Hin. apply list_elem_of_fmap in Hin as (y & Hy & Hin).
  apply list_elem_of_fmap. exists y. split; [exact Hy|].
  apply list_elem_of_In in Hin. apply filter_In in Hin as [Hin _].
  apply list_elem_of_In, Hin.
Qed.

Lemma complete_ok st : sweep_ok reqs pol0 st -> sweep_ok reqs pol0 (complete st).
Proof.
  intros (Hcount & Hnd & Hsub & Hslots & Hidx & Hacc & Hlen & Hrej & Hcap
          & Hkind & Hsame).
  assert (Hndf : NoDup (map flight_rid (flights st))).
  { unfold pending_rids in Hnd. apply NoDup_app in Hnd as (_ & _ & Hnd).
    exact Hnd. }
  destruct (sweep_complete_fields st Hndf)
    as (H1 & H2 & H3 & H4 & H5 & H6 & H7 & H8 & H9 & _).
  cbv zeta in H1, H2, H3, H4, H5.
  assert (Hs : forall i,
             on_node i (flights st)
             = on_node i (List.filter
                            (fun f => Flight.finish f <=?. now st) (flights st))
               + on_node i (List.filter
                              (fun f => negb (Flight.finish f <=?. now st))
                              (flights st))).
  { intros i.
    exact (flights_on_split (fun f => Flight.finish f <=?. now st) i (flights st)). }
  pose proof (filter_split_length
                (fun f => Flight.finish f <=?. now st) (flights st)) as Hl.
  cbv beta in Hl.
  destruct (release_many
              (length (List.filter
                         (fun f => Flight.finish f <=?. now st) (flights st)))
              (policy st)
              (length (List.filter
                         (fun f => negb (Flight.finish f <=?. now st))
                         (flights st)))) as (Hr & Hc & Hk).
  { unfold slots_match in Hslots.
    destruct (policy st) as [cap|p]; [exact I|].
    destruct Hslots as [Hinv Hact]. split; [exact Hinv|].
    rewrite Hact, Hl. reflexivity. }
  unfold sweep_ok, pending_rids, slots_match.
  rewrite H1, H2, H3, H6, H7, H8, H9, Hc, Hk.
  split; [|split; [|split; [|split; [|split; [|split; [|split; [|split;
    [|split; [|split]]]]]]]]].
  - intros i. rewrite finish_flights_count.
    + rewrite Hcount, (Hs i). lia.
    + intros j. rewrite Hcount, (Hs j).
      pose proof (flights_on_nonneg j
        (List.filter (fun f => negb (Flight.finish f <=?. now st)) (flights st))).
      lia.
  - unfold pending_rids in Hnd. apply NoDup_app in Hnd as (Hq & Hdis & _).
    apply NoDup_app. split; [exact Hq|]. split.
    + intros x Hx Hx'. apply (Hdis x Hx). eapply filter_rids_subset; exact Hx'.
    + apply filter_rids_nodup, Hndf.
  - intros x Hx. apply Hsub. unfold pending_rids.
    apply elem_of_app in Hx as [Hx|Hx]; apply elem_of_app; [left; exact Hx|].
    right. eapply filter_rids_subset; exact Hx.
  - exact Hr.
  - exact Hidx.
  - rewrite H5. lia.
  - rewrite H4, H5, Hlen. reflexivity.
  - exact Hrej.
  - lia.
  - exact Hkind.
  - exact Hsame.
Qed.

(** *** Arrivals and timeouts *)

Lemma fresh_rid (l : list Req.t) d r :
  NoDup (map Req.rid l) -> l !! d = Some r ->
  Req.rid r ∉ map Req.rid (take d l).
Proof.
  intros Hnd Hr Hin.
  apply list_elem_of_fmap in Hin as (x & Hx & Hin).
  apply list_elem_of_lookup in Hin as [i Hi].
  apply lookup_take_Some in Hi as [Hi Hlt].
  assert (Hi' : map Req.rid l !! i = Some (Req.rid x))
    by (rewrite list_lookup_fmap, Hi; reflexivity).
  assert (Hd' : map Req.rid l !! d = Some (Req.rid r))
    by (rewrite list_lookup_fmap, Hr; reflexivity).
  rewrite <- Hx in Hi'.
  pose proof (NoDup_lookup _ _ _ _ Hnd Hi' Hd'). lia.
Qed.

Lemma rids_take_grow (l : list Req.t) d x :
  x ∈ map Req.rid (take d l) -> x ∈ map Req.rid (take (S d) l).
Proof.
  intros Hin. apply list_elem_of_fmap in Hin as (y & Hy & Hin).
  apply list_elem_of_fmap. exists y. split; [exact Hy|].
  apply list_elem_of_lookup in Hin as [i Hi].
  apply lookup_take_Some in Hi as [Hi Hlt].
  apply list_elem_of_lookup. exists i. apply lookup_take_Some. split; [exact Hi|lia].
Qed.

Lemma arrive_loop_ok pending :
  forall st,
  pending = drop (idx st) reqs -> sweep_ok reqs pol0 st ->
  sweep_ok reqs pol0 (arrive_loop pending st).
Proof.
  induction pending as [|r rest IH]; intros st Hp Hst; simpl; [exact Hst|].
  destruct (_ <=?. _); [|exact Hst].
  symmetry in Hp. destruct (drop_head _ _ _ _ Hp) as [Hr Hrest].
  apply IH; [sweep_fields; exact Hrest|].
  destruct Hst as (Hcount & Hnd & Hsub & Hslots & Hidx & Hacc & Hlen & Hrej
                   & Hcap & Hkind & Hsame).
  pose proof (fresh_rid reqs (idx st) r reqs_rids Hr) as Hfresh.
  assert (Hperm : map Req.rid (queue st ++ [r]) ++ map flight_rid (flights st)
                  ≡ₚ Req.rid r :: pending_rids st).
  { unfold pending_rids. rewrite map_app. simpl.
    rewrite <- app_assoc. simpl.
    rewrite <- Permutation_middle. reflexivity. }
  unfold sweep_ok, pending_rids, slots_match; sweep_fields.
  split; [exact Hcount|]. split; [|split; [|split; [exact Hslots|split]]].
  - rewrite Hperm. apply NoDup_cons. split; [|exact Hnd].
    intros Hin. apply Hfresh, Hsub, Hin.
  - intros x Hx. rewrite Hperm in Hx. apply elem_of_cons in Hx as [->|Hx].
    + apply list_elem_of_fmap. exists r. split; [reflexivity|].
      apply list_elem_of_lookup. exists (idx st).
      apply lookup_take_Some. split; [exact Hr|lia].
    + apply rids_take_grow, Hsub, Hx.
  - rewrite length_app. simpl. lia.
  - repeat split; assumption.
Qed.

Lemma timeout_loop_ok q :
  forall st, q = queue st -> sweep_ok reqs pol0 st ->
  sweep_ok reqs pol0 (timeout_loop q st).
Proof.
  induction q as [|r q IH]; intros st Hq Hst; simpl; [exact Hst|].
  destruct (_ <?. _); [|exact Hst].
  apply IH; [reflexivity|].
  destruct Hst as (Hcount & Hnd & Hsub & Hslots & Hidx & Hacc & Hlen & Hrej
                   & Hcap & Hkind & Hsame).
  unfold pending_rids in Hnd, Hsub. rewrite <- Hq in Hnd, Hsub, Hidx.
  simpl in Hnd, Hsub, Hidx.
  unfold sweep_ok, pending_rids, slots_match; sweep_fields.
  split; [exact Hcount|]. split; [|split; [|split; [exact Hslots|split]]].
  - apply NoDup_cons in Hnd as [_ Hnd]. exact Hnd.
  - intros x Hx. apply Hsub. apply elem_of_cons. right. exact Hx.
  - lia.
  - repeat split; try assumption. lia.
Qed.

(** *** Admissions *)

Lemma try_start_seat n now0 tokens cap :
  Node.inflight (Node.try_start n now0 tokens cap).1
  = Node.inflight n + (if (Node.try_start n now0 tokens cap).2 then 1 else 0).
Proof.
  unfold Node.try_start. cbv zeta.
  assert (Hr : Node.inflight (Node.refill n now0) = Node.inflight n).
  { unfold Node.refill. destruct (_ <=?. 0); reflexivity. }
  destruct (Z.min _ _ <=? _); [simpl; lia|].
  destruct (_ || _); simpl; lia.
Qed.

Lemma try_nodes_flights now0 tokens cap sample :
  forall ns ns' res,
  try_nodes now0 tokens cap sample ns = (ns', res) ->
  forall i, inflight_at ns' i
            = inflight_at ns i
              + match res with
                | Some j => if Nat.eqb j i then 1 else 0
                | None => 0
                end.
Proof.
  induction sample as [|j rest IH]; intros ns ns' res Htry i; simpl in Htry.
  - injection Htry as <- <-. lia.
  - destruct (ns !! j) as [n|] eqn:Hj; [|eapply IH; eassumption].
    pose proof (try_start_seat n now0 tokens cap) as Hseat.
    destruct (Node.try_start n now0 tokens cap).2.
    + injection Htry as <- <-. rewrite (sweep_at_insert _ _ _ _ _ Hj).
      destruct (Nat.eqb j i) eqn:E; [|lia].
      apply Nat.eqb_eq in E. subst i. unfold inflight_at. rewrite Hj. simpl. lia.
    + rewrite (IH _ _ _ Htry i). rewrite (sweep_at_insert _ _ _ _ _ Hj).
      destruct (Nat.eqb j i) eqn:E; [|reflexivity].
      apply Nat.eqb_eq in E. subst i. unfold inflight_at. rewrite Hj. simpl. lia.
Qed.

Lemma remove_first_rids req queue :
  req ∈ queue ->
  exists rest,
    remove_first req queue = Some rest /\
    map Req.rid queue ≡ₚ Req.rid req :: map Req.rid rest /\
    length queue = S (length rest).
Proof.
  induction queue as [|x queue IH]; intros Hin; [inversion Hin|].
  simpl. destruct (Req.eqb x req) eqn:E.
  - exists queue. split; [reflexivity|]. split; [|reflexivity].
    assert (Hrid : Req.rid x = Req.rid req).
    { unfold Req.eqb in E. repeat (apply andb_true_iff in E as [E _]).
      apply Z.eqb_eq, E. }
    rewrite Hrid. reflexivity.
  - apply elem_of_cons in Hin as [-> | Hin].
    + rewrite req_eqb_refl in E. discriminate.
    + destruct (IH Hin) as (rest & -> & Hperm & Hlen). simpl.
      exists (x :: rest). split; [reflexivity|]. split; [|simpl; lia].
      simpl. rewrite Hperm. apply Permutation_swap.
Qed.

Lemma policy_select_member pol queue req :
  policy_select pol queue = Some req -> req ∈ queue.
Proof.
  destruct pol as [cap|p]; simpl.
  - unfold traditional_select_request. destruct queue as [|x queue]; simpl;
      [discriminate|]. intros [= <-]. apply elem_of_cons. auto.
  - unfold select_request.
    destruct (first_short queue) as [r|] eqn:Hf.
    + intros [= <-]. destruct (first_short_spec _ _ Hf) as (b & a & -> & _).
      apply elem_of_app. right. apply elem_of_cons. auto.
    + destruct queue as [|x queue]; simpl; [discriminate|].
      intros [= <-]. apply elem_of_cons. auto.
Qed.

Lemma acquire_slots pol n :
  (acquire pol).2 = true ->
  match pol with
  | Traditional _ => True
  | PoolFirst p => pool_inv p /\ active p = n
  end ->
  match (acquire pol).1 with
  | Traditional _ => True
  | PoolFirst p => pool_inv p /\ active p = n + 1
  end.
Proof.
  destruct pol as [cap|p]; simpl; [auto|].
  intros Hok [Hinv Hact]. split; [apply acquire_slot_inv, Hinv|].
  destruct (acquire_slot_counts p Hok) as [-> _]. lia.
Qed.

Lemma release_slots pol n :
  0 <= n ->
  match pol with
  | Traditional _ => True
  | PoolFirst p => pool_inv p /\ active p = n + 1
  end ->
  match release pol with
  | Traditional _ => True
  | PoolFirst p => pool_inv p /\ active p = n
  end.
Proof.
  destruct pol as [cap|p]; simpl; [auto|].
  intros Hn [Hinv Hact]. split; [apply release_slot_inv, Hinv|].
  destruct (release_slot_counts p) as [-> _]; lia.
Qed.

Lemma admit_loop_ok fuel :
  forall total st,
  total = Z.of_nat (length (flights st)) -> sweep_ok reqs pol0 st ->
  sweep_ok reqs pol0 (admit_loop sampler fuel total st).
Proof.
  induction fuel as [|fuel IH]; intros total st Ht Hst; [exact Hst|].
  cbn [admit_loop].
  destruct (policy_select (policy st) (queue st)) as [req|] eqn:Hsel; [|exact Hst].
  destruct (total <? policy_capacity (policy st)) eqn:Hlt; [|exact Hst].
  destruct (acquire (policy st)).2 eqn:Hacq; [|exact Hst].
  apply Z.ltb_lt in Hlt. sweep_fields.
  destruct (try_nodes _ _ _ _ _) as [ns res] eqn:Htry.
  pose proof (try_nodes_flights _ _ _ _ _ _ _ Htry) as Hseats.
  destruct Hst as (Hcount & Hnd & Hsub & Hslots & Hidx & Hacc & Hlen & Hrej
                   & Hcap & Hkind & Hsame).
  pose proof (acquire_slots (policy st) _ Hacq Hslots) as Hslots'.
  pose proof (acquire_capacity (policy st)) as Hc'.
  pose proof (acquire_kind (policy st)) as Hk'.
  destruct res as [i|].
  - destruct (remove_first_rids req (queue st)
                (policy_select_member _ _ _ Hsel)) as (rest & Hrem & Hperm & Hqlen).
    apply IH.
    + unfold admitted; sweep_fields. rewrite length_app. simpl. lia.
    + unfold sweep_ok, pending_rids, slots_match, admitted, queue_remove;
        sweep_fields.
      rewrite Hrem. cbn [default from_option id].
      assert (Hp : map Req.rid rest
                   ++ map flight_rid
                        (flights st
                         ++ [{| Flight.req := req; Flight.start := now st;
                                Flight.finish := now st +. Req.service req;
                                Flight.node := i |}])
                   ≡ₚ pending_rids st).
      { unfold pending_rids. rewrite Hperm, map_app. simpl.
        unfold flight_rid at 2. simpl.
        rewrite (Permutation_app_comm (map flight_rid (flights st)) [Req.rid req]).
        simpl. rewrite <- Permutation_middle. reflexivity. }
      split; [|split; [|split; [|split; [|split; [|split; [|split; [|split;
        [|split; [|split]]]]]]]]].
      * intros j. rewrite Hseats, Hcount, flights_on_app. simpl. lia.
      * rewrite Hp. exact Hnd.
      * intros x Hx. rewrite Hp in Hx. apply Hsub, Hx.
      * rewrite length_app. simpl.
        destruct (acquire (policy st)).1 as [cap|p]; [exact I|].
        destruct Hslots' as [Hinv Hact]. split; [exact Hinv|]. lia.
      * lia.
      * rewrite length_app. simpl. lia.
      * exact Hlen.
      * exact Hrej.
      * rewrite length_app, Hc'. simpl. lia.
      * rewrite Hk'. exact Hkind.
      * rewrite Hc'. exact Hsame.
  - unfold sweep_ok, pending_rids, slots_match; sweep_fields.
    rewrite release_capacity, release_kind, Hc', Hk'.
    split; [|split; [exact Hnd|split; [exact Hsub|split]]].
    + intros j. rewrite Hseats, Hcount. lia.
    + apply (release_slots _ (Z.of_nat (length (flights st)))); [lia|].
      exact Hslots'.
    + repeat split; assumption.
Qed.

(** *** One tick *)

Lemma sweep_tick_ok st :
  sweep_ok reqs pol0 st -> sweep_ok reqs pol0 (tick reqs sampler st).
Proof.
  intros Hst.
  assert (H1 : sweep_ok reqs pol0 (arrive reqs st))
    by (apply arrive_loop_ok; [reflexivity | exact Hst]).
  assert (H2 : sweep_ok reqs pol0 (complete (arrive reqs st)))
    by (apply complete_ok, H1).
  assert (H3 : sweep_ok reqs pol0 (expire (complete (arrive reqs st))))
    by (apply timeout_loop_ok; [reflexivity | exact H2]).
  assert (H4 : sweep_ok reqs pol0
                 (admission sampler (expire (complete (arrive reqs st))))).
  { apply admit_loop_ok; [|exact H3].
    apply sweep_seats_sum. apply H3. }
  unfold tick.
  set (st4 := admission sampler (expire (complete (arrive reqs st)))) in H4 |- *;
    cbv beta.
  unfold advance, gc_window.
  destruct (_ <?. _); exact H4.
Qed.

Lemma sweep_ticks_ok k st :
  sweep_ok reqs pol0 st -> sweep_ok reqs pol0 (ticks reqs sampler k st).
Proof.
  intros Hst. induction k as [|k IH]; [exact Hst|].
  change (ticks reqs sampler (S k) st)
    with (tick reqs sampler (ticks reqs sampler k st)).
  apply sweep_tick_ok, IH.
Qed.

Lemma sweep_init_ok ns :
  Forall (fun n => Node.inflight n = 0) ns ->
  match pol0 with
  | Traditional _ => True
  | PoolFirst p => pool_inv p /\ active p = 0
  end ->
  sweep_ok reqs pol0 (init_state ns pol0).
Proof.
  intros Hfresh Hpol.
  unfold sweep_ok, pending_rids, slots_match, init_state; sweep_fields.
  split; [|split; [constructor|split; [intros x Hx; inversion Hx|split]]].
  - intros i. simpl. unfold inflight_at.
    destruct (ns !! i) as [n|] eqn:Hi; [|reflexivity]. simpl.
    rewrite Forall_forall in Hfresh.
    apply (Hfresh n). eapply list_elem_of_lookup_2; exact Hi.
  - simpl. destruct pol0 as [cap|p]; [exact I|]. exact Hpol.
  - simpl. repeat split; lia.
Qed.

End SweepRunProperties.

Section SweepRunTheorems.
Import LongRatioSweep SweepRun.
Variable reqs : list Req.t.
Variable sampler : nat -> list nat.
Hypothesis reqs_rids : NoDup (map Req.rid reqs).

(** X24. The sweep's [run_sim] keeps its books, for either policy, on
    requests with distinct [rid]s and nodes that start empty: in every
    state the tick loop reaches, each node's [inflight] counter is the
    number of flights on it, so [sum(n.inflight for n in nodes)] is
    [len(flights)], and it never exceeds the policy's capacity; every
    request that has arrived is queued, accepted or rejected
    ([idx = len(queue) + accepted + rejected]); every accepted request is
    in flight or has completed ([accepted = len(flights) + len(e2e)], and
    [ttft] has as many samples as [e2e]); and the queued and in-flight
    requests are distinct. *)
Theorem sweep_run_accounts (pol : policy_t) (ns : list Node.t) (k : nat) :
  Forall (fun n => Node.inflight n = 0) ns ->
  match pol with
  | Traditional _ => True
  | PoolFirst p => pool_inv p /\ active p = 0
  end ->
  let st := ticks reqs sampler k (init_state ns pol) in
  (forall i, inflight_at (nodes st) i = on_node i (flights st)) /\
  total_inflight (nodes st) = Z.of_nat (length (flights st)) /\
  total_inflight (nodes st) <= Z.max 0 (policy_capacity pol) /\
  Z.of_nat (idx st) = Z.of_nat (length (queue st)) + accepted st + rejected st /\
  accepted st = Z.of_nat (length (flights st)) + Z.of_nat (length (e2e st)) /\
  length (ttft st) = length (e2e st) /\
  NoDup (pending_rids st).
Proof.
  intros Hfresh Hpol st.
  assert (Hst : sweep_ok reqs pol st).
  { apply sweep_ticks_ok; [exact reqs_rids|].
    apply sweep_init_ok; assumption. }
  destruct Hst as (Hcount & Hnd & _ & _ & Hidx & Hacc & Hlen & _ & Hcap & _ & Hsame).
  pose proof (sweep_seats_sum _ _ Hcount) as Hsum.
  split; [exact Hcount|]. split; [exact Hsum|]. split; [rewrite Hsum; lia|].
  repeat split; assumption.
Qed.

(** X25. With the pool policy the slot count follows the flights, and
    the pool never refuses a slot.  From [PoolFirstPolicy(core, max_size)]
    with [0 <= core <= max_size], on requests with distinct [rid]s and
    nodes that start empty: in the state [s] reached after any number [k]
    of ticks, the completion and timeout phases of the next tick and any
    number [j] of iterations of its admission loop, the pool invariant
    holds, [policy.active] equals [len(flights)] and the sum of the nodes'
    counters; hence, when the loop condition [total_inflight < capacity]
    holds, [acquire_slot] returns [True]: the [break] taken when no slot
    is available is never reached. *)
Theorem sweep_pool_grants (core0 max0 : Z) (ns : list Node.t) (k j : nat) :
  0 <= core0 <= max0 ->
  Forall (fun n => Node.inflight n = 0) ns ->
  let st := ticks reqs sampler k
              (init_state ns (PoolFirst (PoolFirstPolicy_init core0 max0))) in
  let pre := expire (complete (arrive reqs st)) in
  let s := admit_loop sampler j (total_inflight (nodes pre)) pre in
  exists p,
    policy s = PoolFirst p /\
    pool_inv p /\ capacity p = max0 /\
    active p = Z.of_nat (length (flights s)) /\
    total_inflight (nodes s) = active p /\
    (total_inflight (nodes s) < capacity p -> (acquire_slot p).2 = true).
Proof.
  intros Hcm Hfresh st pre s.
  set (pol := PoolFirst (PoolFirstPolicy_init core0 max0)) in st.
  assert (Hst : sweep_ok reqs pol st).
  { apply sweep_ticks_ok; [exact reqs_rids|].
    apply sweep_init_ok; [exact Hfresh|].
    split; [apply PoolFirstPolicy_init_inv, Hcm | reflexivity]. }
  assert (Hpre : sweep_ok reqs pol pre).
  { apply timeout_loop_ok; [reflexivity|].
    apply complete_ok.
    apply arrive_loop_ok; [exact reqs_rids | reflexivity | exact Hst]. }
  assert (Hs : sweep_ok reqs pol s).
  { apply admit_loop_ok; [|exact Hpre].
    apply sweep_seats_sum, Hpre. }
  destruct Hs as (Hcount & _ & _ & Hslots & _ & _ & _ & _ & _ & Hkind & Hsame).
  pose proof (sweep_seats_sum _ _ Hcount) as Hsum.
  unfold slots_match in Hslots.
  destruct (policy s) as [cap|p] eqn:Hp; [discriminate Hkind|].
  destruct Hslots as [Hinv Hact].
  exists p. split; [reflexivity|]. split; [exact Hinv|].
  split; [exact Hsame|]. split; [exact Hact|]. split; [lia|].
  intros Hlt. apply (pool_grants p (active p) Hinv eq_refl).
  unfold capacity in Hlt. lia.
Qed.

End SweepRunTheorems.

Section SweepRunExamples.
Import LongRatioSweep SweepRun Protocol.

Lemma sweep_pair_rids : NoDup (map Req.rid [sweep_req 0 true; sweep_req 1 false]).
Proof.
  apply (bool_decide_unpack
           (NoDup (map Req.rid [sweep_req 0 true; sweep_req 1 false]))).
  vm_compute. exact I.
Qed.

Lemma build_nodes_empty : Forall (fun n => Node.inflight n = 0) build_nodes.
Proof. repeat constructor. Qed.

Lemma sweep_run_accounts_witness :
  total_inflight
    (nodes (ticks [sweep_req 0 true; sweep_req 1 false] first_four 30
              (init_state build_nodes (Traditional 95))))
  <= Z.max 0 95.
Proof.
  exact (proj1 (proj2 (proj2
           (sweep_run_accounts [sweep_req 0 true; sweep_req 1 false]
              first_four sweep_pair_rids (Traditional 95) build_nodes 30
              build_nodes_empty I)))).
Defined.

Lemma sweep_pool_grants_witness :
  exists p,
    policy (admit_loop first_four 1
              (total_inflight
                 (nodes (expire (complete
                    (arrive [sweep_req 0 true; sweep_req 1 false]
                       (ticks [sweep_req 0 true; sweep_req 1 false]
                          first_four 30
                          (init_state build_nodes
                             (PoolFirst (PoolFirstPolicy_init 48 95)))))))))
              (expire (complete
                 (arrive [sweep_req 0 true; sweep_req 1 false]
                    (ticks [sweep_req 0 true; sweep_req 1 false]
                       first_four 30
                       (init_state build_nodes
                          (PoolFirst (PoolFirstPolicy_init 48 95))))))))
    = PoolFirst p /\ pool_inv p.
Proof.
  destruct (sweep_pool_grants [sweep_req 0 true; sweep_req 1 false]
              first_four sweep_pair_rids 48 95 build_nodes 30 1)
    as (p & Hp & Hinv & _).
  - lia.
  - exact build_nodes_empty.
  - exists p. split; assumption.
Defined.

End SweepRunExamples.

(** *** The loop ends *)

Section SweepRunEnds.
Import LongRatioSweep SweepRun.
Variable reqs : list Req.t.
Variable sampler : nat -> list nat.

Lemma sweep_arrive_now pending :
  forall st, now (arrive_loop pending st) = now st.
Proof.
  induction pending as [|r rest IH]; intros st; simpl; [reflexivity|].
  destruct (_ <=?. _); [|reflexivity]. rewrite IH. reflexivity.
Qed.

Lemma sweep_complete_now st : now (complete st) = now st.
Proof.
  unfold complete. destruct (List.filter _ _) as [|c l]; [reflexivity|].
  sweep_fields. apply (complete_all_fields (c :: l) st).
Qed.

Lemma sweep_timeout_now q : forall st, now (timeout_loop q st) = now st.
Proof.
  induction q as [|r q IH]; intros st; simpl; [reflexivity|].
  destruct (_ <?. _); [|reflexivity]. rewrite IH. reflexivity.
Qed.

Lemma sweep_admit_now fuel :
  forall total st, now (admit_loop sampler fuel total st) = now st.
Proof.
  induction fuel as [|fuel IH]; intros total st; [reflexivity|].
  cbn [admit_loop].
  destruct (policy_select _ _); [|reflexivity].
  destruct (_ <? _); [|reflexivity].
  destruct (acquire _).2; [|reflexivity].
  sweep_fields. destruct (try_nodes _ _ _ _ _) as [ns [i|]]; [|reflexivity].
  rewrite IH. reflexivity.
Qed.

Lemma sweep_tick_now st : now (tick reqs sampler st) = now st +. dt.
Proof.
  unfold tick, advance. sweep_fields. f_equal.
  assert (Hgc : forall s, now (gc_window s) = now s)
    by (intros s; unfold gc_window; destruct (_ <?. _); reflexivity).
  rewrite Hgc. unfold admission. rewrite sweep_admit_now.
  unfold expire. rewrite sweep_timeout_now, sweep_complete_now.
  unfold arrive. apply sweep_arrive_now.
Qed.

Lemma sweep_loop_finishes end_time0 fuel :
  forall st,
  (end_time0 < now st + inject_Z (Z.of_nat fuel) * dt)%Q ->
  exists k, (k <= fuel)%nat /\
    run_loop reqs sampler fuel end_time0 st = Some (ticks reqs sampler k st) /\
    (end_time0 < now (ticks reqs sampler k st))%Q /\
    forall j, (j < k)%nat -> (now (ticks reqs sampler j st) <= end_time0)%Q.
Proof.
  induction fuel as [|fuel IH]; intros st Hfuel.
  - exists 0%nat. simpl. change (inject_Z (Z.of_nat 0)) with 0%Q in Hfuel.
    assert (Hlt : (end_time0 < now st)%Q) by lra.
    apply fle_false in Hlt. rewrite Hlt.
    split; [lia|]. split; [reflexivity|]. split; [apply fle_false, Hlt|].
    intros j Hj. lia.
  - cbn [run_loop]. destruct (now st <=?. end_time0) eqn:Hle.
    + destruct (IH (tick reqs sampler st)) as (k & Hk & Hrun & Hend & Hbefore).
      * rewrite sweep_tick_now, fadd_eq.
        rewrite Nat2Z.inj_succ in Hfuel. unfold Z.succ in Hfuel.
        rewrite inject_Z_plus in Hfuel. change (inject_Z 1) with 1%Q in Hfuel.
        unfold dt in Hfuel |- *; lra.
      * assert (Hshift : forall m,
                  ticks reqs sampler m (tick reqs sampler st)
                  = ticks reqs sampler (S m) st)
          by (intros m; unfold ticks; symmetry; apply Nat.iter_succ_r).
        exists (S k). rewrite <- Hshift.
        split; [lia|]. split; [exact Hrun|]. split; [exact Hend|].
        intros [|j] Hj; [apply fle_true, Hle|].
        rewrite <- Hshift. apply Hbefore. lia.
    + exists 0%nat. split; [lia|]. split; [reflexivity|].
      split; [apply fle_false, Hle|]. intros j Hj. lia.
Qed.

End SweepRunEnds.

(** X26. [run_sim] of the long-ratio sweep raises on an empty request
    sequence ([max()] of an empty sequence) before its first tick, and on
    every non-empty sequence, sorted or not, runs its loop to the end:
    the final state is the state after some number [k] of ticks, the
    first at which [now] exceeds [end = max(arrival) + 20]. *)
Theorem sweep_run_outcome (sampler : nat -> list nat)
    (pol : SweepRun.policy_t) :
  SweepRun.run_sim [] sampler pol = SweepRun.Raised "ValueError" /\
  forall r rest,
    let reqs := r :: rest in
    let after k :=
      SweepRun.ticks reqs sampler k
        (SweepRun.init_state SweepRun.build_nodes pol) in
    exists k,
      SweepRun.run_sim reqs sampler pol = SweepRun.Finished (after k) /\
      (SweepRun.end_time r rest < SweepRun.now (after k))%Q /\
      forall j, (j < k)%nat ->
        (SweepRun.now (after j) <= SweepRun.end_time r rest)%Q.
Proof.
  split; [reflexivity|]. intros r rest reqs after.
  destruct (sweep_loop_finishes reqs sampler (SweepRun.end_time r rest)
              (AbTestSimulator.Run.tick_budget (SweepRun.end_time r rest))
              (SweepRun.init_state SweepRun.build_nodes pol)
              (tick_budget_enough (SweepRun.end_time r rest)))
    as (k & _ & Hrun & Hend & Hbefore).
  exists k. subst reqs after. cbv beta zeta in Hrun, Hend, Hbefore; cbv beta zeta.
  unfold SweepRun.run_sim. rewrite Hrun.
  repeat split; assumption.
Qed.

Lemma sweep_run_outcome_witness :
  exists k,
    SweepRun.run_sim [Protocol.sweep_req 0 true] SweepRun.first_four
      (SweepRun.Traditional 95)
    = SweepRun.Finished
        (SweepRun.ticks [Protocol.sweep_req 0 true] SweepRun.first_four k
           (SweepRun.init_state SweepRun.build_nodes (SweepRun.Traditional 95))).
Proof.
  destruct (proj2 (sweep_run_outcome SweepRun.first_four (SweepRun.Traditional 95))
              (Protocol.sweep_req 0 true) []) as (k & Hk & _).
  exists k. exact Hk.
Defined.
